(** * libcpdlc: the message-list engine and the routing daemon

    A shallow embedding of [src/cpdlc_msglist.c] (the client-side thread
    engine) and of the routing core of [cpdlcd/cpdlcd.c] (logon, callsign
    index, forwarding, message queue), with the properties the
    specification states about them; and of the comparators and trees
    of the daemon, of its input loop and of the timed wait of
    [src/cpdlc_thread.h], with further properties of the code.

    Conventions of the embedding:
    - C [unsigned] values are [Z] with the wrap-around at [2^32] written
      out where the code increments them; [uint64_t] likewise at [2^64].
    - A [list_t] is a Rocq list whose first element is [list_head];
      [list_insert_head] is [cons], [list_insert_tail] appends.
    - A pointer into a [list_t] is the position of the node, counted from
      the head.
    - [ASSERT]/[VERIFY] failures and NULL dereferences end the run; the
      functions that can hit one return a [result]. *)

From Stdlib Require Import ZArith List String Ascii Bool Lia.
From stdpp Require Import base option list strings gmap.

Local Open Scope Z_scope.

(** ** Outcomes of a run *)

Inductive failure :=
| AssertFailed   (* ASSERT(...) or VERIFY(...) did not hold *)
| NullBucket     (* a NULL msg_bucket_t pointer was dereferenced *)
| BadPointer.    (* a pointer that is not a node of its list was followed *)

Inductive result (A : Type) :=
| Ok (a : A)
| Abort (f : failure).

Arguments Ok {A} a.
Arguments Abort {A} f.

Definition rbind {A B : Type} (r : result A) (k : A -> result B) : result B :=
  match r with
  | Ok a => k a
  | Abort f => Abort f
  end.

Notation "'do' x <- r ; k" := (rbind r (fun x => k))
  (at level 10, x pattern, r at level 100, k at level 200,
   format "'[v' 'do'  x  <-  r ; '/' k ']'").

Definition ASSERT (b : bool) : result unit :=
  if b then Ok tt else Abort AssertFailed.

Definition UINT32_MAX : Z := 4294967295.

(** [x++] on an [unsigned]. *)
Definition u32_incr (x : Z) : Z := (x + 1) mod 2 ^ 32.

(** ** Messages ([cpdlc_msg_t]) *)

Module Cpdlc.

(** Modelled from the spec: the response classes of the catalog
    ([cpdlc.h] is not under src/): NONE, Y, WU, AN, NE. *)
Inductive cpdlc_resp_type :=
| CPDLC_RESP_NONE
| CPDLC_RESP_Y
| CPDLC_RESP_WU
| CPDLC_RESP_AN
| CPDLC_RESP_NE.

Definition cpdlc_resp_type_eqb (a b : cpdlc_resp_type) : bool :=
  match a, b with
  | CPDLC_RESP_NONE, CPDLC_RESP_NONE
  | CPDLC_RESP_Y, CPDLC_RESP_Y
  | CPDLC_RESP_WU, CPDLC_RESP_WU
  | CPDLC_RESP_AN, CPDLC_RESP_AN
  | CPDLC_RESP_NE, CPDLC_RESP_NE => true
  | _, _ => false
  end.

(** A catalog entry, [cpdlc_msg_info_t], with the fields the code reads. *)
Record cpdlc_msg_info := {
  is_dl : bool;
  msg_type : Z;
  resp : cpdlc_resp_type;
  timeout : Z;
}.

(** Modelled from the spec: the message type codes of [cpdlc.h] (not
    under src/) are the numbers in their names, DMn = n and UMn = n. *)
Definition CPDLC_UM0_UNABLE : Z := 0.
Definition CPDLC_UM1_STANDBY : Z := 1.
Definition CPDLC_UM3_ROGER : Z := 3.
Definition CPDLC_UM4_AFFIRM : Z := 4.
Definition CPDLC_UM5_NEGATIVE : Z := 5.
Definition CPDLC_UM159_ERROR_description : Z := 159.
Definition CPDLC_UM160_NEXT_DATA_AUTHORITY_id : Z := 160.
Definition CPDLC_UM161_END_SVC : Z := 161.
Definition CPDLC_UM168_DISREGARD : Z := 168.
Definition CPDLC_DM0_WILCO : Z := 0.
Definition CPDLC_DM1_UNABLE : Z := 1.
Definition CPDLC_DM2_STANDBY : Z := 2.
Definition CPDLC_DM3_ROGER : Z := 3.
Definition CPDLC_DM4_AFFIRM : Z := 4.
Definition CPDLC_DM5_NEGATIVE : Z := 5.
Definition CPDLC_DM6_REQ_alt : Z := 6.
Definition CPDLC_DM27_REQ_WX_DEVIATION_UP_TO_dir_dist_OF_ROUTE : Z := 27.
Definition CPDLC_DM49_WHEN_CAN_WE_EXPCT_spd : Z := 49.
Definition CPDLC_DM54_WHEN_CAN_WE_EXPECT_CRZ_CLB_TO_alt : Z := 54.
Definition CPDLC_DM62_ERROR_errorinfo : Z := 62.
Definition CPDLC_DM70_REQ_HDG_deg : Z := 70.
Definition CPDLC_DM71_REQ_GND_TRK_deg : Z := 71.

(** What the headers and the catalog table, which are not under src/,
    declare: the two sentinels and the response class and timeout the
    catalog gives a message type of a direction. *)
Class Catalog := {
  CPDLC_INVALID_MSG_SEQ_NR : Z;
  CPDLC_NO_MSG_THR_ID : Z;
  cpdlc_infos : bool -> Z -> cpdlc_resp_type * Z;
}.

(** A segment: its catalog entry and its argument vector. *)
Record cpdlc_msg_seg := {
  seg_info : cpdlc_msg_info;
  seg_args : list string;
}.

Record cpdlc_msg := {
  msg_min : Z;
  msg_mrn : Z;
  msg_from : string;
  msg_to : string;
  msg_is_logon : bool;
  msg_segs : list cpdlc_msg_seg;
}.

Definition cpdlc_msg_get_min (m : cpdlc_msg) : Z := msg_min m.
Definition cpdlc_msg_get_mrn (m : cpdlc_msg) : Z := msg_mrn m.
Definition cpdlc_msg_get_from (m : cpdlc_msg) : string := msg_from m.
Definition cpdlc_msg_get_to (m : cpdlc_msg) : string := msg_to m.
Definition cpdlc_msg_get_num_segs (m : cpdlc_msg) : nat := length (msg_segs m).

Definition cpdlc_msg_set_min (m : cpdlc_msg) (v : Z) : cpdlc_msg :=
  {| msg_min := v; msg_mrn := msg_mrn m; msg_from := msg_from m;
     msg_to := msg_to m; msg_is_logon := msg_is_logon m;
     msg_segs := msg_segs m |}.

Definition cpdlc_msg_set_mrn (m : cpdlc_msg) (v : Z) : cpdlc_msg :=
  {| msg_min := msg_min m; msg_mrn := v; msg_from := msg_from m;
     msg_to := msg_to m; msg_is_logon := msg_is_logon m;
     msg_segs := msg_segs m |}.

Definition cpdlc_msg_set_from (m : cpdlc_msg) (v : string) : cpdlc_msg :=
  {| msg_min := msg_min m; msg_mrn := msg_mrn m; msg_from := v;
     msg_to := msg_to m; msg_is_logon := msg_is_logon m;
     msg_segs := msg_segs m |}.

Definition set_segs (m : cpdlc_msg) (l : list cpdlc_msg_seg) : cpdlc_msg :=
  {| msg_min := msg_min m; msg_mrn := msg_mrn m; msg_from := msg_from m;
     msg_to := msg_to m; msg_is_logon := msg_is_logon m;
     msg_segs := l |}.

(** Modelled from the spec: the direction flag of a message
    ([cpdlc_msg.c] is not under src/). All segments of a message share
    one direction, so the flag is read off the first segment, as the
    predicates of [cpdlc_msglist.c] do; a message without segments reads
    as an uplink. *)
Definition cpdlc_msg_get_dl (m : cpdlc_msg) : bool :=
  match msg_segs m with
  | s :: _ => is_dl (seg_info s)
  | [] => false
  end.

(** Modelled from the spec: [cpdlc_msg_add_seg] appends a segment whose
    entry is the catalog's for the direction and type. *)
Definition cpdlc_msg_add_seg `{Catalog} (m : cpdlc_msg) (dl : bool) (ty : Z)
    : cpdlc_msg :=
  let e := cpdlc_infos dl ty in
  set_segs m (msg_segs m ++
    [{| seg_info := {| is_dl := dl; msg_type := ty;
                       resp := fst e; timeout := snd e |};
        seg_args := [] |}]).

(** Writes argument [arg_nr], extending the vector with empty arguments
    up to it. *)
Fixpoint set_arg (args : list string) (arg_nr : nat) (v : string)
    : list string :=
  match arg_nr, args with
  | O, [] => [v]
  | O, _ :: rest => v :: rest
  | S n, [] => EmptyString :: set_arg [] n v
  | S n, a :: rest => a :: set_arg rest n v
  end.

(** Modelled from the spec: [cpdlc_msg_seg_set_arg] stores an argument
    of a segment that exists. *)
Definition cpdlc_msg_seg_set_arg (m : cpdlc_msg) (seg_nr arg_nr : nat)
    (v : string) : cpdlc_msg :=
  set_segs m (alter (fun s => {| seg_info := seg_info s;
                                 seg_args := set_arg (seg_args s) arg_nr v |})
                    seg_nr (msg_segs m)).

End Cpdlc.


(** ** The message-list engine ([cpdlc_msglist.c]) *)

Module Msglist.
Import Cpdlc.

Inductive cpdlc_msg_thr_status :=
| CPDLC_MSG_THR_OPEN
| CPDLC_MSG_THR_CLOSED
| CPDLC_MSG_THR_ACCEPTED
| CPDLC_MSG_THR_REJECTED
| CPDLC_MSG_THR_TIMEDOUT
| CPDLC_MSG_THR_STANDBY
| CPDLC_MSG_THR_PENDING
| CPDLC_MSG_THR_DISREGARD
| CPDLC_MSG_THR_FAILED
| CPDLC_MSG_THR_ERROR
| CPDLC_MSG_THR_CONN_ENDED.

#[global] Instance cpdlc_msg_thr_status_eq_dec : EqDecision cpdlc_msg_thr_status.
Proof. solve_decision. Defined.

Inductive cpdlc_msg_status :=
| CPDLC_MSG_STATUS_SENDING
| CPDLC_MSG_STATUS_SENT
| CPDLC_MSG_STATUS_SEND_FAILED
| CPDLC_MSG_STATUS_INVALID_TOKEN.

Inductive cpdlc_logon_status :=
| CPDLC_LOGON_NONE
| CPDLC_LOGON_LINKING
| CPDLC_LOGON_IN_PROG
| CPDLC_LOGON_COMPLETE.

#[global] Instance cpdlc_logon_status_eq_dec : EqDecision cpdlc_logon_status.
Proof. solve_decision. Defined.

(** The client transport the engine sits on ([cpdlc_client.h] is not
    under src/): sending returns a token, the status of a token and the
    logon status can be asked for. *)
Class ClientTransport (client : Type) := {
  CPDLC_INVALID_MSG_TOKEN : Z;
  cpdlc_client_send_msg : client -> cpdlc_msg -> client * Z;
  cpdlc_client_get_msg_status : client -> Z -> cpdlc_msg_status;
  cpdlc_client_get_logon_status : client -> cpdlc_logon_status;
}.

(** What one call into the engine reads from the outside: [time(NULL)]
    and the hours and minutes of the configured [get_time_func]. *)
Record clock := {
  time_now : Z;
  clk_hours : Z;
  clk_mins : Z;
}.

Record msg_bucket := {
  b_msg : cpdlc_msg;
  b_tok : Z;
  b_sent : bool;
  b_hours : Z;
  b_mins : Z;
  b_time : Z;
}.

Record msg_thr := {
  thr_id : Z;
  thr_status : cpdlc_msg_thr_status;
  thr_buckets : list msg_bucket;
  thr_dirty : bool;
}.

Record cpdlc_msglist (client : Type) := {
  ml_cl : client;
  ml_thr : list msg_thr;
  ml_min : Z;
  ml_mrn : Z;
  ml_next_thr_id : Z;
  ml_update_cb : bool;   (* whether an update callback is registered *)
}.

Arguments ml_cl {client} _.
Arguments ml_thr {client} _.
Arguments ml_min {client} _.
Arguments ml_mrn {client} _.
Arguments ml_next_thr_id {client} _.
Arguments ml_update_cb {client} _.

(** *** Field updates *)

Definition thr_set_status (st : cpdlc_msg_thr_status) (t : msg_thr) : msg_thr :=
  {| thr_id := thr_id t; thr_status := st; thr_buckets := thr_buckets t;
     thr_dirty := thr_dirty t |}.

Definition thr_set_dirty (d : bool) (t : msg_thr) : msg_thr :=
  {| thr_id := thr_id t; thr_status := thr_status t;
     thr_buckets := thr_buckets t; thr_dirty := d |}.

(** [list_insert_tail(&thr->buckets, bucket)] *)
Definition thr_insert_tail (b : msg_bucket) (t : msg_thr) : msg_thr :=
  {| thr_id := thr_id t; thr_status := thr_status t;
     thr_buckets := thr_buckets t ++ [b]; thr_dirty := thr_dirty t |}.

Section Engine.
Context {client : Type} `{ClientTransport client} `{Catalog}.

Definition ml_set_thr (ml : cpdlc_msglist client) (l : list msg_thr)
    : cpdlc_msglist client :=
  {| ml_cl := ml_cl ml; ml_thr := l; ml_min := ml_min ml; ml_mrn := ml_mrn ml;
     ml_next_thr_id := ml_next_thr_id ml; ml_update_cb := ml_update_cb ml |}.

(** Applies [f] to the thread a pointer designates. *)
Definition ml_upd_thr (ml : cpdlc_msglist client) (i : nat)
    (f : msg_thr -> msg_thr) : cpdlc_msglist client :=
  ml_set_thr ml (alter f i (ml_thr ml)).

(** Reads the thread a pointer designates. *)
Definition thr_at (ml : cpdlc_msglist client) (i : nat) : result msg_thr :=
  match ml_thr ml !! i with
  | Some t => Ok t
  | None => Abort BadPointer
  end.

(** *** Predicates on messages *)

(** [ASSERT(msg->segs[0].info != NULL)], then the entry. *)
Definition seg0_info (msg : cpdlc_msg) : result cpdlc_msg_info :=
  match msg_segs msg with
  | s :: _ => Ok (seg_info s)
  | [] => Abort AssertFailed
  end.

Definition msg_is_dl_req (msg : cpdlc_msg) : result bool :=
  do info <- seg0_info msg;
  let msg_type := msg_type info in
  Ok (((CPDLC_DM6_REQ_alt <=? msg_type) &&
       (msg_type <=? CPDLC_DM27_REQ_WX_DEVIATION_UP_TO_dir_dist_OF_ROUTE)) ||
      ((CPDLC_DM49_WHEN_CAN_WE_EXPCT_spd <=? msg_type) &&
       (msg_type <=? CPDLC_DM54_WHEN_CAN_WE_EXPECT_CRZ_CLB_TO_alt)) ||
      (msg_type =? CPDLC_DM70_REQ_HDG_deg) ||
      (msg_type =? CPDLC_DM71_REQ_GND_TRK_deg)).

Definition msg_dl_req_resp (msg : cpdlc_msg) : result bool :=
  do info <- seg0_info msg;
  do _ <- ASSERT (is_dl info);
  Ok (cpdlc_resp_type_eqb (resp info) CPDLC_RESP_Y).

Definition msg_is_ul_req (msg : cpdlc_msg) : result bool :=
  do info <- seg0_info msg;
  Ok (cpdlc_resp_type_eqb (resp info) CPDLC_RESP_WU ||
      cpdlc_resp_type_eqb (resp info) CPDLC_RESP_AN ||
      cpdlc_resp_type_eqb (resp info) CPDLC_RESP_NE).

Definition msg_is_stby (msg : cpdlc_msg) : result bool :=
  do info <- seg0_info msg;
  Ok ((is_dl info && (msg_type info =? CPDLC_DM2_STANDBY)) ||
      (negb (is_dl info) && (msg_type info =? CPDLC_UM1_STANDBY))).

Definition msg_is_accept (msg : cpdlc_msg) : result bool :=
  do info <- seg0_info msg;
  let msg_type := msg_type info in
  Ok ((is_dl info &&
       ((msg_type =? CPDLC_DM0_WILCO) || (msg_type =? CPDLC_DM4_AFFIRM))) ||
      (negb (is_dl info) && (msg_type =? CPDLC_UM4_AFFIRM))).

Definition msg_is_reject (msg : cpdlc_msg) : result bool :=
  do info <- seg0_info msg;
  let msg_type := msg_type info in
  Ok ((is_dl info &&
       ((msg_type =? CPDLC_DM1_UNABLE) || (msg_type =? CPDLC_DM5_NEGATIVE) ||
        (msg_type =? CPDLC_DM62_ERROR_errorinfo))) ||
      (negb (is_dl info) &&
       ((msg_type =? CPDLC_UM0_UNABLE) || (msg_type =? CPDLC_UM5_NEGATIVE) ||
        (msg_type =? CPDLC_UM159_ERROR_description)))).

Definition is_error_msg (msg : cpdlc_msg) : result bool :=
  do info <- seg0_info msg;
  Ok ((is_dl info && (msg_type info =? CPDLC_DM62_ERROR_errorinfo)) ||
      (negb (is_dl info) && (msg_type info =? CPDLC_UM159_ERROR_description))).

Definition msg_is_rgr (msg : cpdlc_msg) : result bool :=
  do info <- seg0_info msg;
  Ok ((is_dl info && (msg_type info =? CPDLC_DM3_ROGER)) ||
      (negb (is_dl info) && (msg_type info =? CPDLC_UM3_ROGER))).

Definition msg_is_link_mgmt (msg : cpdlc_msg) : result bool :=
  do info <- seg0_info msg;
  Ok (negb (is_dl info) &&
      ((msg_type info =? CPDLC_UM161_END_SVC) ||
       (msg_type info =? CPDLC_UM160_NEXT_DATA_AUTHORITY_id))).

Definition is_disregard_msg (msg : cpdlc_msg) : result bool :=
  do info <- seg0_info msg;
  Ok (negb (is_dl info) && (msg_type info =? CPDLC_UM168_DISREGARD)).

Definition thr_status_is_final (st : cpdlc_msg_thr_status) : bool :=
  bool_decide (st = CPDLC_MSG_THR_CLOSED) ||
  bool_decide (st = CPDLC_MSG_THR_ACCEPTED) ||
  bool_decide (st = CPDLC_MSG_THR_REJECTED) ||
  bool_decide (st = CPDLC_MSG_THR_TIMEDOUT) ||
  bool_decide (st = CPDLC_MSG_THR_DISREGARD) ||
  bool_decide (st = CPDLC_MSG_THR_FAILED) ||
  bool_decide (st = CPDLC_MSG_THR_ERROR) ||
  bool_decide (st = CPDLC_MSG_THR_CONN_ENDED).

(** *** [thr_get_timeout] *)

(** The body of the inner loop, for one segment. *)
Definition timeout_seg (timeout : Z) (s : cpdlc_msg_seg) : Z :=
  if negb (Cpdlc.timeout (seg_info s) =? 0) &&
     (Cpdlc.timeout (seg_info s) <? timeout)
  then Cpdlc.timeout (seg_info s)
  else timeout.

(** The body of the outer loop, for one bucket. *)
Definition timeout_bucket (timeout : Z) (b : msg_bucket) : Z :=
  fold_left timeout_seg (msg_segs (b_msg b)) timeout.

Definition thr_get_timeout (t : msg_thr) : Z :=
  let timeout := fold_left timeout_bucket (thr_buckets t) UINT32_MAX in
  if timeout <? UINT32_MAX then timeout else 0.

(** *** Threads of the list *)

(** The first thread from the head with the given id. *)
Fixpoint thr_lookup_id (id : Z) (l : list msg_thr) : option nat :=
  match l with
  | [] => None
  | t :: l' => if thr_id t =? id then Some O else S <$> thr_lookup_id id l'
  end.

(** A thread as [safe_calloc] returns it, with its id set. *)
Definition new_thr (id : Z) : msg_thr :=
  {| thr_id := id; thr_status := CPDLC_MSG_THR_OPEN; thr_buckets := [];
     thr_dirty := false |}.

Definition find_msg_thr (ml : cpdlc_msglist client) (id : Z)
    : result (cpdlc_msglist client * nat) :=
  if negb (id =? CPDLC_NO_MSG_THR_ID) then
    match thr_lookup_id id (ml_thr ml) with
    | Some i => Ok (ml, i)
    | None => Abort AssertFailed   (* VERIFY_MSG(0, "Invalid message thread ID") *)
    end
  else
    Ok ({| ml_cl := ml_cl ml;
           ml_thr := new_thr (ml_next_thr_id ml) :: ml_thr ml;
           ml_min := ml_min ml; ml_mrn := ml_mrn ml;
           ml_next_thr_id := u32_incr (ml_next_thr_id ml);
           ml_update_cb := ml_update_cb ml |}, O).

(** A walk from [list_tail] along [list_prev] that stops at the first
    node [p] accepts; the result is the position of that node. *)
Fixpoint find_from_tail {A : Type} (p : A -> result bool) (l : list A)
    : result (option nat) :=
  match l with
  | [] => Ok None
  | x :: l' =>
      do r <- find_from_tail p l';
      match r with
      | Some j => Ok (Some (S j))
      | None => do b <- p x; Ok (if b then Some O else None)
      end
  end.

Definition msg_matches_bucket (msg : cpdlc_msg) (bucket : msg_bucket)
    : result bool :=
  do _ <- seg0_info msg;
  let min := cpdlc_msg_get_min (b_msg bucket) in
  let mrn := cpdlc_msg_get_mrn msg in
  do d <- is_disregard_msg msg;
  if d then Ok (negb (b_sent bucket) && (min =? mrn))
  else Ok (b_sent bucket && (min =? mrn)).

(** The body of the outer loop of [msg_thr_find_by_mrn]: whether the
    walk returns this thread. *)
Definition thr_matches (msg : cpdlc_msg) (t : msg_thr) : result bool :=
  if bool_decide (thr_status t = CPDLC_MSG_THR_CLOSED) then Ok false
  else
    do r <- find_from_tail (msg_matches_bucket msg) (thr_buckets t);
    Ok (if r is Some _ then true else false).

Definition msg_thr_find_by_mrn (ml : cpdlc_msglist client) (msg : cpdlc_msg)
    : result (option nat) :=
  if cpdlc_msg_get_mrn msg =? CPDLC_INVALID_MSG_SEQ_NR then Ok None
  else find_from_tail (thr_matches msg) (ml_thr ml).

(** *** Sending *)

(** The loop of [msglist_send_impl] that assigns the MRN: from the tail,
    the first bucket of the other direction. *)
Definition send_assign_mrn (buckets : list msg_bucket) (msg : cpdlc_msg)
    : cpdlc_msg :=
  match find (fun bucket => negb (eqb (cpdlc_msg_get_dl (b_msg bucket))
                                      (cpdlc_msg_get_dl msg)))
             (rev buckets) with
  | Some bucket => cpdlc_msg_set_mrn msg (cpdlc_msg_get_min (b_msg bucket))
  | None => msg
  end.

Definition msglist_send_impl (ml : cpdlc_msglist client) (clk : clock)
    (msg : cpdlc_msg) (id : Z) : result (cpdlc_msglist client * nat) :=
  do (ml, i) <- find_msg_thr ml id;
  do thr <- thr_at ml i;
  do st <- (if id =? CPDLC_NO_MSG_THR_ID then Ok CPDLC_MSG_THR_OPEN
            else do _ <- ASSERT (negb (thr_status_is_final (thr_status thr)));
                 Ok (thr_status thr));
  let msg := send_assign_mrn (thr_buckets thr) msg in
  let msg := cpdlc_msg_set_min msg (ml_min ml) in
  let '(cl, tok) := cpdlc_client_send_msg (ml_cl ml) msg in
  let bucket := {| b_msg := msg; b_tok := tok; b_sent := true;
                   b_hours := clk_hours clk; b_mins := clk_mins clk;
                   b_time := time_now clk |} in
  Ok ({| ml_cl := cl;
         ml_thr := alter (fun t => thr_insert_tail bucket (thr_set_status st t))
                         i (ml_thr ml);
         ml_min := u32_incr (ml_min ml); ml_mrn := ml_mrn ml;
         ml_next_thr_id := ml_next_thr_id ml;
         ml_update_cb := ml_update_cb ml |}, i).

(** Modelled from the spec: [cpdlc_msg_alloc] ([cpdlc_msg.c] is not
    under src/) returns a message without segments whose MRN is absent. *)
Definition cpdlc_msg_alloc : cpdlc_msg :=
  {| msg_min := 0; msg_mrn := CPDLC_INVALID_MSG_SEQ_NR;
     msg_from := EmptyString; msg_to := EmptyString; msg_is_logon := false;
     msg_segs := [] |}.

(** The message the timeout branch of [thr_status_upd] builds. *)
Definition timedout_msg (last : msg_bucket) : cpdlc_msg :=
  let msg := cpdlc_msg_alloc in
  let msg := cpdlc_msg_set_mrn msg (cpdlc_msg_get_min (b_msg last)) in
  let msg := cpdlc_msg_add_seg msg true CPDLC_DM62_ERROR_errorinfo in
  cpdlc_msg_seg_set_arg msg 0 0 "TIMEDOUT".

(** *** [thr_status_upd] *)

(** [thr] is a pointer: a thread [msglist_send_impl] inserts at the head
    moves the node it designates one place down. *)
Definition thr_status_upd (ml : cpdlc_msglist client) (clk : clock) (i : nat)
    : result (cpdlc_msglist client) :=
  do thr <- thr_at ml i;
  if thr_status_is_final (thr_status thr) then Ok ml
  else
    match thr_buckets thr with
    | [] => Abort NullBucket
    | first :: rest =>
      let last := List.last rest first in
      let now := time_now clk in
      let timeout := thr_get_timeout thr in
      do c <- (if bool_decide (rest = []) && b_sent first
               then do r <- msg_dl_req_resp (b_msg first); Ok (negb r)
               else Ok false);
      if c then Ok (ml_upd_thr ml i (thr_set_status CPDLC_MSG_THR_CLOSED)) else
      do c <- (if b_sent last then msg_is_dl_req (b_msg last) else Ok false);
      if c then
        Ok (ml_upd_thr ml i (thr_set_status
          match cpdlc_client_get_msg_status (ml_cl ml) (b_tok last) with
          | CPDLC_MSG_STATUS_SENDING => CPDLC_MSG_THR_PENDING
          | CPDLC_MSG_STATUS_SEND_FAILED => CPDLC_MSG_THR_FAILED
          | _ => CPDLC_MSG_THR_OPEN
          end))
      else
      do c <- msg_is_stby (b_msg last);
      if c then Ok (ml_upd_thr ml i (thr_set_status CPDLC_MSG_THR_STANDBY)) else
      do c <- msg_is_accept (b_msg last);
      if c then Ok (ml_upd_thr ml i (thr_set_status CPDLC_MSG_THR_ACCEPTED)) else
      do c <- msg_is_reject (b_msg last);
      if c then Ok (ml_upd_thr ml i (thr_set_status CPDLC_MSG_THR_REJECTED)) else
      do c <- (do r <- msg_is_rgr (b_msg last);
               if r then Ok true else msg_is_link_mgmt (b_msg last));
      if c then Ok (ml_upd_thr ml i (thr_set_status CPDLC_MSG_THR_CLOSED)) else
      do c <- (do r <- msg_is_ul_req (b_msg last);
               Ok (r &&
                   negb (bool_decide (thr_status thr = CPDLC_MSG_THR_STANDBY)) &&
                   negb (timeout =? 0) &&
                   (timeout <? now - b_time last)));
      if c then
        do (ml', _) <- msglist_send_impl ml clk (timedout_msg last) (thr_id thr);
        let i' := (i + (length (ml_thr ml') - length (ml_thr ml)))%nat in
        Ok (ml_upd_thr ml' i' (thr_set_status CPDLC_MSG_THR_TIMEDOUT))
      else
      do c <- is_disregard_msg (b_msg last);
      if c then Ok (ml_upd_thr ml i (thr_set_status CPDLC_MSG_THR_DISREGARD)) else
      do c <- is_error_msg (b_msg last);
      if c then Ok (ml_upd_thr ml i (thr_set_status CPDLC_MSG_THR_ERROR)) else
      if negb (bool_decide (cpdlc_client_get_logon_status (ml_cl ml) =
                            CPDLC_LOGON_COMPLETE))
      then Ok (ml_upd_thr ml i (fun t =>
                 thr_set_status CPDLC_MSG_THR_CONN_ENDED (thr_set_dirty false t)))
      else Ok ml
    end.

(** *** Receiving *)

(** The body of the loop of [msg_recv_cb] up to and including
    [list_insert_tail]: the thread is found by MRN or created, and the
    bucket of the message is appended to it. *)
Definition msg_recv_place (ml : cpdlc_msglist client) (clk : clock)
    (msg : cpdlc_msg) : result (cpdlc_msglist client * nat) :=
  do r <- msg_thr_find_by_mrn ml msg;
  do (ml, i) <- (match r with
                 | Some i => Ok (ml, i)
                 | None => find_msg_thr ml CPDLC_NO_MSG_THR_ID
                 end);
  let bucket := {| b_msg := msg; b_tok := CPDLC_INVALID_MSG_TOKEN;
                   b_sent := false;
                   b_hours := clk_hours clk; b_mins := clk_mins clk;
                   b_time := time_now clk |} in
  Ok (ml_upd_thr ml i (fun t => thr_insert_tail bucket (thr_set_dirty true t)),
      i).

(** One turn of the loop of [msg_recv_cb]; the id is the entry added to
    [upd_thrs]. *)
Definition msg_recv_one (ml : cpdlc_msglist client) (clk : clock)
    (msg : cpdlc_msg) : result (cpdlc_msglist client * Z) :=
  do (ml1, i) <- msg_recv_place ml clk msg;
  do ml2 <- thr_status_upd ml1 clk i;
  let i' := (i + (length (ml_thr ml2) - length (ml_thr ml1)))%nat in
  do thr <- thr_at ml2 i';
  Ok (ml2, thr_id thr).

(** [msg_recv_cb] over the messages [cpdlc_client_recv_msg] hands out
    until it returns NULL; the ids are the arguments of the update
    callback, when one is registered. *)
Fixpoint msg_recv_loop (update_cb : bool) (ml : cpdlc_msglist client)
    (clk : clock) (msgs : list cpdlc_msg) (upd_thrs : list Z)
    : result (cpdlc_msglist client * list Z) :=
  match msgs with
  | [] => Ok (ml, upd_thrs)
  | msg :: rest =>
      do (ml', id) <- msg_recv_one ml clk msg;
      msg_recv_loop update_cb ml' clk rest
        (if update_cb then upd_thrs ++ [id] else upd_thrs)
  end.

Definition msg_recv_cb (ml : cpdlc_msglist client) (clk : clock)
    (msgs : list cpdlc_msg) : result (cpdlc_msglist client * option (list Z)) :=
  let update_cb := ml_update_cb ml in
  do (ml', upd_thrs) <- msg_recv_loop update_cb ml clk msgs [];
  Ok (ml', if update_cb then Some upd_thrs else None).

(** *** The public operations *)

Definition cpdlc_msglist_alloc (cl : client) : cpdlc_msglist client :=
  {| ml_cl := cl; ml_thr := []; ml_min := 0; ml_mrn := 0;
     ml_next_thr_id := 0; ml_update_cb := false |}.

(** The loop of [cpdlc_msglist_update]: [k] threads are left to visit,
    the next one is the [k]-th from the tail. *)
Fixpoint update_loop (ml : cpdlc_msglist client) (clk : clock) (k : nat)
    : result (cpdlc_msglist client) :=
  match k with
  | O => Ok ml
  | S k' =>
      do ml' <- thr_status_upd ml clk (length (ml_thr ml) - S k')%nat;
      update_loop ml' clk k'
  end.

Definition cpdlc_msglist_update (ml : cpdlc_msglist client) (clk : clock)
    : result (cpdlc_msglist client) :=
  update_loop ml clk (length (ml_thr ml)).

Definition cpdlc_msglist_send (ml : cpdlc_msglist client) (clk : clock)
    (msg : cpdlc_msg) (id : Z) : result (cpdlc_msglist client * Z) :=
  do (ml1, i) <- msglist_send_impl ml clk msg id;
  do thr <- thr_at ml1 i;
  let id := thr_id thr in
  do ml2 <- thr_status_upd ml1 clk i;
  Ok (ml2, id).

(** The loop of [cpdlc_msglist_get_thr_ids]. [thr_ids] is the caller's
    array ([None] for NULL), [thr_i] the running count. *)
Fixpoint get_thr_ids_loop (ignore_closed : bool) (thrs : list msg_thr)
    (thr_ids : option (list Z)) (cap : Z) (thr_i : Z)
    : result (option (list Z) * Z) :=
  match thrs with
  | [] => Ok (thr_ids, thr_i)
  | thr :: rest =>
      if ignore_closed && negb (thr_dirty thr) &&
         thr_status_is_final (thr_status thr)
      then get_thr_ids_loop ignore_closed rest thr_ids cap thr_i
      else
        do thr_ids <- (if thr_i <? cap then
                         match thr_ids with
                         | Some a => Ok (Some (<[Z.to_nat thr_i := thr_id thr]> a))
                         | None => Abort AssertFailed
                         end
                       else Ok thr_ids);
        get_thr_ids_loop ignore_closed rest thr_ids cap (u32_incr thr_i)
  end.

(** Returns the array as written and the new value of [*cap]. *)
Definition cpdlc_msglist_get_thr_ids (ml : cpdlc_msglist client)
    (ignore_closed : bool) (thr_ids : option (list Z)) (cap : Z)
    : result (option (list Z) * Z) :=
  do (out, thr_i) <- get_thr_ids_loop ignore_closed (ml_thr ml) thr_ids cap 0;
  Ok (out, if thr_ids is None then thr_i else Z.min cap thr_i).

Definition cpdlc_msglist_get_thr_status (ml : cpdlc_msglist client) (id : Z)
    : result (cpdlc_msglist client * (cpdlc_msg_thr_status * bool)) :=
  do _ <- ASSERT (negb (id =? CPDLC_NO_MSG_THR_ID));
  do (ml, i) <- find_msg_thr ml id;
  do thr <- thr_at ml i;
  Ok (ml, (thr_status thr, thr_dirty thr)).

Definition cpdlc_msglist_thr_mark_seen (ml : cpdlc_msglist client) (id : Z)
    : result (cpdlc_msglist client) :=
  do _ <- ASSERT (negb (id =? CPDLC_NO_MSG_THR_ID));
  do (ml, i) <- find_msg_thr ml id;
  Ok (ml_upd_thr ml i (thr_set_dirty false)).

Definition cpdlc_msglist_get_thr_msg_count (ml : cpdlc_msglist client) (id : Z)
    : result (cpdlc_msglist client * nat) :=
  do _ <- ASSERT (negb (id =? CPDLC_NO_MSG_THR_ID));
  do (ml, i) <- find_msg_thr ml id;
  do thr <- thr_at ml i;
  Ok (ml, length (thr_buckets thr)).

Definition cpdlc_msglist_get_thr_msg (ml : cpdlc_msglist client) (id : Z)
    (msg_nr : nat) : result (cpdlc_msglist client * msg_bucket) :=
  do _ <- ASSERT (negb (id =? CPDLC_NO_MSG_THR_ID));
  do (ml, i) <- find_msg_thr ml id;
  do thr <- thr_at ml i;
  do _ <- ASSERT (bool_decide (msg_nr < length (thr_buckets thr))%nat);
  match thr_buckets thr !! msg_nr with
  | Some bucket => Ok (ml, bucket)
  | None => Abort AssertFailed
  end.

Definition cpdlc_msglist_remove_thr (ml : cpdlc_msglist client) (id : Z)
    : result (cpdlc_msglist client) :=
  do _ <- ASSERT (negb (id =? CPDLC_NO_MSG_THR_ID));
  do (ml, i) <- find_msg_thr ml id;
  Ok (ml_set_thr ml (delete i (ml_thr ml))).

Definition cpdlc_msglist_thr_is_done (ml : cpdlc_msglist client) (id : Z)
    : result (cpdlc_msglist client * bool) :=
  do _ <- ASSERT (negb (id =? CPDLC_NO_MSG_THR_ID));
  do (ml, i) <- find_msg_thr ml id;
  do thr <- thr_at ml i;
  Ok (ml, thr_status_is_final (thr_status thr)).

Definition cpdlc_msglist_thr_close (ml : cpdlc_msglist client) (id : Z)
    : result (cpdlc_msglist client) :=
  do _ <- ASSERT (negb (id =? CPDLC_NO_MSG_THR_ID));
  do (ml, i) <- find_msg_thr ml id;
  do thr <- thr_at ml i;
  if negb (thr_status_is_final (thr_status thr))
  then Ok (ml_upd_thr ml i (thr_set_status CPDLC_MSG_THR_CLOSED))
  else Ok ml.

Definition cpdlc_msglist_set_update_cb (ml : cpdlc_msglist client)
    (registered : bool) : cpdlc_msglist client :=
  {| ml_cl := ml_cl ml; ml_thr := ml_thr ml; ml_min := ml_min ml;
     ml_mrn := ml_mrn ml; ml_next_thr_id := ml_next_thr_id ml;
     ml_update_cb := registered |}.

(** *** The engine as a transition system *)

(** A call of a public operation that changes the engine, or a run of
    the receive callback. *)
Inductive op :=
| OpSend (msg : cpdlc_msg) (id : Z)
| OpRecv (msgs : list cpdlc_msg)
| OpUpdate
| OpMarkSeen (id : Z)
| OpClose (id : Z)
| OpRemove (id : Z)
| OpSetUpdateCb (registered : bool).

Definition step (ml : cpdlc_msglist client) (clk : clock) (o : op)
    : result (cpdlc_msglist client) :=
  match o with
  | OpSend msg id => do (ml', _) <- cpdlc_msglist_send ml clk msg id; Ok ml'
  | OpRecv msgs => do (ml', _) <- msg_recv_cb ml clk msgs; Ok ml'
  | OpUpdate => cpdlc_msglist_update ml clk
  | OpMarkSeen id => cpdlc_msglist_thr_mark_seen ml id
  | OpClose id => cpdlc_msglist_thr_close ml id
  | OpRemove id => cpdlc_msglist_remove_thr ml id
  | OpSetUpdateCb r => Ok (cpdlc_msglist_set_update_cb ml r)
  end.

(** The states the engine reaches from [cpdlc_msglist_alloc] by calls
    that return. The transport is only known through its interface, so
    its state may change between calls. *)
Inductive reachable : cpdlc_msglist client -> Prop :=
| reachable_alloc cl : reachable (cpdlc_msglist_alloc cl)
| reachable_step ml clk o ml' :
    reachable ml -> step ml clk o = Ok ml' -> reachable ml'
| reachable_transport ml cl :
    reachable ml ->
    reachable {| ml_cl := cl; ml_thr := ml_thr ml; ml_min := ml_min ml;
                 ml_mrn := ml_mrn ml; ml_next_thr_id := ml_next_thr_id ml;
                 ml_update_cb := ml_update_cb ml |}.


(** *** Notions the properties are stated with *)

Implicit Types (ml : cpdlc_msglist client) (thr t : msg_thr)
  (l : list msg_thr) (msg : cpdlc_msg) (clk : clock) (i k : nat).

(** The state [find_msg_thr] leaves when it creates a thread. *)
Definition with_new_thr ml : cpdlc_msglist client :=
  {| ml_cl := ml_cl ml;
     ml_thr := new_thr (ml_next_thr_id ml) :: ml_thr ml;
     ml_min := ml_min ml; ml_mrn := ml_mrn ml;
     ml_next_thr_id := u32_incr (ml_next_thr_id ml);
     ml_update_cb := ml_update_cb ml |}.

(** The bucket [msglist_send_impl] appends for [msg] to a thread whose
    buckets are [buckets]. *)
Definition sent_bucket ml clk buckets msg : msg_bucket :=
  let msg' := cpdlc_msg_set_min (send_assign_mrn buckets msg) (ml_min ml) in
  {| b_msg := msg';
     b_tok := snd (cpdlc_client_send_msg (ml_cl ml) msg');
     b_sent := true;
     b_hours := clk_hours clk; b_mins := clk_mins clk;
     b_time := time_now clk |}.

(** The bucket [msg_recv_cb] makes for a message. *)
Definition recv_bucket clk msg : msg_bucket :=
  {| b_msg := msg; b_tok := CPDLC_INVALID_MSG_TOKEN; b_sent := false;
     b_hours := clk_hours clk; b_mins := clk_mins clk;
     b_time := time_now clk |}.

(** The ways a run of [thr_status_upd] on a thread that is not final
    ends: nothing changes, a status (and the dirty flag) is stored, or
    the timeout message is sent and TIMEDOUT stored. *)
Inductive upd_outcome ml clk i thr : cpdlc_msglist client -> Prop :=
| upd_same : upd_outcome ml clk i thr ml
| upd_stored g :
    (forall t, thr_id (g t) = thr_id t /\ thr_buckets (g t) = thr_buckets t) ->
    upd_outcome ml clk i thr (ml_upd_thr ml i g)
| upd_timedout first rest ml1 j :
    thr_buckets thr = first :: rest ->
    msglist_send_impl ml clk (timedout_msg (List.last rest first)) (thr_id thr)
      = Ok (ml1, j) ->
    upd_outcome ml clk i thr
      (ml_upd_thr ml1 (i + (length (ml_thr ml1) - length (ml_thr ml)))%nat
         (thr_set_status CPDLC_MSG_THR_TIMEDOUT)).

(** The test of [msg_matches_bucket] on a message that has a first
    segment: the MIN of the bucket is the MRN of the message, and the
    bucket was sent or, when the message is UM168 DISREGARD, was
    received. *)
Definition answers msg (bucket : msg_bucket) : bool :=
  let disregard :=
    match msg_segs msg with
    | s :: _ => negb (is_dl (seg_info s)) &&
                (msg_type (seg_info s) =? CPDLC_UM168_DISREGARD)
    | [] => false
    end in
  (if disregard then negb (b_sent bucket) else b_sent bucket) &&
  (cpdlc_msg_get_min (b_msg bucket) =? cpdlc_msg_get_mrn msg).

(** The threads the walk of [msg_thr_find_by_mrn] passes over for a
    message that has a first segment: those that are CLOSED and those
    that hold no bucket the message answers. *)
Definition passed_over msg t : Prop :=
  thr_status t = CPDLC_MSG_THR_CLOSED \/
  Forall (fun b => answers msg b = false) (thr_buckets t).

(** None of the rules of [thr_status_upd] that look at the type of the
    last message (STANDBY, accept, reject, ROGER, link management)
    applies to [msg]. *)
Definition passes_type_rules msg : Prop :=
  msg_is_stby msg = Ok false /\ msg_is_accept msg = Ok false /\
  msg_is_reject msg = Ok false /\ msg_is_rgr msg = Ok false /\
  msg_is_link_mgmt msg = Ok false.

(** What a run of [thr_status_upd] leaves of a thread: the status is
    final or STANDBY, or the last bucket was sent, or none of the rules
    on the type of the last message applies to it. *)
Definition settled t : Prop :=
  thr_status_is_final (thr_status t) = true \/
  thr_status t = CPDLC_MSG_THR_STANDBY \/
  match thr_buckets t with
  | [] => True
  | first :: rest =>
      b_sent (List.last rest first) = true \/
      passes_type_rules (b_msg (List.last rest first))
  end.

(** Every thread but the one at [i] is settled. *)
Definition settled_but i l : Prop :=
  forall k t, k <> i -> l !! k = Some t -> settled t.

(** How threads change. *)

(** [thr_evolves t t']: the thread keeps its id, only gains buckets at
    the tail, keeps a final status, and gains no bucket while CLOSED. *)
Definition thr_evolves t t' : Prop :=
  thr_id t' = thr_id t /\
  (exists more, thr_buckets t' = thr_buckets t ++ more) /\
  (thr_status_is_final (thr_status t) = true -> thr_status t' = thr_status t) /\
  (thr_status t = CPDLC_MSG_THR_CLOSED -> thr_buckets t' = thr_buckets t).

(** [thrs_evolve l l']: [l'] is [l] with every thread evolved, behind
    the threads inserted at the head since. *)
Definition thrs_evolve l l' : Prop :=
  exists new old, l' = new ++ old /\ Forall2 thr_evolves l old.

(** Whether [cpdlc_msglist_get_thr_ids] lists a thread: with
    [ignore_closed] it passes over the threads that are both final and
    not dirty. *)
Definition thr_listed (ignore_closed : bool) t : bool :=
  negb (ignore_closed && negb (thr_dirty t) &&
        thr_status_is_final (thr_status t)).

(** The ids of the listed threads, from the head of the list. *)
Definition thr_ids_listed (ignore_closed : bool) l : list Z :=
  map thr_id (List.filter (thr_listed ignore_closed) l).

(** The message of the bucket the timeout rule appends: a DM62 ERROR
    downlink with the argument "TIMEDOUT", the MIN [min] and the MRN
    [mrn]. *)
Definition timedout_error (min mrn : Z) : cpdlc_msg :=
  {| msg_min := min; msg_mrn := mrn;
     msg_from := EmptyString; msg_to := EmptyString; msg_is_logon := false;
     msg_segs :=
       [{| seg_info :=
             {| is_dl := true; msg_type := CPDLC_DM62_ERROR_errorinfo;
                resp := fst (cpdlc_infos true CPDLC_DM62_ERROR_errorinfo);
                timeout := snd (cpdlc_infos true CPDLC_DM62_ERROR_errorinfo) |};
           seg_args := ["TIMEDOUT"%string] |}] |}.

(** Every message the engine sent and still holds has a MIN below the
    counter. *)
Definition sent_mins_below ml : Prop :=
  forall t b, t ∈ ml_thr ml -> b ∈ thr_buckets t -> b_sent b = true ->
    msg_min (b_msg b) < ml_min ml.

(** The timeouts the catalog gives the segments of the buckets of a
    thread, in the order of the buckets and of the segments. *)
Definition seg_timeouts t : list Z :=
  flat_map (fun b => map (fun s => Cpdlc.timeout (seg_info s))
                         (msg_segs (b_msg b)))
           (thr_buckets t).

(** The timeout of a thread in the words of the specification: the
    least of the timeouts of all segments in all buckets, those that are
    0 left out, and 0 when none is left. *)
Definition min_timeout (timeouts : list Z) : Z :=
  match List.filter (fun x => negb (x =? 0)) timeouts with
  | [] => 0
  | x :: rest => fold_right Z.min x rest
  end.

(** The ids [find_msg_thr] gives to [k] threads it creates one after the
    other, the counter standing at [next]: the newest first, as the
    threads are in the list. *)
Fixpoint fresh_ids (next : Z) (k : nat) : list Z :=
  match k with
  | O => []
  | S k' => fresh_ids (u32_incr next) k' ++ [next]
  end.

(** [ml'] has the threads of [ml] with their ids, in their order, behind
    threads created since, whose ids came from the counter. *)
Definition ids_extend ml ml' : Prop :=
  exists n : nat,
    map thr_id (ml_thr ml') =
      fresh_ids (ml_next_thr_id ml) n ++ map thr_id (ml_thr ml) /\
    ml_next_thr_id ml' = Nat.iter n u32_incr (ml_next_thr_id ml).

(** The thread ids are those the counter gave out: they differ from one
    another and lie below the counter. *)
Definition ids_inv ml : Prop :=
  0 <= ml_next_thr_id ml /\
  NoDup (map thr_id (ml_thr ml)) /\
  Forall (fun t => 0 <= thr_id t < ml_next_thr_id ml) (ml_thr ml).

(** A bucket that was received holds no token. *)
Definition tok_inv t : Prop :=
  Forall (fun b => b_sent b = false -> b_tok b = CPDLC_INVALID_MSG_TOKEN)
         (thr_buckets t).

(** A thread with the id [id] holds the bucket [b]. *)
Definition holds_bucket l (id : Z) (b : msg_bucket) : Prop :=
  exists t, t ∈ l /\ thr_id t = id /\ b ∈ thr_buckets t.


End Engine.

(** *** A transport and a catalog to run the engine on *)

(** A transport that hands out the tokens 0, 1, 2, ..., reports every
    message as sent and the logon as complete. *)
Definition counting_transport : ClientTransport nat := {|
  CPDLC_INVALID_MSG_TOKEN := UINT32_MAX;
  cpdlc_client_send_msg := fun cl _ => (S cl, Z.of_nat cl);
  cpdlc_client_get_msg_status := fun _ _ => CPDLC_MSG_STATUS_SENT;
  cpdlc_client_get_logon_status := fun _ => CPDLC_LOGON_COMPLETE;
|}.

(** Sentinels at the largest [unsigned]. The catalog gives DM6 (REQUEST
    altitude) the class Y and UM20 (CLIMB TO) the class WU, both with a
    timeout of 100 s, and the uplinks UNABLE, STANDBY, ROGER, AFFIRM and
    NEGATIVE the class NE without a timeout. *)
Definition small_catalog : Catalog := {|
  CPDLC_INVALID_MSG_SEQ_NR := UINT32_MAX;
  CPDLC_NO_MSG_THR_ID := UINT32_MAX;
  cpdlc_infos := fun dl ty =>
    if dl then (if ty =? 6 then (CPDLC_RESP_Y, 100) else (CPDLC_RESP_NONE, 0))
    else if ty =? 20 then (CPDLC_RESP_WU, 100)
    else if (0 <=? ty) && (ty <=? 5) then (CPDLC_RESP_NE, 0)
    else (CPDLC_RESP_NONE, 0);
|}.

(** *** Runs of the engine on them *)

Section Scenarios.
#[local] Existing Instance counting_transport.
#[local] Existing Instance small_catalog.

(** The clock at [now]. *)
Definition clock_at (now : Z) : clock :=
  {| time_now := now; clk_hours := (now / 3600) mod 24;
     clk_mins := (now / 60) mod 60 |}.

(** A run of steps, each with the time it reads. *)
Fixpoint run (ml : cpdlc_msglist nat) (steps : list (Z * op))
    : result (cpdlc_msglist nat) :=
  match steps with
  | [] => Ok ml
  | (now, o) :: rest =>
      do ml' <- step ml (clock_at now) o;
      run ml' rest
  end.

(** A message of one segment without arguments, as [cpdlc_msg_alloc] and
    [cpdlc_msg_add_seg] build it. *)
Definition one_seg_msg (dl : bool) (ty : Z) : cpdlc_msg :=
  cpdlc_msg_add_seg cpdlc_msg_alloc dl ty.

(** An uplink as the transport delivers it, with the peer's MIN and the
    MRN it answers. *)
Definition uplink (ty min mrn : Z) : cpdlc_msg :=
  cpdlc_msg_set_mrn (cpdlc_msg_set_min (one_seg_msg false ty) min) mrn.

(** DM6 is sent in a new thread and gets MIN 0; the peer answers it with
    UM4 AFFIRM: the thread is ACCEPTED. *)
Definition accepted_run : result (cpdlc_msglist nat) :=
  run (cpdlc_msglist_alloc O)
    [(1000, OpSend (one_seg_msg true CPDLC_DM6_REQ_alt) CPDLC_NO_MSG_THR_ID);
     (1010, OpRecv [uplink CPDLC_UM4_AFFIRM 11 0])].

(** Two threads are created by two sends. *)
Definition two_threads_run : result (cpdlc_msglist nat) :=
  run (cpdlc_msglist_alloc O)
    [(1000, OpSend (one_seg_msg true CPDLC_DM6_REQ_alt) CPDLC_NO_MSG_THR_ID);
     (1001, OpSend (one_seg_msg true CPDLC_DM6_REQ_alt) CPDLC_NO_MSG_THR_ID)].

(** DM6 is sent in a new thread and gets MIN 0; the peer answers it with
    UM20 CLIMB TO, which asks for WILCO or UNABLE within 100 s. *)
Definition unanswered_run : result (cpdlc_msglist nat) :=
  run (cpdlc_msglist_alloc O)
    [(1000, OpSend (one_seg_msg true CPDLC_DM6_REQ_alt) CPDLC_NO_MSG_THR_ID);
     (1010, OpRecv [uplink 20 5 0])].


(** The engine receives three uplinks UM20 that carry the same MIN 5 and
    no MRN, so each gets a thread of its own, with the ids 0, 1 and 2;
    the first of the threads is closed before the others arrive. *)
Definition same_min_run : result (cpdlc_msglist nat) :=
  run (cpdlc_msglist_alloc O)
    [(1000, OpRecv [uplink 20 5 CPDLC_INVALID_MSG_SEQ_NR]);
     (1001, OpClose 0);
     (1002, OpRecv [uplink 20 5 CPDLC_INVALID_MSG_SEQ_NR]);
     (1003, OpRecv [uplink 20 5 CPDLC_INVALID_MSG_SEQ_NR])].

(** The state of a run that returned. *)
Definition state_of (r : result (cpdlc_msglist nat)) : cpdlc_msglist nat :=
  match r with
  | Ok ml => ml
  | Abort _ => cpdlc_msglist_alloc O
  end.

(** An engine whose counter of MINs stands at the largest [unsigned]. *)
Definition counter_at_max : cpdlc_msglist nat :=
  {| ml_cl := O; ml_thr := []; ml_min := UINT32_MAX; ml_mrn := 0;
     ml_next_thr_id := 0; ml_update_cb := false |}.

End Scenarios.

End Msglist.


(** ** The routing daemon ([cpdlcd.c]) *)

Module Cpdlcd.
Import Cpdlc.

Definition CALLSIGN_LEN : nat := 16.
Definition QUEUED_MSG_TIMEOUT : Z := 3600.

(** [x] as an [int] holds it. *)
Definition to_int (x : Z) : Z := (x + 2 ^ 31) mod 2 ^ 32 - 2 ^ 31.

(** [x] as a [uint64_t] holds it. *)
Definition u64 (x : Z) : Z := x mod 2 ^ 64.

(** [lacf_strlcpy(dst, src, cap)]: [dst] receives the first [cap - 1]
    characters of [src]. A C string is modelled by the characters before
    its terminator, and [strlen] by [String.length]. *)
Definition lacf_strlcpy (src : string) (cap : nat) : string :=
  substring 0 (cap - 1) src.

Definition strlen (s : string) : Z := Z.of_nat (String.length s).

(** [s[0] != '\0'] *)
Definition nonempty (s : string) : bool :=
  match s with
  | EmptyString => false
  | String _ _ => true
  end.

(** What the daemon takes from files that are not under src/: the text
    [cpdlc_msg_encode] produces for a message, the message
    [cpdlc_msg_alloc] returns for its two arguments, and
    [sizeof (queued_msg_t)]. *)
Class Codec := {
  cpdlc_msg_encode : cpdlc_msg -> string;
  cpdlc_msg_alloc : Z -> Z -> cpdlc_msg;
  sizeof_queued_msg : Z;
}.

(** A connection, with the fields the routing reads and writes. The
    out-buffer is [None] while [conn->outbuf] is NULL. *)
Record conn_t := {
  c_from : string;
  c_to : string;
  c_logon_complete : bool;
  c_outbuf : option string;
}.

Record queued_msg_t := {
  q_from : string;
  q_to : string;
  q_created : Z;
  q_msg : string;
}.

(** The globals of the daemon. A [conn_t *] is the key of the
    connection in [conns]; [conns_by_from] is the multi-valued hash
    table, a callsign mapped to the list of its connections. *)
Record daemon := {
  conns : gmap nat conn_t;
  conns_by_from : gmap string (list nat);
  queued_msgs : list queued_msg_t;
  queued_msg_bytes : Z;
}.

Definition queued_msg_max_bytes : Z := Z.shiftl 128 20.

(** [init_structs] *)
Definition init_structs : daemon :=
  {| conns := ∅; conns_by_from := ∅; queued_msgs := [];
     queued_msg_bytes := 0 |}.

(** *** Field updates *)

Definition set_conns (st : daemon) (m : gmap nat conn_t) : daemon :=
  {| conns := m; conns_by_from := conns_by_from st;
     queued_msgs := queued_msgs st;
     queued_msg_bytes := queued_msg_bytes st |}.

Definition set_conns_by_from (st : daemon) (m : gmap string (list nat))
    : daemon :=
  {| conns := conns st; conns_by_from := m;
     queued_msgs := queued_msgs st;
     queued_msg_bytes := queued_msg_bytes st |}.

Definition set_queue (st : daemon) (q : list queued_msg_t) (bytes : Z)
    : daemon :=
  {| conns := conns st; conns_by_from := conns_by_from st;
     queued_msgs := q; queued_msg_bytes := bytes |}.

Definition conn_set_outbuf (c : conn_t) (b : option string) : conn_t :=
  {| c_from := c_from c; c_to := c_to c;
     c_logon_complete := c_logon_complete c; c_outbuf := b |}.

(** Reads the connection a pointer designates. *)
Definition conn_at (st : daemon) (id : nat) : result conn_t :=
  match conns st !! id with
  | Some c => Ok c
  | None => Abort BadPointer
  end.

(** *** The hash table ([acfutils/htbl.h], multi-valued) *)

Definition htbl_lookup_multi (h : gmap string (list nat)) (key : string)
    : option (list nat) :=
  h !! key.

(** [htbl_set] on a multi-valued table adds a value to the key. *)
Definition htbl_set (h : gmap string (list nat)) (key : string) (v : nat)
    : gmap string (list nat) :=
  <[key := v :: default [] (h !! key)]> h.

(** Removes the first occurrence of a value. *)
Fixpoint remove_first (v : nat) (l : list nat) : list nat :=
  match l with
  | [] => []
  | x :: l' => if Nat.eqb x v then l' else x :: remove_first v l'
  end.

(** The loop of [conn_remove_from] with its [htbl_remove_multi]: the
    first entry of the key that is [v] is removed, and the key with its
    last entry. *)
Definition htbl_remove_multi (h : gmap string (list nat)) (key : string)
    (v : nat) : gmap string (list nat) :=
  match h !! key with
  | Some l =>
      match remove_first v l with
      | [] => delete key h
      | l' => <[key := l']> h
      end
  | None => h
  end.

Section Daemon.
Context `{Codec} `{Catalog}.

(** *** Connections *)

(** [handle_accepts], for one accepted connection that passes the
    blocklist: the connection is entered unless its address is there
    already. [id] stands for the address. *)
Definition handle_accept (st : daemon) (id : nat) : daemon :=
  match conns st !! id with
  | Some _ => st
  | None =>
      set_conns st (<[id := {| c_from := EmptyString; c_to := EmptyString;
                               c_logon_complete := false;
                               c_outbuf := None |}]> (conns st))
  end.

Definition conn_remove_from (st : daemon) (id : nat) : result daemon :=
  do conn <- conn_at st id;
  do _ <- ASSERT (c_logon_complete conn);
  do _ <- ASSERT (if htbl_lookup_multi (conns_by_from st) (c_from conn)
                  is Some _ then true else false);
  let st := set_conns_by_from st
              (htbl_remove_multi (conns_by_from st) (c_from conn) id) in
  Ok (set_conns st
        (<[id := {| c_from := EmptyString; c_to := c_to conn;
                    c_logon_complete := false;
                    c_outbuf := c_outbuf conn |}]> (conns st))).

Definition close_conn (st : daemon) (id : nat) : result daemon :=
  do conn <- conn_at st id;
  do st <- (if c_logon_complete conn then conn_remove_from st id else Ok st);
  Ok (set_conns st (delete id (conns st))).

Definition conn_send_buf (st : daemon) (id : nat) (buf : string) (buflen : Z)
    : result daemon :=
  do conn <- conn_at st id;
  do _ <- ASSERT (negb (buflen =? 0));
  Ok (set_conns st
        (<[id := conn_set_outbuf conn
                   (Some (String.append (default EmptyString (c_outbuf conn))
                            (lacf_strlcpy buf (Z.to_nat buflen + 1))))]>
           (conns st))).

(** [cpdlc_msg_encode(msg, buf, cap)] writes the first [cap - 1]
    characters of the text and returns the length of the whole text. *)
Definition conn_send_msg (st : daemon) (id : nat) (msg : cpdlc_msg)
    : result daemon :=
  let l := strlen (cpdlc_msg_encode msg) mod 2 ^ 32 in
  let buf := lacf_strlcpy (cpdlc_msg_encode msg) (Z.to_nat (l + 1)) in
  conn_send_buf st id buf l.

(** The message [send_error_msg] builds; none of the formats the daemon
    passes has a conversion, so the text is the format. *)
Definition error_msg (orig_msg : option cpdlc_msg) (fmt : string) : cpdlc_msg :=
  let msg :=
    match orig_msg with
    | Some orig_msg =>
        let msg := cpdlc_msg_alloc 0 (cpdlc_msg_get_min orig_msg) in
        if cpdlc_msg_get_dl orig_msg
        then cpdlc_msg_add_seg msg false CPDLC_UM159_ERROR_description
        else cpdlc_msg_add_seg msg true CPDLC_DM62_ERROR_errorinfo
    | None =>
        cpdlc_msg_add_seg (cpdlc_msg_alloc 0 0) false
          CPDLC_UM159_ERROR_description
    end in
  cpdlc_msg_seg_set_arg msg 0 0 fmt.

Definition send_error_msg (st : daemon) (id : nat)
    (orig_msg : option cpdlc_msg) (fmt : string) : result daemon :=
  conn_send_msg st id (error_msg orig_msg fmt).

Definition process_logon_msg (st : daemon) (id : nat) (msg : cpdlc_msg)
    : result (daemon * bool) :=
  do conn <- conn_at st id;
  do st <- (if c_logon_complete conn then conn_remove_from st id else Ok st);
  do conn <- conn_at st id;
  let conn := {| c_from := lacf_strlcpy (cpdlc_msg_get_from msg) CALLSIGN_LEN;
                 c_to := lacf_strlcpy (cpdlc_msg_get_to msg) CALLSIGN_LEN;
                 c_logon_complete := true;
                 c_outbuf := c_outbuf conn |} in
  let st := set_conns st (<[id := conn]> (conns st)) in
  if negb (nonempty (c_from conn)) then
    do st <- send_error_msg st id (Some msg) "LOGON REQUIRES FROM= HEADER";
    Ok (st, false)
  else
    Ok (set_conns_by_from st (htbl_set (conns_by_from st) (c_from conn) id),
        true).

(** *** The queue *)

Definition store_msg (st : daemon) (now : Z) (msg : cpdlc_msg) (to : string)
    : daemon * bool :=
  let l := to_int (strlen (cpdlc_msg_encode msg)) in
  let bytes := u64 (sizeof_queued_msg + l + 1) in
  if queued_msg_max_bytes <? u64 (queued_msg_bytes st + bytes) then (st, false)
  else
    let buf := lacf_strlcpy (cpdlc_msg_encode msg) (Z.to_nat (l + 1)) in
    let qmsg := {| q_from := lacf_strlcpy (cpdlc_msg_get_from msg) CALLSIGN_LEN;
                   q_to := lacf_strlcpy to CALLSIGN_LEN;
                   q_created := now;
                   q_msg := buf |} in
    (set_queue st (queued_msgs st ++ [qmsg])
       (u64 (queued_msg_bytes st + bytes)), true).

(** [qmsg] is a pointer: the position of the entry in the queue. *)
Definition dequeue_msg (st : daemon) (qmsg : nat) : result daemon :=
  match queued_msgs st !! qmsg with
  | None => Abort BadPointer
  | Some q =>
      let bytes := u64 (sizeof_queued_msg + strlen (q_msg q) + 1) in
      do _ <- ASSERT (bytes <=? queued_msg_bytes st);
      let st := set_queue st (delete qmsg (queued_msgs st))
                  (u64 (queued_msg_bytes st - bytes)) in
      do _ <- (if bool_decide (queued_msgs st = [])
               then ASSERT (queued_msg_bytes st =? 0) else Ok tt);
      Ok st
  end.

(** The fan-out loops: [buf] is appended to the out-buffer of every
    connection of the list, from its head. *)
Fixpoint send_buf_all (st : daemon) (l : list nat) (buf : string) (buflen : Z)
    : result daemon :=
  match l with
  | [] => Ok st
  | id :: l' =>
      do st <- conn_send_buf st id buf buflen;
      send_buf_all st l' buf buflen
  end.

Fixpoint send_msg_all (st : daemon) (l : list nat) (msg : cpdlc_msg)
    : result daemon :=
  match l with
  | [] => Ok st
  | id :: l' =>
      do st <- conn_send_msg st id msg;
      send_msg_all st l' msg
  end.

(** The loop of [handle_queued_msgs]: [pending] are the entries from the
    pointer [qmsg] on. *)
Fixpoint handle_queued_loop (st : daemon) (now : Z)
    (pending : list queued_msg_t) (qmsg : nat) : result daemon :=
  match pending with
  | [] => Ok st
  | q :: next =>
      match htbl_lookup_multi (conns_by_from st) (q_to q) with
      | Some (id :: l) =>
          do st <- send_buf_all st (id :: l) (q_msg q) (strlen (q_msg q));
          do st <- dequeue_msg st qmsg;
          handle_queued_loop st now next qmsg
      | _ =>
          if QUEUED_MSG_TIMEOUT <? now - q_created q then
            do st <- dequeue_msg st qmsg;
            handle_queued_loop st now next qmsg
          else handle_queued_loop st now next (S qmsg)
      end
  end.

Definition handle_queued_msgs (st : daemon) (now : Z) : result daemon :=
  handle_queued_loop st now (queued_msgs st) O.

(** *** Messages of a connection *)

(** The part of [conn_process_msg] after the logon: the recipient is
    chosen, the sender is overwritten, and the message is delivered or
    queued. *)
Definition conn_forward (st : daemon) (now : Z) (id : nat) (msg : cpdlc_msg)
    : result daemon :=
  do conn <- conn_at st id;
  let to := if nonempty (msg_to msg)
            then Some (lacf_strlcpy (msg_to msg) CALLSIGN_LEN)
            else if nonempty (c_to conn)
            then Some (lacf_strlcpy (c_to conn) CALLSIGN_LEN)
            else None in
  match to with
  | None => send_error_msg st id (Some msg) "MESSAGE MISSING TO= HEADER"
  | Some to =>
      do _ <- ASSERT (nonempty (c_from conn));
      let msg := cpdlc_msg_set_from msg (c_from conn) in
      match htbl_lookup_multi (conns_by_from st) to with
      | Some (tgt :: l) => send_msg_all st (tgt :: l) msg
      | _ =>
          let (st, stored) := store_msg st now msg to in
          if negb stored
          then send_error_msg st id (Some msg) "TOO MANY QUEUED MESSAGES"
          else Ok st
      end
  end.

Definition conn_process_msg (st : daemon) (now : Z) (id : nat)
    (msg : cpdlc_msg) : result daemon :=
  do conn <- conn_at st id;
  if negb (c_logon_complete conn) && negb (msg_is_logon msg) then
    send_error_msg st id (Some msg) "LOGON REQUIRED"
  else
    do (st, ok) <- (if msg_is_logon msg then process_logon_msg st id msg
                    else Ok (st, true));
    if negb ok then Ok st
    else conn_forward st now id msg.

(** [conn_process_input] over the messages [cpdlc_msg_decode] finds in
    the in-buffer; [decoded] tells whether the decoding ended for want
    of a complete message, and not on a malformed one. *)
Fixpoint conn_process_input (st : daemon) (now : Z) (id : nat)
    (msgs : list cpdlc_msg) (decoded : bool) : result (daemon * bool) :=
  match msgs with
  | [] => Ok (st, decoded)
  | msg :: rest =>
      do st <- conn_process_msg st now id msg;
      conn_process_input st now id rest decoded
  end.

(** The end of a turn of [handle_conn_input], once bytes were read: a
    connection whose input does not decode is closed. *)
Definition handle_conn_input (st : daemon) (now : Z) (id : nat)
    (msgs : list cpdlc_msg) (decoded : bool) : result (daemon * bool) :=
  do (st, ok) <- conn_process_input st now id msgs decoded;
  if negb ok then do st <- close_conn st id; Ok (st, false)
  else Ok (st, true).

(** What [gnutls_record_send] returns to [handle_conn_output]: the
    number of bytes it took, which is not negative, [GNUTLS_E_AGAIN],
    another error for which [gnutls_error_is_fatal] is false, or an
    error for which it is true. *)
Inductive send_result :=
| SendOk (bytes : Z)
| SendAgain
| SendSoftError
| SendFatalError.

(** [handle_conn_output]: a fatal error closes the connection, the
    other errors and a send of no byte leave it as it is, and the bytes
    that were sent are taken from the front of the out-buffer, which is
    freed when nothing is left. *)
Definition handle_conn_output (st : daemon) (id : nat) (r : send_result)
    : result (daemon * bool) :=
  do conn <- conn_at st id;
  match c_outbuf conn with
  | None => Abort AssertFailed
  | Some outbuf =>
      match r with
      | SendFatalError => do st <- close_conn st id; Ok (st, false)
      | SendAgain | SendSoftError => Ok (st, true)
      | SendOk bytes =>
          if 0 <? bytes then
            let rest :=
              if bytes <? strlen outbuf
              then Some (substring (Z.to_nat bytes)
                           (String.length outbuf - Z.to_nat bytes) outbuf)
              else None in
            Ok (set_conns st (<[id := conn_set_outbuf conn rest]> (conns st)),
                true)
          else Ok (st, true)
      end
  end.

(** How the loop of [handle_conn_input] ends, after the rounds in which
    bytes were read and decoded: no more bytes are pending
    ([GNUTLS_E_AGAIN]); the bytes of the last round do not decode, after
    the messages [msgs]; or the connection is closed for another reason
    (the end of the stream, a fatal error of the handshake or of the
    read, a byte that is not plain text, more bytes than the buffer may
    hold). *)
Inductive input_end :=
| InputAgain
| InputUndecodable (msgs : list cpdlc_msg)
| InputClosed.

(** A call of [handle_conn_input]: the rounds of its loop, each with the
    messages that were decoded, and its end. *)
Fixpoint handle_conn_input_loop (st : daemon) (now : Z) (id : nat)
    (rounds : list (list cpdlc_msg)) (e : input_end)
    : result (daemon * bool) :=
  match rounds with
  | msgs :: rest =>
      do (st, ok) <- handle_conn_input st now id msgs true;
      if negb ok then Ok (st, false)
      else handle_conn_input_loop st now id rest e
  | [] =>
      match e with
      | InputAgain => Ok (st, true)
      | InputUndecodable msgs => handle_conn_input st now id msgs false
      | InputClosed => do st <- close_conn st id; Ok (st, false)
      end
  end.

(** The body of the loop of [poll_sockets] over the connections, for the
    connection [id]: [pollin] is the input when [revents] has POLLIN,
    [pollout] what [gnutls_record_send] would return when it has
    POLLOUT. After the input, [conn->outbuf] is read through the same
    handle, which [close_conn] has freed when the input closed the
    connection. *)
Definition poll_conn (st : daemon) (now : Z) (id : nat)
    (pollin : option (list (list cpdlc_msg) * input_end))
    (pollout : option send_result) : result daemon :=
  match pollin, pollout with
  | None, None => Ok st
  | _, _ =>
      do st <- (match pollin with
                | Some (rounds, e) =>
                    do (st, _) <- handle_conn_input_loop st now id rounds e;
                    Ok st
                | None => Ok st
                end);
      do conn <- conn_at st id;
      match c_outbuf conn, pollout with
      | Some _, Some r => do (st, _) <- handle_conn_output st id r; Ok st
      | _, _ => Ok st
      end
  end.

(** *** The daemon as a transition system *)

(** What the main loop does to the routing state, with the time it
    reads: a connection is accepted, input of a connection is handled, a
    connection is closed (by its peer, on an error of the read, or for
    the blocklist), [handle_conn_output] is called with what
    [gnutls_record_send] returns, the queue is walked. *)
Inductive event :=
| EvAccept (id : nat)
| EvInput (id : nat) (msgs : list cpdlc_msg) (decoded : bool)
| EvClose (id : nat)
| EvOutput (id : nat) (r : send_result)
| EvQueue.

Definition step (st : daemon) (now : Z) (e : event) : result daemon :=
  match e with
  | EvAccept id => Ok (handle_accept st id)
  | EvInput id msgs decoded =>
      do (st, _) <- handle_conn_input st now id msgs decoded; Ok st
  | EvClose id => close_conn st id
  | EvOutput id r => do (st, _) <- handle_conn_output st id r; Ok st
  | EvQueue => handle_queued_msgs st now
  end.

Inductive reachable : daemon -> Prop :=
| reachable_init : reachable init_structs
| reachable_step st now e st' :
    reachable st -> step st now e = Ok st' -> reachable st'.

(** *** Notions the properties are stated with *)

(** What a queue entry counts for: the fixed size of the entry, the
    length of its text, and the terminator. *)
Definition entry_bytes (q : queued_msg_t) : Z :=
  sizeof_queued_msg + strlen (q_msg q) + 1.

Definition queue_bytes (queue : list queued_msg_t) : Z :=
  foldr (fun q acc => entry_bytes q + acc) 0 queue.

(** The byte counter is the sum over the queue, within the budget. *)
Definition queue_inv (st : daemon) : Prop :=
  queued_msg_bytes st = queue_bytes (queued_msgs st) /\
  queued_msg_bytes st <= queued_msg_max_bytes.

(** [text] appended to the out-buffer of a live connection. *)
Definition outbuf_append (st : daemon) (id : nat) (text : string) : daemon :=
  match conns st !! id with
  | Some conn =>
      set_conns st
        (<[id := conn_set_outbuf conn
                   (Some (String.append (default EmptyString (c_outbuf conn))
                                        text))]> (conns st))
  | None => st
  end.

(** [text] appended to the out-buffer of every connection of a list. *)
Definition fan_out (st : daemon) (l : list nat) (text : string) : daemon :=
  foldl (fun st id => outbuf_append st id text) st l.

(** The callsign a message of a connection is routed to: its TO header,
    else the peer the connection named at its logon, if any. *)
Definition recipient (conn : conn_t) (msg : cpdlc_msg) : option string :=
  if nonempty (msg_to msg) then Some (lacf_strlcpy (msg_to msg) CALLSIGN_LEN)
  else if nonempty (c_to conn) then Some (lacf_strlcpy (c_to conn) CALLSIGN_LEN)
  else None.

(** The entry [store_msg] appends for a message. *)
Definition queued_entry (now : Z) (msg : cpdlc_msg) (to : string)
    : queued_msg_t :=
  {| q_from := lacf_strlcpy (cpdlc_msg_get_from msg) CALLSIGN_LEN;
     q_to := lacf_strlcpy to CALLSIGN_LEN;
     q_created := now;
     q_msg := cpdlc_msg_encode msg |}.

(** The callsign index holds only live connections that completed a
    logon, each once, under its non-empty [from]. *)
Definition index_sound (st : daemon) : Prop :=
  forall key l, conns_by_from st !! key = Some l ->
    NoDup l /\
    forall id, id ∈ l ->
      exists conn, conns st !! id = Some conn /\
        c_logon_complete conn = true /\ c_from conn = key /\
        nonempty key = true.

(** The functions that act on connections leave the queue alone. *)
Definition same_queue (st st' : daemon) : Prop :=
  queued_msgs st' = queued_msgs st /\
  queued_msg_bytes st' = queued_msg_bytes st.

(** [st'] has the index of [st], and the connections of [st] with their
    [from] and their logon flag. *)
Definition keeps_logons (st st' : daemon) : Prop :=
  conns_by_from st' = conns_by_from st /\
  forall id conn, conns st !! id = Some conn ->
    exists conn', conns st' !! id = Some conn' /\
      c_from conn' = c_from conn /\
      c_logon_complete conn' = c_logon_complete conn.

(** In a sound index a connection is listed under its [from] only. *)
Definition unlisted (st : daemon) (id : nat) : Prop :=
  forall key l, conns_by_from st !! key = Some l -> id ∉ l.

(** *** Notions of the further properties *)

(** A connection that completed a logon with a callsign is listed under
    the callsign. *)
Definition index_complete (st : daemon) : Prop :=
  forall id conn, conns st !! id = Some conn ->
    c_logon_complete conn = true -> nonempty (c_from conn) = true ->
    exists l, conns_by_from st !! c_from conn = Some l /\ id ∈ l.

(** A connection without a complete logon has no [from]. *)
Definition logoff_clears (st : daemon) : Prop :=
  forall id conn, conns st !! id = Some conn ->
    c_logon_complete conn = false -> c_from conn = EmptyString.

(** No key of the index is left with an empty list. *)
Definition index_nonempty (st : daemon) : Prop :=
  forall key l, conns_by_from st !! key = Some l -> l <> [].

Definition logon_inv (st : daemon) : Prop :=
  index_sound st /\ index_complete st /\ logoff_clears st /\
  index_nonempty st.

(** Every logon that is complete has a callsign: no connection is in
    the state a logon without a FROM header leaves. *)
Definition logons_named (st : daemon) : Prop :=
  forall id conn, conns st !! id = Some conn ->
    c_logon_complete conn = true -> nonempty (c_from conn) = true.

(** The texts of the queue are not empty. *)
Definition queue_texts (st : daemon) : Prop :=
  Forall (fun q => 0 < strlen (q_msg q)) (queued_msgs st).

(** [c'] is [c] but for its out-buffer. *)
Definition same_logon (c c' : conn_t) : Prop :=
  c_from c' = c_from c /\ c_to c' = c_to c /\
  c_logon_complete c' = c_logon_complete c.

(** [st'] has the index and the connections of [st]; the connections
    may differ in their out-buffers. *)
Definition same_logons (st st' : daemon) : Prop :=
  conns_by_from st' = conns_by_from st /\
  forall id, option_Forall2 same_logon (conns st !! id) (conns st' !! id).

(** The bytes waiting in an out-buffer. *)
Definition outbuf_text (c : conn_t) : string :=
  default EmptyString (c_outbuf c).

(** Every connection of [st] is in [st'], with the bytes it had waiting
    and possibly more behind them. *)
Definition outbufs_grow (st st' : daemon) : Prop :=
  forall id c, conns st !! id = Some c ->
    exists c' more, conns st' !! id = Some c' /\
      outbuf_text c' = String.append (outbuf_text c) more.

(** The callsigns the daemon holds fit their arrays of [CALLSIGN_LEN]
    bytes, terminator included. *)
Definition fits_callsign (s : string) : Prop :=
  (String.length s < CALLSIGN_LEN)%nat.

Definition callsigns_fit (st : daemon) : Prop :=
  (forall id conn, conns st !! id = Some conn ->
     fits_callsign (c_from conn) /\ fits_callsign (c_to conn)) /\
  Forall (fun q => fits_callsign (q_from q) /\ fits_callsign (q_to q))
         (queued_msgs st).

(** What the handlers ask of their caller: input, output and closing
    are for a connection of the tree, and output is for one with bytes
    waiting. *)
Definition event_ready (st : daemon) (e : event) : Prop :=
  match e with
  | EvAccept _ | EvQueue => True
  | EvInput id _ _ | EvClose id => is_Some (conns st !! id)
  | EvOutput id _ =>
      exists conn, conns st !! id = Some conn /\ is_Some (c_outbuf conn)
  end.

(** Every logon message of the input of a call of [handle_conn_input]
    has a FROM header. *)
Definition input_has_from
    (pollin : option (list (list cpdlc_msg) * input_end)) : Prop :=
  match pollin with
  | Some (rounds, e) =>
      Forall (fun msg => msg_is_logon msg = true ->
                         nonempty (cpdlc_msg_get_from msg) = true)
             (concat rounds ++
              match e with InputUndecodable msgs => msgs | _ => [] end)
  | None => True
  end.

(** The input closes the connection: the call of [handle_conn_input]
    ends otherwise than for want of bytes. *)
Definition input_closes
    (pollin : option (list (list cpdlc_msg) * input_end)) : bool :=
  match pollin with
  | Some (_, InputAgain) | None => false
  | Some (_, _) => true
  end.

(** Every logon message of the event has a FROM header. *)
Definition logons_have_from (e : event) : Prop :=
  match e with
  | EvInput _ msgs _ =>
      Forall (fun msg => msg_is_logon msg = true ->
                         nonempty (cpdlc_msg_get_from msg) = true) msgs
  | _ => True
  end.

(** What [handle_queued_msgs] does with an entry: it is delivered when
    a connection is listed under its [to], dropped when it is not and
    the entry is older than [QUEUED_MSG_TIMEOUT] seconds, and kept
    otherwise. *)
Definition deliverable (st : daemon) (q : queued_msg_t) : bool :=
  match conns_by_from st !! q_to q with
  | Some (_ :: _) => true
  | _ => false
  end.

Definition expired (now : Z) (q : queued_msg_t) : bool :=
  QUEUED_MSG_TIMEOUT <? now - q_created q.

Definition stays_queued (st : daemon) (now : Z) (q : queued_msg_t) : bool :=
  negb (deliverable st q) && negb (expired now q).

(** The connection [id] is listed under the [to] of the entry. *)
Definition addressed (st : daemon) (id : nat) (q : queued_msg_t) : bool :=
  bool_decide (id ∈ default [] (conns_by_from st !! q_to q)).

(** A connection after texts were appended to its out-buffer, one after
    the other. *)
Definition append_text (c : conn_t) (text : string) : conn_t :=
  conn_set_outbuf c (Some (String.append (outbuf_text c) text)).

Definition append_texts (c : conn_t) (texts : list string) : conn_t :=
  foldl append_text c texts.

(** The connection [id] is listed under the callsign [key]. *)
Definition listed (st : daemon) (key : string) (id : nat) : Prop :=
  exists l, conns_by_from st !! key = Some l /\ id ∈ l.

End Daemon.

(** *** A codec and messages to run the daemon on *)

Section Scenarios.

(** The text of a message: its headers and the first argument of its
    first segment, cut at 200 characters, on one line. *)
Definition line_encode (msg : cpdlc_msg) : string :=
  String.append
    (substring 0 200
       (String.append "FROM="
          (String.append (msg_from msg)
             (String.append " TO="
                (String.append (msg_to msg)
                   (String.append " "
                      (match msg_segs msg with
                       | s :: _ => hd EmptyString (seg_args s)
                       | [] => EmptyString
                       end)))))))
    (String (ascii_of_nat 10) EmptyString).

(** [cpdlc_msg_alloc] with the arguments as MIN and MRN; a
    [queued_msg_t] of 64 bytes. *)
Definition line_codec : Codec := {|
  cpdlc_msg_encode := line_encode;
  cpdlc_msg_alloc := fun min mrn =>
    {| msg_min := min; msg_mrn := mrn; msg_from := EmptyString;
       msg_to := EmptyString; msg_is_logon := false; msg_segs := [] |};
  sizeof_queued_msg := 64;
|}.

(** A catalog that gives every type the class NONE and no timeout. *)
Definition plain_catalog : Catalog := {|
  CPDLC_INVALID_MSG_SEQ_NR := UINT32_MAX;
  CPDLC_NO_MSG_THR_ID := UINT32_MAX;
  cpdlc_infos := fun _ _ => (CPDLC_RESP_NONE, 0);
|}.

#[local] Existing Instance line_codec.
#[local] Existing Instance plain_catalog.

(** A logon message. *)
Definition logon (from to : string) : cpdlc_msg :=
  {| msg_min := 0; msg_mrn := UINT32_MAX; msg_from := from; msg_to := to;
     msg_is_logon := true; msg_segs := [] |}.

(** A downlink with a free text, without a FROM header. *)
Definition text_msg (to text : string) : cpdlc_msg :=
  {| msg_min := 1; msg_mrn := UINT32_MAX; msg_from := EmptyString;
     msg_to := to; msg_is_logon := false;
     msg_segs := [{| seg_info := {| is_dl := true; msg_type := 67;
                                    resp := CPDLC_RESP_NONE; timeout := 0 |};
                     seg_args := [text] |}] |}.

(** A run of events, each with the time it is handled at. *)
Fixpoint run (st : daemon) (events : list (Z * event)) : result daemon :=
  match events with
  | [] => Ok st
  | (now, e) :: rest => do st' <- step st now e; run st' rest
  end.

(** The state of a run that returned. *)
Definition state_of (r : result daemon) : daemon :=
  match r with
  | Ok st => st
  | Abort _ => init_structs
  end.

(** Connection 1 is accepted and logs on without a FROM header. *)
Definition logon_without_from : result daemon :=
  run init_structs
    [(10, EvAccept 1%nat);
     (11, EvInput 1%nat [logon EmptyString "ATC1"] true)].


(** Connections 1 and 2 log on as ATC1, connection 3 as N123 with the
    peer ATC1. *)
Definition three_logged_on : result daemon :=
  run init_structs
    [(10, EvAccept 1%nat); (10, EvAccept 2%nat); (10, EvAccept 3%nat);
     (11, EvInput 1%nat [logon "ATC1" EmptyString] true);
     (12, EvInput 2%nat [logon "ATC1" EmptyString] true);
     (13, EvInput 3%nat [logon "N123" "ATC1"] true)].

(** Connection 3 logs on as N123 with the peer ATC1, who is absent, and
    sends a message. *)
Definition queued_for_absent : result daemon :=
  run init_structs
    [(10, EvAccept 3%nat);
     (13, EvInput 3%nat [logon "N123" "ATC1"; text_msg EmptyString "HELLO"] true)].

(** The run [queued_for_absent], after which connection 1 is accepted
    and logs on as ATC1. *)
Definition absent_logs_on : result daemon :=
  run init_structs
    [(10, EvAccept 3%nat);
     (13, EvInput 3%nat [logon "N123" "ATC1"; text_msg EmptyString "HELLO"] true);
     (20, EvAccept 1%nat);
     (21, EvInput 1%nat [logon "ATC1" EmptyString] true)].

End Scenarios.

End Cpdlcd.

(** ** The trees of the daemon and their comparators ([cpdlcd.c]) *)

Module CpdlcdTrees.
Import Cpdlc Cpdlcd.

(** [sizeof (socklen_t)] *)
Definition sizeof_socklen_t : nat := 4.

(** The address of a connection or of a listening socket: the bytes of
    [addr] and [addr_len]. *)
Record address := {
  addr : list Z;
  addr_len : Z;
}.

(** What a comparator returns for the sign of a comparison. *)
Definition sign_of (c : comparison) : Z :=
  match c with
  | Lt => -1
  | Eq => 0
  | Gt => 1
  end.

(** [memcmp(a, b, n)]: the order of the first bytes that differ among
    the first [n]. *)
Fixpoint memcmp (a b : list Z) (n : nat) : comparison :=
  match n, a, b with
  | S n', x :: a', y :: b' =>
      match x ?= y with
      | Eq => memcmp a' b' n'
      | c => c
      end
  | _, _, _ => Eq
  end.

(** [strcmp(a, b)]: the order of the first characters that differ, as
    [unsigned char]; the terminator is below every character. *)
Fixpoint strcmp (a b : string) : comparison :=
  match a, b with
  | EmptyString, EmptyString => Eq
  | EmptyString, String _ _ => Lt
  | String _ _, EmptyString => Gt
  | String x a', String y b' =>
      match Nat.compare (nat_of_ascii x) (nat_of_ascii y) with
      | Eq => strcmp a' b'
      | c => c
      end
  end.

Definition atc_compar (aa ab : string) : Z := sign_of (strcmp aa ab).

Definition conn_compar (ca cb : address) : Z :=
  if addr_len ca <? addr_len cb then -1
  else if addr_len cb <? addr_len ca then 1
  else sign_of (memcmp (addr ca) (addr cb) sizeof_socklen_t).

Definition listen_sock_compar (la lb : address) : Z :=
  if addr_len la <? addr_len lb then -1
  else if addr_len lb <? addr_len la then 1
  else sign_of (memcmp (addr la) (addr lb) sizeof_socklen_t).

(** An AVL tree by the nodes it holds; [avl_find] returns a node the
    comparator finds equal to the one it is given. *)
Definition avl_find {A : Type} (compar : A -> A -> Z) (tree : list A) (x : A)
    : option A :=
  List.find (fun y => compar x y =? 0) tree.

Definition avl_insert {A : Type} (tree : list A) (x : A) : list A := x :: tree.

(** [add_atc] on the tree [atcs]. *)
Definition add_atc (atcs : list string) (callsign : string)
    : list string * bool :=
  let atc := lacf_strlcpy callsign CALLSIGN_LEN in
  match avl_find atc_compar atcs atc with
  | Some _ => (atcs, false)
  | None => (avl_insert atcs atc, true)
  end.

(** The calls of [add_atc] a configuration makes, in their order, as
    long as they succeed. *)
Fixpoint add_atcs (atcs : list string) (callsigns : list string)
    : list string * bool :=
  match callsigns with
  | [] => (atcs, true)
  | c :: rest =>
      let (atcs', ok) := add_atc atcs c in
      if ok then add_atcs atcs' rest else (atcs', false)
  end.

(** [handle_accepts] for one connection [accept] returned, with what
    [blocklist_check] says of its address: the tree of the connections
    by their addresses. *)
Definition handle_accepts_one (conns : list address) (conn : address)
    (allowed : bool) : list address :=
  if negb allowed then conns
  else match avl_find conn_compar conns conn with
       | Some _ => conns
       | None => avl_insert conns conn
       end.

End CpdlcdTrees.

(** ** Timed waits ([cpdlc_thread.h], the POSIX branch) *)

Module Thread.

Record timespec := {
  tv_sec : Z;
  tv_nsec : Z;
}.

(** [x] as a [time_t] or a [long] of 64 bits holds it. *)
Definition to_int64 (x : Z) : Z := (x + 2 ^ 63) mod 2 ^ 64 - 2 ^ 63.

(** The [struct timespec] that [cv_timedwait] hands to
    [pthread_cond_timedwait] for the [uint64_t] [limit], a time in
    microseconds. *)
Definition cv_timedwait_ts (limit : Z) : timespec :=
  {| tv_sec := to_int64 (limit / 1000000);
     tv_nsec := to_int64 (((limit mod 1000000) * 1000) mod 2 ^ 64) |}.

End Thread.

(** ** The input of a connection ([cpdlcd.c]) *)

Module CpdlcdInput.
Import Cpdlc Cpdlcd.

Definition READ_BUF_SZ : Z := 4096.
Definition MAX_BUF_SZ : Z := 8192.
Definition MAX_BUF_SZ_NO_LOGON : Z := 128.

(** [cpdlc_msg_decode(in, &msg, &consumed)] is not under src/. It
    returns false ([None]) for a malformed message; else it sets [msg]
    to the message at the head of [in], or to NULL when no complete one
    is there, and [consumed] to the number of bytes the message
    takes. *)
Class Decoder := {
  cpdlc_msg_decode : string -> option (option cpdlc_msg * Z);
}.

(** What [gnutls_handshake] and [gnutls_record_recv] return to a turn
    of the loop of [handle_conn_input]; [RecvData] holds the bytes that
    were read, at most [READ_BUF_SZ], none when the peer closed. *)
Inductive handshake_result :=
| HandshakeSuccess
| HandshakeAgain
| HandshakeError.

Inductive recv_result :=
| RecvAgain
| RecvSoftError
| RecvFatalError
| RecvData (buf : string).

(** The fields of a connection the input side reads and writes;
    [inbuf_sz] is the length of [inbuf]. *)
Record conn_input := {
  tls_handshake_complete : bool;
  inbuf : string;
}.

(** How a turn of the loop ends: the connection was closed and false
    returned, true was returned, or the loop goes on. *)
Inductive turn_result :=
| TurnClosed
| TurnReturn (c : conn_input)
| TurnAgain (c : conn_input).

(** [&s[n]] as a string. *)
Definition string_drop (n : nat) (s : string) : string :=
  substring n (String.length s - n) s.

(** [buf[i] == 0 || buf[i] > 127] holds for no byte. *)
Definition plain_byte (a : ascii) : bool :=
  negb (Nat.eqb (nat_of_ascii a) 0) && Nat.leb (nat_of_ascii a) 127.

Definition plain_text (buf : string) : bool :=
  forallb plain_byte (list_ascii_of_string buf).

Section Input.
Context `{Codec} `{Catalog} `{Decoder}.

(** The loop of [conn_process_input] from [consumed_total] on; [None]
    when [fuel] turns do not end it. It returns the state and, unless a
    message was malformed, [consumed_total]. *)
Fixpoint conn_process_input_loop (fuel : nat) (st : daemon) (now : Z)
    (id : nat) (inbuf : string) (consumed_total : Z)
    : option (result (daemon * option Z)) :=
  match fuel with
  | O => None
  | S fuel =>
      if negb ((0 <=? consumed_total) && (consumed_total <=? strlen inbuf))
      then Some (Abort BadPointer)
      else
        match cpdlc_msg_decode
                (string_drop (Z.to_nat consumed_total) inbuf) with
        | None => Some (Ok (st, None))
        | Some (None, _) => Some (Ok (st, Some consumed_total))
        | Some (Some msg, consumed) =>
            if consumed =? 0 then Some (Abort AssertFailed)
            else
              match conn_process_msg st now id msg with
              | Abort f => Some (Abort f)
              | Ok st =>
                  conn_process_input_loop fuel st now id inbuf
                    (to_int (consumed_total + consumed))
              end
        end
  end.

(** [conn_process_input] on the in-buffer of the connection: the state,
    and the in-buffer that is left unless false is returned. *)
Definition conn_process_input_buf (fuel : nat) (st : daemon) (now : Z)
    (id : nat) (inbuf : string) : option (result (daemon * option string)) :=
  if strlen inbuf =? 0 then Some (Abort AssertFailed)
  else
    match conn_process_input_loop fuel st now id inbuf 0 with
    | None => None
    | Some (Abort f) => Some (Abort f)
    | Some (Ok (st, None)) => Some (Ok (st, None))
    | Some (Ok (st, Some consumed_total)) =>
        if consumed_total =? 0 then Some (Ok (st, Some inbuf))
        else if consumed_total <=? strlen inbuf
        then Some (Ok (st, Some (string_drop (Z.to_nat consumed_total) inbuf)))
        else Some (Abort AssertFailed)
    end.

Definition close_and_fail (st : daemon) (id : nat)
    : option (result (daemon * turn_result)) :=
  Some (do st <- close_conn st id; Ok (st, TurnClosed)).

(** One turn of the loop of [handle_conn_input]. *)
Definition handle_conn_input_turn (fuel : nat) (st : daemon) (now : Z)
    (id : nat) (c : conn_input) (hs : handshake_result) (r : recv_result)
    : option (result (daemon * turn_result)) :=
  match conn_at st id with
  | Abort f => Some (Abort f)
  | Ok conn =>
      let max_inbuf_sz :=
        if nonempty (c_from conn) then MAX_BUF_SZ else MAX_BUF_SZ_NO_LOGON in
      let after_handshake :=
        if tls_handshake_complete c then Some true
        else match hs with
             | HandshakeSuccess => Some true
             | HandshakeAgain => Some false
             | HandshakeError => None
             end in
      match after_handshake with
      | None => close_and_fail st id
      | Some false => Some (Ok (st, TurnReturn c))
      | Some true =>
          let c := {| tls_handshake_complete := true; inbuf := inbuf c |} in
          match r with
          | RecvAgain => Some (Ok (st, TurnReturn c))
          | RecvSoftError => Some (Ok (st, TurnAgain c))
          | RecvFatalError => close_and_fail st id
          | RecvData buf =>
              if strlen buf =? 0 then close_and_fail st id
              else if negb (plain_text buf) then close_and_fail st id
              else if max_inbuf_sz <? strlen (inbuf c) + strlen buf
              then close_and_fail st id
              else
                match conn_process_input_buf fuel st now id
                        (String.append (inbuf c) buf) with
                | None => None
                | Some (Abort f) => Some (Abort f)
                | Some (Ok (st, None)) => close_and_fail st id
                | Some (Ok (st, Some inbuf')) =>
                    Some (Ok (st, TurnAgain
                                    {| tls_handshake_complete := true;
                                       inbuf := inbuf' |}))
                end
          end
      end
  end.

(** [handle_conn_input] over what the library calls return, turn after
    turn. *)
Fixpoint handle_conn_input_reads (fuel : nat) (st : daemon) (now : Z)
    (id : nat) (c : conn_input)
    (reads : list (handshake_result * recv_result))
    : option (result (daemon * turn_result)) :=
  match reads with
  | [] => Some (Ok (st, TurnAgain c))
  | (hs, r) :: rest =>
      match handle_conn_input_turn fuel st now id c hs r with
      | Some (Ok (st, TurnAgain c)) =>
          handle_conn_input_reads fuel st now id c rest
      | other => other
      end
  end.

(** The messages at the head of a text, and the text that is left
    unless a message is malformed. *)
Fixpoint decode_all (fuel : nat) (text : string)
    : list cpdlc_msg * option string :=
  match fuel with
  | O => ([], Some text)
  | S fuel =>
      match cpdlc_msg_decode text with
      | None => ([], None)
      | Some (None, _) => ([], Some text)
      | Some (Some msg, consumed) =>
          let (msgs, rest) :=
            decode_all fuel (string_drop (Z.to_nat consumed) text) in
          (msg :: msgs, rest)
      end
  end.

End Input.

(** *** A decoder to run the input on *)

(** The number of bytes up to a line feed and with it, if there is
    one. *)
Fixpoint line_end (s : string) : option nat :=
  match s with
  | EmptyString => None
  | String a s' =>
      if Nat.eqb (nat_of_ascii a) 10 then Some 1%nat
      else match line_end s' with
           | Some n => Some (S n)
           | None => None
           end
  end.

(** A message is a line: a free text for ATC1. A line that starts with
    a question mark is malformed. *)
Definition line_decode (text : string) : option (option cpdlc_msg * Z) :=
  match line_end text with
  | None => Some (None, 0)
  | Some n =>
      match text with
      | String "?" _ => None
      | _ => Some (Some (text_msg "ATC1" (substring 0 (n - 1) text)),
                   Z.of_nat n)
      end
  end.

Definition line_decoder : Decoder := {| cpdlc_msg_decode := line_decode |}.

(** A connection before its handshake, and the bytes HEL, then LO, a
    line feed and WOR. *)
Definition fresh_input : conn_input :=
  {| tls_handshake_complete := false; inbuf := EmptyString |}.

Definition two_reads : list (handshake_result * recv_result) :=
  [(HandshakeSuccess, RecvData "HEL");
   (HandshakeSuccess,
    RecvData (String.append "LO" (String (ascii_of_nat 10) "WOR")));
   (HandshakeSuccess, RecvAgain)].

End CpdlcdInput.


(** * Properties of the engine *)

(** ** The [result] monad *)

Lemma rbind_Ok {A B : Type} (r : result A) (k : A -> result B) (b : B) :
  rbind r k = Ok b <-> exists a, r = Ok a /\ k a = Ok b.
Proof.
  destruct r as [a|f]; simpl; split.
  - intros Hk. exists a. auto.
  - intros (a' & Ha & Hk). congruence.
  - discriminate.
  - intros (a' & Ha & _). discriminate.
Qed.

Lemma rbind_Abort {A B : Type} (r : result A) (k : A -> result B) (f : failure) :
  rbind r k = Abort f <-> r = Abort f \/ exists a, r = Ok a /\ k a = Abort f.
Proof.
  destruct r as [a|f']; simpl; split.
  - intros Hk. right. exists a. auto.
  - intros [Hr|(a' & Ha & Hk)]; congruence.
  - intros Hf. left. congruence.
  - intros [Hr|(a' & Ha & _)]; congruence.
Qed.

Lemma ASSERT_Ok (b : bool) (u : unit) : ASSERT b = Ok u <-> b = true.
Proof. destruct b, u; simpl; split; congruence. Qed.

(** Splits a hypothesis [do x <- r; k = Ok b] into its two halves. *)
Tactic Notation "bind_inv" hyp(H) :=
  let a := fresh "a" in
  let Ha := fresh "Hr" in
  apply rbind_Ok in H; destruct H as (a & Ha & H).

(** Proves [x ∈ [x1; ...; xn]] for an [x] that is one of the entries. *)
Ltac in_list :=
  repeat first [apply list_elem_of_here | apply list_elem_of_further].

Tactic Notation "bind_inv" hyp(H) "as" simple_intropattern(x) ident(Hx) :=
  apply rbind_Ok in H; destruct H as (x & Hx & H).


Module MsglistFacts.
Import Cpdlc Msglist.

Section Facts.
Context {client : Type} `{ClientTransport client} `{Catalog}.

Implicit Types (ml : cpdlc_msglist client) (thr t : msg_thr)
  (l : list msg_thr) (msg : cpdlc_msg) (clk : clock) (i k : nat).

Lemma thr_evolves_refl t : thr_evolves t t.
Proof.
  repeat split; auto. exists []. by rewrite app_nil_r.
Qed.

Lemma thr_evolves_trans t1 t2 t3 :
  thr_evolves t1 t2 -> thr_evolves t2 t3 -> thr_evolves t1 t3.
Proof.
  intros (Hid1 & [m1 Hb1] & Hf1 & Hc1) (Hid2 & [m2 Hb2] & Hf2 & Hc2).
  repeat split.
  - congruence.
  - exists (m1 ++ m2). rewrite Hb2, Hb1. by rewrite app_assoc.
  - intros Hfin. rewrite Hf2; rewrite Hf1; auto.
  - intros Hcl. rewrite Hc2, Hc1; auto. rewrite Hf1; auto.
    rewrite Hcl. reflexivity.
Qed.

Lemma thrs_evolve_refl l : thrs_evolve l l.
Proof.
  exists [], l. split; [reflexivity|].
  induction l; constructor; auto using thr_evolves_refl.
Qed.

Lemma thrs_evolve_trans l1 l2 l3 :
  thrs_evolve l1 l2 -> thrs_evolve l2 l3 -> thrs_evolve l1 l3.
Proof.
  intros (n1 & o1 & -> & H1) (n2 & o2 & -> & H2).
  apply Forall2_app_inv_l in H2 as (o2a & o2b & Ha & Hb & ->).
  exists (n2 ++ o2a), o2b. split; [by rewrite app_assoc|].
  clear Ha. revert o2b Hb.
  induction H1; intros o2b Hb; inversion Hb; subst; constructor;
    eauto using thr_evolves_trans.
Qed.

Lemma thrs_evolve_cons l t : thrs_evolve l (t :: l).
Proof.
  exists [t], l. split; [reflexivity|].
  induction l; constructor; auto using thr_evolves_refl.
Qed.

Lemma thrs_evolve_length l l' : thrs_evolve l l' -> (length l <= length l')%nat.
Proof.
  intros (new & old & -> & HF). apply Forall2_length in HF.
  rewrite length_app. lia.
Qed.

(** A thread of [l] sits in [l'] as many places further down as threads
    were inserted at the head. *)
Lemma thrs_evolve_lookup l l' i t :
  thrs_evolve l l' -> l !! i = Some t ->
  exists t', l' !! (i + (length l' - length l))%nat = Some t' /\ thr_evolves t t'.
Proof.
  intros (new & old & -> & HF) Hi.
  pose proof (Forall2_length _ _ _ HF) as Hlen.
  destruct (Forall2_lookup_l _ _ _ _ _ HF Hi) as (t' & Ht' & Hev).
  exists t'. split; [|done].
  rewrite length_app.
  replace (i + (length new + length old - length l))%nat
    with (length new + i)%nat by lia.
  by rewrite lookup_app_r, Nat.add_comm, Nat.add_sub by lia.
Qed.

Lemma thrs_evolve_alter l i f :
  (forall t, l !! i = Some t -> thr_evolves t (f t)) ->
  thrs_evolve l (alter f i l).
Proof.
  intros Hf. exists [], (alter f i l). split; [reflexivity|].
  revert i Hf. induction l as [|a l IH]; intros i Hf; [constructor|].
  destruct i as [|i]; simpl.
  - constructor; [by apply Hf|].
    clear. induction l; constructor; auto using thr_evolves_refl.
  - constructor; [apply thr_evolves_refl|]. apply IH. intros t Ht. by apply Hf.
Qed.

(** After an evolution, a change of status or dirty flag of a thread
    that was not final when the evolution began is an evolution too. *)
Lemma thrs_evolve_alter_after l l' i t g :
  thrs_evolve l l' -> l !! i = Some t ->
  thr_status_is_final (thr_status t) = false ->
  (forall t', thr_id (g t') = thr_id t' /\ thr_buckets (g t') = thr_buckets t') ->
  thrs_evolve l (alter g (i + (length l' - length l))%nat l').
Proof.
  intros (new & old & -> & HF) Hi Hnf Hg.
  pose proof (Forall2_length _ _ _ HF) as Hlen.
  rewrite length_app.
  replace (i + (length new + length old - length l))%nat
    with (length new + i)%nat by lia.
  exists new, (alter g i old). split.
  - by rewrite alter_app_r.
  - clear Hlen. revert i Hi. induction HF as [|a b l o Hab HF IH]; intros i Hi;
      [constructor|].
    destruct i as [|i]; simpl in *.
    + constructor; [|done]. injection Hi as ->.
      destruct Hab as (Hid & [m Hb] & Hf & Hc). destruct (Hg b) as [Hgi Hgb].
      repeat split.
      * congruence.
      * exists m. congruence.
      * intros Hfin. congruence.
      * intros Hcl. rewrite Hcl in Hnf. discriminate.
    + constructor; [done|]. by apply IH.
Qed.

(** ** Pointers and lookups *)

Lemma thr_at_Ok ml i t : thr_at ml i = Ok t <-> ml_thr ml !! i = Some t.
Proof.
  unfold thr_at. destruct (ml_thr ml !! i); split; congruence.
Qed.

Lemma thr_lookup_id_Some id l i :
  thr_lookup_id id l = Some i ->
  exists t, l !! i = Some t /\ thr_id t = id.
Proof.
  revert i. induction l as [|t l IH]; intros i Hl; simpl in Hl; [discriminate|].
  destruct (thr_id t =? id) eqn:Hid.
  - injection Hl as <-. exists t. split; [reflexivity|]. by apply Z.eqb_eq.
  - destruct (thr_lookup_id id l) as [j|]; [|discriminate].
    injection Hl as <-. destruct (IH j eq_refl) as (t' & Ht' & Hid').
    exists t'. auto.
Qed.

Lemma find_msg_thr_Ok ml id ml' i :
  find_msg_thr ml id = Ok (ml', i) ->
  (id <> CPDLC_NO_MSG_THR_ID /\ ml' = ml /\
   thr_lookup_id id (ml_thr ml) = Some i) \/
  (id = CPDLC_NO_MSG_THR_ID /\ ml' = with_new_thr ml /\ i = O).
Proof.
  unfold find_msg_thr. destruct (id =? CPDLC_NO_MSG_THR_ID) eqn:Hid; simpl.
  - intros [= <- <-]. right. apply Z.eqb_eq in Hid. auto.
  - destruct (thr_lookup_id id (ml_thr ml)) as [j|] eqn:Hl; [|discriminate].
    intros [= <- <-]. left. apply Z.eqb_neq in Hid. auto.
Qed.

Lemma find_msg_thr_valid ml id ml' i :
  find_msg_thr ml id = Ok (ml', i) ->
  exists t, ml_thr ml' !! i = Some t /\
    (id <> CPDLC_NO_MSG_THR_ID -> thr_id t = id) /\
    (id = CPDLC_NO_MSG_THR_ID -> t = new_thr (ml_next_thr_id ml)).
Proof.
  intros Hf. apply find_msg_thr_Ok in Hf as [(Hid & -> & Hl)|(Hid & -> & ->)].
  - apply thr_lookup_id_Some in Hl as (t & Ht & Htid). exists t.
    split; [done|]. split; [done|]. intros; contradiction.
  - exists (new_thr (ml_next_thr_id ml)). split; [reflexivity|].
    split; [intros; contradiction|done].
Qed.

(** ** What [msglist_send_impl] does *)

(** An equation for a run of [msglist_send_impl] that returns: [ml1] is
    the state after [find_msg_thr], [t] the thread it returned. *)
Lemma msglist_send_impl_Ok ml clk msg id ml' i :
  msglist_send_impl ml clk msg id = Ok (ml', i) ->
  exists ml1 t,
    find_msg_thr ml id = Ok (ml1, i) /\
    ml_thr ml1 !! i = Some t /\
    (id <> CPDLC_NO_MSG_THR_ID -> thr_status_is_final (thr_status t) = false) /\
    ml_thr ml' =
      <[i := thr_insert_tail (sent_bucket ml clk (thr_buckets t) msg)
               (thr_set_status
                  (if id =? CPDLC_NO_MSG_THR_ID then CPDLC_MSG_THR_OPEN
                   else thr_status t) t)]> (ml_thr ml1) /\
    ml_min ml' = u32_incr (ml_min ml) /\
    ml_next_thr_id ml' = ml_next_thr_id ml1 /\
    ml_update_cb ml' = ml_update_cb ml /\
    ml_mrn ml' = ml_mrn ml /\
    ml_cl ml' = fst (cpdlc_client_send_msg (ml_cl ml)
                       (b_msg (sent_bucket ml clk (thr_buckets t) msg))).
Proof.
  intros Hs. unfold msglist_send_impl in Hs.
  bind_inv Hs. destruct a as [ml1 j]. bind_inv Hs. rename a into t.
  apply thr_at_Ok in Hr0. bind_inv Hs. rename a into st.
  assert (Hmin : ml_min ml1 = ml_min ml /\ ml_cl ml1 = ml_cl ml /\
                 ml_update_cb ml1 = ml_update_cb ml /\ ml_mrn ml1 = ml_mrn ml).
  { apply find_msg_thr_Ok in Hr as [(_ & -> & _)|(_ & -> & _)]; auto. }
  destruct Hmin as (Hmin & Hcl & Hcb & Hmrn).
  destruct (cpdlc_client_send_msg _ _) as [cl tok] eqn:Hsend.
  injection Hs as <- <-. exists ml1, t.
  assert (Hst : st = (if id =? CPDLC_NO_MSG_THR_ID then CPDLC_MSG_THR_OPEN
                      else thr_status t) /\
                (id <> CPDLC_NO_MSG_THR_ID ->
                 thr_status_is_final (thr_status t) = false)).
  { destruct (id =? CPDLC_NO_MSG_THR_ID) eqn:Hid.
    - injection Hr1 as <-. apply Z.eqb_eq in Hid. split; [done|]. intros; contradiction.
    - bind_inv Hr1. injection Hr1 as <-. apply ASSERT_Ok in Hr2.
      split; [done|]. intros _. by apply negb_true_iff in Hr2. }
  destruct Hst as [-> Hnf]. simpl.
  unfold sent_bucket. rewrite <- Hmin, <- Hcl. simpl. rewrite Hsend. simpl.
  repeat split; auto.
  apply list_eq. intros k. destruct (decide (k = j)) as [->|Hne].
  - rewrite list_lookup_alter_eq, list_lookup_insert_eq by (by eapply lookup_lt_Some).
    by rewrite Hr0.
  - by rewrite list_lookup_alter_ne, list_lookup_insert_ne by done.
Qed.

(** ** What [thr_status_upd] does *)

Lemma thr_status_upd_Ok ml clk i ml' :
  thr_status_upd ml clk i = Ok ml' ->
  exists thr, ml_thr ml !! i = Some thr /\
    ((thr_status_is_final (thr_status thr) = true /\ ml' = ml) \/
     (thr_status_is_final (thr_status thr) = false /\
      thr_buckets thr <> [] /\ upd_outcome ml clk i thr ml')).
Proof.
  intros Hu. unfold thr_status_upd in Hu. bind_inv Hu. rename a into thr.
  apply thr_at_Ok in Hr. exists thr. split; [done|].
  destruct (thr_status_is_final (thr_status thr)) eqn:Hfin.
  { left. by injection Hu as <-. }
  right. split; [done|].
  destruct (thr_buckets thr) as [|first rest] eqn:Hb; [discriminate|].
  split; [done|].
  repeat match type of Hu with
  | rbind _ _ = Ok _ => bind_inv Hu
  | (if ?c then _ else _) = Ok _ => destruct c eqn:?
  end;
  try (injection Hu as <-;
       first [ apply upd_same
             | apply upd_stored; intros; split; reflexivity ]).
  match goal with
  | Hs : msglist_send_impl _ _ _ _ = Ok ?p |- _ => destruct p as [ml1 j]
  end.
  injection Hu as <-. eapply upd_timedout; eauto.
Qed.

(** ** Every operation but [remove_thr] evolves the thread list *)

Lemma find_msg_thr_evolves ml id ml' i :
  find_msg_thr ml id = Ok (ml', i) -> thrs_evolve (ml_thr ml) (ml_thr ml').
Proof.
  intros Hf. apply find_msg_thr_Ok in Hf as [(_ & -> & _)|(_ & -> & _)].
  - apply thrs_evolve_refl.
  - apply thrs_evolve_cons.
Qed.

Lemma msglist_send_impl_evolves ml clk msg id ml' i :
  msglist_send_impl ml clk msg id = Ok (ml', i) ->
  thrs_evolve (ml_thr ml) (ml_thr ml').
Proof.
  intros Hs. apply msglist_send_impl_Ok in Hs
    as (ml1 & t & Hf & Ht & Hnf & -> & _).
  eapply thrs_evolve_trans; [by eapply find_msg_thr_evolves|].
  rewrite list_insert_alter. apply thrs_evolve_alter. intros t' Ht'.
  rewrite Ht in Ht'. injection Ht' as <-.
  assert (Hfin : thr_status_is_final (thr_status t) = false).
  { apply find_msg_thr_valid in Hf as (t' & Ht' & Hid & Hnew).
    rewrite Ht in Ht'. injection Ht' as <-.
    destruct (decide (id = CPDLC_NO_MSG_THR_ID)) as [He|Hne]; [|by apply Hnf].
    by rewrite (Hnew He). }
  repeat split; simpl.
  - by eexists.
  - rewrite Hfin. discriminate.
  - intros Hcl. rewrite Hcl in Hfin. discriminate.
Qed.

Lemma thr_status_upd_evolves ml clk i ml' :
  thr_status_upd ml clk i = Ok ml' -> thrs_evolve (ml_thr ml) (ml_thr ml').
Proof.
  intros Hu. apply thr_status_upd_Ok in Hu
    as (thr & Hi & [[_ ->]|(Hnf & _ & Hout)]); [apply thrs_evolve_refl|].
  destruct Hout as [|g Hg|first rest ml1 j Hb Hs]; simpl.
  - apply thrs_evolve_refl.
  - apply thrs_evolve_alter. intros t Ht. rewrite Hi in Ht. injection Ht as <-.
    destruct (Hg thr) as [Hgi Hgb]. repeat split.
    + done.
    + exists []. by rewrite app_nil_r.
    + rewrite Hnf. discriminate.
    + done.
  - apply msglist_send_impl_evolves in Hs.
    eapply thrs_evolve_alter_after; eauto.
Qed.

(** ** The walks from the tail *)

Lemma find_from_tail_Some {A : Type} (p : A -> result bool) (xs : list A) i :
  find_from_tail p xs = Ok (Some i) ->
  exists x, xs !! i = Some x /\ p x = Ok true.
Proof.
  revert i. induction xs as [|x xs IH]; intros i Hf; simpl in Hf; [discriminate|].
  bind_inv Hf. destruct a as [j|].
  - injection Hf as <-. destruct (IH j Hr) as (y & Hy & Hp). exists y. auto.
  - bind_inv Hf. destruct a; [|discriminate]. injection Hf as <-.
    exists x. auto.
Qed.

Lemma find_from_tail_None {A : Type} (p : A -> result bool) (xs : list A) :
  find_from_tail p xs = Ok None <-> Forall (fun x => p x = Ok false) xs.
Proof.
  induction xs as [|x xs IH]; simpl.
  - split; [constructor|reflexivity].
  - split.
    + intros Hf. bind_inv Hf. destruct a as [j|]; [discriminate|].
      bind_inv Hf. destruct a; [discriminate|].
      constructor; [done|]. by apply IH.
    + intros HF. inversion HF as [|? ? Hx Hxs]; subst.
      apply IH in Hxs. rewrite Hxs. simpl. rewrite Hx. reflexivity.
Qed.

(** The thread [msg_thr_find_by_mrn] returns is not CLOSED and holds a
    bucket the message matches. *)
Lemma msg_thr_find_by_mrn_Some ml msg i :
  msg_thr_find_by_mrn ml msg = Ok (Some i) ->
  exists t, ml_thr ml !! i = Some t /\
    thr_status t <> CPDLC_MSG_THR_CLOSED /\
    cpdlc_msg_get_mrn msg <> CPDLC_INVALID_MSG_SEQ_NR /\
    exists j b, thr_buckets t !! j = Some b /\
                msg_matches_bucket msg b = Ok true.
Proof.
  unfold msg_thr_find_by_mrn.
  destruct (cpdlc_msg_get_mrn msg =? CPDLC_INVALID_MSG_SEQ_NR) eqn:Hmrn;
    [discriminate|].
  intros Hf. apply find_from_tail_Some in Hf as (t & Ht & Hp).
  exists t. split; [done|]. unfold thr_matches in Hp.
  destruct (bool_decide (thr_status t = CPDLC_MSG_THR_CLOSED)) eqn:Hcl;
    [discriminate|].
  apply bool_decide_eq_false in Hcl. split; [done|].
  split; [by apply Z.eqb_neq|].
  bind_inv Hp. destruct a as [j|]; [|discriminate].
  apply find_from_tail_Some in Hr as (b & Hb & Hm). eauto.
Qed.

(** ** Receiving evolves the thread list *)

Lemma msg_recv_place_Ok ml clk msg ml' i :
  msg_recv_place ml clk msg = Ok (ml', i) ->
  exists ml1 t,
    ml_thr ml1 !! i = Some t /\
    ml' = ml_upd_thr ml1 i
            (fun t => thr_insert_tail (recv_bucket clk msg) (thr_set_dirty true t)) /\
    ((msg_thr_find_by_mrn ml msg = Ok (Some i) /\ ml1 = ml) \/
     (msg_thr_find_by_mrn ml msg = Ok None /\ ml1 = with_new_thr ml /\ i = O)).
Proof.
  intros Hp. unfold msg_recv_place in Hp. bind_inv Hp. bind_inv Hp.
  destruct a0 as [ml1 j]. injection Hp as <- <-. exists ml1.
  destruct a as [i|].
  - injection Hr0 as <- <-.
    destruct (msg_thr_find_by_mrn_Some _ _ _ Hr) as (t & Ht & _).
    exists t. auto.
  - apply find_msg_thr_Ok in Hr0 as [(Hne & _)|(_ & -> & ->)]; [done|].
    exists (new_thr (ml_next_thr_id ml)). split; [reflexivity|].
    split; [reflexivity|]. right. auto.
Qed.

Lemma msg_recv_place_evolves ml clk msg ml' i :
  msg_recv_place ml clk msg = Ok (ml', i) ->
  thrs_evolve (ml_thr ml) (ml_thr ml').
Proof.
  intros Hp. apply msg_recv_place_Ok in Hp
    as (ml1 & t & Ht & -> & [[Hf ->]|(Hf & -> & ->)]); simpl.
  - apply msg_thr_find_by_mrn_Some in Hf as (t' & Ht' & Hncl & _).
    apply thrs_evolve_alter. intros t0 Ht0.
    rewrite Ht' in Ht0. injection Ht0 as <-.
    split; [reflexivity|]. split; [by eexists|].
    split; [reflexivity|]. intros Hcl. by destruct Hncl.
  - exists [thr_insert_tail (recv_bucket clk msg)
              (thr_set_dirty true (new_thr (ml_next_thr_id ml)))], (ml_thr ml).
    split; [reflexivity|].
    induction (ml_thr ml); constructor; auto using thr_evolves_refl.
Qed.

Lemma msg_recv_one_evolves ml clk msg ml' id :
  msg_recv_one ml clk msg = Ok (ml', id) ->
  thrs_evolve (ml_thr ml) (ml_thr ml').
Proof.
  intros Hr. unfold msg_recv_one in Hr. bind_inv Hr. destruct a as [ml1 i].
  bind_inv Hr. bind_inv Hr. injection Hr as <- <-.
  eapply thrs_evolve_trans; [by eapply msg_recv_place_evolves|].
  by eapply thr_status_upd_evolves.
Qed.

Lemma msg_recv_loop_evolves cb ml clk msgs acc ml' ids :
  msg_recv_loop cb ml clk msgs acc = Ok (ml', ids) ->
  thrs_evolve (ml_thr ml) (ml_thr ml').
Proof.
  revert ml acc. induction msgs as [|msg msgs IH]; intros ml acc Hl; simpl in Hl.
  - injection Hl as <- <-. apply thrs_evolve_refl.
  - bind_inv Hl. destruct a as [ml1 id].
    eapply thrs_evolve_trans; [by eapply msg_recv_one_evolves|]. by eapply IH.
Qed.

Lemma update_loop_evolves ml clk k ml' :
  update_loop ml clk k = Ok ml' -> thrs_evolve (ml_thr ml) (ml_thr ml').
Proof.
  revert ml. induction k as [|k IH]; intros ml Hl; simpl in Hl.
  - injection Hl as <-. apply thrs_evolve_refl.
  - bind_inv Hl.
    eapply thrs_evolve_trans; [by eapply thr_status_upd_evolves|]. by eapply IH.
Qed.

(** Every step of the engine other than [remove_thr] evolves the thread
    list: threads keep their place counted from the tail, their id,
    their buckets in order, and a final status once they have one. *)
Lemma step_evolves ml clk o ml' :
  (forall id, o <> OpRemove id) ->
  step ml clk o = Ok ml' -> thrs_evolve (ml_thr ml) (ml_thr ml').
Proof.
  intros Hnr Hs. destruct o as [msg id|msgs| |id|id|id|r]; simpl in Hs.
  - bind_inv Hs. destruct a as [ml2 id']. injection Hs as <-.
    unfold cpdlc_msglist_send in Hr. bind_inv Hr. destruct a as [ml1 i].
    bind_inv Hr. bind_inv Hr. injection Hr as <- <-.
    eapply thrs_evolve_trans; [by eapply msglist_send_impl_evolves|].
    by eapply thr_status_upd_evolves.
  - bind_inv Hs. destruct a as [ml2 ids]. injection Hs as <-.
    unfold msg_recv_cb in Hr. bind_inv Hr. destruct a as [ml1 ids'].
    injection Hr as <- <-. by eapply msg_recv_loop_evolves.
  - by eapply update_loop_evolves.
  - unfold cpdlc_msglist_thr_mark_seen in Hs. bind_inv Hs. bind_inv Hs.
    destruct a0 as [ml1 i]. injection Hs as <-.
    apply find_msg_thr_Ok in Hr0 as [(_ & -> & _)|(Hid & _)].
    + apply thrs_evolve_alter. intros t _.
      split; [reflexivity|]. split; [exists []; by rewrite app_nil_r|].
      split; reflexivity.
    + apply ASSERT_Ok, negb_true_iff, Z.eqb_neq in Hr. done.
  - unfold cpdlc_msglist_thr_close in Hs. bind_inv Hs. bind_inv Hs.
    destruct a0 as [ml1 i]. bind_inv Hs as thr Hthr. apply thr_at_Ok in Hthr.
    apply find_msg_thr_Ok in Hr0 as [(_ & -> & _)|(Hid & _)].
    + destruct (thr_status_is_final (thr_status thr)) eqn:Hfin; simpl in Hs;
        injection Hs as <-; [apply thrs_evolve_refl|].
      apply thrs_evolve_alter. intros t Ht. rewrite Hthr in Ht. injection Ht as <-.
      split; [reflexivity|]. split; [exists []; by rewrite app_nil_r|].
      split; [rewrite Hfin; discriminate|reflexivity].
    + apply ASSERT_Ok, negb_true_iff, Z.eqb_neq in Hr. done.
  - by destruct (Hnr id).
  - injection Hs as <-. apply thrs_evolve_refl.
Qed.

Lemma thr_status_is_final_iff st :
  thr_status_is_final st = true <->
  st ∈ [CPDLC_MSG_THR_CLOSED; CPDLC_MSG_THR_ACCEPTED; CPDLC_MSG_THR_REJECTED;
        CPDLC_MSG_THR_TIMEDOUT; CPDLC_MSG_THR_DISREGARD; CPDLC_MSG_THR_FAILED;
        CPDLC_MSG_THR_ERROR; CPDLC_MSG_THR_CONN_ENDED].
Proof.
  split.
  - destruct st; intros Hf; try discriminate Hf; set_solver.
  - intros Hin. repeat (apply elem_of_cons in Hin as [->|Hin]; [reflexivity|]).
    by apply elem_of_nil in Hin.
Qed.

Lemma thr_status_upd_final ml clk i thr :
  ml_thr ml !! i = Some thr ->
  thr_status_is_final (thr_status thr) = true ->
  thr_status_upd ml clk i = Ok ml.
Proof.
  intros Hi Hfin. unfold thr_status_upd, thr_at. rewrite Hi. simpl.
  by rewrite Hfin.
Qed.

(** [thr_close] changes no thread that is final, whichever id it is
    given. *)
Lemma thr_close_keeps_final ml id ml' i thr :
  cpdlc_msglist_thr_close ml id = Ok ml' ->
  ml_thr ml !! i = Some thr ->
  thr_status_is_final (thr_status thr) = true ->
  ml_thr ml' !! i = Some thr.
Proof.
  intros Hc Hi Hfin. unfold cpdlc_msglist_thr_close in Hc.
  bind_inv Hc. bind_inv Hc as [ml1 j] Hf. bind_inv Hc as t Ht.
  apply thr_at_Ok in Ht.
  apply find_msg_thr_Ok in Hf as [(_ & -> & _)|(Hid & _)].
  - destruct (thr_status_is_final (thr_status t)) eqn:Hft; simpl in Hc;
      injection Hc as <-; [done|].
    simpl. destruct (decide (j = i)) as [->|Hne].
    + rewrite Hi in Ht. injection Ht as <-. congruence.
    + by rewrite list_lookup_alter_ne.
  - apply ASSERT_Ok, negb_true_iff, Z.eqb_neq in Hr. done.
Qed.

(** C2. A thread whose status is one of CLOSED, ACCEPTED, REJECTED,
    TIMEDOUT, DISREGARD, FAILED, ERROR, CONN_ENDED is left as it is by
    the status recomputation, which returns the engine unchanged; a call
    of [thr_close], with its id or any other, leaves it as it is and
    returns when given its id; and after any step of the engine that
    keeps the thread (a send, a run of the receive callback, an update,
    a mark-seen, a close) the thread, found at the same place counted
    from the tail, has the same id and the same status. *)
Theorem final_status_is_kept ml clk i thr :
  ml_thr ml !! i = Some thr ->
  thr_status thr ∈
    [CPDLC_MSG_THR_CLOSED; CPDLC_MSG_THR_ACCEPTED; CPDLC_MSG_THR_REJECTED;
     CPDLC_MSG_THR_TIMEDOUT; CPDLC_MSG_THR_DISREGARD; CPDLC_MSG_THR_FAILED;
     CPDLC_MSG_THR_ERROR; CPDLC_MSG_THR_CONN_ENDED] ->
  thr_status_upd ml clk i = Ok ml /\
  (forall id ml', cpdlc_msglist_thr_close ml id = Ok ml' ->
     ml_thr ml' !! i = Some thr) /\
  (thr_id thr <> CPDLC_NO_MSG_THR_ID ->
   thr_lookup_id (thr_id thr) (ml_thr ml) = Some i ->
   cpdlc_msglist_thr_close ml (thr_id thr) = Ok ml) /\
  (forall o ml', (forall id, o <> OpRemove id) -> step ml clk o = Ok ml' ->
     exists thr',
       ml_thr ml' !! (i + (length (ml_thr ml') - length (ml_thr ml)))%nat
         = Some thr' /\
       thr_id thr' = thr_id thr /\ thr_status thr' = thr_status thr).
Proof.
  intros Hi Hst. apply thr_status_is_final_iff in Hst.
  split; [by eapply thr_status_upd_final|].
  split; [intros id ml' Hc; by eapply thr_close_keeps_final|].
  split.
  - intros Hid Hl. unfold cpdlc_msglist_thr_close, find_msg_thr, thr_at.
    apply Z.eqb_neq in Hid. rewrite Hid. simpl. rewrite Hl. simpl.
    rewrite Hi. simpl. by rewrite Hst.
  - intros o ml' Hnr Hs. apply step_evolves in Hs; [|done].
    destruct (thrs_evolve_lookup _ _ _ _ Hs Hi) as (thr' & Hi' & Hid & _ & Hf & _).
    exists thr'. auto.
Qed.

(** ** Correlation on receive *)


Lemma thr_matches_closed msg t :
  thr_status t = CPDLC_MSG_THR_CLOSED -> thr_matches msg t = Ok false.
Proof. intros Hcl. unfold thr_matches. by rewrite Hcl. Qed.

Lemma thr_matches_no_bucket msg t :
  Forall (fun b => msg_matches_bucket msg b = Ok false) (thr_buckets t) ->
  thr_matches msg t = Ok false.
Proof.
  intros HF. unfold thr_matches.
  destruct (bool_decide _); [reflexivity|].
  apply find_from_tail_None in HF. by rewrite HF.
Qed.

(** The walk from the tail returns the last place that [p] accepts. *)
Lemma find_from_tail_last {A : Type} (p : A -> result bool) (xs : list A) i x :
  xs !! i = Some x -> p x = Ok true ->
  Forall (fun y => p y = Ok false) (drop (S i) xs) ->
  find_from_tail p xs = Ok (Some i).
Proof.
  revert i. induction xs as [|y xs IH]; intros i Hi Hp Hafter; [done|].
  destruct i as [|i].
  - injection Hi as <-. change (drop 1 (y :: xs)) with xs in Hafter.
    apply find_from_tail_None in Hafter. simpl. by rewrite Hafter, Hp.
  - change (drop (S (S i)) (y :: xs)) with (drop (S i) xs) in Hafter.
    change ((y :: xs) !! S i) with (xs !! i) in Hi.
    simpl. by rewrite (IH i Hi Hp Hafter).
Qed.

(** And only that place: [p] refuses every place behind the one the walk
    returns. *)
Lemma find_from_tail_Some_last {A : Type} (p : A -> result bool)
    (xs : list A) i :
  find_from_tail p xs = Ok (Some i) ->
  exists x, xs !! i = Some x /\ p x = Ok true /\
    Forall (fun y => p y = Ok false) (drop (S i) xs).
Proof.
  revert i. induction xs as [|x xs IH]; intros i Hf; simpl in Hf; [discriminate|].
  bind_inv Hf as r Hr. destruct r as [j|].
  - injection Hf as <-. destruct (IH j Hr) as (y & Hy & Hp & Hafter).
    exists y. auto.
  - bind_inv Hf as b Hb. destruct b; [|discriminate]. injection Hf as <-.
    exists x. split; [done|]. split; [done|].
    by apply find_from_tail_None.
Qed.

(** [msg_matches_bucket] on a message that has a first segment. *)
Lemma msg_matches_bucket_answers msg b s segs :
  msg_segs msg = s :: segs -> msg_matches_bucket msg b = Ok (answers msg b).
Proof.
  intros Hs. unfold msg_matches_bucket, is_disregard_msg, seg0_info, answers.
  rewrite Hs. simpl.
  by destruct (negb (is_dl (seg_info s)) &&
               (msg_type (seg_info s) =? CPDLC_UM168_DISREGARD)).
Qed.

(** The threads the walk accepts and those it passes over. *)
Lemma thr_matches_passed_over msg t s segs :
  msg_segs msg = s :: segs -> passed_over msg t ->
  thr_matches msg t = Ok false.
Proof.
  intros Hs [Hcl|Hnone]; [by apply thr_matches_closed|].
  apply thr_matches_no_bucket. eapply Forall_impl; [exact Hnone|].
  intros b Hb. simpl in Hb. by rewrite (msg_matches_bucket_answers _ _ _ _ Hs), Hb.
Qed.

Lemma find_from_tail_answers msg bs s segs :
  msg_segs msg = s :: segs ->
  (exists j, find_from_tail (msg_matches_bucket msg) bs = Ok (Some j)) \/
  (find_from_tail (msg_matches_bucket msg) bs = Ok None /\
   Forall (fun b => answers msg b = false) bs).
Proof.
  intros Hs. induction bs as [|b bs IH]; simpl.
  - right. split; [reflexivity|constructor].
  - destruct IH as [[j Hj]|[Hnone Hall]].
    + left. rewrite Hj. simpl. by eexists.
    + rewrite Hnone. simpl. rewrite (msg_matches_bucket_answers _ _ _ _ Hs).
      simpl. destruct (answers msg b) eqn:Hb.
      * left. by eexists.
      * right. split; [reflexivity|]. by constructor.
Qed.

Lemma thr_matches_accepts msg t b s segs :
  msg_segs msg = s :: segs ->
  thr_status t <> CPDLC_MSG_THR_CLOSED ->
  b ∈ thr_buckets t -> answers msg b = true ->
  thr_matches msg t = Ok true.
Proof.
  intros Hs Hncl Hin Hb. unfold thr_matches.
  rewrite bool_decide_eq_false_2 by done.
  destruct (find_from_tail_answers msg (thr_buckets t) _ _ Hs)
    as [[j Hj]|[_ Hall]].
  - by rewrite Hj.
  - rewrite Forall_forall in Hall. specialize (Hall b Hin). congruence.
Qed.

Lemma thr_matches_true msg t s segs :
  msg_segs msg = s :: segs ->
  thr_matches msg t = Ok true ->
  thr_status t <> CPDLC_MSG_THR_CLOSED /\
  exists b, b ∈ thr_buckets t /\ answers msg b = true.
Proof.
  intros Hs Hm. unfold thr_matches in Hm.
  destruct (bool_decide (thr_status t = CPDLC_MSG_THR_CLOSED)) eqn:Hcl;
    [discriminate|].
  apply bool_decide_eq_false in Hcl. split; [done|].
  bind_inv Hm as r Hr. destruct r as [j|]; [|discriminate].
  apply find_from_tail_Some in Hr as (b & Hb & Hp).
  rewrite (msg_matches_bucket_answers _ _ _ _ Hs) in Hp.
  exists b. split; [by eapply list_elem_of_lookup_2|congruence].
Qed.

Lemma thr_matches_false msg t s segs :
  msg_segs msg = s :: segs ->
  thr_matches msg t = Ok false -> passed_over msg t.
Proof.
  intros Hs Hm. unfold thr_matches in Hm.
  destruct (bool_decide (thr_status t = CPDLC_MSG_THR_CLOSED)) eqn:Hcl.
  - left. by apply bool_decide_eq_true in Hcl.
  - right. destruct (find_from_tail_answers msg (thr_buckets t) _ _ Hs)
      as [[j Hj]|[_ Hall]]; [|done].
    rewrite Hj in Hm. discriminate.
Qed.

(** The thread the walk of [msg_thr_find_by_mrn] returns, in terms of the
    statuses and the buckets of the threads. *)
Lemma msg_thr_find_by_mrn_oldest ml msg s segs i :
  msg_segs msg = s :: segs ->
  (msg_thr_find_by_mrn ml msg = Ok (Some i) <->
   cpdlc_msg_get_mrn msg <> CPDLC_INVALID_MSG_SEQ_NR /\
   exists thr b,
     ml_thr ml !! i = Some thr /\
     thr_status thr <> CPDLC_MSG_THR_CLOSED /\
     b ∈ thr_buckets thr /\ answers msg b = true /\
     Forall (passed_over msg) (drop (S i) (ml_thr ml))).
Proof.
  intros Hs. unfold msg_thr_find_by_mrn.
  destruct (Z.eqb_spec (cpdlc_msg_get_mrn msg) CPDLC_INVALID_MSG_SEQ_NR)
    as [He|Hne].
  - split; [discriminate|]. by intros [Hne _].
  - split.
    + intros Hf. split; [done|].
      apply find_from_tail_Some_last in Hf as (thr & Hi & Hm & Hafter).
      apply (thr_matches_true _ _ _ _ Hs) in Hm as (Hncl & b & Hb & Ha).
      exists thr, b. do 4 (split; [done|]).
      eapply Forall_impl; [exact Hafter|].
      intros t Ht. by eapply thr_matches_false.
    + intros (_ & thr & b & Hi & Hncl & Hb & Ha & Hafter).
      eapply find_from_tail_last; [exact Hi| |].
      * by eapply thr_matches_accepts.
      * eapply Forall_impl; [exact Hafter|].
        intros t Ht. by eapply thr_matches_passed_over.
Qed.

(** What [msg_recv_place] does with a message whose thread the walk
    found. *)
Lemma msg_recv_place_found ml clk msg i thr :
  msg_thr_find_by_mrn ml msg = Ok (Some i) ->
  ml_thr ml !! i = Some thr ->
  msg_recv_place ml clk msg =
    Ok (ml_set_thr ml
          (<[i := {| thr_id := thr_id thr; thr_status := thr_status thr;
                     thr_buckets := thr_buckets thr ++ [recv_bucket clk msg];
                     thr_dirty := true |}]> (ml_thr ml)), i).
Proof.
  intros Hfind Hi.
  unfold msg_recv_place. rewrite Hfind. cbn [rbind].
  unfold ml_upd_thr. do 3 f_equal.
  apply list_eq. intros j. destruct (decide (j = i)) as [->|Hne].
  - rewrite list_lookup_alter_eq, Hi.
    by rewrite list_lookup_insert_eq by (by eapply lookup_lt_Some).
  - by rewrite list_lookup_alter_ne, list_lookup_insert_ne.
Qed.


(** ** Every thread holds a bucket *)

Lemma msglist_send_impl_buckets ml clk msg id ml' i :
  Forall (fun t => thr_buckets t <> []) (ml_thr ml) ->
  msglist_send_impl ml clk msg id = Ok (ml', i) ->
  Forall (fun t => thr_buckets t <> []) (ml_thr ml').
Proof.
  intros Hinv Hs. apply msglist_send_impl_Ok in Hs
    as (ml1 & t & Hf & Ht & _ & -> & _).
  assert (Hne : forall bs b, bs ++ [b] <> @nil msg_bucket)
    by (intros [|? ?] ?; discriminate).
  apply find_msg_thr_Ok in Hf as [(_ & -> & _)|(_ & -> & ->)].
  - apply Forall_insert; [done|]. simpl. apply Hne.
  - simpl. constructor; [|done]. simpl. apply Hne.
Qed.

Lemma thr_status_upd_buckets ml clk i ml' :
  Forall (fun t => thr_buckets t <> []) (ml_thr ml) ->
  thr_status_upd ml clk i = Ok ml' ->
  Forall (fun t => thr_buckets t <> []) (ml_thr ml').
Proof.
  intros Hinv Hu. apply thr_status_upd_Ok in Hu
    as (thr & Hi & [[_ ->]|(_ & _ & Hout)]); [done|].
  destruct Hout as [|g Hg|first rest ml1 j Hb Hs]; simpl.
  - done.
  - apply Forall_alter; [done|]. intros t _ Ht. destruct (Hg t) as [_ ->]. done.
  - apply Forall_alter; [by eapply msglist_send_impl_buckets|]. done.
Qed.

Lemma msg_recv_one_buckets ml clk msg ml' id :
  Forall (fun t => thr_buckets t <> []) (ml_thr ml) ->
  msg_recv_one ml clk msg = Ok (ml', id) ->
  Forall (fun t => thr_buckets t <> []) (ml_thr ml').
Proof.
  intros Hinv Hr. unfold msg_recv_one in Hr.
  bind_inv Hr as [ml1 i] Hp. bind_inv Hr as ml2 Hu. bind_inv Hr.
  injection Hr as <- <-.
  eapply thr_status_upd_buckets; [|exact Hu].
  assert (Hne : forall bs b, bs ++ [b] <> @nil msg_bucket)
    by (intros [|? ?] ?; discriminate).
  apply msg_recv_place_Ok in Hp
    as (ml0 & t & Ht & -> & [[_ ->]|(_ & -> & ->)]); simpl.
  - apply Forall_alter; [done|]. intros t' _ _. simpl. apply Hne.
  - constructor; [|done]. simpl. discriminate.
Qed.

Lemma msg_recv_loop_buckets cb ml clk msgs acc ml' ids :
  Forall (fun t => thr_buckets t <> []) (ml_thr ml) ->
  msg_recv_loop cb ml clk msgs acc = Ok (ml', ids) ->
  Forall (fun t => thr_buckets t <> []) (ml_thr ml').
Proof.
  revert ml acc. induction msgs as [|msg msgs IH]; intros ml acc Hinv Hl;
    simpl in Hl.
  - by injection Hl as <- <-.
  - bind_inv Hl as [ml1 id] Hone. eapply IH; [|exact Hl].
    by eapply msg_recv_one_buckets.
Qed.

Lemma update_loop_buckets ml clk k ml' :
  Forall (fun t => thr_buckets t <> []) (ml_thr ml) ->
  update_loop ml clk k = Ok ml' ->
  Forall (fun t => thr_buckets t <> []) (ml_thr ml').
Proof.
  revert ml. induction k as [|k IH]; intros ml Hinv Hl; simpl in Hl.
  - by injection Hl as <-.
  - bind_inv Hl as ml1 Hu. eapply IH; [|exact Hl].
    by eapply thr_status_upd_buckets.
Qed.

Lemma step_buckets ml clk o ml' :
  Forall (fun t => thr_buckets t <> []) (ml_thr ml) ->
  step ml clk o = Ok ml' ->
  Forall (fun t => thr_buckets t <> []) (ml_thr ml').
Proof.
  intros Hinv Hs. destruct o as [msg id|msgs| |id|id|id|r]; simpl in Hs.
  - bind_inv Hs as [ml2 id'] Hsend. injection Hs as <-.
    unfold cpdlc_msglist_send in Hsend. bind_inv Hsend as [ml1 i] Himpl.
    bind_inv Hsend. bind_inv Hsend as ml3 Hu. injection Hsend as <- <-.
    eapply thr_status_upd_buckets; [|exact Hu].
    by eapply msglist_send_impl_buckets.
  - bind_inv Hs as [ml2 ids] Hcb. injection Hs as <-.
    unfold msg_recv_cb in Hcb. bind_inv Hcb as [ml1 ids'] Hloop.
    injection Hcb as <- <-. by eapply msg_recv_loop_buckets.
  - by eapply update_loop_buckets.
  - unfold cpdlc_msglist_thr_mark_seen in Hs. bind_inv Hs.
    bind_inv Hs as [ml1 i] Hf. injection Hs as <-.
    apply find_msg_thr_Ok in Hf as [(_ & -> & _)|(Hid & _)].
    + simpl. by apply Forall_alter.
    + apply ASSERT_Ok, negb_true_iff, Z.eqb_neq in Hr. done.
  - unfold cpdlc_msglist_thr_close in Hs. bind_inv Hs.
    bind_inv Hs as [ml1 i] Hf. bind_inv Hs as thr Hthr.
    apply find_msg_thr_Ok in Hf as [(_ & -> & _)|(Hid & _)].
    + destruct (thr_status_is_final (thr_status thr)); simpl in Hs;
        injection Hs as <-; [done|].
      simpl. by apply Forall_alter.
    + apply ASSERT_Ok, negb_true_iff, Z.eqb_neq in Hr. done.
  - unfold cpdlc_msglist_remove_thr in Hs. bind_inv Hs.
    bind_inv Hs as [ml1 i] Hf. injection Hs as <-.
    apply find_msg_thr_Ok in Hf as [(_ & -> & _)|(Hid & _)].
    + simpl. by apply Forall_delete.
    + apply ASSERT_Ok, negb_true_iff, Z.eqb_neq in Hr. done.
  - by injection Hs as <-.
Qed.

Lemma reachable_buckets ml :
  reachable ml -> Forall (fun t => thr_buckets t <> []) (ml_thr ml).
Proof.
  induction 1 as [cl|ml clk o ml' _ IH Hs|ml cl _ IH]; simpl.
  - constructor.
  - by eapply step_buckets.
  - done.
Qed.

(** ** What can end a run *)

(** Splits a hypothesis that a computation aborts along its binds and
    branches. *)
Ltac abort_inv H :=
  repeat match type of H with
  | rbind _ _ = Abort _ =>
      let a := fresh "a" in
      let Ha := fresh "Ha" in
      apply rbind_Abort in H; destruct H as [H|(a & Ha & H)]
  | (if ?c then _ else _) = Abort _ => destruct c eqn:?
  | (match ?o with Some _ => _ | None => _ end) = Abort _ => destruct o eqn:?
  | (let (_, _) := ?p in _) = Abort _ => destruct p eqn:?
  | Ok _ = Abort _ => discriminate H
  end.

(** The message predicates abort on their assertions only. *)
Lemma msg_pred_abort (p : cpdlc_msg -> result bool) msg f :
  p ∈ [msg_is_dl_req; msg_dl_req_resp; msg_is_ul_req; msg_is_stby;
       msg_is_accept; msg_is_reject; is_error_msg; msg_is_rgr;
       msg_is_link_mgmt; is_disregard_msg] ->
  p msg = Abort f -> f = AssertFailed.
Proof.
  intros Hp.
  repeat (apply elem_of_cons in Hp as [->|Hp];
    [unfold msg_is_dl_req, msg_dl_req_resp, msg_is_ul_req, msg_is_stby,
       msg_is_accept, msg_is_reject, is_error_msg, msg_is_rgr,
       msg_is_link_mgmt, is_disregard_msg, seg0_info, ASSERT;
     destruct (msg_segs msg) as [|s ?]; simpl; [congruence|];
     try destruct (is_dl (seg_info s)); simpl; congruence|]).
  by apply elem_of_nil in Hp.
Qed.

Ltac pred_abort H :=
  apply msg_pred_abort in H; [try discriminate H|set_solver].

Lemma find_msg_thr_abort ml id f :
  find_msg_thr ml id = Abort f -> f = AssertFailed.
Proof.
  unfold find_msg_thr. intros Hf. abort_inv Hf; congruence.
Qed.

(** [msglist_send_impl] follows no dangling pointer and dereferences no
    NULL bucket: it ends on an assertion, if at all. *)
Lemma msglist_send_impl_abort ml clk msg id f :
  msglist_send_impl ml clk msg id = Abort f -> f = AssertFailed.
Proof.
  unfold msglist_send_impl. intros Hs. abort_inv Hs.
  - by eapply find_msg_thr_abort.
  - destruct a as [ml1 i].
    apply find_msg_thr_valid in Ha as (t & Ht & _).
    unfold thr_at in Hs. rewrite Ht in Hs. discriminate.
  - unfold ASSERT in Hs. destruct (negb _); congruence.
Qed.

(** [thr_status_upd] dereferences a NULL bucket only on a thread
    without buckets. *)
Lemma thr_status_upd_NullBucket ml clk i :
  thr_status_upd ml clk i = Abort NullBucket ->
  exists thr, ml_thr ml !! i = Some thr /\ thr_buckets thr = [].
Proof.
  unfold thr_status_upd. intros Hu.
  apply rbind_Abort in Hu as [Hu|(thr & Hthr & Hu)].
  { unfold thr_at in Hu. destruct (ml_thr ml !! i); discriminate. }
  apply thr_at_Ok in Hthr. exists thr. split; [done|].
  destruct (thr_status_is_final _); [discriminate|].
  destruct (thr_buckets thr) as [|first rest]; [reflexivity|].
  exfalso. abort_inv Hu;
    try (pred_abort Hu; fail);
    try (apply msglist_send_impl_abort in Hu; discriminate).
Qed.

(** On a valid pointer to a thread with buckets, [thr_status_upd] ends
    on an assertion, if at all. *)
Lemma thr_status_upd_abort ml clk i thr f :
  ml_thr ml !! i = Some thr -> thr_buckets thr <> [] ->
  thr_status_upd ml clk i = Abort f -> f = AssertFailed.
Proof.
  unfold thr_status_upd. intros Hi Hne Hu.
  unfold thr_at in Hu. rewrite Hi in Hu. simpl in Hu.
  destruct (thr_status_is_final _); [discriminate|].
  destruct (thr_buckets thr) as [|first rest]; [done|].
  abort_inv Hu;
    try (eapply msg_pred_abort; [|exact Hu]; set_solver);
    try (by apply msglist_send_impl_abort in Hu).
Qed.

Lemma update_loop_abort ml clk k f :
  Forall (fun t => thr_buckets t <> []) (ml_thr ml) ->
  (k <= length (ml_thr ml))%nat ->
  update_loop ml clk k = Abort f -> f = AssertFailed.
Proof.
  revert ml. induction k as [|k IH]; intros ml Hinv Hk Hl; simpl in Hl;
    [discriminate|].
  destruct (lookup_lt_is_Some_2 (ml_thr ml) (length (ml_thr ml) - S k)%nat)
    as [thr Hthr]; [lia|].
  apply rbind_Abort in Hl as [Hu|(ml1 & Hu & Hl)].
  - eapply thr_status_upd_abort; [exact Hthr| |exact Hu].
    by eapply (proj1 (Forall_lookup _ _)) in Hinv.
  - eapply IH; [|..|exact Hl].
    + by eapply thr_status_upd_buckets.
    + apply thr_status_upd_evolves, thrs_evolve_length in Hu. lia.
Qed.

(** C10. In every state the engine reaches from [cpdlc_msglist_alloc]
    through its operations (send, the receive callback, update,
    mark-seen, close, remove, with the transport changing in between),
    every thread of the list holds at least one bucket; so a status
    recomputation never dereferences a NULL bucket, whatever thread it
    is run on, and a run of [cpdlc_msglist_update] follows no NULL or
    dangling pointer: it returns or ends on an assertion. *)
Theorem reachable_threads_hold_buckets ml :
  reachable ml ->
  Forall (fun t => thr_buckets t <> []) (ml_thr ml) /\
  (forall clk i f, thr_status_upd ml clk i = Abort f -> f <> NullBucket) /\
  (forall clk f, cpdlc_msglist_update ml clk = Abort f -> f = AssertFailed).
Proof.
  intros Hreach. pose proof (reachable_buckets _ Hreach) as Hinv.
  split; [done|]. split.
  - intros clk i f Hu ->. apply thr_status_upd_NullBucket in Hu
      as (thr & Hi & Hb).
    by eapply (proj1 (Forall_lookup _ _)) in Hinv.
  - intros clk f Hu. by eapply update_loop_abort.
Qed.

(** ** Enumerating the threads *)

Lemma thr_ids_listed_cons ic t l :
  thr_ids_listed ic (t :: l) =
  if thr_listed ic t then thr_id t :: thr_ids_listed ic l
  else thr_ids_listed ic l.
Proof.
  unfold thr_ids_listed. simpl. by destruct (thr_listed ic t).
Qed.

Lemma thr_ids_listed_length ic l :
  (length (thr_ids_listed ic l) <= length l)%nat.
Proof.
  unfold thr_ids_listed. rewrite length_map. apply List.filter_length_le.
Qed.

(** The loop with an array: it returns, the count grows by the number of
    listed threads, and the entries from the count on that lie below
    [cap] receive their ids in order. *)
Lemma get_thr_ids_loop_array ic l (a : list Z) (c n : nat) :
  Z.of_nat n + Z.of_nat (length (thr_ids_listed ic l)) <= UINT32_MAX ->
  exists a',
    get_thr_ids_loop ic l (Some a) (Z.of_nat c) (Z.of_nat n)
      = Ok (Some a', Z.of_nat (n + length (thr_ids_listed ic l))) /\
    length a' = length a /\
    forall j,
      a' !! j =
      if decide (n <= j < n + length (thr_ids_listed ic l) /\ j < c /\
                 j < length a)%nat
      then thr_ids_listed ic l !! (j - n)%nat else a !! j.
Proof.
  revert a n. induction l as [|t l IH]; intros a n Hn.
  - exists a. simpl. rewrite Nat.add_0_r. split; [done|]. split; [done|].
    intros j. case_decide; [lia|done].
  - rewrite thr_ids_listed_cons in *. simpl.
    unfold thr_listed in *.
    destruct (ic && negb (thr_dirty t) && thr_status_is_final (thr_status t));
      simpl in *; [by apply IH|].
    assert (Hincr : u32_incr (Z.of_nat n) = Z.of_nat (S n)).
    { unfold u32_incr, UINT32_MAX in *. rewrite Z.mod_small; lia. }
    rewrite Hincr.
    destruct (Z.of_nat n <? Z.of_nat c) eqn:Hlt; simpl.
    + apply Z.ltb_lt in Hlt. rewrite Nat2Z.id.
      destruct (IH (<[n := thr_id t]> a) (S n)) as (a' & -> & Hlen & Hlk); [lia|].
      exists a'. split; [f_equal; f_equal; lia|].
      rewrite length_insert in Hlen. split; [done|].
      intros j. rewrite Hlk, length_insert.
      destruct (decide (j = n)) as [->|Hne].
      * rewrite Nat.sub_diag. simpl.
        repeat case_decide; try lia.
        -- by rewrite list_lookup_insert_eq by lia.
        -- rewrite list_insert_ge by lia. done.
      * rewrite list_lookup_insert_ne by done.
        repeat case_decide; try lia; try done.
        replace (j - n)%nat with (S (j - S n)) by lia. done.
    + apply Z.ltb_ge in Hlt.
      destruct (IH a (S n)) as (a' & -> & Hlen & Hlk); [lia|].
      exists a'. split; [f_equal; f_equal; lia|]. split; [done|].
      intros j. rewrite Hlk. repeat case_decide; try lia; done.
Qed.

(** The loop without an array and with [cap = 0]: it counts. *)
Lemma get_thr_ids_loop_count ic l (n : nat) :
  Z.of_nat n + Z.of_nat (length (thr_ids_listed ic l)) <= UINT32_MAX ->
  get_thr_ids_loop ic l None 0 (Z.of_nat n)
    = Ok (None, Z.of_nat (n + length (thr_ids_listed ic l))).
Proof.
  revert n. induction l as [|t l IH]; intros n Hn.
  - simpl. by rewrite Nat.add_0_r.
  - rewrite thr_ids_listed_cons in *. simpl. unfold thr_listed in *.
    destruct (ic && negb (thr_dirty t) && thr_status_is_final (thr_status t));
      simpl in *; [by apply IH|].
    assert (Hincr : u32_incr (Z.of_nat n) = Z.of_nat (S n)).
    { unfold u32_incr, UINT32_MAX in *. rewrite Z.mod_small; lia. }
    rewrite Hincr. destruct (Z.of_nat n <? 0) eqn:Hlt; [lia|]. simpl.
    rewrite IH by lia. f_equal. f_equal. lia.
Qed.

(** C8, as the code has it. [find_msg_thr] inserts a new thread at the
    head of the list and [cpdlc_msglist_get_thr_ids] walks the list from
    its head, so the ids come newest thread first. Given an array with
    room for [c] ids, the call returns; the array then starts with the
    first [c] ids of the listed threads in that order, its other entries
    are untouched, and [*cap] is the number of ids written. Given NULL
    and a [cap] of 0 it returns the number of listed threads. The listed
    threads are all of them, or with [ignore_closed] all but those that
    are both final and not dirty. *)
Theorem get_thr_ids_newest_first ml (ignore_closed : bool) (a : list Z) (c : nat) :
  Z.of_nat (length (ml_thr ml)) <= UINT32_MAX ->
  (c <= length a)%nat ->
  cpdlc_msglist_get_thr_ids ml ignore_closed (Some a) (Z.of_nat c)
    = Ok (Some (take c (thr_ids_listed ignore_closed (ml_thr ml)) ++
                drop (c `min` length (thr_ids_listed ignore_closed (ml_thr ml))) a),
          Z.of_nat (c `min` length (thr_ids_listed ignore_closed (ml_thr ml)))) /\
  cpdlc_msglist_get_thr_ids ml ignore_closed None 0
    = Ok (None, Z.of_nat (length (thr_ids_listed ignore_closed (ml_thr ml)))) /\
  thr_ids_listed ignore_closed (ml_thr ml)
    = map thr_id
        (List.filter (fun t => negb (ignore_closed && negb (thr_dirty t) &&
                                     thr_status_is_final (thr_status t)))
                     (ml_thr ml)) /\
  find_msg_thr ml CPDLC_NO_MSG_THR_ID = Ok (with_new_thr ml, O) /\
  thr_ids_listed false (ml_thr (with_new_thr ml))
    = ml_next_thr_id ml :: thr_ids_listed false (ml_thr ml).
Proof.
  intros Hlen Hc.
  pose proof (thr_ids_listed_length ignore_closed (ml_thr ml)) as Hle.
  set (ids := thr_ids_listed ignore_closed (ml_thr ml)) in *.
  split; [|split; [|split; [|split]]].
  - unfold cpdlc_msglist_get_thr_ids.
    destruct (get_thr_ids_loop_array ignore_closed (ml_thr ml) a c O)
      as (a' & Hloop & Hla & Hlk); [fold ids; simpl; lia|].
    change 0 with (Z.of_nat O). rewrite Hloop. simpl. fold ids.
    f_equal. f_equal; [|lia]. f_equal.
    apply list_eq. intros j. rewrite Hlk. fold ids.
    destruct (decide (j < c `min` length ids)%nat) as [Hj|Hj].
    + rewrite lookup_app_l by (rewrite length_take; lia).
      rewrite lookup_take_lt by lia.
      case_decide; [|lia]. by rewrite Nat.sub_0_r.
    + rewrite lookup_app_r by (rewrite length_take; lia).
      rewrite length_take, lookup_drop.
      case_decide; [lia|]. f_equal. lia.
  - unfold cpdlc_msglist_get_thr_ids. change 0 with (Z.of_nat O) at 2.
    rewrite get_thr_ids_loop_count by (fold ids; simpl; lia). reflexivity.
  - reflexivity.
  - unfold find_msg_thr. by rewrite Z.eqb_refl.
  - reflexivity.
Qed.

(** ** The timeout rule *)

(** The message the timeout rule builds, before the send path numbers
    it. *)
Lemma timedout_msg_eq last :
  timedout_msg last =
  timedout_error 0 (cpdlc_msg_get_min (b_msg last)).
Proof. reflexivity. Qed.

(** The walk of the send path from the tail of [bs ++ [last]] stops at
    [last] when [last] is of the other direction. *)
Lemma send_assign_mrn_last bs last msg :
  cpdlc_msg_get_dl (b_msg last) <> cpdlc_msg_get_dl msg ->
  send_assign_mrn (bs ++ [last]) msg
    = cpdlc_msg_set_mrn msg (cpdlc_msg_get_min (b_msg last)).
Proof.
  intros Hdl. unfold send_assign_mrn. rewrite rev_app_distr. simpl.
  destruct (eqb _ _) eqn:He; [|reflexivity].
  apply eqb_prop in He. contradiction.
Qed.

(** The timeout rule is the seventh of a chain and is reached when no
    earlier rule applies. Take a thread that is not final and not in
    STANDBY, designated by its id, whose last bucket holds an uplink of
    response class WU, AN or NE that is none of UNABLE, STANDBY, ROGER,
    AFFIRM, NEGATIVE, ERROR, NEXT DATA AUTHORITY and END SERVICE, and
    was received, or was sent, is not the only bucket and has a type
    that [msg_is_dl_req] refuses. When the timeout of the thread is
    positive and less than the time since that bucket, the status
    recomputation returns; it has appended to the thread exactly one
    bucket, sent through [msglist_send_impl], holding a DM62 ERROR with
    the argument "TIMEDOUT", the next MIN of the engine and the MIN of
    the last message as MRN; the status of the thread is TIMEDOUT and
    nothing else in the list has changed; and any further recomputation
    leaves the engine as it is. *)
Lemma timeout_rule_sends_error ml clk i thr bs last s segs :
  ml_thr ml !! i = Some thr ->
  thr_lookup_id (thr_id thr) (ml_thr ml) = Some i ->
  thr_id thr <> CPDLC_NO_MSG_THR_ID ->
  thr_status_is_final (thr_status thr) = false ->
  thr_status thr <> CPDLC_MSG_THR_STANDBY ->
  thr_buckets thr = bs ++ [last] ->
  msg_segs (b_msg last) = s :: segs ->
  is_dl (seg_info s) = false ->
  resp (seg_info s) ∈ [CPDLC_RESP_WU; CPDLC_RESP_AN; CPDLC_RESP_NE] ->
  msg_type (seg_info s) ∉
    [CPDLC_UM0_UNABLE; CPDLC_UM1_STANDBY; CPDLC_UM3_ROGER; CPDLC_UM4_AFFIRM;
     CPDLC_UM5_NEGATIVE; CPDLC_UM159_ERROR_description;
     CPDLC_UM160_NEXT_DATA_AUTHORITY_id; CPDLC_UM161_END_SVC] ->
  (b_sent last = false \/
   (bs <> [] /\ msg_is_dl_req (b_msg last) = Ok false)) ->
  0 < thr_get_timeout thr ->
  thr_get_timeout thr < time_now clk - b_time last ->
  exists ml' tok,
    thr_status_upd ml clk i = Ok ml' /\
    ml_thr ml' =
      <[i := {| thr_id := thr_id thr;
                thr_status := CPDLC_MSG_THR_TIMEDOUT;
                thr_buckets :=
                  thr_buckets thr ++
                  [{| b_msg := timedout_error (ml_min ml)
                                 (cpdlc_msg_get_min (b_msg last));
                      b_tok := tok; b_sent := true;
                      b_hours := clk_hours clk; b_mins := clk_mins clk;
                      b_time := time_now clk |}];
                thr_dirty := thr_dirty thr |}]> (ml_thr ml) /\
    cpdlc_client_send_msg (ml_cl ml)
      (timedout_error (ml_min ml) (cpdlc_msg_get_min (b_msg last)))
      = (ml_cl ml', tok) /\
    ml_min ml' = u32_incr (ml_min ml) /\
    forall clk', thr_status_upd ml' clk' i = Ok ml'.
Proof.
  intros Hi Hid Hno Hfin Hstby Hb Hsegs Hdl Hresp Hty Hsent Hpos Hlate.
  assert (Hlast : exists first rest,
            bs ++ [last] = first :: rest /\ List.last rest first = last /\
            (rest = [] -> bs = [])).
  { destruct bs as [|b bs'].
    - exists last, []. auto.
    - exists b, (bs' ++ [last]). split; [reflexivity|]. split.
      + apply List.last_last.
      + intros Hnil. by apply app_eq_nil in Hnil as [_ ?]. }
  destruct Hlast as (first & rest & Hfr & Hl & Hrest).
  (* the tests of the chain on the last message *)
  assert (Hne : forall z, z ∈
            [CPDLC_UM0_UNABLE; CPDLC_UM1_STANDBY; CPDLC_UM3_ROGER;
             CPDLC_UM4_AFFIRM; CPDLC_UM5_NEGATIVE;
             CPDLC_UM159_ERROR_description;
             CPDLC_UM160_NEXT_DATA_AUTHORITY_id; CPDLC_UM161_END_SVC] ->
            (msg_type (seg_info s) =? z) = false).
  { intros z Hz. apply Z.eqb_neq. intros Heq. rewrite Heq in Hty. contradiction. }
  assert (Hinfo : seg0_info (b_msg last) = Ok (seg_info s))
    by (unfold seg0_info; by rewrite Hsegs).
  assert (H3 : msg_is_stby (b_msg last) = Ok false).
  { unfold msg_is_stby. rewrite Hinfo. cbn [rbind]. rewrite Hdl.
    cbn [andb negb orb]. rewrite !Hne by in_list. reflexivity. }
  assert (H4 : msg_is_accept (b_msg last) = Ok false).
  { unfold msg_is_accept. rewrite Hinfo. cbn [rbind]. rewrite Hdl.
    cbn [andb negb orb]. rewrite !Hne by in_list. reflexivity. }
  assert (H5 : msg_is_reject (b_msg last) = Ok false).
  { unfold msg_is_reject. rewrite Hinfo. cbn [rbind]. rewrite Hdl.
    cbn [andb negb orb]. rewrite !Hne by in_list. reflexivity. }
  assert (H6 : msg_is_rgr (b_msg last) = Ok false).
  { unfold msg_is_rgr. rewrite Hinfo. cbn [rbind]. rewrite Hdl.
    cbn [andb negb orb]. rewrite !Hne by in_list. reflexivity. }
  assert (H6' : msg_is_link_mgmt (b_msg last) = Ok false).
  { unfold msg_is_link_mgmt. rewrite Hinfo. cbn [rbind].
    rewrite !Hne by in_list. by rewrite andb_false_r. }
  assert (H7 : msg_is_ul_req (b_msg last) = Ok true).
  { unfold msg_is_ul_req. rewrite Hinfo. simpl.
    repeat (apply elem_of_cons in Hresp as [->|Hresp]; [reflexivity|]).
    by apply elem_of_nil in Hresp. }
  assert (H1 : (if bool_decide (rest = []) && b_sent first
                then do r <- msg_dl_req_resp (b_msg first); Ok (negb r)
                else Ok false) = Ok false).
  { destruct (bool_decide (rest = [])) eqn:Hr; [|reflexivity].
    apply bool_decide_eq_true in Hr. subst rest. simpl in Hl. subst first.
    destruct Hsent as [->|[Hbs _]]; [reflexivity|].
    by destruct Hbs; apply Hrest. }
  assert (H2 : (if b_sent last then msg_is_dl_req (b_msg last) else Ok false)
               = Ok false).
  { destruct Hsent as [->|[_ Hreq]]; [reflexivity|].
    by destruct (b_sent last). }
  (* the send of the error message *)
  destruct (cpdlc_client_send_msg (ml_cl ml)
              (timedout_error (ml_min ml) (cpdlc_msg_get_min (b_msg last))))
    as [cl tok] eqn:Hsend.
  assert (Hmsg : cpdlc_msg_set_min
                   (send_assign_mrn (bs ++ [last]) (timedout_msg last))
                   (ml_min ml)
                 = timedout_error (ml_min ml) (cpdlc_msg_get_min (b_msg last))).
  { rewrite send_assign_mrn_last; [reflexivity|].
    unfold cpdlc_msg_get_dl at 1. rewrite Hsegs, Hdl. discriminate. }
  eexists _, tok. split; [|split; [|split; [|split]]].
  - unfold thr_status_upd, thr_at. rewrite Hi. simpl. rewrite Hfin, Hb, Hfr.
    rewrite Hl, H1. simpl. rewrite H2. simpl. rewrite H3. simpl.
    rewrite H4. simpl. rewrite H5. simpl. rewrite H6. simpl.
    rewrite H6'. simpl. rewrite H7. simpl.
    rewrite bool_decide_eq_false_2 by done. simpl.
    replace (thr_get_timeout thr =? 0) with false
      by (symmetry; apply Z.eqb_neq; lia).
    replace (thr_get_timeout thr <? time_now clk - b_time last) with true
      by (symmetry; by apply Z.ltb_lt).
    simpl.
    unfold msglist_send_impl, find_msg_thr, thr_at.
    replace (thr_id thr =? CPDLC_NO_MSG_THR_ID) with false
      by (symmetry; by apply Z.eqb_neq).
    simpl. rewrite Hid. simpl. rewrite Hi. simpl.
    unfold ASSERT. rewrite Hfin. simpl.
    rewrite Hb, Hmsg, Hsend. simpl. reflexivity.
  - simpl. rewrite length_alter, Nat.sub_diag, Nat.add_0_r.
    rewrite list_alter_alter_eq. rewrite list_insert_alter.
    apply list_alter_ext; [|reflexivity].
    intros t Ht. rewrite Hi in Ht. injection Ht as <-.
    unfold thr_insert_tail, thr_set_status. simpl. reflexivity.
  - reflexivity.
  - reflexivity.
  - intros clk'. eapply thr_status_upd_final.
    + simpl. rewrite length_alter, Nat.sub_diag, Nat.add_0_r.
      rewrite list_alter_alter_eq, list_lookup_alter_eq, Hi. reflexivity.
    + reflexivity.
Qed.

(** ** MRN and MIN on send *)

Lemma find_skip {A : Type} (p : A -> bool) (l1 l2 : list A) :
  Forall (fun x => p x = false) l1 -> find p (l1 ++ l2) = find p l2.
Proof.
  induction 1 as [|x l1 Hx _ IH]; simpl; [reflexivity|]. by rewrite Hx.
Qed.

(** The MRN the send path gives: the MIN of the last bucket of the other
    direction. *)
Lemma send_assign_mrn_found pre opp post msg :
  cpdlc_msg_get_dl (b_msg opp) <> cpdlc_msg_get_dl msg ->
  Forall (fun b => cpdlc_msg_get_dl (b_msg b) = cpdlc_msg_get_dl msg) post ->
  send_assign_mrn (pre ++ opp :: post) msg
    = cpdlc_msg_set_mrn msg (cpdlc_msg_get_min (b_msg opp)).
Proof.
  intros Hopp Hpost. unfold send_assign_mrn.
  rewrite rev_app_distr. simpl. rewrite <- !app_assoc.
  rewrite find_skip.
  - simpl. destruct (eqb _ _) eqn:He; [|reflexivity].
    apply eqb_prop in He. contradiction.
  - apply Forall_forall. intros b Hb.
    apply list_elem_of_In, in_rev, list_elem_of_In in Hb.
    rewrite (proj1 (Forall_forall _ _) Hpost b Hb).
    by rewrite eqb_reflx.
Qed.

(** Without a bucket of the other direction the MRN stays as the caller
    set it. *)
Lemma send_assign_mrn_none buckets msg :
  Forall (fun b => cpdlc_msg_get_dl (b_msg b) = cpdlc_msg_get_dl msg) buckets ->
  send_assign_mrn buckets msg = msg.
Proof.
  intros Hall. unfold send_assign_mrn.
  rewrite <- (app_nil_r (rev buckets)), find_skip; [reflexivity|].
  apply Forall_forall. intros b Hb.
  apply list_elem_of_In, in_rev, list_elem_of_In in Hb.
  rewrite (proj1 (Forall_forall _ _) Hall b Hb). by rewrite eqb_reflx.
Qed.

(** C4, as the code has it. A message sent through [msglist_send_impl]
    is appended, marked as sent, to the thread the call returns. Its MRN
    is the MIN of the last bucket of the other direction that the thread
    held, and stays as the caller set it when there is none. Its MIN is
    the value of the engine's counter, which the call increments modulo
    2^32. While the counter is below 2^32 - 1 it grows by one, so the
    next message sent gets a MIN greater by one; and when every message
    the engine sent and holds has a MIN below the counter, the new MIN
    is greater than each of them and the same holds after the call. *)
Theorem send_assigns_mrn_and_min ml clk msg id ml' i :
  msglist_send_impl ml clk msg id = Ok (ml', i) ->
  exists ml1 old t' b,
    find_msg_thr ml id = Ok (ml1, i) /\
    ml_thr ml1 !! i = Some old /\
    ml_thr ml' = <[i := t']> (ml_thr ml1) /\
    thr_id t' = thr_id old /\
    thr_buckets t' = thr_buckets old ++ [b] /\
    b_sent b = true /\
    b_msg b = cpdlc_msg_set_min (send_assign_mrn (thr_buckets old) msg)
                (ml_min ml) /\
    (forall pre opp post,
       thr_buckets old = pre ++ opp :: post ->
       cpdlc_msg_get_dl (b_msg opp) <> cpdlc_msg_get_dl msg ->
       Forall (fun b => cpdlc_msg_get_dl (b_msg b) = cpdlc_msg_get_dl msg)
              post ->
       msg_mrn (b_msg b) = msg_min (b_msg opp)) /\
    (Forall (fun b => cpdlc_msg_get_dl (b_msg b) = cpdlc_msg_get_dl msg)
            (thr_buckets old) ->
     msg_mrn (b_msg b) = msg_mrn msg) /\
    msg_min (b_msg b) = ml_min ml /\
    ml_min ml' = u32_incr (ml_min ml) /\
    (0 <= ml_min ml < UINT32_MAX -> ml_min ml' = ml_min ml + 1) /\
    (0 <= ml_min ml < UINT32_MAX -> sent_mins_below ml ->
     (forall t b0, t ∈ ml_thr ml -> b0 ∈ thr_buckets t -> b_sent b0 = true ->
        msg_min (b_msg b0) < msg_min (b_msg b)) /\
     sent_mins_below ml').
Proof.
  intros Hs. apply msglist_send_impl_Ok in Hs
    as (ml1 & old & Hf & Hold & _ & Hthr & Hmin & _).
  exists ml1, old. eexists. eexists.
  split; [exact Hf|]. split; [exact Hold|]. split; [exact Hthr|].
  split; [reflexivity|]. split; [reflexivity|]. split; [reflexivity|].
  split; [reflexivity|]. split; [|split; [|split; [|split; [|split]]]].
  - intros pre opp post Hb Hopp Hpost. simpl.
    rewrite Hb, send_assign_mrn_found by done. reflexivity.
  - intros Hall. simpl. by rewrite send_assign_mrn_none.
  - reflexivity.
  - exact Hmin.
  - intros Hrange. rewrite Hmin. unfold u32_incr, UINT32_MAX in *.
    rewrite Z.mod_small; lia.
  - intros Hrange Hinv. split.
    + intros t b0 Ht Hb0 Hsent. simpl. by eapply Hinv.
    + assert (Hmin' : ml_min ml' = ml_min ml + 1).
      { rewrite Hmin. unfold u32_incr, UINT32_MAX in *.
        rewrite Z.mod_small; lia. }
      intros t b0 Ht Hb0 Hsent. rewrite Hmin'. rewrite Hthr in Ht.
      assert (Hml1 : forall t0, t0 ∈ ml_thr ml1 ->
                t0 ∈ ml_thr ml \/ thr_buckets t0 = []).
      { apply find_msg_thr_Ok in Hf as [(_ & -> & _)|(_ & -> & _)];
          intros t0 Ht0; [by left|].
        simpl in Ht0. apply elem_of_cons in Ht0 as [->|Ht0]; [by right|by left]. }
      apply list_elem_of_lookup in Ht as [j Hj].
      destruct (decide (j = i)) as [->|Hne].
      * rewrite list_lookup_insert_eq in Hj by (by eapply lookup_lt_Some).
        injection Hj as <-. simpl in Hb0.
        apply elem_of_app in Hb0 as [Hb0|Hb0].
        -- destruct (Hml1 old) as [Hin|Hnil];
             [by eapply list_elem_of_lookup_2| |].
           ++ specialize (Hinv old b0 Hin Hb0 Hsent). lia.
           ++ rewrite Hnil in Hb0. by apply elem_of_nil in Hb0.
        -- apply list_elem_of_singleton in Hb0 as ->. simpl. lia.
      * rewrite list_lookup_insert_ne in Hj by done.
        destruct (Hml1 t) as [Hin|Hnil]; [by eapply list_elem_of_lookup_2| |].
        -- specialize (Hinv t b0 Hin Hb0 Hsent). lia.
        -- rewrite Hnil in Hb0. by apply elem_of_nil in Hb0.
Qed.


(** ** Further properties of the engine *)

(** One turn of the loop of [thr_get_timeout]. *)
Lemma timeout_seg_min acc s :
  timeout_seg acc s =
  if Cpdlc.timeout (seg_info s) =? 0 then acc
  else Z.min acc (Cpdlc.timeout (seg_info s)).
Proof.
  unfold timeout_seg.
  destruct (Z.eqb_spec (Cpdlc.timeout (seg_info s)) 0) as [->|Hnz]; simpl;
    [reflexivity|].
  destruct (Z.ltb_spec (Cpdlc.timeout (seg_info s)) acc); lia.
Qed.

Lemma fold_timeout_seg segs acc :
  fold_left timeout_seg segs acc =
  fold_left Z.min
    (List.filter (fun x => negb (x =? 0))
       (map (fun s => Cpdlc.timeout (seg_info s)) segs)) acc.
Proof.
  revert acc. induction segs as [|s segs IH]; intros acc; simpl;
    [reflexivity|].
  rewrite IH, timeout_seg_min.
  by destruct (Cpdlc.timeout (seg_info s) =? 0).
Qed.

Lemma fold_timeout_bucket bs acc :
  fold_left timeout_bucket bs acc =
  fold_left Z.min
    (List.filter (fun x => negb (x =? 0))
       (flat_map (fun b => map (fun s => Cpdlc.timeout (seg_info s))
                               (msg_segs (b_msg b))) bs)) acc.
Proof.
  revert acc. induction bs as [|b bs IH]; intros acc; simpl; [reflexivity|].
  rewrite IH, List.filter_app, fold_left_app. f_equal.
  apply fold_timeout_seg.
Qed.

Lemma fold_right_min_swap a x (zs : list Z) :
  fold_right Z.min (Z.min a x) zs = Z.min x (fold_right Z.min a zs).
Proof. induction zs as [|y zs IH]; simpl; [lia|]. rewrite IH. lia. Qed.

Lemma fold_left_min_right (zs : list Z) acc :
  fold_left Z.min zs acc = fold_right Z.min acc zs.
Proof.
  revert acc. induction zs as [|x zs IH]; intros acc; simpl; [reflexivity|].
  by rewrite IH, fold_right_min_swap.
Qed.

Lemma fold_right_min_le (zs : list Z) a : fold_right Z.min a zs <= a.
Proof. induction zs as [|y zs IH]; simpl; lia. Qed.

(** X1. [thr_get_timeout] returns the least timeout of a thread: when
    every segment's timeout is below the largest [unsigned], which the
    function uses for "none so far", its result is the least of the
    timeouts of all segments in all buckets that are not 0, and 0 when
    there is none. *)
Theorem thr_get_timeout_is_min thr :
  Forall (fun x => x < UINT32_MAX) (seg_timeouts thr) ->
  thr_get_timeout thr = min_timeout (seg_timeouts thr).
Proof.
  intros Hall. unfold thr_get_timeout, min_timeout, seg_timeouts in *.
  rewrite fold_timeout_bucket, fold_left_min_right.
  assert (Hnz : Forall (fun x => x < UINT32_MAX)
                  (List.filter (fun x => negb (x =? 0))
                     (flat_map (fun b => map (fun s => Cpdlc.timeout (seg_info s))
                                             (msg_segs (b_msg b)))
                        (thr_buckets thr)))).
  { apply List.Forall_forall. intros x Hx. apply List.filter_In in Hx as [Hx _].
    revert x Hx. by apply List.Forall_forall. }
  destruct (List.filter _ _) as [|x rest]; simpl; [reflexivity|].
  apply Forall_cons in Hnz as [Hx _].
  replace (Z.min x (fold_right Z.min UINT32_MAX rest))
    with (fold_right Z.min x rest).
  - pose proof (fold_right_min_le rest x) as Hle.
    destruct (Z.ltb_spec (fold_right Z.min x rest) UINT32_MAX); [done|lia].
  - rewrite <- fold_right_min_swap. f_equal. lia.
Qed.

(** X2. Buckets are append-only and ids are stable. After every call
    of the engine other than [remove_thr] that returns, a thread of the
    list is still in the list, at the same place counted from the tail,
    with the same id, and its buckets are the ones it had, in the same
    order, followed by those the call appended. *)
Theorem buckets_are_append_only ml clk o ml' i t :
  (forall id, o <> OpRemove id) ->
  step ml clk o = Ok ml' ->
  ml_thr ml !! i = Some t ->
  exists t' more,
    ml_thr ml' !! (i + (length (ml_thr ml') - length (ml_thr ml)))%nat
      = Some t' /\
    thr_id t' = thr_id t /\
    thr_buckets t' = thr_buckets t ++ more.
Proof.
  intros Hnr Hs Hi. apply step_evolves in Hs; [|exact Hnr].
  destruct (thrs_evolve_lookup _ _ _ _ Hs Hi)
    as (t' & Ht' & Hid & (more & Hb) & _).
  by exists t', more.
Qed.

(** ** The statuses the recomputation stores *)

(** A message that [is_error_msg] accepts is one [msg_is_reject]
    accepts, and the chain of [thr_status_upd] asks the latter first. *)
Lemma is_error_msg_is_reject msg :
  is_error_msg msg = Ok true -> msg_is_reject msg = Ok true.
Proof.
  unfold is_error_msg, msg_is_reject.
  destruct (seg0_info msg) as [info|f]; simpl; [|discriminate].
  intros [= He]. f_equal.
  destruct (is_dl info); simpl in *.
  - rewrite orb_false_r in He. rewrite He. by rewrite !orb_true_r.
  - rewrite He. by rewrite !orb_true_r.
Qed.

(** The ways a run of [thr_status_upd] that returns ends. *)
Lemma thr_status_upd_cases ml clk i ml' :
  thr_status_upd ml clk i = Ok ml' ->
  ml' = ml \/
  (exists s,
     s ∈ [CPDLC_MSG_THR_CLOSED; CPDLC_MSG_THR_PENDING; CPDLC_MSG_THR_FAILED;
          CPDLC_MSG_THR_OPEN; CPDLC_MSG_THR_STANDBY; CPDLC_MSG_THR_ACCEPTED;
          CPDLC_MSG_THR_REJECTED; CPDLC_MSG_THR_DISREGARD] /\
     ml' = ml_upd_thr ml i (thr_set_status s)) \/
  ml' = ml_upd_thr ml i
          (fun t => thr_set_status CPDLC_MSG_THR_CONN_ENDED
                      (thr_set_dirty false t)) \/
  (exists thr first rest ml1 j,
     ml_thr ml !! i = Some thr /\
     thr_status_is_final (thr_status thr) = false /\
     thr_buckets thr = first :: rest /\
     msglist_send_impl ml clk (timedout_msg (List.last rest first)) (thr_id thr)
       = Ok (ml1, j) /\
     ml' = ml_upd_thr ml1 (i + (length (ml_thr ml1) - length (ml_thr ml)))%nat
             (thr_set_status CPDLC_MSG_THR_TIMEDOUT)).
Proof.
  intros Hu. unfold thr_status_upd in Hu.
  bind_inv Hu as thr Ht. apply thr_at_Ok in Ht.
  destruct (thr_status_is_final (thr_status thr)) eqn:Hfin.
  { left. by injection Hu as <-. }
  destruct (thr_buckets thr) as [|first rest] eqn:Hb; [discriminate|].
  repeat match type of Hu with
  | rbind _ _ = Ok _ => bind_inv Hu
  | (if ?c then _ else _) = Ok _ => destruct c eqn:?
  end;
  try (injection Hu as <-;
       first [ by left
             | right; left; eexists; split; [|reflexivity];
               repeat (first [destruct (cpdlc_client_get_msg_status _ _)|idtac]);
               in_list; fail
             | by right; right; left ]).
  all: try match goal with
  | Hs : msglist_send_impl _ _ _ _ = Ok ?p |- _ =>
      destruct p as [ml1 j]; injection Hu as <-;
      right; right; right; by exists thr, first, rest, ml1, j
  end.
  match goal with
  | He : is_error_msg _ = Ok true, Hrej : msg_is_reject _ = Ok false |- _ =>
      apply is_error_msg_is_reject in He; congruence
  end.
Qed.

(** *** Invariants of the threads

    A property [Q] of threads that the engine's ways of changing a
    thread keep: [Q] holds of a new thread, and is kept when a status
    other than ERROR is stored, when the dirty flag is written, and when
    a sent or a received bucket is appended. *)
Section ThreadInvariant.
Variable Q : msg_thr -> Prop.
Hypothesis Q_new : forall id, Q (new_thr id).
Hypothesis Q_status :
  forall s t, s <> CPDLC_MSG_THR_ERROR -> Q t -> Q (thr_set_status s t).
Hypothesis Q_dirty : forall d t, Q t -> Q (thr_set_dirty d t).
Hypothesis Q_sent :
  forall b t, b_sent b = true -> Q t -> Q (thr_insert_tail b t).
Hypothesis Q_recv :
  forall clk msg t, Q t -> Q (thr_insert_tail (recv_bucket clk msg) t).

Lemma find_msg_thr_inv ml id ml' i :
  Forall Q (ml_thr ml) -> find_msg_thr ml id = Ok (ml', i) ->
  Forall Q (ml_thr ml').
Proof using Q_new.
  intros Hall Hf.
  apply find_msg_thr_Ok in Hf as [(_ & -> & _)|(_ & -> & _)]; [done|].
  simpl. by constructor.
Qed.

Lemma msglist_send_impl_inv ml clk msg id ml' i :
  Forall Q (ml_thr ml) -> msglist_send_impl ml clk msg id = Ok (ml', i) ->
  Forall Q (ml_thr ml').
Proof using Q_new Q_status Q_sent.
  intros Hall Hs.
  apply msglist_send_impl_Ok in Hs as (ml1 & t & Hf & Ht & Hnf & -> & _).
  pose proof (find_msg_thr_inv _ _ _ _ Hall Hf) as Hall1.
  apply Forall_insert; [done|].
  apply Q_sent; [reflexivity|]. apply Q_status.
  - destruct (Z.eqb_spec id CPDLC_NO_MSG_THR_ID) as [He|Hne]; [discriminate|].
    intros He. specialize (Hnf Hne). by rewrite He in Hnf.
  - by eapply Forall_lookup_1 in Hall1.
Qed.

Lemma thr_status_upd_inv ml clk i ml' :
  Forall Q (ml_thr ml) -> thr_status_upd ml clk i = Ok ml' ->
  Forall Q (ml_thr ml').
Proof using Q_new Q_status Q_dirty Q_sent.
  intros Hall Hu.
  apply thr_status_upd_cases in Hu
    as [->|[(s & Hs & ->)|[->|(thr & first & rest & ml1 & j & _ & _ & _ & Hs & ->)]]].
  - done.
  - simpl. apply Forall_alter; [done|]. intros t _ Ht. apply Q_status; [|done].
    intros ->.
    repeat (apply elem_of_cons in Hs as [Hs|Hs]; [discriminate Hs|]).
    by apply elem_of_nil in Hs.
  - simpl. apply Forall_alter; [done|]. intros t _ Ht.
    apply Q_status; [discriminate|]. by apply Q_dirty.
  - simpl. apply Forall_alter.
    + by eapply msglist_send_impl_inv.
    + intros t _ Ht. by apply Q_status.
Qed.

Lemma msg_recv_one_inv ml clk msg ml' id :
  Forall Q (ml_thr ml) -> msg_recv_one ml clk msg = Ok (ml', id) ->
  Forall Q (ml_thr ml').
Proof using Q_new Q_status Q_dirty Q_sent Q_recv.
  intros Hall Hr. unfold msg_recv_one in Hr.
  bind_inv Hr as [ml1 i] Hp. bind_inv Hr as ml2 Hu. bind_inv Hr as thr Ht.
  injection Hr as <- _.
  eapply thr_status_upd_inv; [|exact Hu].
  apply msg_recv_place_Ok in Hp as (ml0 & t & _ & -> & Hfrom).
  simpl. apply Forall_alter.
  - destruct Hfrom as [[_ ->]|(_ & -> & _)]; [done|]. simpl. by constructor.
  - intros t' _ Ht'. by apply Q_recv, Q_dirty.
Qed.

Lemma msg_recv_loop_inv cb ml clk msgs acc ml' ids :
  Forall Q (ml_thr ml) -> msg_recv_loop cb ml clk msgs acc = Ok (ml', ids) ->
  Forall Q (ml_thr ml').
Proof using Q_new Q_status Q_dirty Q_sent Q_recv.
  revert ml acc. induction msgs as [|msg msgs IH]; intros ml acc Hall Hl;
    simpl in Hl.
  - by injection Hl as <- _.
  - bind_inv Hl as [ml1 id] Ho. eapply IH; [|exact Hl].
    by eapply msg_recv_one_inv.
Qed.

Lemma update_loop_inv ml clk k ml' :
  Forall Q (ml_thr ml) -> update_loop ml clk k = Ok ml' ->
  Forall Q (ml_thr ml').
Proof using Q_new Q_status Q_dirty Q_sent.
  revert ml. induction k as [|k IH]; intros ml Hall Hl; simpl in Hl.
  - by injection Hl as <-.
  - bind_inv Hl as ml1 Hu. eapply IH; [|exact Hl].
    by eapply thr_status_upd_inv.
Qed.

Lemma step_inv ml clk o ml' :
  Forall Q (ml_thr ml) -> step ml clk o = Ok ml' -> Forall Q (ml_thr ml').
Proof using Q_new Q_status Q_dirty Q_sent Q_recv.
  intros Hall Hs. destruct o as [msg id|msgs| |id|id|id|r]; simpl in Hs.
  - bind_inv Hs as [ml2 id'] Hsend. injection Hs as <-.
    unfold cpdlc_msglist_send in Hsend.
    bind_inv Hsend as [ml1 i] Hi. bind_inv Hsend as thr Ht.
    bind_inv Hsend as ml3 Hu. injection Hsend as <- _.
    eapply thr_status_upd_inv; [|exact Hu]. by eapply msglist_send_impl_inv.
  - bind_inv Hs as [ml2 ids] Hrecv. injection Hs as <-.
    unfold msg_recv_cb in Hrecv. bind_inv Hrecv as [ml1 ids1] Hl.
    injection Hrecv as <- _. by eapply msg_recv_loop_inv.
  - by eapply update_loop_inv.
  - unfold cpdlc_msglist_thr_mark_seen in Hs.
    bind_inv Hs. bind_inv Hs as [ml1 i] Hf. injection Hs as <-.
    simpl. apply Forall_alter; [by eapply find_msg_thr_inv|].
    intros t _ Ht. by apply Q_dirty.
  - unfold cpdlc_msglist_thr_close in Hs.
    bind_inv Hs. bind_inv Hs as [ml1 i] Hf. bind_inv Hs as thr Ht.
    pose proof (find_msg_thr_inv _ _ _ _ Hall Hf) as Hall1.
    destruct (thr_status_is_final (thr_status thr)); simpl in Hs;
      injection Hs as <-; [done|].
    simpl. apply Forall_alter; [done|].
    intros t _ Hq. by apply Q_status.
  - unfold cpdlc_msglist_remove_thr in Hs.
    bind_inv Hs. bind_inv Hs as [ml1 i] Hf. injection Hs as <-.
    simpl. apply Forall_delete. by eapply find_msg_thr_inv.
  - by injection Hs as <-.
Qed.

Lemma reachable_inv ml : reachable ml -> Forall Q (ml_thr ml).
Proof using Q_new Q_status Q_dirty Q_sent Q_recv.
  induction 1 as [cl|ml clk o ml' _ IH Hs|ml cl _ IH].
  - constructor.
  - by eapply step_inv.
  - exact IH.
Qed.

End ThreadInvariant.

(** X3. The status ERROR is never stored. The chain of [thr_status_upd]
    asks [msg_is_reject] before [is_error_msg], and every message the
    latter accepts (DM62 ERROR, UM159 ERROR) the former accepts too: the
    thread of such a message becomes REJECTED. In every state the engine
    reaches no thread has the status ERROR, and a recomputation run
    from such a state that returns leaves no thread with it. *)
Theorem error_status_is_never_stored ml :
  reachable ml ->
  Forall (fun t => thr_status t <> CPDLC_MSG_THR_ERROR) (ml_thr ml) /\
  forall clk i ml' thr',
    thr_status_upd ml clk i = Ok ml' ->
    thr' ∈ ml_thr ml' ->
    thr_status thr' <> CPDLC_MSG_THR_ERROR.
Proof.
  intros Hreach.
  assert (Hall : Forall (fun t => thr_status t <> CPDLC_MSG_THR_ERROR)
                        (ml_thr ml)).
  { revert ml Hreach. by apply reachable_inv. }
  split; [exact Hall|].
  intros clk i ml' thr' Hu Hin.
  eapply (thr_status_upd_inv (fun t => thr_status t <> CPDLC_MSG_THR_ERROR))
    in Hu; try done.
  rewrite Forall_forall in Hu. by apply Hu.
Qed.

(** ** Thread ids *)

Lemma iter_incr_succ (n : nat) next :
  Nat.iter (S n) u32_incr next = Nat.iter n u32_incr (u32_incr next).
Proof. by rewrite Nat.iter_succ_r. Qed.

Lemma fresh_ids_add next (k1 k2 : nat) :
  fresh_ids next (k1 + k2) =
  fresh_ids (Nat.iter k1 u32_incr next) k2 ++ fresh_ids next k1.
Proof.
  revert next. induction k1 as [|k1 IH]; intros next.
  - simpl. by rewrite app_nil_r.
  - change (S k1 + k2)%nat with (S (k1 + k2)).
    cbn [fresh_ids]. rewrite IH, iter_incr_succ. by rewrite app_assoc.
Qed.

Lemma fresh_ids_length next (k : nat) : length (fresh_ids next k) = k.
Proof.
  revert next. induction k as [|k IH]; intros next; simpl; [done|].
  rewrite length_app, IH. simpl. lia.
Qed.

Lemma ids_extend_refl ml : ids_extend ml ml.
Proof. by exists O. Qed.

Lemma ids_extend_trans ml1 ml2 ml3 :
  ids_extend ml1 ml2 -> ids_extend ml2 ml3 -> ids_extend ml1 ml3.
Proof.
  intros (n1 & Hl1 & Hn1) (n2 & Hl2 & Hn2). exists (n1 + n2)%nat. split.
  - rewrite Hl2, Hl1, Hn1, fresh_ids_add. by rewrite app_assoc.
  - rewrite Hn2, Hn1, (Nat.add_comm n1 n2). by rewrite Nat.iter_add.
Qed.

(** A change of the threads that keeps their ids and the counter. *)
Lemma ids_extend_same ml ml' :
  map thr_id (ml_thr ml') = map thr_id (ml_thr ml) ->
  ml_next_thr_id ml' = ml_next_thr_id ml ->
  ids_extend ml ml'.
Proof. intros Hl Hn. by exists O. Qed.

Lemma map_thr_id_alter l i (f : msg_thr -> msg_thr) :
  (forall t, thr_id (f t) = thr_id t) ->
  map thr_id (alter f i l) = map thr_id l.
Proof.
  intros Hf.
  change (thr_id <$> alter f i l = thr_id <$> l).
  apply list_eq. intros j. rewrite !list_lookup_fmap.
  destruct (decide (i = j)) as [->|Hne].
  - rewrite list_lookup_alter_eq. destruct (l !! j); simpl; [|done].
    by rewrite Hf.
  - by rewrite list_lookup_alter_ne.
Qed.

Lemma map_thr_id_insert l i t t' :
  l !! i = Some t -> thr_id t' = thr_id t ->
  map thr_id (<[i := t']> l) = map thr_id l.
Proof.
  intros Hi Hid.
  change (thr_id <$> <[i := t']> l = thr_id <$> l).
  apply list_eq. intros j. rewrite !list_lookup_fmap.
  destruct (decide (i = j)) as [->|Hne].
  - rewrite list_lookup_insert_eq by (by eapply lookup_lt_Some).
    rewrite Hi. simpl. by rewrite Hid.
  - by rewrite list_lookup_insert_ne.
Qed.

Lemma find_msg_thr_ids ml id ml' i :
  find_msg_thr ml id = Ok (ml', i) -> ids_extend ml ml'.
Proof.
  intros Hf. apply find_msg_thr_Ok in Hf as [(_ & -> & _)|(_ & -> & _)].
  - apply ids_extend_refl.
  - by exists 1%nat.
Qed.

Lemma msglist_send_impl_ids ml clk msg id ml' i :
  msglist_send_impl ml clk msg id = Ok (ml', i) -> ids_extend ml ml'.
Proof.
  intros Hs. apply msglist_send_impl_Ok in Hs
    as (ml1 & t & Hf & Ht & _ & Hl & _ & Hn & _).
  eapply ids_extend_trans; [by eapply find_msg_thr_ids|].
  apply ids_extend_same; [|done].
  rewrite Hl. by eapply map_thr_id_insert.
Qed.

Lemma thr_status_upd_ids ml clk i ml' :
  thr_status_upd ml clk i = Ok ml' -> ids_extend ml ml'.
Proof.
  intros Hu.
  apply thr_status_upd_cases in Hu
    as [->|[(s & Hs & ->)|[->|(thr & first & rest & ml1 & j & _ & _ & _ & Hs & ->)]]].
  - apply ids_extend_refl.
  - apply ids_extend_same; [|done]. simpl. by apply map_thr_id_alter.
  - apply ids_extend_same; [|done]. simpl. by apply map_thr_id_alter.
  - eapply ids_extend_trans; [by eapply msglist_send_impl_ids|].
    apply ids_extend_same; [|done]. simpl. by apply map_thr_id_alter.
Qed.

Lemma msg_recv_one_ids ml clk msg ml' id :
  msg_recv_one ml clk msg = Ok (ml', id) -> ids_extend ml ml'.
Proof.
  intros Hr. unfold msg_recv_one in Hr.
  bind_inv Hr as [ml1 i] Hp. bind_inv Hr as ml2 Hu. bind_inv Hr as thr Ht.
  injection Hr as <- _.
  eapply ids_extend_trans; [|by eapply thr_status_upd_ids].
  apply msg_recv_place_Ok in Hp as (ml0 & t & _ & -> & Hfrom).
  eapply (ids_extend_trans _ ml0).
  - destruct Hfrom as [[_ ->]|(_ & -> & _)]; [apply ids_extend_refl|].
    by exists 1%nat.
  - apply ids_extend_same; [|done]. simpl. by apply map_thr_id_alter.
Qed.

Lemma msg_recv_loop_ids cb ml clk msgs acc ml' ids :
  msg_recv_loop cb ml clk msgs acc = Ok (ml', ids) -> ids_extend ml ml'.
Proof.
  revert ml acc. induction msgs as [|msg msgs IH]; intros ml acc Hl;
    simpl in Hl.
  - injection Hl as <- _. apply ids_extend_refl.
  - bind_inv Hl as [ml1 id] Ho.
    eapply ids_extend_trans; [by eapply msg_recv_one_ids|by eapply IH].
Qed.

Lemma update_loop_ids ml clk k ml' :
  update_loop ml clk k = Ok ml' -> ids_extend ml ml'.
Proof.
  revert ml. induction k as [|k IH]; intros ml Hl; simpl in Hl.
  - injection Hl as <-. apply ids_extend_refl.
  - bind_inv Hl as ml1 Hu.
    eapply ids_extend_trans; [by eapply thr_status_upd_ids|by eapply IH].
Qed.

(** Every call of the engine but [remove_thr] keeps the ids of the
    threads and takes the ids of new threads from the counter. *)
Lemma step_ids ml clk o ml' :
  (forall id, o <> OpRemove id) ->
  step ml clk o = Ok ml' -> ids_extend ml ml'.
Proof.
  intros Hnr Hs. destruct o as [msg id|msgs| |id|id|id|r]; simpl in Hs.
  - bind_inv Hs as [ml2 id'] Hsend. injection Hs as <-.
    unfold cpdlc_msglist_send in Hsend.
    bind_inv Hsend as [ml1 i] Hi. bind_inv Hsend as thr Ht.
    bind_inv Hsend as ml3 Hu. injection Hsend as <- _.
    eapply ids_extend_trans;
      [by eapply msglist_send_impl_ids|by eapply thr_status_upd_ids].
  - bind_inv Hs as [ml2 ids] Hrecv. injection Hs as <-.
    unfold msg_recv_cb in Hrecv. bind_inv Hrecv as [ml1 ids1] Hl.
    injection Hrecv as <- _. by eapply msg_recv_loop_ids.
  - by eapply update_loop_ids.
  - unfold cpdlc_msglist_thr_mark_seen in Hs.
    bind_inv Hs. bind_inv Hs as [ml1 i] Hf. injection Hs as <-.
    eapply ids_extend_trans; [by eapply find_msg_thr_ids|].
    apply ids_extend_same; [|done]. simpl. by apply map_thr_id_alter.
  - unfold cpdlc_msglist_thr_close in Hs.
    bind_inv Hs. bind_inv Hs as [ml1 i] Hf. bind_inv Hs as thr Ht.
    eapply ids_extend_trans; [by eapply find_msg_thr_ids|].
    destruct (thr_status_is_final (thr_status thr)); simpl in Hs;
      injection Hs as <-; [apply ids_extend_refl|].
    apply ids_extend_same; [|done]. simpl. by apply map_thr_id_alter.
  - by destruct (Hnr id).
  - injection Hs as <-. by apply ids_extend_same.
Qed.

(** While the counter does not wrap, the ids it gives out are the
    numbers from it on. *)
Lemma fresh_ids_range next (k : nat) x :
  0 <= next -> next + Z.of_nat k <= 2 ^ 32 ->
  x ∈ fresh_ids next k -> next <= x < next + Z.of_nat k.
Proof.
  revert next. induction k as [|k IH]; intros next Hn Hk Hx; simpl in Hx.
  - by apply elem_of_nil in Hx.
  - apply elem_of_app in Hx as [Hx|Hx].
    + destruct k as [|k]; [by apply elem_of_nil in Hx|].
      assert (Hi : u32_incr next = next + 1).
      { unfold u32_incr. apply Z.mod_small. lia. }
      apply IH in Hx; lia.
    + apply list_elem_of_singleton in Hx. lia.
Qed.

Lemma fresh_ids_NoDup next (k : nat) :
  0 <= next -> next + Z.of_nat k <= 2 ^ 32 -> NoDup (fresh_ids next k).
Proof.
  revert next. induction k as [|k IH]; intros next Hn Hk; simpl.
  - constructor.
  - destruct k as [|k]; [apply NoDup_singleton|].
    assert (Hi : u32_incr next = next + 1).
    { unfold u32_incr. apply Z.mod_small. lia. }
    apply NoDup_app. split; [apply IH; lia|]. split.
    + intros x Hx Hx'. apply list_elem_of_singleton in Hx'.
      apply fresh_ids_range in Hx; lia.
    + apply NoDup_singleton.
Qed.

Lemma iter_incr_small next (k : nat) :
  0 <= next -> next + Z.of_nat k < 2 ^ 32 ->
  Nat.iter k u32_incr next = next + Z.of_nat k.
Proof.
  revert next. induction k as [|k IH]; intros next Hn Hk.
  - simpl. lia.
  - rewrite iter_incr_succ.
    assert (Hi : u32_incr next = next + 1).
    { unfold u32_incr. apply Z.mod_small. lia. }
    rewrite IH; lia.
Qed.

(** X4. Thread ids stay unique. A call of the engine that returns keeps
    the ids of the threads different from one another and below the
    counter of ids, as long as the counter, which is an [unsigned], does
    not wrap: the counter plus the number of threads the call adds stays
    below 2^32. *)
Theorem thread_ids_stay_unique ml clk o ml' :
  ids_inv ml ->
  step ml clk o = Ok ml' ->
  ml_next_thr_id ml +
    Z.of_nat (length (ml_thr ml') - length (ml_thr ml)) < 2 ^ 32 ->
  ids_inv ml'.
Proof.
  intros (Hn & Hnd & Hall) Hs Hw.
  assert (Hcase : (exists id, o = OpRemove id) \/ forall id, o <> OpRemove id).
  { destruct o; try (right; intros; discriminate). left. by eexists. }
  destruct Hcase as [[id ->]|Hnr'].
  - simpl in Hs. unfold cpdlc_msglist_remove_thr in Hs.
    bind_inv Hs. bind_inv Hs as [ml1 i] Hf. injection Hs as <-.
    apply ASSERT_Ok, negb_true_iff, Z.eqb_neq in Hr.
    apply find_msg_thr_Ok in Hf as [(_ & -> & _)|(Hid & _)]; [|done].
    split; [done|]. simpl. split.
    + change (NoDup (thr_id <$> delete i (ml_thr ml))).
      eapply sublist_NoDup; [exact Hnd|].
      apply (fmap_sublist thr_id), sublist_delete.
    + by apply Forall_delete.
  - destruct (step_ids _ _ _ _ Hnr' Hs) as (n & Hl & Hc).
    assert (Hlen : length (ml_thr ml') = (n + length (ml_thr ml))%nat).
    { rewrite <- (length_map thr_id (ml_thr ml')), Hl, length_app,
        fresh_ids_length, length_map. done. }
    rewrite Hlen in Hw. replace (n + length (ml_thr ml) - length (ml_thr ml))%nat
      with n in Hw by lia.
    rewrite iter_incr_small in Hc by lia.
    split; [lia|]. split.
    + rewrite Hl. apply NoDup_app. split; [apply fresh_ids_NoDup; lia|].
      split; [|done].
      intros x Hx Hx'. apply fresh_ids_range in Hx; [|lia|lia].
      apply list_elem_of_fmap in Hx' as (t & -> & Ht).
      rewrite Forall_forall in Hall. specialize (Hall t Ht). lia.
    + apply Forall_forall. intros t Ht.
      assert (Hin : thr_id t ∈ map thr_id (ml_thr ml')).
      { apply list_elem_of_fmap. by exists t. }
      rewrite Hl in Hin. apply elem_of_app in Hin as [Hx|Hx].
      * apply fresh_ids_range in Hx; lia.
      * apply list_elem_of_fmap in Hx as (t0 & -> & Ht0).
        rewrite Forall_forall in Hall. specialize (Hall t0 Ht0). lia.
Qed.

(** ** Thread ids that designate no thread *)

Lemma thr_lookup_id_None id l :
  thr_lookup_id id l = None <-> id ∉ map thr_id l.
Proof.
  induction l as [|t l IH]; simpl.
  - split; [intros _; apply not_elem_of_nil|done].
  - destruct (Z.eqb_spec (thr_id t) id) as [He|Hne].
    + split; [discriminate|]. intros Hn. destruct Hn. rewrite He. left.
    + rewrite not_elem_of_cons. destruct (thr_lookup_id id l) as [j|]; simpl.
      * split; [discriminate|]. intros [_ Hn]. by apply IH in Hn.
      * split; [|done]. intros _. split; [done|]. by apply IH.
Qed.

(** With ids that differ from one another, the thread an id designates
    is the only one that has it. *)
Lemma thr_lookup_id_unique id l i t :
  NoDup (map thr_id l) -> l !! i = Some t -> thr_id t = id ->
  thr_lookup_id id l = Some i.
Proof.
  revert i. induction l as [|t0 l IH]; intros i Hnd Hi Hid; [done|].
  simpl in Hnd. apply NoDup_cons in Hnd as [Hnin Hnd]. simpl.
  destruct i as [|i]; simpl in Hi.
  - injection Hi as ->. apply Z.eqb_eq in Hid. by rewrite Hid.
  - destruct (Z.eqb_spec (thr_id t0) id) as [He|Hne].
    + destruct Hnin. rewrite He, <- Hid.
      change (thr_id t ∈ thr_id <$> l). apply list_elem_of_fmap.
      exists t. split; [done|]. by eapply list_elem_of_lookup_2.
    + by rewrite (IH i Hnd Hi Hid).
Qed.

(** The VERIFY of [find_msg_thr]. *)
Lemma find_msg_thr_unknown ml id :
  thr_lookup_id id (ml_thr ml) = None -> id <> CPDLC_NO_MSG_THR_ID ->
  find_msg_thr ml id = Abort AssertFailed.
Proof.
  intros Hl Hid. unfold find_msg_thr. apply Z.eqb_neq in Hid.
  by rewrite Hid, Hl.
Qed.

(** X5. An id that no thread of the list has makes every operation that
    takes a thread id end on the VERIFY of [find_msg_thr]: none of them
    returns, and none creates a thread for it. *)
Theorem unknown_thread_id_aborts ml id :
  thr_lookup_id id (ml_thr ml) = None ->
  id <> CPDLC_NO_MSG_THR_ID ->
  (forall clk msg, cpdlc_msglist_send ml clk msg id = Abort AssertFailed) /\
  cpdlc_msglist_get_thr_status ml id = Abort AssertFailed /\
  cpdlc_msglist_thr_mark_seen ml id = Abort AssertFailed /\
  cpdlc_msglist_get_thr_msg_count ml id = Abort AssertFailed /\
  (forall msg_nr, cpdlc_msglist_get_thr_msg ml id msg_nr = Abort AssertFailed) /\
  cpdlc_msglist_remove_thr ml id = Abort AssertFailed /\
  cpdlc_msglist_thr_is_done ml id = Abort AssertFailed /\
  cpdlc_msglist_thr_close ml id = Abort AssertFailed.
Proof.
  intros Hl Hid. pose proof (find_msg_thr_unknown ml id Hl Hid) as Hf.
  assert (Ha : ASSERT (negb (id =? CPDLC_NO_MSG_THR_ID)) = Ok tt).
  { apply Z.eqb_neq in Hid. by rewrite Hid. }
  unfold cpdlc_msglist_send, msglist_send_impl, cpdlc_msglist_get_thr_status,
    cpdlc_msglist_thr_mark_seen, cpdlc_msglist_get_thr_msg_count,
    cpdlc_msglist_get_thr_msg, cpdlc_msglist_remove_thr,
    cpdlc_msglist_thr_is_done, cpdlc_msglist_thr_close.
  rewrite Hf, Ha. cbn [rbind]. by repeat split.
Qed.

(** X6. A thread that was removed is gone. With ids that differ from
    one another, after [cpdlc_msglist_remove_thr] returns no thread has
    the id, the other threads are left as they were and in their order,
    and a later call with the id ends on the VERIFY of [find_msg_thr]. *)
Theorem removed_thread_is_gone ml id ml' :
  NoDup (map thr_id (ml_thr ml)) ->
  cpdlc_msglist_remove_thr ml id = Ok ml' ->
  (exists i t, ml_thr ml !! i = Some t /\ thr_id t = id /\
               ml_thr ml' = delete i (ml_thr ml)) /\
  (id ∉ map thr_id (ml_thr ml')) /\
  (forall clk msg, cpdlc_msglist_send ml' clk msg id = Abort AssertFailed) /\
  cpdlc_msglist_thr_close ml' id = Abort AssertFailed /\
  cpdlc_msglist_remove_thr ml' id = Abort AssertFailed.
Proof.
  intros Hnd Hr. unfold cpdlc_msglist_remove_thr in Hr.
  bind_inv Hr. bind_inv Hr as [ml1 i] Hf. injection Hr as <-.
  apply ASSERT_Ok, negb_true_iff, Z.eqb_neq in Hr0.
  apply find_msg_thr_Ok in Hf as [(_ & -> & Hl)|(Hid & _)]; [|done].
  destruct (thr_lookup_id_Some _ _ _ Hl) as (t & Ht & Hid).
  assert (Hgone : id ∉ map thr_id (delete i (ml_thr ml))).
  { rewrite <- (take_drop_middle _ _ _ Ht) in Hnd.
    rewrite delete_take_drop.
    change (NoDup (thr_id <$> take i (ml_thr ml) ++ t :: drop (S i) (ml_thr ml)))
      in Hnd.
    change (id ∉ thr_id <$> (take i (ml_thr ml) ++ drop (S i) (ml_thr ml))).
    rewrite fmap_app in *. rewrite fmap_cons in Hnd.
    apply NoDup_app in Hnd as (_ & Hdis & Hnd2).
    apply NoDup_cons in Hnd2 as [Hnin _].
    rewrite Hid in *. intros Hin. apply elem_of_app in Hin as [Hin|Hin].
    - apply (Hdis id Hin). left.
    - by apply Hnin. }
  split; [by exists i, t|]. split; [exact Hgone|].
  apply thr_lookup_id_None in Hgone.
  pose proof (find_msg_thr_unknown (ml_set_thr ml (delete i (ml_thr ml))) id
                Hgone Hr0) as Hf.
  assert (Ha : ASSERT (negb (id =? CPDLC_NO_MSG_THR_ID)) = Ok tt).
  { apply Z.eqb_neq in Hr0. by rewrite Hr0. }
  unfold cpdlc_msglist_send, msglist_send_impl, cpdlc_msglist_thr_close,
    cpdlc_msglist_remove_thr.
  rewrite Hf, Ha. cbn [rbind]. by repeat split.
Qed.

(** ** Sending *)

(** X7. A message cannot be sent into a thread that is final: the call
    ends on [ASSERT(!thr_status_is_final(thr->status))] of
    [msglist_send_impl]. *)
Theorem send_into_final_thread_aborts ml clk msg i thr :
  ml_thr ml !! i = Some thr ->
  thr_lookup_id (thr_id thr) (ml_thr ml) = Some i ->
  thr_id thr <> CPDLC_NO_MSG_THR_ID ->
  thr_status_is_final (thr_status thr) = true ->
  cpdlc_msglist_send ml clk msg (thr_id thr) = Abort AssertFailed.
Proof.
  intros Hi Hl Hid Hfin.
  unfold cpdlc_msglist_send, msglist_send_impl, find_msg_thr.
  apply Z.eqb_neq in Hid. rewrite Hid. cbn [negb]. rewrite Hl. cbn [rbind].
  unfold thr_at. rewrite Hi. cbn [rbind]. by rewrite Hfin.
Qed.

(** The first bucket of a new thread decides its status. *)
Lemma send_new_thread_impl ml clk msg :
  msglist_send_impl ml clk msg CPDLC_NO_MSG_THR_ID =
  Ok ({| ml_cl := fst (cpdlc_client_send_msg (ml_cl ml)
                         (cpdlc_msg_set_min msg (ml_min ml)));
         ml_thr :=
           {| thr_id := ml_next_thr_id ml; thr_status := CPDLC_MSG_THR_OPEN;
              thr_buckets := [sent_bucket ml clk [] msg];
              thr_dirty := false |} :: ml_thr ml;
         ml_min := u32_incr (ml_min ml); ml_mrn := ml_mrn ml;
         ml_next_thr_id := u32_incr (ml_next_thr_id ml);
         ml_update_cb := ml_update_cb ml |}, O).
Proof.
  unfold msglist_send_impl, find_msg_thr. rewrite Z.eqb_refl. cbn [negb rbind].
  unfold thr_at. simpl.
  unfold send_assign_mrn, sent_bucket, send_assign_mrn. simpl.
  by destruct (cpdlc_client_send_msg _ _).
Qed.

(** X8. The first message of a new thread must be a downlink. Sending
    a message whose first segment is an uplink, or that has no segment,
    with [CPDLC_NO_MSG_THR_ID] ends on an assertion of
    [msg_dl_req_resp], which the status recomputation calls on a thread
    whose only bucket was sent. *)
Theorem send_uplink_in_new_thread_aborts ml clk msg :
  cpdlc_msg_get_dl msg = false ->
  cpdlc_msglist_send ml clk msg CPDLC_NO_MSG_THR_ID = Abort AssertFailed.
Proof.
  intros Hdl. unfold cpdlc_msglist_send. rewrite send_new_thread_impl.
  cbn [rbind]. unfold thr_at. simpl. unfold thr_status_upd, thr_at. simpl.
  unfold msg_dl_req_resp, seg0_info. simpl.
  change (send_assign_mrn [] msg) with msg.
  unfold cpdlc_msg_get_dl in Hdl.
  destruct (msg_segs msg) as [|s segs]; simpl; [done|].
  by rewrite Hdl.
Qed.

(** X9. A downlink that asks for no response closes its thread at once:
    sent with [CPDLC_NO_MSG_THR_ID] when its response class is not Y,
    it is put into a new thread that gets the next thread id, holds
    this one bucket, is not dirty and is CLOSED. *)
Theorem send_without_response_closes ml clk msg s segs :
  msg_segs msg = s :: segs ->
  is_dl (seg_info s) = true ->
  resp (seg_info s) <> CPDLC_RESP_Y ->
  exists ml',
    cpdlc_msglist_send ml clk msg CPDLC_NO_MSG_THR_ID
      = Ok (ml', ml_next_thr_id ml) /\
    ml_thr ml' =
      {| thr_id := ml_next_thr_id ml; thr_status := CPDLC_MSG_THR_CLOSED;
         thr_buckets := [sent_bucket ml clk [] msg];
         thr_dirty := false |} :: ml_thr ml /\
    ml_min ml' = u32_incr (ml_min ml) /\
    ml_next_thr_id ml' = u32_incr (ml_next_thr_id ml).
Proof.
  intros Hsegs Hdl Hresp. eexists.
  unfold cpdlc_msglist_send. rewrite send_new_thread_impl.
  cbn [rbind]. unfold thr_at. simpl. unfold thr_status_upd, thr_at. simpl.
  unfold msg_dl_req_resp, seg0_info. simpl.
  change (send_assign_mrn [] msg) with msg. rewrite Hsegs. simpl.
  rewrite Hdl. simpl.
  assert (Hy : cpdlc_resp_type_eqb (resp (seg_info s)) CPDLC_RESP_Y = false).
  { by destruct (resp (seg_info s)). }
  rewrite Hy. simpl. by repeat split.
Qed.

(** ** Reading the messages of a thread *)

(** X10. The messages of a thread are read by their place in it. For a
    thread given by its id, [cpdlc_msglist_get_thr_msg_count] returns
    the number of its buckets, [cpdlc_msglist_get_thr_msg] returns the
    bucket at [msg_nr], counted from the oldest, when [msg_nr] is below
    that number, and ends on [ASSERT3U(msg_nr, <, list_count(...))]
    when it is not; neither changes the engine. *)
Theorem thr_msgs_are_read_by_place ml id i thr msg_nr :
  id <> CPDLC_NO_MSG_THR_ID ->
  thr_lookup_id id (ml_thr ml) = Some i ->
  ml_thr ml !! i = Some thr ->
  cpdlc_msglist_get_thr_msg_count ml id = Ok (ml, length (thr_buckets thr)) /\
  (forall b, thr_buckets thr !! msg_nr = Some b ->
     cpdlc_msglist_get_thr_msg ml id msg_nr = Ok (ml, b)) /\
  ((length (thr_buckets thr) <= msg_nr)%nat ->
     cpdlc_msglist_get_thr_msg ml id msg_nr = Abort AssertFailed).
Proof.
  intros Hid Hl Hi. apply Z.eqb_neq in Hid.
  unfold cpdlc_msglist_get_thr_msg_count, cpdlc_msglist_get_thr_msg,
    find_msg_thr, thr_at.
  rewrite Hid. cbn [negb ASSERT rbind]. rewrite Hl. cbn [rbind].
  rewrite Hi. cbn [rbind]. split; [done|]. split.
  - intros b Hb. rewrite bool_decide_eq_true_2 by (by eapply lookup_lt_Some).
    cbn [ASSERT rbind]. by rewrite Hb.
  - intros Hge. by rewrite bool_decide_eq_false_2 by lia.
Qed.

Lemma reachable_tok_inv ml : reachable ml -> Forall tok_inv (ml_thr ml).
Proof.
  apply reachable_inv; unfold tok_inv.
  - intros id. constructor.
  - by intros s t _ Ht.
  - by intros d t Ht.
  - intros b t Hb Ht. simpl. apply Forall_app. split; [done|].
    constructor; [|constructor]. intros Hs. congruence.
  - intros clk msg t Ht. simpl. apply Forall_app. split; [done|].
    constructor; [|constructor]. done.
Qed.

(** X11. Only sent messages have a token. In every state the engine
    reaches, a bucket [cpdlc_msglist_get_thr_msg] returns for a message
    that was received ([*is_sent_p] false) holds
    [CPDLC_INVALID_MSG_TOKEN]; the call leaves the engine as it is and
    the bucket is the one at [msg_nr] in the first thread with the
    id. *)
Theorem received_messages_have_no_token ml id msg_nr ml' b :
  reachable ml ->
  cpdlc_msglist_get_thr_msg ml id msg_nr = Ok (ml', b) ->
  ml' = ml /\
  (exists i t, thr_lookup_id id (ml_thr ml) = Some i /\
               ml_thr ml !! i = Some t /\ thr_buckets t !! msg_nr = Some b) /\
  (b_sent b = false -> b_tok b = CPDLC_INVALID_MSG_TOKEN).
Proof.
  intros Hreach Hg. unfold cpdlc_msglist_get_thr_msg in Hg.
  bind_inv Hg. bind_inv Hg as [ml1 i] Hf. bind_inv Hg as thr Ht.
  bind_inv Hg. apply thr_at_Ok in Ht.
  apply ASSERT_Ok, negb_true_iff, Z.eqb_neq in Hr.
  apply find_msg_thr_Ok in Hf as [(_ & -> & Hl)|(Hid & _)]; [|done].
  destruct (thr_buckets thr !! msg_nr) as [b0|] eqn:Hb; [|discriminate].
  injection Hg as <- <-. split; [done|]. split; [by exists i, thr|].
  pose proof (reachable_tok_inv ml Hreach) as Hall.
  eapply Forall_lookup_1 in Hall; [|exact Ht].
  unfold tok_inv in Hall. by eapply Forall_lookup_1 in Hall.
Qed.

(** ** Receiving *)

Lemma holds_bucket_evolve l l' id b :
  thrs_evolve l l' -> holds_bucket l id b -> holds_bucket l' id b.
Proof.
  intros Hev (t & Ht & Hid & Hb).
  apply list_elem_of_lookup in Ht as [i Hi].
  destruct (thrs_evolve_lookup _ _ _ _ Hev Hi)
    as (t' & Ht' & Hid' & (more & Hb') & _).
  exists t'. split; [by eapply list_elem_of_lookup_2|].
  split; [congruence|]. rewrite Hb'. apply elem_of_app. by left.
Qed.

Lemma msg_recv_one_holds ml clk msg ml' id :
  msg_recv_one ml clk msg = Ok (ml', id) ->
  holds_bucket (ml_thr ml') id (recv_bucket clk msg).
Proof.
  intros Hr. unfold msg_recv_one in Hr.
  bind_inv Hr as [ml1 i] Hp. bind_inv Hr as ml2 Hu. bind_inv Hr as thr Ht.
  injection Hr as <- <-. apply thr_at_Ok in Ht.
  apply msg_recv_place_Ok in Hp as (ml0 & t & Hi & -> & _).
  assert (Hi1 : ml_thr (ml_upd_thr ml0 i
                  (fun t => thr_insert_tail (recv_bucket clk msg)
                              (thr_set_dirty true t))) !! i
                = Some (thr_insert_tail (recv_bucket clk msg)
                          (thr_set_dirty true t))).
  { simpl. by rewrite list_lookup_alter_eq, Hi. }
  apply thr_status_upd_evolves in Hu.
  destruct (thrs_evolve_lookup _ _ _ _ Hu Hi1)
    as (t' & Ht' & Hid' & (more & Hb') & _).
  rewrite Ht in Ht'. injection Ht' as <-.
  exists thr. split; [by eapply list_elem_of_lookup_2|]. split; [done|].
  rewrite Hb'. simpl. rewrite !elem_of_app. left. right. left.
Qed.

Lemma msg_recv_loop_holds ml clk msgs acc ml' ids :
  msg_recv_loop true ml clk msgs acc = Ok (ml', ids) ->
  exists new,
    ids = acc ++ new /\
    Forall2 (fun msg id => holds_bucket (ml_thr ml') id (recv_bucket clk msg))
            msgs new.
Proof.
  revert ml acc. induction msgs as [|msg msgs IH]; intros ml acc Hl;
    simpl in Hl.
  - injection Hl as <- <-. exists []. split; [by rewrite app_nil_r|constructor].
  - bind_inv Hl as [ml1 id] Ho.
    pose proof (msg_recv_loop_evolves _ _ _ _ _ _ _ Hl) as Hev.
    destruct (IH _ _ Hl) as (new & -> & HF).
    exists (id :: new). split; [by rewrite <- app_assoc|].
    constructor; [|done].
    eapply holds_bucket_evolve; [exact Hev|]. by eapply msg_recv_one_holds.
Qed.

Lemma msg_recv_loop_stores ml clk msgs acc ml' ids :
  msg_recv_loop false ml clk msgs acc = Ok (ml', ids) ->
  ids = acc /\
  Forall (fun msg => exists id,
            holds_bucket (ml_thr ml') id (recv_bucket clk msg)) msgs.
Proof.
  revert ml acc. induction msgs as [|msg msgs IH]; intros ml acc Hl;
    simpl in Hl.
  - injection Hl as <- <-. split; [done|constructor].
  - bind_inv Hl as [ml1 id] Ho.
    pose proof (msg_recv_loop_evolves _ _ _ _ _ _ _ Hl) as Hev.
    destruct (IH _ _ Hl) as (-> & HF). split; [done|].
    constructor; [|done]. exists id.
    eapply holds_bucket_evolve; [exact Hev|]. by eapply msg_recv_one_holds.
Qed.

(** X12. No received message is lost, and the update callback is told
    where each one went. When [msg_recv_cb] returns, every message the
    transport handed over is held, as a bucket that is not sent, with
    the time of the call and without a token, by a thread of the list;
    and when an update callback is registered it gets one thread id for
    each message, in the order of the messages, which is the id of a
    thread that holds the message. Without a callback no id is
    collected. *)
Theorem received_messages_are_stored ml clk msgs ml' r :
  msg_recv_cb ml clk msgs = Ok (ml', r) ->
  Forall (fun msg => exists id,
            holds_bucket (ml_thr ml') id (recv_bucket clk msg)) msgs /\
  (ml_update_cb ml = true ->
   exists ids,
     r = Some ids /\
     Forall2 (fun msg id => holds_bucket (ml_thr ml') id (recv_bucket clk msg))
             msgs ids) /\
  (ml_update_cb ml = false -> r = None).
Proof.
  intros Hr. unfold msg_recv_cb in Hr. bind_inv Hr as [ml1 ids] Hl.
  destruct (ml_update_cb ml) eqn:Hcb; injection Hr as <- <-.
  - apply msg_recv_loop_holds in Hl as (new & -> & HF). simpl.
    split; [|split; [|discriminate]].
    + clear -HF. induction HF as [|msg id msgs new Hx _ IH]; constructor;
        [by exists id|done].
    + intros _. by exists new.
  - apply msg_recv_loop_stores in Hl as (_ & HF).
    split; [done|]. split; [discriminate|done].
Qed.

(** ** Correlation *)

(** X13. A reply joins the oldest thread it answers. When a received
    message has a first segment and a MRN, the thread at [i] is not
    CLOSED and holds a bucket the message answers (a sent one whose MIN
    is the MRN; for UM168 DISREGARD a received one), and every thread
    behind it in the list, that is every older thread, is CLOSED or
    holds no such bucket, then, whatever the newer threads hold, the
    walk returns the thread at [i] and the message is appended to it; the
    thread is marked dirty, no thread is created and no other thread is
    touched. *)
Theorem reply_joins_oldest_matching_thread ml clk msg s segs i thr b :
  msg_segs msg = s :: segs ->
  cpdlc_msg_get_mrn msg <> CPDLC_INVALID_MSG_SEQ_NR ->
  ml_thr ml !! i = Some thr ->
  thr_status thr <> CPDLC_MSG_THR_CLOSED ->
  b ∈ thr_buckets thr ->
  answers msg b = true ->
  Forall (passed_over msg) (drop (S i) (ml_thr ml)) ->
  msg_thr_find_by_mrn ml msg = Ok (Some i) /\
  msg_recv_place ml clk msg =
    Ok (ml_set_thr ml
          (<[i := {| thr_id := thr_id thr; thr_status := thr_status thr;
                     thr_buckets := thr_buckets thr ++ [recv_bucket clk msg];
                     thr_dirty := true |}]> (ml_thr ml)), i).
Proof.
  intros Hs Hmrn Hi Hncl Hb Ha Hafter.
  assert (Hfind : msg_thr_find_by_mrn ml msg = Ok (Some i)).
  { apply (msg_thr_find_by_mrn_oldest _ _ _ _ _ Hs).
    split; [done|]. by exists thr, b. }
  split; [exact Hfind|]. by apply msg_recv_place_found.
Qed.

(** ** Recomputing twice *)

Lemma ml_upd_thr_twice ml i s :
  ml_upd_thr (ml_upd_thr ml i (thr_set_status s)) i (thr_set_status s)
  = ml_upd_thr ml i (thr_set_status s).
Proof.
  unfold ml_upd_thr, ml_set_thr. simpl. f_equal.
  apply list_eq. intros j. destruct (decide (j = i)) as [->|Hne].
  - rewrite !list_lookup_alter_eq. by destruct (ml_thr ml !! i).
  - by rewrite !list_lookup_alter_ne.
Qed.

(** X14. Recomputing the status of a thread twice in a row, with the
    same clock reading, gives what recomputing it once gives: the
    second run changes nothing. *)
Theorem thr_status_upd_twice ml clk i ml' :
  thr_status_upd ml clk i = Ok ml' ->
  thr_status_upd ml' clk (i + (length (ml_thr ml') - length (ml_thr ml)))%nat
    = Ok ml'.
Proof.
  intros Hu. pose proof Hu as Hu0. unfold thr_status_upd in Hu.
  bind_inv Hu as thr Ht. apply thr_at_Ok in Ht.
  assert (Hfinal : forall g,
            (forall t, thr_status_is_final (thr_status (g t)) = true) ->
            thr_status_upd (ml_upd_thr ml i g) clk
              (i + (length (ml_thr (ml_upd_thr ml i g))
                    - length (ml_thr ml)))%nat
            = Ok (ml_upd_thr ml i g)).
  { intros g Hg. simpl. rewrite length_alter, Nat.sub_diag, Nat.add_0_r.
    eapply thr_status_upd_final; [|apply (Hg thr)].
    simpl. by rewrite list_lookup_alter_eq, Ht. }
  assert (Hkeep : ml' = ml ->
            thr_status_upd ml' clk
              (i + (length (ml_thr ml') - length (ml_thr ml)))%nat = Ok ml').
  { intros ->. by rewrite Nat.sub_diag, Nat.add_0_r. }
  destruct (thr_status_is_final (thr_status thr)) eqn:Hfin.
  { apply Hkeep. by injection Hu as <-. }
  destruct (thr_buckets thr) as [|first rest] eqn:Hb; [discriminate|].
  repeat match type of Hu with
  | rbind _ _ = Ok _ => bind_inv Hu
  | (if ?c then _ else _) = Ok _ => destruct c eqn:?
  end;
  try (injection Hu as <-;
       first [ by apply Hkeep | by apply Hfinal ]).
  all: try match goal with
  | Hs : msglist_send_impl _ _ _ _ = Ok ?p |- _ =>
      destruct p as [ml1 j]; injection Hu as <-
  end.
  - destruct (cpdlc_client_get_msg_status (ml_cl ml)
                (b_tok (List.last rest first))) eqn:Htok;
      injection Hu as <-; try (by apply Hfinal).
    all: simpl; rewrite length_alter, Nat.sub_diag, Nat.add_0_r;
      unfold thr_status_upd, thr_at; simpl;
      rewrite list_lookup_alter_eq, Ht; simpl; rewrite Hb;
      rewrite Hr; cbn [rbind]; rewrite Hr0; cbn [rbind]; rewrite Htok;
      by rewrite ml_upd_thr_twice.
  - injection Hu as <-.
    simpl. rewrite length_alter, Nat.sub_diag, Nat.add_0_r.
    unfold thr_status_upd, thr_at. simpl.
    rewrite list_lookup_alter_eq, Ht. simpl. rewrite Hb.
    rewrite Hr. cbn [rbind]. rewrite Hr0. cbn [rbind]. rewrite Hr1.
    cbn [rbind]. by rewrite ml_upd_thr_twice.
  - pose proof (msglist_send_impl_evolves _ _ _ _ _ _ Hr6) as Hev.
    destruct (thrs_evolve_lookup _ _ _ _ Hev Ht) as (t1 & Ht1 & _).
    simpl. rewrite length_alter.
    eapply thr_status_upd_final.
    + simpl. by rewrite list_lookup_alter_eq, Ht1.
    + reflexivity.
Qed.

(** ** Closing and marking *)

Lemma thr_lookup_id_insert id l i t t' :
  l !! i = Some t -> thr_id t' = thr_id t ->
  thr_lookup_id id (<[i := t']> l) = thr_lookup_id id l.
Proof.
  intros Hi Hid. revert i Hi. induction l as [|t0 l IH]; intros i Hi; [done|].
  destruct i as [|i].
  - injection Hi as ->. change (<[0%nat := t']> (t :: l)) with (t' :: l).
    simpl. by rewrite Hid.
  - change (<[S i := t']> (t0 :: l)) with (t0 :: <[i := t']> l). simpl.
    by rewrite (IH i Hi).
Qed.

(** X15. A thread that was closed is done. [cpdlc_msglist_thr_close] on
    a thread given by its id returns; afterwards
    [cpdlc_msglist_thr_is_done] returns true for the id, a message can
    no longer be sent into the thread (the call ends on the assertion of
    [msglist_send_impl]), and the thread has the buckets, the id and the
    dirty flag it had; its status is CLOSED unless it was final
    already. *)
Theorem closed_thread_is_done ml i thr :
  ml_thr ml !! i = Some thr ->
  thr_lookup_id (thr_id thr) (ml_thr ml) = Some i ->
  thr_id thr <> CPDLC_NO_MSG_THR_ID ->
  exists ml1,
    cpdlc_msglist_thr_close ml (thr_id thr) = Ok ml1 /\
    cpdlc_msglist_thr_is_done ml1 (thr_id thr) = Ok (ml1, true) /\
    (forall clk msg,
       cpdlc_msglist_send ml1 clk msg (thr_id thr) = Abort AssertFailed) /\
    ml_thr ml1 =
      <[i := {| thr_id := thr_id thr;
                thr_status := if thr_status_is_final (thr_status thr)
                              then thr_status thr else CPDLC_MSG_THR_CLOSED;
                thr_buckets := thr_buckets thr;
                thr_dirty := thr_dirty thr |}]> (ml_thr ml).
Proof.
  intros Hi Hl Hid.
  set (thr1 := {| thr_id := thr_id thr;
                  thr_status := if thr_status_is_final (thr_status thr)
                                then thr_status thr else CPDLC_MSG_THR_CLOSED;
                  thr_buckets := thr_buckets thr;
                  thr_dirty := thr_dirty thr |}).
  assert (Hclose : cpdlc_msglist_thr_close ml (thr_id thr)
                   = Ok (ml_set_thr ml (<[i := thr1]> (ml_thr ml)))).
  { unfold cpdlc_msglist_thr_close, find_msg_thr.
    pose proof Hid as Hid'. apply Z.eqb_neq in Hid'. rewrite Hid'.
    cbn [negb ASSERT rbind]. rewrite Hl. cbn [rbind]. unfold thr_at.
    rewrite Hi. cbn [rbind]. unfold thr1.
    destruct (thr_status_is_final (thr_status thr)) eqn:Hfin; cbn [negb].
    - f_equal. destruct ml; unfold ml_set_thr; simpl in *. f_equal.
      symmetry. apply list_insert_id. rewrite Hi. by destruct thr.
    - unfold ml_upd_thr. do 2 f_equal.
      apply list_eq. intros j. destruct (decide (j = i)) as [->|Hne].
      + rewrite list_lookup_alter_eq, Hi.
        by rewrite list_lookup_insert_eq by (by eapply lookup_lt_Some).
      + by rewrite list_lookup_alter_ne, list_lookup_insert_ne. }
  exists (ml_set_thr ml (<[i := thr1]> (ml_thr ml))).
  assert (Hi1 : <[i := thr1]> (ml_thr ml) !! i = Some thr1).
  { apply list_lookup_insert_eq. by eapply lookup_lt_Some. }
  assert (Hl1 : thr_lookup_id (thr_id thr) (<[i := thr1]> (ml_thr ml)) = Some i).
  { by rewrite (thr_lookup_id_insert _ _ _ thr). }
  assert (Hfin1 : thr_status_is_final (thr_status thr1) = true).
  { unfold thr1. simpl.
    by destruct (thr_status_is_final (thr_status thr)) eqn:Hfin. }
  split; [exact Hclose|]. split; [|split; [|done]].
  - unfold cpdlc_msglist_thr_is_done, find_msg_thr.
    pose proof Hid as Hid'. apply Z.eqb_neq in Hid'. rewrite Hid'.
    cbn [negb ASSERT rbind]. simpl. rewrite Hl1. cbn [rbind]. unfold thr_at.
    simpl. rewrite Hi1. cbn [rbind]. by rewrite Hfin1.
  - intros clk msg.
    unfold cpdlc_msglist_send, msglist_send_impl, find_msg_thr.
    pose proof Hid as Hid'. apply Z.eqb_neq in Hid'. rewrite Hid'.
    cbn [negb]. simpl ml_thr. rewrite Hl1. cbn [rbind]. unfold thr_at.
    simpl ml_thr. rewrite Hi1. cbn [rbind]. by rewrite Hfin1.
Qed.

(** X16. Marking a thread as seen clears its dirty flag and nothing
    else: [cpdlc_msglist_thr_mark_seen] on a thread given by its id
    returns, and [cpdlc_msglist_get_thr_status] then returns the status
    the thread had and [*dirty] false. *)
Theorem mark_seen_clears_dirty ml i thr :
  ml_thr ml !! i = Some thr ->
  thr_lookup_id (thr_id thr) (ml_thr ml) = Some i ->
  thr_id thr <> CPDLC_NO_MSG_THR_ID ->
  exists ml1,
    cpdlc_msglist_thr_mark_seen ml (thr_id thr) = Ok ml1 /\
    cpdlc_msglist_get_thr_status ml1 (thr_id thr)
      = Ok (ml1, (thr_status thr, false)) /\
    ml_thr ml1 =
      <[i := {| thr_id := thr_id thr; thr_status := thr_status thr;
                thr_buckets := thr_buckets thr; thr_dirty := false |}]>
        (ml_thr ml).
Proof.
  intros Hi Hl Hid.
  set (thr1 := {| thr_id := thr_id thr; thr_status := thr_status thr;
                  thr_buckets := thr_buckets thr; thr_dirty := false |}).
  exists (ml_set_thr ml (<[i := thr1]> (ml_thr ml))).
  pose proof Hid as Hid'. apply Z.eqb_neq in Hid'.
  assert (Hi1 : <[i := thr1]> (ml_thr ml) !! i = Some thr1).
  { apply list_lookup_insert_eq. by eapply lookup_lt_Some. }
  assert (Hl1 : thr_lookup_id (thr_id thr) (<[i := thr1]> (ml_thr ml)) = Some i).
  { by rewrite (thr_lookup_id_insert _ _ _ thr). }
  split; [|split; [|done]].
  - unfold cpdlc_msglist_thr_mark_seen, find_msg_thr. rewrite Hid'.
    cbn [negb ASSERT rbind]. rewrite Hl. cbn [rbind].
    unfold ml_upd_thr. do 2 f_equal.
    apply list_eq. intros j. destruct (decide (j = i)) as [->|Hne].
    + rewrite list_lookup_alter_eq, Hi.
      by rewrite list_lookup_insert_eq by (by eapply lookup_lt_Some).
    + by rewrite list_lookup_alter_ne, list_lookup_insert_ne.
  - unfold cpdlc_msglist_get_thr_status, find_msg_thr. rewrite Hid'.
    cbn [negb ASSERT rbind]. simpl. rewrite Hl1. cbn [rbind]. unfold thr_at.
    simpl. by rewrite Hi1.
Qed.


(** ** The timeout rule on the uplinks the engine receives *)

Lemma last_of_app (bs : list msg_bucket) (b first : msg_bucket) rest :
  bs ++ [b] = first :: rest -> List.last rest first = b.
Proof.
  destruct bs as [|x bs]; simpl; intros [= <- <-]; [reflexivity|].
  apply List.last_last.
Qed.

Lemma settled_sent b s t :
  b_sent b = true -> settled (thr_insert_tail b (thr_set_status s t)).
Proof.
  intros Hb. right. right. simpl.
  destruct (thr_buckets t ++ [b]) as [|first rest] eqn:Hl; [done|].
  left. by rewrite (last_of_app _ _ _ _ Hl).
Qed.

Lemma settled_all i l :
  settled_but i l -> (forall t, l !! i = Some t -> settled t) ->
  Forall settled l.
Proof.
  intros Hbut Hi. apply Forall_lookup. intros k t Hk.
  destruct (decide (k = i)) as [->|Hne]; [by apply Hi|by eapply Hbut].
Qed.

Lemma settled_but_of_all i l : Forall settled l -> settled_but i l.
Proof. intros Hall k t _ Hk. by eapply Forall_lookup_1 in Hall. Qed.

Lemma settled_upd ml i f :
  settled_but i (ml_thr ml) ->
  (forall t, ml_thr ml !! i = Some t -> settled (f t)) ->
  Forall settled (ml_thr (ml_upd_thr ml i f)).
Proof.
  intros Hbut Hf. apply Forall_lookup. intros k t Hk. simpl in Hk.
  destruct (decide (k = i)) as [->|Hne].
  - rewrite list_lookup_alter_eq in Hk.
    destruct (ml_thr ml !! i) as [t0|] eqn:Hi; [|discriminate].
    injection Hk as <-. by apply Hf.
  - rewrite list_lookup_alter_ne in Hk by done. by eapply Hbut.
Qed.

(** [msglist_send_impl] leaves a sent bucket at the tail of the thread it
    writes to, and moves the others one place down when it creates a
    thread. *)
Lemma msglist_send_impl_settled_but ml clk msg id ml' j i :
  settled_but i (ml_thr ml) ->
  msglist_send_impl ml clk msg id = Ok (ml', j) ->
  settled_but (i + (length (ml_thr ml') - length (ml_thr ml)))%nat
    (ml_thr ml').
Proof.
  intros Hbut Hs.
  apply msglist_send_impl_Ok in Hs as (ml1 & t & Hf & Ht & _ & Hthr & _).
  rewrite Hthr, length_insert.
  assert (Hj : (j < length (ml_thr ml1))%nat) by (by eapply lookup_lt_Some).
  apply find_msg_thr_Ok in Hf as [(_ & -> & _)|(_ & -> & ->)].
  - rewrite Nat.sub_diag, Nat.add_0_r. intros k t' Hk Ht'.
    destruct (decide (k = j)) as [->|Hne].
    + rewrite list_lookup_insert_eq in Ht' by done. injection Ht' as <-.
      by apply settled_sent.
    + rewrite list_lookup_insert_ne in Ht' by done. by eapply Hbut.
  - simpl. replace (i + (S (length (ml_thr ml)) - length (ml_thr ml)))%nat
      with (S i) by lia.
    intros k t' Hk Ht'. destruct k as [|k].
    + simpl in Ht'. injection Ht' as <-. by apply settled_sent.
    + simpl in Ht'. eapply (Hbut k); [lia|done].
Qed.

(** A run of [thr_status_upd] settles the thread it is run on. *)
Lemma thr_status_upd_settles ml clk i ml' :
  settled_but i (ml_thr ml) -> thr_status_upd ml clk i = Ok ml' ->
  Forall settled (ml_thr ml').
Proof.
  intros Hbut Hu. unfold thr_status_upd in Hu.
  bind_inv Hu as thr Ht. apply thr_at_Ok in Ht.
  destruct (thr_status_is_final (thr_status thr)) eqn:Hfin.
  { injection Hu as <-. eapply settled_all; [exact Hbut|].
    intros t Hi. rewrite Ht in Hi. injection Hi as <-. by left. }
  destruct (thr_buckets thr) as [|first rest] eqn:Hb; [discriminate|].
  bind_inv Hu as c1 H1. destruct c1.
  { injection Hu as <-. apply settled_upd; [done|]. intros t _. by left. }
  bind_inv Hu as c2 H2. destruct c2.
  { injection Hu as <-. apply settled_upd; [done|]. intros t Hi.
    rewrite Ht in Hi. injection Hi as <-. right. right. simpl. rewrite Hb.
    left. destruct (b_sent (List.last rest first)); [done|discriminate]. }
  bind_inv Hu as c3 H3. destruct c3.
  { injection Hu as <-. apply settled_upd; [done|]. intros t _. right. by left. }
  bind_inv Hu as c4 H4. destruct c4.
  { injection Hu as <-. apply settled_upd; [done|]. intros t _. by left. }
  bind_inv Hu as c5 H5. destruct c5.
  { injection Hu as <-. apply settled_upd; [done|]. intros t _. by left. }
  bind_inv Hu as c6 H6. destruct c6.
  { injection Hu as <-. apply settled_upd; [done|]. intros t _. by left. }
  assert (Hpass : passes_type_rules (b_msg (List.last rest first))).
  { do 3 (split; [done|]). bind_inv H6 as r Hr.
    destruct r; [discriminate|]. by split. }
  bind_inv Hu as c7 H7. destruct c7.
  { bind_inv Hu as [ml1 j] Hs. injection Hu as <-.
    apply settled_upd; [by eapply msglist_send_impl_settled_but|].
    intros t _. by left. }
  bind_inv Hu as c8 H8. destruct c8.
  { injection Hu as <-. apply settled_upd; [done|]. intros t _. by left. }
  bind_inv Hu as c9 H9. destruct c9.
  { injection Hu as <-. apply settled_upd; [done|]. intros t _. by left. }
  match type of Hu with (if ?c then _ else _) = _ => destruct c end.
  { injection Hu as <-. apply settled_upd; [done|]. intros t _. by left. }
  injection Hu as <-. eapply settled_all; [exact Hbut|].
  intros t Hi. rewrite Ht in Hi. injection Hi as <-.
  right. right. rewrite Hb. by right.
Qed.

Lemma msg_recv_one_settled ml clk msg ml' id :
  Forall settled (ml_thr ml) -> msg_recv_one ml clk msg = Ok (ml', id) ->
  Forall settled (ml_thr ml').
Proof.
  intros Hall Hr. unfold msg_recv_one in Hr.
  bind_inv Hr as [ml1 i] Hp. bind_inv Hr as ml2 Hu. bind_inv Hr as thr Ht.
  injection Hr as <- _.
  eapply thr_status_upd_settles; [|exact Hu].
  apply msg_recv_place_Ok in Hp as (ml0 & t & _ & -> & Hfrom).
  intros k t' Hk Ht'. simpl in Ht'.
  rewrite list_lookup_alter_ne in Ht' by done.
  destruct Hfrom as [[_ ->]|(_ & -> & ->)].
  - by eapply Forall_lookup_1 in Hall.
  - destruct k as [|k]; [done|]. simpl in Ht'.
    by eapply Forall_lookup_1 in Hall.
Qed.

Lemma msg_recv_loop_settled cb ml clk msgs acc ml' ids :
  Forall settled (ml_thr ml) ->
  msg_recv_loop cb ml clk msgs acc = Ok (ml', ids) ->
  Forall settled (ml_thr ml').
Proof.
  revert ml acc. induction msgs as [|msg msgs IH]; intros ml acc Hall Hl;
    simpl in Hl.
  - by injection Hl as <- _.
  - bind_inv Hl as [ml1 id] Ho. eapply IH; [|exact Hl].
    by eapply msg_recv_one_settled.
Qed.

Lemma update_loop_settled ml clk k ml' :
  Forall settled (ml_thr ml) -> update_loop ml clk k = Ok ml' ->
  Forall settled (ml_thr ml').
Proof.
  revert ml. induction k as [|k IH]; intros ml Hall Hl; simpl in Hl.
  - by injection Hl as <-.
  - bind_inv Hl as ml1 Hu. eapply IH; [|exact Hl].
    eapply thr_status_upd_settles; [|exact Hu]. by apply settled_but_of_all.
Qed.

Lemma find_msg_thr_settled ml id ml' i :
  Forall settled (ml_thr ml) -> find_msg_thr ml id = Ok (ml', i) ->
  Forall settled (ml_thr ml').
Proof.
  intros Hall Hf.
  apply find_msg_thr_Ok in Hf as [(_ & -> & _)|(_ & -> & _)]; [done|].
  simpl. constructor; [|done]. right. by right.
Qed.

Lemma step_settled ml clk o ml' :
  Forall settled (ml_thr ml) -> step ml clk o = Ok ml' ->
  Forall settled (ml_thr ml').
Proof.
  intros Hall Hs. destruct o as [msg id|msgs| |id|id|id|r]; simpl in Hs.
  - bind_inv Hs as [ml2 id'] Hsend. injection Hs as <-.
    unfold cpdlc_msglist_send in Hsend.
    bind_inv Hsend as [ml1 i] Hi. bind_inv Hsend as thr Ht.
    bind_inv Hsend as ml3 Hu. injection Hsend as <- _.
    eapply thr_status_upd_settles; [|exact Hu].
    apply settled_but_of_all.
    pose proof (msglist_send_impl_settled_but ml clk msg id ml1 i
                  (length (ml_thr ml)) (settled_but_of_all _ _ Hall) Hi)
      as Hbut.
    eapply settled_all; [exact Hbut|].
    intros t Hl. apply lookup_lt_Some in Hl.
    apply msglist_send_impl_Ok in Hi as (ml0 & t0 & Hf & _ & _ & Hthr & _).
    rewrite Hthr, length_insert in Hl.
    apply find_msg_thr_Ok in Hf as [(_ & -> & _)|(_ & -> & _)];
      simpl in Hl; lia.
  - bind_inv Hs as [ml2 ids] Hrecv. injection Hs as <-.
    unfold msg_recv_cb in Hrecv. bind_inv Hrecv as [ml1 ids1] Hl.
    injection Hrecv as <- _. by eapply msg_recv_loop_settled.
  - by eapply update_loop_settled.
  - unfold cpdlc_msglist_thr_mark_seen in Hs.
    bind_inv Hs. bind_inv Hs as [ml1 i] Hf. injection Hs as <-.
    simpl. apply Forall_alter; [by eapply find_msg_thr_settled|].
    intros t _ Ht. exact Ht.
  - unfold cpdlc_msglist_thr_close in Hs.
    bind_inv Hs. bind_inv Hs as [ml1 i] Hf. bind_inv Hs as thr Ht.
    pose proof (find_msg_thr_settled _ _ _ _ Hall Hf) as Hall1.
    destruct (thr_status_is_final (thr_status thr)); simpl in Hs;
      injection Hs as <-; [done|].
    simpl. apply Forall_alter; [done|].
    intros t _ Hq. by left.
  - unfold cpdlc_msglist_remove_thr in Hs.
    bind_inv Hs. bind_inv Hs as [ml1 i] Hf. injection Hs as <-.
    simpl. apply Forall_delete. by eapply find_msg_thr_settled.
  - by injection Hs as <-.
Qed.

(** In every state the engine reaches, every thread is settled. *)
Lemma reachable_settled ml : reachable ml -> Forall settled (ml_thr ml).
Proof.
  induction 1 as [cl|ml clk o ml' _ IH Hs|ml cl _ IH].
  - constructor.
  - by eapply step_settled.
  - exact IH.
Qed.

(** The timeout rule on the uplinks the engine receives, in the states
    it reaches. Take a thread that is not final and not in STANDBY,
    designated by its id, whose last bucket holds a received uplink of
    response class WU, AN or NE. When the timeout of the thread is
    positive and less than the time since that bucket, the status
    recomputation returns; it has appended to the thread exactly one
    bucket, sent through [msglist_send_impl], holding a DM62 ERROR with
    the argument "TIMEDOUT", the next MIN of the engine and the MIN of
    the last message as MRN; the status of the thread is TIMEDOUT and
    nothing else in the list has changed; and any further recomputation
    leaves the engine as it is. *)
Lemma received_uplink_times_out ml clk i thr bs last s segs :
  reachable ml ->
  ml_thr ml !! i = Some thr ->
  thr_lookup_id (thr_id thr) (ml_thr ml) = Some i ->
  thr_id thr <> CPDLC_NO_MSG_THR_ID ->
  thr_status_is_final (thr_status thr) = false ->
  thr_status thr <> CPDLC_MSG_THR_STANDBY ->
  thr_buckets thr = bs ++ [last] ->
  b_sent last = false ->
  msg_segs (b_msg last) = s :: segs ->
  is_dl (seg_info s) = false ->
  resp (seg_info s) ∈ [CPDLC_RESP_WU; CPDLC_RESP_AN; CPDLC_RESP_NE] ->
  0 < thr_get_timeout thr ->
  thr_get_timeout thr < time_now clk - b_time last ->
  exists ml' tok,
    thr_status_upd ml clk i = Ok ml' /\
    ml_thr ml' =
      <[i := {| thr_id := thr_id thr;
                thr_status := CPDLC_MSG_THR_TIMEDOUT;
                thr_buckets :=
                  thr_buckets thr ++
                  [{| b_msg := timedout_error (ml_min ml)
                                 (cpdlc_msg_get_min (b_msg last));
                      b_tok := tok; b_sent := true;
                      b_hours := clk_hours clk; b_mins := clk_mins clk;
                      b_time := time_now clk |}];
                thr_dirty := thr_dirty thr |}]> (ml_thr ml) /\
    cpdlc_client_send_msg (ml_cl ml)
      (timedout_error (ml_min ml) (cpdlc_msg_get_min (b_msg last)))
      = (ml_cl ml', tok) /\
    ml_min ml' = u32_incr (ml_min ml) /\
    forall clk', thr_status_upd ml' clk' i = Ok ml'.
Proof.
  intros Hreach Hi Hid Hno Hfin Hstby Hb Hrecv Hsegs Hdl Hresp Hpos Hlate.
  eapply timeout_rule_sends_error; eauto.
  apply reachable_settled in Hreach.
  eapply Forall_lookup_1 in Hreach; [|exact Hi].
  destruct Hreach as [Hf|[Hst|Hlast]]; [congruence|done|].
  destruct (thr_buckets thr) as [|first rest] eqn:Hfr.
  { by destruct bs. }
  symmetry in Hb. rewrite (last_of_app _ _ _ _ Hb) in Hlast.
  destruct Hlast as [Hsent|(H3 & H4 & H5 & H6 & H7)]; [congruence|].
  unfold msg_is_stby, msg_is_accept, msg_is_reject, msg_is_rgr,
    msg_is_link_mgmt, seg0_info in H3, H4, H5, H6, H7.
  rewrite Hsegs in H3, H4, H5, H6, H7. cbn [rbind] in H3, H4, H5, H6, H7.
  rewrite Hdl in H3, H4, H5, H6, H7.
  cbn [andb negb orb] in H3, H4, H5, H6, H7.
  injection H3 as H3. injection H4 as H4. injection H5 as H5.
  injection H6 as H6. injection H7 as H7.
  apply orb_false_elim in H5 as [H5 H5c].
  apply orb_false_elim in H5 as [H5a H5b].
  apply orb_false_elim in H7 as [H7a H7b].
  intros Hin.
  repeat (apply elem_of_cons in Hin as [Hin|Hin];
          [rewrite Hin, Z.eqb_refl in *; discriminate|]).
  by apply elem_of_nil in Hin.
Qed.

End Facts.

(** ** The properties on runs of the engine *)

Section Runs.
#[local] Existing Instance counting_transport.
#[local] Existing Instance small_catalog.

Lemma run_reachable ml steps ml' :
  reachable ml -> run ml steps = Ok ml' -> reachable ml'.
Proof.
  revert ml. induction steps as [|[now o] steps IH]; intros ml Hreach Hrun;
    simpl in Hrun.
  - by injection Hrun as <-.
  - bind_inv Hrun as ml1 Hstep. eapply IH; [|exact Hrun].
    by eapply reachable_step.
Qed.

Lemma state_of_run_reachable steps ml :
  run (cpdlc_msglist_alloc O) steps = Ok ml ->
  reachable (state_of (run (cpdlc_msglist_alloc O) steps)).
Proof.
  intros Hrun. rewrite Hrun. simpl.
  eapply run_reachable; [apply (reachable_alloc O)|exact Hrun].
Qed.

Lemma accepted_run_reachable : reachable (state_of accepted_run).
Proof.
  unfold accepted_run. eapply state_of_run_reachable.
  vm_compute. reflexivity.
Qed.




Lemma final_status_is_kept_witness :
  ml_thr (state_of accepted_run) !! O
    = Some (hd (new_thr 0) (ml_thr (state_of accepted_run))) /\
  thr_status (hd (new_thr 0) (ml_thr (state_of accepted_run)))
    = CPDLC_MSG_THR_ACCEPTED /\
  thr_status_upd (state_of accepted_run) (clock_at 1020) O
    = Ok (state_of accepted_run).
Proof.
  split; [reflexivity|]. split; [reflexivity|].
  apply (final_status_is_kept (state_of accepted_run) (clock_at 1020) O
           (hd (new_thr 0) (ml_thr (state_of accepted_run)))).
  - reflexivity.
  - apply list_elem_of_further, list_elem_of_here.
Defined.

Lemma reachable_threads_hold_buckets_witness :
  reachable (state_of accepted_run) /\
  Forall (fun t => thr_buckets t <> []) (ml_thr (state_of accepted_run)).
Proof.
  split; [exact accepted_run_reachable|].
  apply (reachable_threads_hold_buckets (state_of accepted_run)).
  exact accepted_run_reachable.
Defined.

(** C8 fails as stated: the ids do not come oldest thread first. Two
    sends create the threads 0 and 1, in this order; the enumeration
    gives 1, then 0. *)
Lemma thr_ids_come_newest_first :
  exists ml1 ml2,
    cpdlc_msglist_send (cpdlc_msglist_alloc O) (clock_at 1000)
      (one_seg_msg true CPDLC_DM6_REQ_alt) CPDLC_NO_MSG_THR_ID = Ok (ml1, 0) /\
    cpdlc_msglist_send ml1 (clock_at 1001)
      (one_seg_msg true CPDLC_DM6_REQ_alt) CPDLC_NO_MSG_THR_ID = Ok (ml2, 1) /\
    cpdlc_msglist_get_thr_ids ml2 false (Some [9; 9]) 2
      = Ok (Some [1; 0], 2) /\
    cpdlc_msglist_get_thr_ids ml2 true (Some [9; 9]) 2
      = Ok (Some [1; 0], 2).
Proof.
  do 2 eexists. repeat split; vm_compute; reflexivity.
Qed.

Lemma get_thr_ids_newest_first_witness :
  Z.of_nat (length (ml_thr (state_of two_threads_run))) <= UINT32_MAX /\
  (2 <= length [9; 9; 9])%nat /\
  cpdlc_msglist_get_thr_ids (state_of two_threads_run) false (Some [9; 9; 9])
    (Z.of_nat 2) = Ok (Some [1; 0; 9], 2).
Proof.
  split; [vm_compute; discriminate|]. split; [vm_compute; lia|].
  apply (get_thr_ids_newest_first (state_of two_threads_run) false [9; 9; 9] 2).
  - vm_compute. discriminate.
  - vm_compute. lia.
Defined.


Lemma received_uplink_times_out_witness :
  exists ml',
    thr_status_upd (state_of unanswered_run) (clock_at 1200) O = Ok ml' /\
    ml_thr ml' =
      [{| thr_id := 0; thr_status := CPDLC_MSG_THR_TIMEDOUT;
          thr_buckets :=
            [{| b_msg := cpdlc_msg_set_min (one_seg_msg true CPDLC_DM6_REQ_alt) 0;
                b_tok := 0; b_sent := true;
                b_hours := 0; b_mins := 16; b_time := 1000 |};
             recv_bucket (clock_at 1010) (uplink 20 5 0);
             {| b_msg := timedout_error 1 5;
                b_tok := 1; b_sent := true;
                b_hours := 0; b_mins := 20; b_time := 1200 |}];
          thr_dirty := true |}].
Proof.
  destruct (received_uplink_times_out
              (state_of unanswered_run) (clock_at 1200) O
              (hd (new_thr 0) (ml_thr (state_of unanswered_run)))
              [{| b_msg := cpdlc_msg_set_min (one_seg_msg true CPDLC_DM6_REQ_alt) 0;
                  b_tok := 0; b_sent := true;
                  b_hours := 0; b_mins := 16; b_time := 1000 |}]
              (recv_bucket (clock_at 1010) (uplink 20 5 0))
              {| seg_info := {| is_dl := false; msg_type := 20;
                                resp := CPDLC_RESP_WU; timeout := 100 |};
                 seg_args := [] |}
              [])
    as (ml' & tok & Hupd & Hthr & Hsend & _).
  - unfold unanswered_run. eapply state_of_run_reachable.
    vm_compute. reflexivity.
  - reflexivity.
  - reflexivity.
  - vm_compute. discriminate.
  - reflexivity.
  - vm_compute. discriminate.
  - reflexivity.
  - reflexivity.
  - reflexivity.
  - reflexivity.
  - apply list_elem_of_here.
  - vm_compute. reflexivity.
  - vm_compute. reflexivity.
  - exists ml'. split; [exact Hupd|]. rewrite Hthr.
    vm_compute in Hsend. injection Hsend as _ <-. reflexivity.
Defined.

(** C4 fails as stated: the counter wraps. With the counter at
    2^32 - 1, two messages sent one after the other get the MINs
    4294967295 and 0. *)
Lemma min_wraps_around :
  exists ml1 ml2 t1 t2 b1 b2,
    msglist_send_impl counter_at_max (clock_at 1000)
      (one_seg_msg true CPDLC_DM6_REQ_alt) CPDLC_NO_MSG_THR_ID = Ok (ml1, O) /\
    msglist_send_impl ml1 (clock_at 1001)
      (one_seg_msg true CPDLC_DM6_REQ_alt) CPDLC_NO_MSG_THR_ID = Ok (ml2, O) /\
    ml_thr ml2 = [t2; t1] /\
    thr_buckets t1 = [b1] /\ thr_buckets t2 = [b2] /\
    b_sent b1 = true /\ b_sent b2 = true /\
    msg_min (b_msg b1) = 4294967295 /\
    msg_min (b_msg b2) = 0.
Proof.
  do 6 eexists. repeat split; vm_compute; reflexivity.
Qed.

Lemma send_assigns_mrn_and_min_witness :
  exists ml' t b,
    msglist_send_impl (state_of unanswered_run) (clock_at 1020)
      (one_seg_msg true CPDLC_DM0_WILCO) 0 = Ok (ml', O) /\
    ml_thr ml' = [t] /\
    List.last (thr_buckets t) (recv_bucket (clock_at 0) cpdlc_msg_alloc) = b /\
    b_sent b = true /\ msg_mrn (b_msg b) = 5 /\ msg_min (b_msg b) = 1.
Proof.
  destruct (msglist_send_impl (state_of unanswered_run) (clock_at 1020)
              (one_seg_msg true CPDLC_DM0_WILCO) 0) as [[ml' i]|f] eqn:Hs;
    [|vm_compute in Hs; discriminate Hs].
  assert (Hi : i = O).
  { pose proof Hs as Hs'. vm_compute in Hs'. by injection Hs' as _ <-. }
  subst i.
  destruct (send_assigns_mrn_and_min _ _ _ _ _ _ Hs)
    as (ml1 & old & t' & b & Hf & Hold & Hthr & _ & Hb & Hsent & Hmsg & _).
  vm_compute in Hf. injection Hf as <-.
  vm_compute in Hold. injection Hold as <-.
  exists ml', t', b. split; [reflexivity|].
  split; [rewrite Hthr; reflexivity|].
  split; [rewrite Hb; apply List.last_last|].
  split; [exact Hsent|].
  rewrite Hmsg. split; vm_compute; reflexivity.
Defined.

Lemma thr_get_timeout_is_min_witness :
  seg_timeouts (hd (new_thr 0) (ml_thr (state_of unanswered_run)))
    = [100; 100] /\
  thr_get_timeout (hd (new_thr 0) (ml_thr (state_of unanswered_run)))
    = min_timeout
        (seg_timeouts (hd (new_thr 0) (ml_thr (state_of unanswered_run)))).
Proof.
  assert (Hts : seg_timeouts (hd (new_thr 0) (ml_thr (state_of unanswered_run)))
                = [100; 100]) by (vm_compute; reflexivity).
  split; [exact Hts|].
  apply (thr_get_timeout_is_min
           (hd (new_thr 0) (ml_thr (state_of unanswered_run)))).
  rewrite Hts.
  repeat first [apply List.Forall_nil | apply List.Forall_cons; [reflexivity|]].
Defined.

Lemma buckets_are_append_only_witness :
  exists ml' t t' more,
    step (state_of unanswered_run) (clock_at 1200) OpUpdate = Ok ml' /\
    ml_thr (state_of unanswered_run) !! O = Some t /\
    ml_thr ml' !! (O + (length (ml_thr ml')
                        - length (ml_thr (state_of unanswered_run))))%nat
      = Some t' /\
    thr_id t' = thr_id t /\
    thr_buckets t' = thr_buckets t ++ more.
Proof.
  destruct (step (state_of unanswered_run) (clock_at 1200) OpUpdate)
    as [ml'|f] eqn:Hs; [|vm_compute in Hs; discriminate Hs].
  assert (Hnr : forall id, OpUpdate <> OpRemove id) by discriminate.
  destruct (buckets_are_append_only (state_of unanswered_run) (clock_at 1200)
              OpUpdate ml' O
              (hd (new_thr 0) (ml_thr (state_of unanswered_run)))
              Hnr Hs eq_refl)
    as (t' & more & Ht' & Hid & Hb).
  exists ml', (hd (new_thr 0) (ml_thr (state_of unanswered_run))), t', more.
  split; [reflexivity|]. split; [reflexivity|].
  split; [exact Ht'|]. split; [exact Hid|exact Hb].
Defined.

Lemma error_status_is_never_stored_witness :
  Forall (fun t => thr_status t <> CPDLC_MSG_THR_ERROR)
         (ml_thr (state_of accepted_run)).
Proof.
  apply (error_status_is_never_stored (state_of accepted_run)).
  exact accepted_run_reachable.
Defined.

Lemma thread_ids_stay_unique_witness :
  exists ml1,
    step (cpdlc_msglist_alloc O) (clock_at 1000)
      (OpSend (one_seg_msg true CPDLC_DM6_REQ_alt) CPDLC_NO_MSG_THR_ID)
      = Ok ml1 /\
    map thr_id (ml_thr ml1) = [0] /\
    ids_inv ml1.
Proof.
  destruct (step (cpdlc_msglist_alloc O) (clock_at 1000)
              (OpSend (one_seg_msg true CPDLC_DM6_REQ_alt) CPDLC_NO_MSG_THR_ID))
    as [ml1|f] eqn:Hs; [|vm_compute in Hs; discriminate Hs].
  exists ml1. split; [reflexivity|].
  assert (Hids : map thr_id (ml_thr ml1) = [0]).
  { pose proof Hs as Hs'. vm_compute in Hs'. by injection Hs' as <-. }
  split; [exact Hids|].
  apply (thread_ids_stay_unique (cpdlc_msglist_alloc O) (clock_at 1000)
           (OpSend (one_seg_msg true CPDLC_DM6_REQ_alt) CPDLC_NO_MSG_THR_ID)
           ml1).
  - split; [done|]. split; constructor.
  - exact Hs.
  - rewrite <- (length_map thr_id (ml_thr ml1)), Hids. reflexivity.
Defined.

Lemma unknown_thread_id_aborts_witness :
  cpdlc_msglist_thr_close (state_of accepted_run) 7 = Abort AssertFailed /\
  cpdlc_msglist_send (state_of accepted_run) (clock_at 1020)
    (one_seg_msg true CPDLC_DM0_WILCO) 7 = Abort AssertFailed.
Proof.
  destruct (unknown_thread_id_aborts (state_of accepted_run) 7)
    as (Hsend & _ & _ & _ & _ & _ & _ & Hclose).
  - vm_compute. reflexivity.
  - vm_compute. discriminate.
  - split; [exact Hclose|apply Hsend].
Defined.

Lemma removed_thread_is_gone_witness :
  exists ml',
    cpdlc_msglist_remove_thr (state_of accepted_run) 0 = Ok ml' /\
    ml_thr ml' = [] /\
    cpdlc_msglist_thr_close ml' 0 = Abort AssertFailed.
Proof.
  destruct (cpdlc_msglist_remove_thr (state_of accepted_run) 0)
    as [ml'|f] eqn:Hr; [|vm_compute in Hr; discriminate Hr].
  exists ml'. split; [reflexivity|].
  assert (Hnd : NoDup (map thr_id (ml_thr (state_of accepted_run)))).
  { assert (Hids : map thr_id (ml_thr (state_of accepted_run)) = [0])
      by (vm_compute; reflexivity).
    rewrite Hids. apply NoDup_singleton. }
  destruct (removed_thread_is_gone (state_of accepted_run) 0 ml' Hnd Hr)
    as (_ & _ & _ & Hclose & _).
  split; [|exact Hclose].
  vm_compute in Hr. by injection Hr as <-.
Defined.

Lemma send_into_final_thread_aborts_witness :
  thr_status (hd (new_thr 0) (ml_thr (state_of accepted_run)))
    = CPDLC_MSG_THR_ACCEPTED /\
  cpdlc_msglist_send (state_of accepted_run) (clock_at 1020)
    (one_seg_msg true CPDLC_DM0_WILCO) 0 = Abort AssertFailed.
Proof.
  split; [vm_compute; reflexivity|].
  apply (send_into_final_thread_aborts (state_of accepted_run) (clock_at 1020)
           (one_seg_msg true CPDLC_DM0_WILCO) O
           (hd (new_thr 0) (ml_thr (state_of accepted_run)))).
  - vm_compute. reflexivity.
  - vm_compute. reflexivity.
  - vm_compute. discriminate.
  - vm_compute. reflexivity.
Defined.

Lemma send_uplink_in_new_thread_aborts_witness :
  cpdlc_msglist_send (cpdlc_msglist_alloc O) (clock_at 1000)
    (one_seg_msg false 20) CPDLC_NO_MSG_THR_ID = Abort AssertFailed.
Proof.
  apply (send_uplink_in_new_thread_aborts (cpdlc_msglist_alloc O)
           (clock_at 1000) (one_seg_msg false 20)).
  vm_compute. reflexivity.
Defined.

Lemma send_without_response_closes_witness :
  exists ml',
    cpdlc_msglist_send (cpdlc_msglist_alloc O) (clock_at 1000)
      (one_seg_msg true CPDLC_DM3_ROGER) CPDLC_NO_MSG_THR_ID = Ok (ml', 0) /\
    thr_status <$> ml_thr ml' !! O = Some CPDLC_MSG_THR_CLOSED.
Proof.
  destruct (send_without_response_closes (cpdlc_msglist_alloc O)
              (clock_at 1000) (one_seg_msg true CPDLC_DM3_ROGER)
              {| seg_info := {| is_dl := true; msg_type := CPDLC_DM3_ROGER;
                                resp := CPDLC_RESP_NONE; timeout := 0 |};
                 seg_args := [] |} [])
    as (ml' & Hsend & Hthr & _).
  - vm_compute. reflexivity.
  - reflexivity.
  - discriminate.
  - exists ml'. split; [exact Hsend|]. by rewrite Hthr.
Defined.

Lemma thr_msgs_are_read_by_place_witness :
  cpdlc_msglist_get_thr_msg_count (state_of accepted_run) 0
    = Ok (state_of accepted_run, 2%nat) /\
  cpdlc_msglist_get_thr_msg (state_of accepted_run) 0 2
    = Abort AssertFailed.
Proof.
  destruct (thr_msgs_are_read_by_place (state_of accepted_run) 0 O
              (hd (new_thr 0) (ml_thr (state_of accepted_run))) 2)
    as (Hcount & _ & Hout).
  - vm_compute. discriminate.
  - vm_compute. reflexivity.
  - vm_compute. reflexivity.
  - split.
    + rewrite Hcount. vm_compute. reflexivity.
    + apply Hout. vm_compute. repeat constructor.
Defined.

Lemma received_messages_have_no_token_witness :
  exists b,
    cpdlc_msglist_get_thr_msg (state_of accepted_run) 0 1
      = Ok (state_of accepted_run, b) /\
    b_sent b = false /\
    b_tok b = CPDLC_INVALID_MSG_TOKEN.
Proof.
  destruct (cpdlc_msglist_get_thr_msg (state_of accepted_run) 0 1)
    as [[ml' b]|f] eqn:Hg; [|vm_compute in Hg; discriminate Hg].
  destruct (received_messages_have_no_token (state_of accepted_run) 0 1 ml' b
              accepted_run_reachable Hg) as (-> & _ & Htok).
  exists b. split; [reflexivity|].
  assert (Hs : b_sent b = false).
  { vm_compute in Hg. by injection Hg as <-. }
  split; [exact Hs|exact (Htok Hs)].
Defined.

Lemma received_messages_are_stored_witness :
  exists ml',
    msg_recv_cb (cpdlc_msglist_set_update_cb (state_of accepted_run) true)
      (clock_at 1030) [uplink 20 12 0; uplink 20 13 7] = Ok (ml', Some [0; 1]) /\
    Forall2 (fun msg id =>
               holds_bucket (ml_thr ml') id (recv_bucket (clock_at 1030) msg))
            [uplink 20 12 0; uplink 20 13 7] [0; 1].
Proof.
  destruct (msg_recv_cb (cpdlc_msglist_set_update_cb (state_of accepted_run) true)
              (clock_at 1030) [uplink 20 12 0; uplink 20 13 7])
    as [[ml' r]|f] eqn:Hr; [|vm_compute in Hr; discriminate Hr].
  destruct (received_messages_are_stored _ _ _ _ _ Hr) as (_ & Hcb & _).
  destruct (Hcb eq_refl) as (ids & -> & HF).
  assert (Hids : ids = [0; 1]).
  { vm_compute in Hr. by injection Hr as _ <-. }
  subst ids. by exists ml'.
Defined.

Lemma reply_joins_oldest_matching_thread_witness :
  exists newest middle oldest ml',
    same_min_run = Ok (state_of same_min_run) /\
    ml_thr (state_of same_min_run) = [newest; middle; oldest] /\
    thr_status oldest = CPDLC_MSG_THR_CLOSED /\
    thr_matches (uplink CPDLC_UM168_DISREGARD 6 5) newest = Ok true /\
    thr_matches (uplink CPDLC_UM168_DISREGARD 6 5) middle = Ok true /\
    msg_recv_place (state_of same_min_run) (clock_at 1010)
      (uplink CPDLC_UM168_DISREGARD 6 5) = Ok (ml', 1%nat) /\
    (length ∘ thr_buckets) <$> ml_thr ml' = [1; 2; 1]%nat.
Proof.
  destruct (ml_thr (state_of same_min_run)) as [|newest [|middle [|oldest l]]]
    eqn:Hl; try (vm_compute in Hl; discriminate Hl).
  destruct l; [|vm_compute in Hl; discriminate Hl].
  destruct (msg_segs (uplink CPDLC_UM168_DISREGARD 6 5)) as [|s segs] eqn:Hs;
    [vm_compute in Hs; discriminate Hs|].
  destruct (thr_buckets middle) as [|b bs] eqn:Hb.
  { vm_compute in Hl. injection Hl as _ <- _. discriminate Hb. }
  pose proof Hl as Hl'. vm_compute in Hl'. injection Hl' as Hn Hm Ho.
  destruct (reply_joins_oldest_matching_thread (state_of same_min_run)
              (clock_at 1010) (uplink CPDLC_UM168_DISREGARD 6 5)
              s segs 1%nat middle b) as [_ Hplace].
  - exact Hs.
  - vm_compute. discriminate.
  - by rewrite Hl.
  - rewrite <- Hm. discriminate.
  - rewrite Hb. left.
  - rewrite <- Hm in Hb. injection Hb as <- _. vm_compute. reflexivity.
  - rewrite Hl. simpl. constructor; [|constructor]. left.
    by rewrite <- Ho.
  - exists newest, middle, oldest. eexists.
    split; [vm_compute; reflexivity|]. split; [reflexivity|].
    split; [by rewrite <- Ho|].
    split; [rewrite <- Hn; vm_compute; reflexivity|].
    split; [rewrite <- Hm; vm_compute; reflexivity|].
    split; [exact Hplace|].
    unfold ml_set_thr. cbn [ml_thr]. rewrite Hl, <- Hn, <- Hm, <- Ho.
    reflexivity.
Defined.

Lemma thr_status_upd_twice_witness :
  exists ml',
    thr_status_upd (state_of unanswered_run) (clock_at 1200) O = Ok ml' /\
    thr_status <$> ml_thr ml' !! O = Some CPDLC_MSG_THR_TIMEDOUT /\
    thr_status_upd ml' (clock_at 1200) O = Ok ml'.
Proof.
  destruct (thr_status_upd (state_of unanswered_run) (clock_at 1200) O)
    as [ml'|f] eqn:Hu; [|vm_compute in Hu; discriminate Hu].
  exists ml'. split; [reflexivity|].
  pose proof (thr_status_upd_twice _ _ _ _ Hu) as Htwice.
  pose proof Hu as Hu'. vm_compute in Hu'. injection Hu' as Hml'.
  split; [by rewrite <- Hml'|].
  replace (O + (length (ml_thr ml') - length (ml_thr (state_of unanswered_run))))%nat
    with O in Htwice by (by rewrite <- Hml').
  exact Htwice.
Defined.

Lemma closed_thread_is_done_witness :
  exists ml1,
    cpdlc_msglist_thr_close (state_of unanswered_run) 0 = Ok ml1 /\
    cpdlc_msglist_thr_is_done ml1 0 = Ok (ml1, true) /\
    thr_status <$> ml_thr ml1 !! O = Some CPDLC_MSG_THR_CLOSED.
Proof.
  destruct (closed_thread_is_done (state_of unanswered_run) O
              (hd (new_thr 0) (ml_thr (state_of unanswered_run))))
    as (ml1 & Hclose & Hdone & _ & Hthr).
  - vm_compute. reflexivity.
  - vm_compute. reflexivity.
  - vm_compute. discriminate.
  - exists ml1. split; [exact Hclose|]. split; [exact Hdone|].
    rewrite Hthr. vm_compute. reflexivity.
Defined.

Lemma mark_seen_clears_dirty_witness :
  exists ml1,
    thr_dirty <$> ml_thr (state_of unanswered_run) !! O = Some true /\
    cpdlc_msglist_thr_mark_seen (state_of unanswered_run) 0 = Ok ml1 /\
    cpdlc_msglist_get_thr_status ml1 0 = Ok (ml1, (CPDLC_MSG_THR_OPEN, false)).
Proof.
  destruct (mark_seen_clears_dirty (state_of unanswered_run) O
              (hd (new_thr 0) (ml_thr (state_of unanswered_run))))
    as (ml1 & Hmark & Hstatus & _).
  - vm_compute. reflexivity.
  - vm_compute. reflexivity.
  - vm_compute. discriminate.
  - exists ml1. split; [vm_compute; reflexivity|].
    split; [exact Hmark|exact Hstatus].
Defined.


End Runs.

End MsglistFacts.

(** * Properties of the daemon *)

Module CpdlcdFacts.
Import Cpdlc Cpdlcd.

(** ** Strings *)

Lemma substring_length s n :
  String.length (substring 0 n s) = (n `min` String.length s)%nat.
Proof.
  revert n. induction s as [|a s IH]; intros [|n]; simpl; try reflexivity.
  by rewrite IH.
Qed.

Lemma substring_all s n :
  (String.length s <= n)%nat -> substring 0 n s = s.
Proof.
  revert n. induction s as [|a s IH]; intros [|n] Hn; simpl in *;
    try reflexivity; try lia.
  rewrite IH by lia. reflexivity.
Qed.

Lemma lacf_strlcpy_all s n :
  (String.length s < n)%nat -> lacf_strlcpy s n = s.
Proof. intros Hn. unfold lacf_strlcpy. apply substring_all. lia. Qed.

Section Facts.
Context `{Codec} `{Catalog}.

(** The codec produces a text that is not empty and whose length an
    [int] holds; the size of a queue entry is that of a C object. *)
Hypothesis encode_nonempty : forall msg, 0 < strlen (cpdlc_msg_encode msg).
Hypothesis encode_fits_int :
  forall msg, strlen (cpdlc_msg_encode msg) <= 2147483647.
Hypothesis sizeof_range : 0 <= sizeof_queued_msg < 2 ^ 32.

Implicit Types (st : daemon) (id : nat) (msg : cpdlc_msg) (now : Z).

(** ** The queue and its byte counter *)

Lemma entry_bytes_pos q : 0 < entry_bytes q.
Proof using sizeof_range. unfold entry_bytes, strlen. lia. Qed.

Lemma queue_bytes_app queue q :
  queue_bytes (queue ++ [q]) = queue_bytes queue + entry_bytes q.
Proof.
  induction queue as [|a queue IH]; simpl; [lia|]. rewrite IH. lia.
Qed.

Lemma queue_bytes_nonneg queue : 0 <= queue_bytes queue.
Proof using sizeof_range.
  induction queue as [|a queue IH]; simpl; [lia|].
  pose proof (entry_bytes_pos a). lia.
Qed.

Lemma queue_bytes_zero queue : queue_bytes queue = 0 <-> queue = [].
Proof using sizeof_range.
  split; [|by intros ->].
  destruct queue as [|a queue]; [done|]. simpl.
  pose proof (entry_bytes_pos a). pose proof (queue_bytes_nonneg queue). lia.
Qed.

Lemma queue_bytes_delete queue i q :
  queue !! i = Some q ->
  queue_bytes (delete i queue) = queue_bytes queue - entry_bytes q.
Proof.
  revert i. induction queue as [|a queue IH]; intros [|i] Hi; simpl in *;
    try discriminate.
  - injection Hi as ->. lia.
  - rewrite (IH i Hi). lia.
Qed.

Lemma queue_bytes_lookup queue i q :
  queue !! i = Some q -> entry_bytes q <= queue_bytes queue.
Proof using sizeof_range.
  intros Hi. pose proof (queue_bytes_delete _ _ _ Hi) as Hd.
  pose proof (queue_bytes_nonneg (delete i queue)). lia.
Qed.

(** What [store_msg] does, the arithmetic done in the integers. *)
Lemma store_msg_eq st now msg to :
  queue_inv st ->
  store_msg st now msg to =
  let q := {| q_from := lacf_strlcpy (cpdlc_msg_get_from msg) CALLSIGN_LEN;
              q_to := lacf_strlcpy to CALLSIGN_LEN;
              q_created := now;
              q_msg := cpdlc_msg_encode msg |} in
  if queued_msg_max_bytes <? queued_msg_bytes st + entry_bytes q
  then (st, false)
  else (set_queue st (queued_msgs st ++ [q])
          (queued_msg_bytes st + entry_bytes q), true).
Proof using encode_fits_int sizeof_range.
  intros [Hsum Hmax]. unfold store_msg. cbv zeta.
  pose proof (encode_fits_int msg) as Hlen.
  assert (Hlen0 : 0 <= strlen (cpdlc_msg_encode msg)) by (unfold strlen; lia).
  pose proof (queue_bytes_nonneg (queued_msgs st)) as Hq.
  pose proof sizeof_range as Hsz.
  change (2 ^ 32) with 4294967296 in Hsz.
  assert (Hint : to_int (strlen (cpdlc_msg_encode msg))
                 = strlen (cpdlc_msg_encode msg)).
  { unfold to_int. change (2 ^ 31) with 2147483648.
    change (2 ^ 32) with 4294967296. rewrite Z.mod_small; lia. }
  rewrite Hint.
  assert (Hcpy : lacf_strlcpy (cpdlc_msg_encode msg)
                   (Z.to_nat (strlen (cpdlc_msg_encode msg) + 1))
                 = cpdlc_msg_encode msg).
  { apply lacf_strlcpy_all. unfold strlen in *. lia. }
  rewrite Hcpy. unfold entry_bytes. cbn [q_msg].
  assert (Hmaxv : queued_msg_max_bytes = 134217728) by reflexivity.
  unfold u64. change (2 ^ 64) with 18446744073709551616.
  rewrite (Z.mod_small (sizeof_queued_msg + _ + 1)) by lia.
  rewrite Z.mod_small by lia. reflexivity.
Qed.

Lemma store_msg_inv st now msg to :
  queue_inv st -> queue_inv (fst (store_msg st now msg to)).
Proof using encode_fits_int sizeof_range.
  intros Hinv. rewrite store_msg_eq by done. cbv zeta.
  destruct (_ <? _) eqn:Hfit; simpl; [done|].
  apply Z.ltb_ge in Hfit. destruct Hinv as [Hsum Hmax].
  split; simpl; [|done]. rewrite queue_bytes_app. by rewrite Hsum.
Qed.

(** In a state whose counter is the sum, [dequeue_msg] on an entry of
    the queue passes its assertions: it returns, and subtracts what the
    entry counts for. *)
Lemma dequeue_msg_eq st i q :
  queue_inv st ->
  queued_msgs st !! i = Some q ->
  dequeue_msg st i =
  Ok (set_queue st (delete i (queued_msgs st))
        (queued_msg_bytes st - entry_bytes q)).
Proof using sizeof_range.
  intros [Hsum Hmax] Hi. unfold dequeue_msg. rewrite Hi.
  pose proof (queue_bytes_lookup _ _ _ Hi) as Hle.
  pose proof (entry_bytes_pos q) as Hpos.
  assert (Hmaxv : queued_msg_max_bytes = 134217728) by reflexivity.
  pose proof sizeof_range as Hsz. change (2 ^ 32) with 4294967296 in Hsz.
  fold (entry_bytes q). unfold u64. change (2 ^ 64) with 18446744073709551616.
  rewrite (Z.mod_small (entry_bytes q)) by lia.
  rewrite Z.mod_small by lia.
  replace (entry_bytes q <=? queued_msg_bytes st) with true
    by (symmetry; apply Z.leb_le; lia).
  simpl. destruct (bool_decide _) eqn:Hempty; [|reflexivity].
  apply bool_decide_eq_true in Hempty.
  pose proof (queue_bytes_delete _ _ _ Hi) as Hd.
  rewrite Hempty in Hd. simpl in Hd.
  replace (queued_msg_bytes st - entry_bytes q =? 0) with true
    by (symmetry; apply Z.eqb_eq; lia).
  reflexivity.
Qed.

Lemma dequeue_msg_inv st i st' :
  queue_inv st -> dequeue_msg st i = Ok st' -> queue_inv st'.
Proof using sizeof_range.
  intros Hinv Hd. destruct (queued_msgs st !! i) as [q|] eqn:Hi.
  - rewrite (dequeue_msg_eq _ _ _ Hinv Hi) in Hd. injection Hd as <-.
    destruct Hinv as [Hsum Hmax]. pose proof (entry_bytes_pos q).
    split; simpl; [|lia]. rewrite (queue_bytes_delete _ _ _ Hi). lia.
  - unfold dequeue_msg in Hd. rewrite Hi in Hd. discriminate.
Qed.

Lemma same_queue_inv st st' : same_queue st st' -> queue_inv st -> queue_inv st'.
Proof. intros [Hq Hb] [Hsum Hmax]. unfold queue_inv. by rewrite Hq, Hb. Qed.

Lemma same_queue_trans st1 st2 st3 :
  same_queue st1 st2 -> same_queue st2 st3 -> same_queue st1 st3.
Proof. intros [? ?] [? ?]. split; congruence. Qed.

Lemma conn_send_buf_queue st id buf buflen st' :
  conn_send_buf st id buf buflen = Ok st' -> same_queue st st'.
Proof.
  unfold conn_send_buf. intros Hs. bind_inv Hs. bind_inv Hs.
  by injection Hs as <-.
Qed.

Lemma conn_send_msg_queue st id msg st' :
  conn_send_msg st id msg = Ok st' -> same_queue st st'.
Proof. apply conn_send_buf_queue. Qed.

Lemma send_error_msg_queue st id orig fmt st' :
  send_error_msg st id orig fmt = Ok st' -> same_queue st st'.
Proof. apply conn_send_msg_queue. Qed.

Lemma send_msg_all_queue st l msg st' :
  send_msg_all st l msg = Ok st' -> same_queue st st'.
Proof.
  revert st. induction l as [|id l IH]; intros st Hs; simpl in Hs.
  - by injection Hs as <-.
  - bind_inv Hs as st1 H1. eapply same_queue_trans; [|by eapply IH].
    by eapply conn_send_msg_queue.
Qed.

Lemma send_buf_all_queue st l buf buflen st' :
  send_buf_all st l buf buflen = Ok st' -> same_queue st st'.
Proof.
  revert st. induction l as [|id l IH]; intros st Hs; simpl in Hs.
  - by injection Hs as <-.
  - bind_inv Hs as st1 H1. eapply same_queue_trans; [|by eapply IH].
    by eapply conn_send_buf_queue.
Qed.

Lemma conn_remove_from_queue st id st' :
  conn_remove_from st id = Ok st' -> same_queue st st'.
Proof.
  unfold conn_remove_from. intros Hr. bind_inv Hr. bind_inv Hr. bind_inv Hr.
  by injection Hr as <-.
Qed.

Lemma close_conn_queue st id st' :
  close_conn st id = Ok st' -> same_queue st st'.
Proof.
  unfold close_conn. intros Hc. bind_inv Hc as conn Hconn.
  bind_inv Hc as st1 H1. injection Hc as <-.
  destruct (c_logon_complete conn).
  - apply conn_remove_from_queue in H1. destruct H1. by split.
  - by injection H1 as <-.
Qed.

Lemma process_logon_msg_queue st id msg st' ok :
  process_logon_msg st id msg = Ok (st', ok) -> same_queue st st'.
Proof.
  unfold process_logon_msg. intros Hp. bind_inv Hp as conn Hconn.
  bind_inv Hp as st1 H1. bind_inv Hp as conn1 Hconn1.
  assert (Hq1 : same_queue st st1).
  { destruct (c_logon_complete conn);
      [by eapply conn_remove_from_queue|by injection H1 as <-]. }
  eapply same_queue_trans; [exact Hq1|].
  destruct (negb _).
  - bind_inv Hp as st2 H2. injection Hp as <- <-.
    apply send_error_msg_queue in H2. destruct H2. by split.
  - by injection Hp as <- <-.
Qed.

Lemma conn_forward_inv st now id msg st' :
  queue_inv st -> conn_forward st now id msg = Ok st' -> queue_inv st'.
Proof using encode_fits_int sizeof_range.
  intros Hinv Hf. unfold conn_forward in Hf. bind_inv Hf as conn Hconn.
  cbv zeta in Hf.
  destruct (if nonempty (msg_to msg) then _ else _) as [to|];
    [|by eapply same_queue_inv; [eapply send_error_msg_queue|]].
  bind_inv Hf.
  pose proof (store_msg_inv st now (cpdlc_msg_set_from msg (c_from conn)) to
                Hinv) as Hstore.
  destruct (htbl_lookup_multi _ _) as [[|tgt l]|];
    try (by eapply same_queue_inv; [eapply send_msg_all_queue|]);
    destruct (store_msg _ _ _ _) as [st1 stored]; simpl in Hstore;
    (destruct stored; simpl in Hf;
     [by injection Hf as <-
     |by eapply same_queue_inv; [eapply send_error_msg_queue|]]).
Qed.

Lemma conn_process_msg_inv st now id msg st' :
  queue_inv st -> conn_process_msg st now id msg = Ok st' -> queue_inv st'.
Proof using encode_fits_int sizeof_range.
  intros Hinv Hp. unfold conn_process_msg in Hp. bind_inv Hp as conn Hconn.
  destruct (negb _ && negb _);
    [by eapply same_queue_inv; [eapply send_error_msg_queue|]|].
  bind_inv Hp as [st1 ok] H1.
  assert (Hinv1 : queue_inv st1).
  { destruct (msg_is_logon msg).
    - by eapply same_queue_inv; [eapply process_logon_msg_queue|].
    - by injection H1 as <- <-. }
  destruct ok; simpl in Hp; [by eapply conn_forward_inv|by injection Hp as <-].
Qed.

Lemma conn_process_input_inv st now id msgs decoded st' ok :
  queue_inv st -> conn_process_input st now id msgs decoded = Ok (st', ok) ->
  queue_inv st'.
Proof using encode_fits_int sizeof_range.
  revert st. induction msgs as [|msg msgs IH]; intros st Hinv Hp; simpl in Hp.
  - by injection Hp as <- <-.
  - bind_inv Hp as st1 H1. eapply IH; [|exact Hp].
    by eapply conn_process_msg_inv.
Qed.

Lemma handle_queued_loop_inv st now pending i st' :
  queue_inv st -> handle_queued_loop st now pending i = Ok st' -> queue_inv st'.
Proof using sizeof_range.
  revert st i. induction pending as [|q next IH]; intros st i Hinv Hl;
    cbn [handle_queued_loop] in Hl.
  - by injection Hl as <-.
  - assert (Hdq : forall st1,
              queue_inv st1 ->
              (do st2 <- dequeue_msg st1 i; handle_queued_loop st2 now next i)
                = Ok st' -> queue_inv st').
    { intros st1 Hinv1 Hd. bind_inv Hd as st2 H2. eapply IH; [|exact Hd].
      by eapply dequeue_msg_inv. }
    destruct (htbl_lookup_multi _ _) as [[|tgt l]|].
    + destruct (_ <? _); [by eapply Hdq|by eapply IH].
    + bind_inv Hl as st1 H1. eapply Hdq; [|exact Hl].
      by eapply same_queue_inv; [eapply send_buf_all_queue|].
    + destruct (_ <? _); [by eapply Hdq|by eapply IH].
Qed.

(** The ways [handle_conn_output] returns: on a fatal error it is
    [close_conn]; otherwise the state stays or the out-buffer of the
    connection is replaced. *)
Lemma handle_conn_output_Ok st id r st' ok :
  handle_conn_output st id r = Ok (st', ok) ->
  (r = SendFatalError /\ ok = false /\ close_conn st id = Ok st') \/
  (r <> SendFatalError /\ ok = true /\
   exists conn outbuf,
     conns st !! id = Some conn /\ c_outbuf conn = Some outbuf /\
     (st' = st \/
      exists rest,
        st' = set_conns st (<[id := conn_set_outbuf conn rest]> (conns st)))).
Proof.
  unfold handle_conn_output. intros Ho. bind_inv Ho as conn Hconn.
  unfold conn_at in Hconn.
  destruct (conns st !! id) as [c|] eqn:Hc; [|discriminate].
  injection Hconn as ->.
  destruct (c_outbuf conn) as [outbuf|] eqn:Hout; [|discriminate].
  destruct r as [bytes| | |].
  - right. split; [done|].
    destruct (0 <? bytes); injection Ho as <- <-; (split; [done|]);
      exists conn, outbuf; (do 2 (split; [done|])); [right|by left].
    by eexists.
  - right. injection Ho as <- <-. do 2 (split; [done|]).
    exists conn, outbuf. do 2 (split; [done|]). by left.
  - right. injection Ho as <- <-. do 2 (split; [done|]).
    exists conn, outbuf. do 2 (split; [done|]). by left.
  - left. bind_inv Ho as st1 Hclose. injection Ho as <- <-. done.
Qed.

Lemma step_queue_inv st now e st' :
  queue_inv st -> step st now e = Ok st' -> queue_inv st'.
Proof using encode_fits_int sizeof_range.
  intros Hinv Hs. destruct e as [id|id msgs decoded|id|id r|]; simpl in Hs.
  - injection Hs as <-. unfold handle_accept. by destruct (conns st !! id).
  - bind_inv Hs as [st1 ok1] H1. injection Hs as <-.
    unfold handle_conn_input in H1. bind_inv H1 as [st2 ok2] H2.
    apply conn_process_input_inv in H2; [|done].
    destruct ok2; simpl in H1.
    + by injection H1 as <- <-.
    + bind_inv H1 as st3 H3. injection H1 as <- <-.
      by eapply same_queue_inv; [eapply close_conn_queue|].
  - by eapply same_queue_inv; [eapply close_conn_queue|].
  - bind_inv Hs as [st1 ok1] Ho. injection Hs as <-.
    apply handle_conn_output_Ok in Ho
      as [(_ & _ & Hclose)
         |(_ & _ & conn & outbuf & _ & _ & [->|[rest ->]])]; [|done..].
    by eapply same_queue_inv; [eapply close_conn_queue|].
  - by eapply handle_queued_loop_inv.
Qed.

Lemma reachable_queue_inv st : reachable st -> queue_inv st.
Proof using encode_fits_int sizeof_range.
  induction 1 as [|st now e st' _ IH Hs].
  - split; [reflexivity|]. by vm_compute.
  - by eapply step_queue_inv.
Qed.

(** C9. In every state the daemon reaches, the counter of queued bytes
    is the sum, over the queued messages, of the length of the encoded
    text plus the fixed size of an entry and its terminator, and it is 0
    exactly when the queue is empty. An enqueue adds this amount for the
    entry it appends; a dequeue of an entry passes its assertions and
    subtracts the same amount. *)
Theorem queue_bytes_accounting st :
  reachable st ->
  queued_msg_bytes st = queue_bytes (queued_msgs st) /\
  (queued_msg_bytes st = 0 <-> queued_msgs st = []) /\
  (forall now msg to st',
     store_msg st now msg to = (st', true) ->
     exists q,
       queued_msgs st' = queued_msgs st ++ [q] /\
       q_msg q = cpdlc_msg_encode msg /\
       queued_msg_bytes st' = queued_msg_bytes st + entry_bytes q) /\
  (forall i q,
     queued_msgs st !! i = Some q ->
     exists st',
       dequeue_msg st i = Ok st' /\
       queued_msgs st' = delete i (queued_msgs st) /\
       queued_msg_bytes st' = queued_msg_bytes st - entry_bytes q).
Proof using encode_fits_int sizeof_range.
  intros Hreach. pose proof (reachable_queue_inv _ Hreach) as Hinv.
  destruct Hinv as [Hsum Hmax]. split; [done|]. split; [|split].
  - rewrite Hsum. apply queue_bytes_zero.
  - intros now msg to st' Hstore.
    rewrite store_msg_eq in Hstore by done. cbv zeta in Hstore.
    destruct (_ <? _); [discriminate|]. injection Hstore as <-.
    eexists. split; [reflexivity|]. split; reflexivity.
  - intros i q Hi. eexists. split; [by apply dequeue_msg_eq|].
    split; reflexivity.
Qed.

(** ** Writing to connections *)

Lemma conn_send_msg_eq st id conn msg :
  conns st !! id = Some conn ->
  conn_send_msg st id msg = Ok (outbuf_append st id (cpdlc_msg_encode msg)).
Proof using encode_nonempty encode_fits_int.
  intros Hconn. unfold conn_send_msg, conn_send_buf, conn_at, outbuf_append.
  cbv zeta. rewrite Hconn. cbn [rbind].
  pose proof (encode_nonempty msg) as Hlen.
  pose proof (encode_fits_int msg) as Hfits.
  change (2 ^ 32) with 4294967296. rewrite Z.mod_small by lia.
  replace (strlen (cpdlc_msg_encode msg) =? 0) with false
    by (symmetry; apply Z.eqb_neq; lia).
  cbn [negb ASSERT rbind].
  rewrite (lacf_strlcpy_all (cpdlc_msg_encode msg))
    by (unfold strlen in *; lia).
  rewrite lacf_strlcpy_all by (unfold strlen in *; lia).
  reflexivity.
Qed.

Lemma send_error_msg_eq st id conn orig fmt :
  conns st !! id = Some conn ->
  send_error_msg st id orig fmt
    = Ok (outbuf_append st id (cpdlc_msg_encode (error_msg orig fmt))).
Proof using encode_nonempty encode_fits_int. apply conn_send_msg_eq. Qed.

Lemma outbuf_append_lookup st id text id' :
  conns (outbuf_append st id text) !! id' =
  if decide (id' = id)
  then (fun conn =>
          conn_set_outbuf conn
            (Some (String.append (default EmptyString (c_outbuf conn)) text)))
       <$> conns st !! id
  else conns st !! id'.
Proof.
  unfold outbuf_append. destruct (conns st !! id) as [conn|] eqn:Hconn.
  - simpl. destruct (decide (id' = id)) as [->|Hne].
    + by rewrite lookup_insert_eq.
    + by rewrite lookup_insert_ne.
  - destruct (decide (id' = id)) as [->|Hne]; [by rewrite Hconn|done].
Qed.

Lemma outbuf_append_live st id text id' :
  is_Some (conns (outbuf_append st id text) !! id') <->
  is_Some (conns st !! id').
Proof.
  rewrite outbuf_append_lookup. destruct (decide (id' = id)) as [->|Hne];
    [|done].
  destruct (conns st !! id); simpl; split; intros [? ?]; eauto; discriminate.
Qed.



(** After a fan-out over a list without repetition, the connections of
    the list have the text at the end of their out-buffer, and the
    others are as they were. *)
Lemma fan_out_lookup st l text id :
  NoDup l ->
  conns (fan_out st l text) !! id =
  if decide (id ∈ l)
  then (fun conn =>
          conn_set_outbuf conn
            (Some (String.append (default EmptyString (c_outbuf conn)) text)))
       <$> conns st !! id
  else conns st !! id.
Proof.
  intros Hnd. revert st. induction Hnd as [|a l Ha Hnd IH]; intros st; simpl.
  - reflexivity.
  - rewrite IH, outbuf_append_lookup.
    destruct (decide (id = a)) as [->|Hne].
    + rewrite decide_False by done.
      rewrite decide_True by apply list_elem_of_here. reflexivity.
    + destruct (decide (id ∈ l)) as [Hin|Hnin].
      * rewrite decide_True by (by apply list_elem_of_further). reflexivity.
      * rewrite decide_False; [reflexivity|].
        intros Hin. apply elem_of_cons in Hin as [?|?]; done.
Qed.

Lemma send_msg_all_eq st l msg :
  Forall (fun id => is_Some (conns st !! id)) l ->
  send_msg_all st l msg = Ok (fan_out st l (cpdlc_msg_encode msg)).
Proof using encode_nonempty encode_fits_int.
  revert st. induction l as [|id l IH]; intros st Hlive; simpl; [reflexivity|].
  inversion Hlive as [|? ? [conn Hconn] Hrest]; subst.
  rewrite (conn_send_msg_eq _ _ _ _ Hconn). cbn [rbind]. apply IH.
  eapply Forall_impl; [exact Hrest|]. intros id' Hid'.
  by apply outbuf_append_live.
Qed.

(** ** Before the logon *)

Lemma nonempty_false s : nonempty s = false -> s = EmptyString.
Proof. by destruct s. Qed.


(** ** Forwarding *)

(** [conn_forward] when the message names no recipient and the
    connection has none. *)
Lemma conn_forward_no_recipient st now id conn msg :
  conns st !! id = Some conn ->
  recipient conn msg = None ->
  conn_forward st now id msg
    = Ok (outbuf_append st id
            (cpdlc_msg_encode
               (error_msg (Some msg) "MESSAGE MISSING TO= HEADER"))).
Proof using encode_nonempty encode_fits_int.
  intros Hconn Hto. unfold conn_forward, conn_at. rewrite Hconn. cbn [rbind].
  cbv zeta. unfold recipient in Hto. rewrite Hto.
  by eapply send_error_msg_eq.
Qed.

(** [conn_forward] when connections are indexed under the recipient. *)
Lemma conn_forward_deliver st now id conn msg to tgt l :
  conns st !! id = Some conn ->
  nonempty (c_from conn) = true ->
  recipient conn msg = Some to ->
  conns_by_from st !! to = Some (tgt :: l) ->
  Forall (fun id' => is_Some (conns st !! id')) (tgt :: l) ->
  conn_forward st now id msg
    = Ok (fan_out st (tgt :: l)
            (cpdlc_msg_encode (cpdlc_msg_set_from msg (c_from conn)))).
Proof using encode_nonempty encode_fits_int.
  intros Hconn Hfrom Hto Hidx Hlive.
  unfold conn_forward, conn_at. rewrite Hconn. cbn [rbind]. cbv zeta.
  unfold recipient in Hto. rewrite Hto, Hfrom. cbn [ASSERT rbind].
  unfold htbl_lookup_multi. rewrite Hidx. by apply send_msg_all_eq.
Qed.

(** [conn_forward] when no connection is indexed under the recipient. *)
Lemma conn_forward_queue st now id conn msg to :
  conns st !! id = Some conn ->
  nonempty (c_from conn) = true ->
  recipient conn msg = Some to ->
  conns_by_from st !! to = None \/ conns_by_from st !! to = Some [] ->
  queue_inv st ->
  conn_forward st now id msg =
  if queued_msg_max_bytes <?
       queued_msg_bytes st +
       entry_bytes (queued_entry now (cpdlc_msg_set_from msg (c_from conn)) to)
  then Ok (outbuf_append st id
             (cpdlc_msg_encode
                (error_msg (Some (cpdlc_msg_set_from msg (c_from conn)))
                   "TOO MANY QUEUED MESSAGES")))
  else Ok (set_queue st
             (queued_msgs st ++
              [queued_entry now (cpdlc_msg_set_from msg (c_from conn)) to])
             (queued_msg_bytes st +
              entry_bytes
                (queued_entry now (cpdlc_msg_set_from msg (c_from conn)) to))).
Proof using encode_nonempty encode_fits_int sizeof_range.
  intros Hconn Hfrom Hto Hidx Hinv.
  unfold conn_forward, conn_at. rewrite Hconn. cbn [rbind]. cbv zeta.
  unfold recipient in Hto. rewrite Hto, Hfrom. cbn [ASSERT rbind].
  unfold htbl_lookup_multi.
  assert (Hstore := store_msg_eq st now
                      (cpdlc_msg_set_from msg (c_from conn)) to Hinv).
  cbv zeta in Hstore. fold (queued_entry now
    (cpdlc_msg_set_from msg (c_from conn)) to) in Hstore.
  destruct Hidx as [-> | ->]; rewrite Hstore;
    (destruct (_ <? _); cbn [negb];
     [by eapply send_error_msg_eq|reflexivity]).
Qed.



(** ** The callsign index *)

Lemma keeps_logons_refl st : keeps_logons st st.
Proof. split; [done|]. intros id conn Hc. exists conn. auto. Qed.

Lemma keeps_logons_trans st1 st2 st3 :
  keeps_logons st1 st2 -> keeps_logons st2 st3 -> keeps_logons st1 st3.
Proof.
  intros [Hi1 Hc1] [Hi2 Hc2]. split; [congruence|].
  intros id conn Hc. destruct (Hc1 id conn Hc) as (c2 & H2 & Hf2 & Hl2).
  destruct (Hc2 id c2 H2) as (c3 & H3 & Hf3 & Hl3).
  exists c3. split; [done|]. split; congruence.
Qed.

Lemma keeps_logons_sound st st' :
  keeps_logons st st' -> index_sound st -> index_sound st'.
Proof.
  intros [Hi Hc] Hs key l Hl. rewrite Hi in Hl.
  destruct (Hs key l Hl) as [Hnd Hall]. split; [done|].
  intros id Hin. destruct (Hall id Hin) as (conn & Hconn & Hlog & Hfrom & Hne).
  destruct (Hc id conn Hconn) as (conn' & Hconn' & Hf & Hlg).
  exists conn'. split; [done|]. split; [congruence|]. split; [congruence|done].
Qed.

Lemma conn_send_buf_keeps st id buf buflen st' :
  conn_send_buf st id buf buflen = Ok st' -> keeps_logons st st'.
Proof.
  unfold conn_send_buf. intros Hs. bind_inv Hs as conn Hconn. bind_inv Hs.
  injection Hs as <-. unfold conn_at in Hconn.
  destruct (conns st !! id) as [c|] eqn:Hc; [|discriminate].
  injection Hconn as ->. split; [done|].
  intros id' conn' Hc'. simpl. destruct (decide (id' = id)) as [->|Hne].
  - rewrite lookup_insert_eq. eexists. split; [reflexivity|].
    rewrite Hc in Hc'. injection Hc' as <-. auto.
  - rewrite lookup_insert_ne by done. exists conn'. auto.
Qed.

Lemma send_msg_all_keeps st l msg st' :
  send_msg_all st l msg = Ok st' -> keeps_logons st st'.
Proof.
  revert st. induction l as [|id l IH]; intros st Hs; simpl in Hs.
  - injection Hs as <-. apply keeps_logons_refl.
  - bind_inv Hs as st1 H1. eapply keeps_logons_trans; [|by eapply IH].
    by eapply conn_send_buf_keeps.
Qed.

Lemma send_buf_all_keeps st l buf buflen st' :
  send_buf_all st l buf buflen = Ok st' -> keeps_logons st st'.
Proof.
  revert st. induction l as [|id l IH]; intros st Hs; simpl in Hs.
  - injection Hs as <-. apply keeps_logons_refl.
  - bind_inv Hs as st1 H1. eapply keeps_logons_trans; [|by eapply IH].
    by eapply conn_send_buf_keeps.
Qed.

Lemma set_queue_keeps st queue bytes : keeps_logons st (set_queue st queue bytes).
Proof. split; [done|]. intros id conn Hc. exists conn. auto. Qed.

Lemma dequeue_msg_keeps st i st' :
  dequeue_msg st i = Ok st' -> keeps_logons st st'.
Proof.
  unfold dequeue_msg. intros Hd. destruct (queued_msgs st !! i); [|discriminate].
  bind_inv Hd. bind_inv Hd. injection Hd as <-. apply set_queue_keeps.
Qed.

Lemma conn_forward_keeps st now id msg st' :
  conn_forward st now id msg = Ok st' -> keeps_logons st st'.
Proof.
  unfold conn_forward. intros Hf. bind_inv Hf as conn Hconn. cbv zeta in Hf.
  destruct (if nonempty (msg_to msg) then _ else _) as [to|];
    [|by eapply conn_send_buf_keeps].
  bind_inv Hf.
  assert (Hstore : keeps_logons st
            (fst (store_msg st now (cpdlc_msg_set_from msg (c_from conn)) to))).
  { unfold store_msg. cbv zeta. destruct (_ <? _); simpl;
      [apply keeps_logons_refl|apply set_queue_keeps]. }
  destruct (htbl_lookup_multi _ _) as [[|tgt l]|];
    try (by eapply send_msg_all_keeps);
    destruct (store_msg _ _ _ _) as [st1 stored]; simpl in Hstore;
    (destruct stored; simpl in Hf;
     [by injection Hf as <-
     |eapply keeps_logons_trans; [exact Hstore|by eapply conn_send_buf_keeps]]).
Qed.

Lemma handle_queued_loop_keeps st now pending i st' :
  handle_queued_loop st now pending i = Ok st' -> keeps_logons st st'.
Proof.
  revert st i. induction pending as [|q next IH]; intros st i Hl;
    cbn [handle_queued_loop] in Hl.
  - injection Hl as <-. apply keeps_logons_refl.
  - assert (Hdq : forall st1,
              (do st2 <- dequeue_msg st1 i; handle_queued_loop st2 now next i)
                = Ok st' -> keeps_logons st1 st').
    { intros st1 Hd. bind_inv Hd as st2 H2.
      eapply keeps_logons_trans; [by eapply dequeue_msg_keeps|by eapply IH]. }
    destruct (htbl_lookup_multi _ _) as [[|tgt l]|].
    + destruct (_ <? _); [by eapply Hdq|by eapply IH].
    + bind_inv Hl as st1 H1.
      eapply keeps_logons_trans; [by eapply send_buf_all_keeps|by eapply Hdq].
    + destruct (_ <? _); [by eapply Hdq|by eapply IH].
Qed.

Lemma index_sound_unlisted st id conn :
  index_sound st -> conns st !! id = Some conn ->
  c_logon_complete conn = false -> unlisted st id.
Proof.
  intros Hs Hconn Hpre key l Hl Hin.
  destruct (Hs key l Hl) as [_ Hall].
  destruct (Hall id Hin) as (conn' & Hconn' & Hlog & _). congruence.
Qed.

Lemma remove_first_NoDup v l :
  NoDup l ->
  NoDup (remove_first v l) /\ (v ∉ remove_first v l) /\
  (forall x, x ∈ remove_first v l -> x ∈ l).
Proof.
  induction 1 as [|a l Ha Hnd (IH1 & IH2 & IH3)]; simpl.
  - split; [constructor|]. split; [apply not_elem_of_nil|done].
  - destruct (Nat.eqb_spec a v) as [->|Hne].
    + split; [done|]. split; [done|]. intros x Hx. by apply list_elem_of_further.
    + split; [|split].
      * constructor; [|done]. intros Hin. by apply Ha, IH3.
      * intros Hin. apply elem_of_cons in Hin as [?|?]; [congruence|done].
      * intros x Hx. apply elem_of_cons in Hx as [->|Hx];
          [apply list_elem_of_here|by apply list_elem_of_further, IH3].
Qed.

(** [conn_remove_from] on a sound index leaves it sound, and the
    connection unlisted and without a logon. *)
Lemma conn_remove_from_sound st id st' :
  index_sound st -> conn_remove_from st id = Ok st' ->
  index_sound st' /\ unlisted st' id /\
  (exists conn', conns st' !! id = Some conn' /\
                 c_logon_complete conn' = false) /\
  (forall id', id' <> id -> conns st' !! id' = conns st !! id').
Proof.
  intros Hs Hr. unfold conn_remove_from in Hr. bind_inv Hr as conn Hconn.
  bind_inv Hr. bind_inv Hr. injection Hr as <-.
  unfold conn_at in Hconn.
  destruct (conns st !! id) as [c|] eqn:Hc; [|discriminate].
  injection Hconn as ->. apply ASSERT_Ok in Hr0.
  unfold htbl_lookup_multi in Hr1.
  destruct (conns_by_from st !! c_from conn) as [l|] eqn:Hl; [|discriminate].
  destruct (Hs _ _ Hl) as [Hnd Hall].
  destruct (remove_first_NoDup id l Hnd) as (Hnd' & Hnotin & Hsub).
  (* the lists of the new index *)
  assert (Hidx : forall key l',
            htbl_remove_multi (conns_by_from st) (c_from conn) id !! key
              = Some l' ->
            (key = c_from conn /\ l' = remove_first id l) \/
            (key <> c_from conn /\ conns_by_from st !! key = Some l')).
  { intros key l'. unfold htbl_remove_multi. rewrite Hl.
    destruct (decide (key = c_from conn)) as [->|Hne].
    - destruct (remove_first id l) as [|x xs] eqn:Hrf.
      + by rewrite lookup_delete_eq.
      + rewrite lookup_insert_eq. intros [= <-]. left. auto.
    - intros Hk. right. split; [done|].
      destruct (remove_first id l).
      + by rewrite lookup_delete_ne in Hk.
      + by rewrite lookup_insert_ne in Hk. }
  assert (Hun : unlisted
            (set_conns
               (set_conns_by_from st
                  (htbl_remove_multi (conns_by_from st) (c_from conn) id))
               (<[id := {| c_from := EmptyString; c_to := c_to conn;
                           c_logon_complete := false;
                           c_outbuf := c_outbuf conn |}]> (conns st))) id).
  { intros key l' Hk. simpl in Hk.
    apply Hidx in Hk as [[-> ->]|[Hne Hk]]; [done|].
    intros Hin. destruct (Hs _ _ Hk) as [_ Hall'].
    destruct (Hall' id Hin) as (c' & Hc' & _ & Hf & _). congruence. }
  split; [|split; [exact Hun|split]].
  - intros key l' Hk. pose proof (Hun key l' Hk) as Hnot. simpl in Hk.
    assert (Hfrom : NoDup l' /\ forall x, x ∈ l' ->
              exists conn0, conns st !! x = Some conn0 /\
                c_logon_complete conn0 = true /\ c_from conn0 = key /\
                nonempty key = true).
    { apply Hidx in Hk as [[-> ->]|[Hne Hk]].
      - split; [done|]. intros x Hx. by apply Hall, Hsub.
      - by apply Hs. }
    destruct Hfrom as [Hnd0 Hall0]. split; [done|].
    intros x Hx. destruct (Hall0 x Hx) as (conn0 & Hc0 & ?).
    exists conn0. split; [|done]. simpl.
    rewrite lookup_insert_ne; [done|]. intros <-. done.
  - simpl. rewrite lookup_insert_eq. eexists. split; reflexivity.
  - intros id' Hne. simpl. by rewrite lookup_insert_ne.
Qed.

Lemma process_logon_msg_sound st id msg st' ok :
  index_sound st -> process_logon_msg st id msg = Ok (st', ok) ->
  index_sound st'.
Proof.
  intros Hs Hp. unfold process_logon_msg in Hp. bind_inv Hp as conn Hconn.
  bind_inv Hp as st1 H1. bind_inv Hp as conn1 Hconn1.
  unfold conn_at in Hconn, Hconn1.
  destruct (conns st !! id) as [c|] eqn:Hc; [|discriminate].
  injection Hconn as ->.
  destruct (conns st1 !! id) as [c1|] eqn:Hc1; [|discriminate].
  injection Hconn1 as ->.
  (* after the removal the index is sound and the connection unlisted *)
  assert (H1s : index_sound st1 /\ unlisted st1 id).
  { destruct (c_logon_complete conn) eqn:Hlog.
    - apply conn_remove_from_sound in H1 as (? & ? & _); auto.
    - injection H1 as <-. split; [done|].
      eapply index_sound_unlisted; [exact Hs|exact Hc|exact Hlog]. }
  destruct H1s as [Hs1 Hun1].
  set (key0 := lacf_strlcpy (cpdlc_msg_get_from msg) CALLSIGN_LEN) in *.
  set (conn2 := {| c_from := key0;
                   c_to := lacf_strlcpy (cpdlc_msg_get_to msg) CALLSIGN_LEN;
                   c_logon_complete := true;
                   c_outbuf := c_outbuf conn1 |}) in *.
  set (st2 := set_conns st1 (<[id := conn2]> (conns st1))) in *.
  (* the lists of [st1] after the update of the connection *)
  assert (Hold : forall key l, conns_by_from st1 !! key = Some l ->
            NoDup l /\ forall x, x ∈ l ->
              exists conn0, conns st2 !! x = Some conn0 /\
                c_logon_complete conn0 = true /\ c_from conn0 = key /\
                nonempty key = true).
  { intros key l Hl. destruct (Hs1 key l Hl) as [Hnd Hall]. split; [done|].
    intros x Hx. destruct (Hall x Hx) as (conn0 & Hc0 & ?).
    exists conn0. split; [|done]. unfold st2. simpl.
    rewrite lookup_insert_ne; [done|]. intros <-. by apply (Hun1 key l). }
  change (c_from conn2) with key0 in Hp.
  destruct (negb (nonempty key0)) eqn:Hfrom.
  - bind_inv Hp as st3 H3. injection Hp as <- <-.
    eapply keeps_logons_sound; [by eapply conn_send_buf_keeps|].
    intros key l Hl. by apply Hold.
  - injection Hp as <- <-. apply negb_false_iff in Hfrom.
    intros key l Hl. cbn [conns_by_from set_conns_by_from] in Hl.
    unfold htbl_set in Hl. cbn [conns_by_from st2 set_conns] in Hl.
    destruct (decide (key = key0)) as [->|Hne].
    + rewrite lookup_insert_eq in Hl. injection Hl as <-.
      destruct (conns_by_from st1 !! key0) as [l0|] eqn:Hl0; simpl.
      * destruct (Hold _ _ Hl0) as [Hnd Hall]. split.
        -- constructor; [by apply (Hun1 _ _ Hl0)|done].
        -- intros x Hx. apply elem_of_cons in Hx as [->|Hx]; [|by apply Hall].
           exists conn2. split; [apply lookup_insert_eq|]. auto.
      * split; [apply NoDup_singleton|].
        intros x Hx. apply list_elem_of_singleton in Hx as ->.
        exists conn2. split; [apply lookup_insert_eq|]. auto.
    + rewrite lookup_insert_ne in Hl by done. by apply Hold.
Qed.

Lemma close_conn_sound st id st' :
  index_sound st -> close_conn st id = Ok st' -> index_sound st'.
Proof.
  intros Hs Hc. unfold close_conn in Hc. bind_inv Hc as conn Hconn.
  bind_inv Hc as st1 H1. injection Hc as <-.
  unfold conn_at in Hconn.
  destruct (conns st !! id) as [c|] eqn:Hcid; [|discriminate].
  injection Hconn as ->.
  assert (H1s : index_sound st1 /\ unlisted st1 id).
  { destruct (c_logon_complete conn) eqn:Hlog.
    - apply conn_remove_from_sound in H1 as (? & ? & _); auto.
    - injection H1 as <-. split; [done|].
      eapply index_sound_unlisted; [exact Hs|exact Hcid|exact Hlog]. }
  destruct H1s as [Hs1 Hun1].
  intros key l Hl. simpl in Hl. destruct (Hs1 key l Hl) as [Hnd Hall].
  split; [done|]. intros x Hx. destruct (Hall x Hx) as (conn0 & Hc0 & ?).
  exists conn0. split; [|done]. simpl.
  rewrite lookup_delete_ne; [done|]. intros <-. by apply (Hun1 key l).
Qed.

Lemma conn_process_msg_sound st now id msg st' :
  index_sound st -> conn_process_msg st now id msg = Ok st' -> index_sound st'.
Proof.
  intros Hs Hp. unfold conn_process_msg in Hp. bind_inv Hp as conn Hconn.
  destruct (negb _ && negb _);
    [by eapply keeps_logons_sound; [eapply conn_send_buf_keeps|]|].
  bind_inv Hp as [st1 ok] H1.
  assert (Hs1 : index_sound st1).
  { destruct (msg_is_logon msg).
    - by eapply process_logon_msg_sound.
    - by injection H1 as <- <-. }
  destruct ok; simpl in Hp; [|by injection Hp as <-].
  by eapply keeps_logons_sound; [eapply conn_forward_keeps|].
Qed.

Lemma conn_process_input_sound st now id msgs decoded st' ok :
  index_sound st -> conn_process_input st now id msgs decoded = Ok (st', ok) ->
  index_sound st'.
Proof.
  revert st. induction msgs as [|msg msgs IH]; intros st Hs Hp; simpl in Hp.
  - by injection Hp as <- <-.
  - bind_inv Hp as st1 H1. eapply IH; [|exact Hp].
    by eapply conn_process_msg_sound.
Qed.

Lemma step_index_sound st now e st' :
  index_sound st -> step st now e = Ok st' -> index_sound st'.
Proof.
  intros Hs Hstep. destruct e as [id|id msgs decoded|id|id r|];
    simpl in Hstep.
  - injection Hstep as <-. unfold handle_accept.
    destruct (conns st !! id) as [c|] eqn:Hc; [done|].
    intros key l Hl. simpl in Hl. destruct (Hs key l Hl) as [Hnd Hall].
    split; [done|]. intros x Hx. destruct (Hall x Hx) as (conn0 & Hc0 & ?).
    exists conn0. split; [|done]. simpl.
    rewrite lookup_insert_ne; [done|]. intros <-. congruence.
  - bind_inv Hstep as [st1 ok1] H1. injection Hstep as <-.
    unfold handle_conn_input in H1. bind_inv H1 as [st2 ok2] H2.
    apply conn_process_input_sound in H2; [|done].
    destruct ok2; simpl in H1.
    + by injection H1 as <- <-.
    + bind_inv H1 as st3 H3. injection H1 as <- <-.
      by eapply close_conn_sound.
  - by eapply close_conn_sound.
  - bind_inv Hstep as [st1 ok1] Ho. injection Hstep as <-.
    apply handle_conn_output_Ok in Ho
      as [(_ & _ & Hclose)
         |(_ & _ & conn & outbuf & Hc & _ & [->|[rest ->]])];
      [by eapply close_conn_sound|done|].
    eapply keeps_logons_sound; [|exact Hs]. split; [done|].
    intros id' conn' Hc'. simpl. destruct (decide (id' = id)) as [->|Hne].
    + rewrite lookup_insert_eq. eexists. split; [reflexivity|].
      rewrite Hc in Hc'. injection Hc' as <-. auto.
    + rewrite lookup_insert_ne by done. exists conn'. auto.
  - by eapply keeps_logons_sound; [eapply handle_queued_loop_keeps|].
Qed.

(** In every state the daemon reaches, the callsign index holds only
    live connections whose logon is complete, each once and under its
    own non-empty [from]. *)
Lemma reachable_index_sound st : reachable st -> index_sound st.
Proof.
  induction 1 as [|st now e st' _ IH Hs].
  - intros key l Hl. simpl in Hl. by rewrite lookup_empty in Hl.
  - by eapply step_index_sound.
Qed.


(** ** Connections and the index, both ways *)

Lemma same_logons_refl st : same_logons st st.
Proof.
  split; [done|]. intros id. destruct (conns st !! id); constructor.
  by repeat split.
Qed.

Lemma same_logons_trans st1 st2 st3 :
  same_logons st1 st2 -> same_logons st2 st3 -> same_logons st1 st3.
Proof.
  intros [Hi1 Hc1] [Hi2 Hc2]. split; [congruence|]. intros id.
  specialize (Hc1 id). specialize (Hc2 id).
  destruct Hc1 as [c1 c2 (? & ? & ?)|]; inversion Hc2 as [? c3 (? & ? & ?)|];
    constructor.
  repeat split; congruence.
Qed.

Lemma same_logons_Some st st' id conn' :
  same_logons st st' -> conns st' !! id = Some conn' ->
  exists conn, conns st !! id = Some conn /\ same_logon conn conn'.
Proof.
  intros [_ Hc] Hl. specialize (Hc id). rewrite Hl in Hc.
  inversion Hc as [c ? Hs|]. by exists c.
Qed.

Lemma same_logons_live st st' id :
  same_logons st st' -> is_Some (conns st' !! id) <-> is_Some (conns st !! id).
Proof.
  intros [_ Hc]. specialize (Hc id).
  destruct Hc; split; intros [? ?]; by eauto.
Qed.

Lemma same_logons_keeps st st' : same_logons st st' -> keeps_logons st st'.
Proof.
  intros [Hi Hc]. split; [done|]. intros id conn Hl. specialize (Hc id).
  rewrite Hl in Hc. inversion Hc as [? c' (? & ? & ?)|]. by exists c'.
Qed.

Lemma same_logons_inv st st' :
  same_logons st st' -> logon_inv st -> logon_inv st'.
Proof.
  intros Hs (Hsound & Hcomp & Hclr & Hne).
  split; [|split; [|split]].
  - eapply keeps_logons_sound; [|done]. by apply same_logons_keeps.
  - intros id conn' Hl Hflag Hfrom.
    destruct (same_logons_Some _ _ _ _ Hs Hl) as (conn & Hc & Hf & _ & Hg).
    destruct Hs as [-> _]. rewrite Hf. apply Hcomp; congruence.
  - intros id conn' Hl Hflag.
    destruct (same_logons_Some _ _ _ _ Hs Hl) as (conn & Hc & Hf & _ & Hg).
    rewrite Hf. eapply Hclr; [done|congruence].
  - intros key l. destruct Hs as [-> _]. apply Hne.
Qed.

Lemma same_logons_named st st' :
  same_logons st st' -> logons_named st -> logons_named st'.
Proof.
  intros Hs Hn id conn' Hl Hflag.
  destruct (same_logons_Some _ _ _ _ Hs Hl) as (conn & Hc & Hf & _ & Hg).
  rewrite Hf. eapply Hn; [done|congruence].
Qed.

Lemma set_outbuf_same_logons st id conn b :
  conns st !! id = Some conn ->
  same_logons st (set_conns st (<[id := conn_set_outbuf conn b]> (conns st))).
Proof.
  intros Hc. split; [done|]. intros id'. simpl.
  destruct (decide (id' = id)) as [->|Hne].
  - rewrite lookup_insert_eq, Hc. constructor. by repeat split.
  - rewrite lookup_insert_ne by done. destruct (conns st !! id'); constructor.
    by repeat split.
Qed.

Lemma conn_send_buf_same st id buf buflen st' :
  conn_send_buf st id buf buflen = Ok st' -> same_logons st st'.
Proof.
  unfold conn_send_buf. intros Hs. bind_inv Hs as conn Hconn. bind_inv Hs.
  injection Hs as <-. unfold conn_at in Hconn.
  destruct (conns st !! id) as [c|] eqn:Hc; [|discriminate].
  injection Hconn as ->. by apply set_outbuf_same_logons.
Qed.

Lemma send_msg_all_same st l msg st' :
  send_msg_all st l msg = Ok st' -> same_logons st st'.
Proof.
  revert st. induction l as [|id l IH]; intros st Hs; simpl in Hs.
  - injection Hs as <-. apply same_logons_refl.
  - bind_inv Hs as st1 H1. eapply same_logons_trans; [|by eapply IH].
    by eapply conn_send_buf_same.
Qed.

Lemma send_buf_all_same st l buf buflen st' :
  send_buf_all st l buf buflen = Ok st' -> same_logons st st'.
Proof.
  revert st. induction l as [|id l IH]; intros st Hs; simpl in Hs.
  - injection Hs as <-. apply same_logons_refl.
  - bind_inv Hs as st1 H1. eapply same_logons_trans; [|by eapply IH].
    by eapply conn_send_buf_same.
Qed.

Lemma set_queue_same st queue bytes : same_logons st (set_queue st queue bytes).
Proof.
  split; [done|]. intros id. simpl. destruct (conns st !! id); constructor.
  by repeat split.
Qed.

Lemma dequeue_msg_same st i st' :
  dequeue_msg st i = Ok st' -> same_logons st st'.
Proof.
  unfold dequeue_msg. intros Hd.
  destruct (queued_msgs st !! i) as [q|]; [|discriminate].
  bind_inv Hd. bind_inv Hd. injection Hd as <-. apply set_queue_same.
Qed.

Lemma conn_forward_same st now id msg st' :
  conn_forward st now id msg = Ok st' -> same_logons st st'.
Proof.
  unfold conn_forward. intros Hf. bind_inv Hf as conn Hconn. cbv zeta in Hf.
  destruct (if nonempty (msg_to msg) then _ else _) as [to|];
    [|by eapply conn_send_buf_same].
  bind_inv Hf.
  assert (Hstore : same_logons st
            (fst (store_msg st now (cpdlc_msg_set_from msg (c_from conn)) to))).
  { unfold store_msg. cbv zeta. destruct (_ <? _); simpl;
      [apply same_logons_refl|apply set_queue_same]. }
  destruct (htbl_lookup_multi _ _) as [[|tgt l]|];
    try (by eapply send_msg_all_same);
    destruct (store_msg _ _ _ _) as [st1 stored]; simpl in Hstore;
    (destruct stored; simpl in Hf;
     [by injection Hf as <-
     |eapply same_logons_trans; [exact Hstore|by eapply conn_send_buf_same]]).
Qed.

Lemma handle_queued_loop_same st now pending i st' :
  handle_queued_loop st now pending i = Ok st' -> same_logons st st'.
Proof.
  revert st i. induction pending as [|q next IH]; intros st i Hl;
    cbn [handle_queued_loop] in Hl.
  - injection Hl as <-. apply same_logons_refl.
  - assert (Hdq : forall st1,
              (do st2 <- dequeue_msg st1 i; handle_queued_loop st2 now next i)
                = Ok st' -> same_logons st1 st').
    { intros st1 Hd. bind_inv Hd as st2 H2.
      eapply same_logons_trans; [by eapply dequeue_msg_same|by eapply IH]. }
    destruct (htbl_lookup_multi _ _) as [[|tgt l]|].
    + destruct (_ <? _); [by apply Hdq|by eapply IH].
    + bind_inv Hl as st1 H1. eapply same_logons_trans; [|by apply Hdq].
      by eapply send_buf_all_same.
    + destruct (_ <? _); [by apply Hdq|by eapply IH].
Qed.

Lemma handle_conn_output_same st id r st' ok :
  r <> SendFatalError ->
  handle_conn_output st id r = Ok (st', ok) -> same_logons st st'.
Proof.
  intros Hr Ho.
  apply handle_conn_output_Ok in Ho
    as [(-> & _)|(_ & _ & conn & outbuf & Hc & _ & [->|[rest ->]])];
    [done|apply same_logons_refl|].
  by apply set_outbuf_same_logons.
Qed.

(** *** The functions that change logons *)

Lemma remove_first_other v l x :
  x ∈ l -> x <> v -> x ∈ remove_first v l.
Proof.
  induction l as [|y l IH]; intros Hx Hne; [done|]. simpl.
  destruct (Nat.eqb_spec y v) as [->|Hyv].
  - apply elem_of_cons in Hx as [->|Hx]; [done|exact Hx].
  - apply elem_of_cons in Hx as [->|Hx]; [left|right; by apply IH].
Qed.

Lemma conn_remove_from_inv st id st' :
  logon_inv st -> conn_remove_from st id = Ok st' ->
  logon_inv st' /\
  (exists conn, conns st !! id = Some conn /\
     conns st' = <[id := {| c_from := EmptyString; c_to := c_to conn;
                            c_logon_complete := false;
                            c_outbuf := c_outbuf conn |}]> (conns st)).
Proof.
  intros (Hsound & Hcomp & Hclr & Hne) Hr.
  pose proof (conn_remove_from_sound _ _ _ Hsound Hr)
    as (Hsound' & Hun & _ & Hother).
  unfold conn_remove_from in Hr. bind_inv Hr as conn Hconn.
  bind_inv Hr. bind_inv Hr. injection Hr as <-.
  unfold conn_at in Hconn.
  destruct (conns st !! id) as [c|] eqn:Hc; [|discriminate].
  injection Hconn as ->. apply ASSERT_Ok in Hr0.
  unfold htbl_lookup_multi in Hr1.
  destruct (conns_by_from st !! c_from conn) as [l|] eqn:Hl; [|discriminate].
  split; [|by exists conn].
  split; [exact Hsound'|]. split; [|split].
  - intros id' conn' Hc' Hflag Hfrom. simpl in Hc'.
    destruct (decide (id' = id)) as [->|Hneq].
    { rewrite lookup_insert_eq in Hc'. injection Hc' as <-. discriminate. }
    rewrite lookup_insert_ne in Hc' by done.
    destruct (Hcomp _ _ Hc' Hflag Hfrom) as (l' & Hl' & Hin). simpl.
    unfold htbl_remove_multi. rewrite Hl.
    destruct (decide (c_from conn' = c_from conn)) as [Heq|Hkey].
    + rewrite Heq in *. rewrite Hl in Hl'. injection Hl' as <-.
      pose proof (remove_first_other id l id' Hin Hneq) as Hin'.
      destruct (remove_first id l) as [|x xs] eqn:Hrf.
      * by apply elem_of_nil in Hin'.
      * rewrite lookup_insert_eq. by eexists.
    + exists l'. split; [|done].
      destruct (remove_first id l).
      * by rewrite lookup_delete_ne.
      * by rewrite lookup_insert_ne.
  - intros id' conn' Hc' Hflag. simpl in Hc'.
    destruct (decide (id' = id)) as [->|Hneq].
    { rewrite lookup_insert_eq in Hc'. by injection Hc' as <-. }
    rewrite lookup_insert_ne in Hc' by done. by eapply Hclr.
  - intros key l'. simpl. unfold htbl_remove_multi. rewrite Hl.
    destruct (remove_first id l) as [|x xs] eqn:Hrf.
    + intros Hk. apply lookup_delete_Some in Hk as [_ Hk]. by eapply Hne.
    + destruct (decide (key = c_from conn)) as [->|Hkey].
      * rewrite lookup_insert_eq. by intros [= <-].
      * rewrite lookup_insert_ne by done. apply Hne.
Qed.

Lemma nonempty_strlcpy s :
  nonempty (lacf_strlcpy s CALLSIGN_LEN) = nonempty s.
Proof. by destruct s. Qed.

Lemma process_logon_msg_inv st id msg st' ok :
  logon_inv st -> process_logon_msg st id msg = Ok (st', ok) ->
  logon_inv st' /\
  (forall id', is_Some (conns st' !! id') <-> is_Some (conns st !! id')) /\
  (ok = nonempty (cpdlc_msg_get_from msg)) /\
  (exists conn', conns st' !! id = Some conn' /\
     c_logon_complete conn' = true /\
     c_from conn' = lacf_strlcpy (cpdlc_msg_get_from msg) CALLSIGN_LEN /\
     c_to conn' = lacf_strlcpy (cpdlc_msg_get_to msg) CALLSIGN_LEN) /\
  (forall id' c', id' <> id -> conns st' !! id' = Some c' ->
     exists c, conns st !! id' = Some c /\ same_logon c c').
Proof.
  intros Hinv Hp. unfold process_logon_msg in Hp.
  bind_inv Hp as conn0 Hconn0. bind_inv Hp as st1 Hrem.
  bind_inv Hp as conn Hconn. cbv zeta in Hp.
  unfold conn_at in Hconn0, Hconn.
  destruct (conns st !! id) as [c0|] eqn:Hc0; [|discriminate].
  injection Hconn0 as ->.
  destruct (conns st1 !! id) as [c1|] eqn:Hc1; [|discriminate].
  injection Hconn as ->.
  (* the state after the old logon was removed *)
  assert (H1 : logon_inv st1 /\ c_logon_complete conn = false /\
               (forall id', id' <> id -> conns st1 !! id' = conns st !! id')).
  { destruct (c_logon_complete conn0) eqn:Hflag.
    - destruct (conn_remove_from_inv _ _ _ Hinv Hrem)
        as (Hinv1 & conn' & Hc' & Hconns).
      split; [done|]. rewrite Hconns in Hc1 |- *.
      rewrite lookup_insert_eq in Hc1. injection Hc1 as <-.
      split; [done|]. intros id' Hne. by rewrite lookup_insert_ne.
    - injection Hrem as <-. split; [done|]. split; [congruence|done]. }
  destruct H1 as ((Hsound & Hcomp & Hclr & Hne) & Hflag1 & Hother).
  assert (Hun : unlisted st1 id) by (by eapply index_sound_unlisted).
  set (conn' := {| c_from := lacf_strlcpy (cpdlc_msg_get_from msg) CALLSIGN_LEN;
                   c_to := lacf_strlcpy (cpdlc_msg_get_to msg) CALLSIGN_LEN;
                   c_logon_complete := true; c_outbuf := c_outbuf conn |}) in *.
  set (st2 := set_conns st1 (<[id := conn']> (conns st1))) in *.
  assert (Hlive : forall id', is_Some (conns st2 !! id')
                              <-> is_Some (conns st !! id')).
  { intros id'. unfold st2. simpl. destruct (decide (id' = id)) as [->|Hneq].
    - rewrite lookup_insert_eq, Hc0. split; eauto.
    - by rewrite lookup_insert_ne, Hother. }
  assert (Hothers : forall id' c', id' <> id -> conns st2 !! id' = Some c' ->
            exists c, conns st !! id' = Some c /\ same_logon c c').
  { intros id' c' Hneq Hl. unfold st2 in Hl. simpl in Hl.
    rewrite lookup_insert_ne, Hother in Hl by done. exists c'.
    by repeat split. }
  assert (Hid2 : conns st2 !! id = Some conn').
  { unfold st2. simpl. by rewrite lookup_insert_eq. }
  assert (Hfc : nonempty (c_from conn') = nonempty (cpdlc_msg_get_from msg))
    by apply nonempty_strlcpy.
  rewrite Hfc in Hp.
  destruct (nonempty (cpdlc_msg_get_from msg)) eqn:Hfrom; cbn [negb] in Hp.
  - injection Hp as <- <-.
    assert (Hidx : forall key l,
              htbl_set (conns_by_from st1) (c_from conn') id !! key = Some l ->
              (key = c_from conn' /\
               l = id :: default [] (conns_by_from st1 !! c_from conn')) \/
              (key <> c_from conn' /\ conns_by_from st1 !! key = Some l)).
    { intros key l. unfold htbl_set.
      destruct (decide (key = c_from conn')) as [->|Hk].
      - rewrite lookup_insert_eq. intros [= <-]. by left.
      - rewrite lookup_insert_ne by done. by right. }
    split; [|split; [|split; [done|split]]].
    + split; [|split; [|split]].
      * intros key l Hk. simpl in Hk. apply Hidx in Hk as [[-> ->]|[Hk Hl]].
        -- assert (Hold : NoDup (default [] (conns_by_from st1 !! c_from conn'))
                     /\ forall x, x ∈ default [] (conns_by_from st1 !! c_from conn') ->
                          x <> id /\ exists c, conns st1 !! x = Some c /\
                            c_logon_complete c = true /\
                            c_from c = c_from conn' /\
                            nonempty (c_from conn') = true).
           { destruct (conns_by_from st1 !! c_from conn') as [l0|] eqn:Hl0;
               simpl.
             - destruct (Hsound _ _ Hl0) as [Hnd Hall]. split; [done|].
               intros x Hx. split; [|by apply Hall].
               intros ->. by apply (Hun _ _ Hl0).
             - split; [constructor|]. intros x Hx. by apply elem_of_nil in Hx. }
           destruct Hold as [Hnd Hall]. split.
           ++ apply NoDup_cons. split; [|done]. intros Hin.
              by destruct (Hall _ Hin) as [? _].
           ++ intros x Hx. apply elem_of_cons in Hx as [->|Hx].
              ** exists conn'. simpl. rewrite lookup_insert_eq.
                 repeat split; try done.
              ** destruct (Hall _ Hx) as (Hneq & c & Hc & ?).
                 exists c. simpl. by rewrite lookup_insert_ne.
        -- destruct (Hsound _ _ Hl) as [Hnd Hall]. split; [done|].
           intros x Hx. destruct (Hall _ Hx) as (c & Hc & Hf & <- & Hn).
           exists c. simpl. rewrite lookup_insert_ne; [done|].
           intros <-. by apply (Hun _ _ Hl).
      * intros id' c' Hl Hf Hn. simpl in Hl |- *.
        destruct (decide (id' = id)) as [->|Hneq].
        -- rewrite lookup_insert_eq in Hl. injection Hl as <-.
           unfold htbl_set. rewrite lookup_insert_eq. eexists. split; [done|].
           left.
        -- rewrite lookup_insert_ne in Hl by done.
           destruct (Hcomp _ _ Hl Hf Hn) as (l & Hk & Hin).
           unfold htbl_set.
           destruct (decide (c_from c' = c_from conn')) as [Heq|Hk'].
           ++ rewrite Heq in *. rewrite lookup_insert_eq. eexists.
              split; [done|]. right.
              change (id' ∈ default [] (conns_by_from st1 !! c_from conn')).
              by rewrite Hk.
           ++ rewrite lookup_insert_ne by done. by exists l.
      * intros id' c' Hl Hf. simpl in Hl.
        destruct (decide (id' = id)) as [->|Hneq].
        -- rewrite lookup_insert_eq in Hl. by injection Hl as <-.
        -- rewrite lookup_insert_ne in Hl by done. by eapply Hclr.
      * intros key l Hk. simpl in Hk. apply Hidx in Hk as [[-> ->]|[Hk Hl]];
          [done|by eapply Hne].
    + exact Hlive.
    + exists conn'. by repeat split.
    + exact Hothers.
  - bind_inv Hp as st3 Hsend. injection Hp as <- <-.
    assert (Hinv2 : logon_inv st2).
    { split; [|split; [|split]].
      - intros key l Hk. destruct (Hsound _ _ Hk) as [Hnd Hall].
        split; [done|]. intros x Hx.
        destruct (Hall _ Hx) as (c & Hc & ?). exists c. unfold st2. simpl.
        rewrite lookup_insert_ne; [done|]. intros <-. by apply (Hun _ _ Hk).
      - intros id' c' Hl Hf Hn. unfold st2 in Hl. simpl in Hl |- *.
        destruct (decide (id' = id)) as [->|Hneq].
        + rewrite lookup_insert_eq in Hl. injection Hl as <-. simpl in Hn.
          rewrite nonempty_strlcpy in Hn. congruence.
        + rewrite lookup_insert_ne in Hl by done. by apply Hcomp.
      - intros id' c' Hl Hf. unfold st2 in Hl. simpl in Hl.
        destruct (decide (id' = id)) as [->|Hneq].
        + rewrite lookup_insert_eq in Hl. by injection Hl as <-.
        + rewrite lookup_insert_ne in Hl by done. by eapply Hclr.
      - exact Hne. }
    apply conn_send_buf_same in Hsend.
    split; [by eapply same_logons_inv|]. split; [|split; [done|split]].
    + intros id'. rewrite <- Hlive. by apply same_logons_live.
    + destruct Hsend as [_ Hs]. specialize (Hs id). rewrite Hid2 in Hs.
      inversion Hs as [? c3 (Hf & Ht & Hg)|]. exists c3. by repeat split.
    + intros id' c' Hneq Hl.
      destruct (same_logons_Some _ _ _ _ Hsend Hl) as (c2 & Hc2 & Hs2).
      destruct (Hothers _ _ Hneq Hc2) as (c & Hc & Hs). exists c.
      split; [done|]. destruct Hs as (? & ? & ?), Hs2 as (? & ? & ?).
      repeat split; congruence.
Qed.

Lemma delete_conn_inv st id :
  logon_inv st -> unlisted st id ->
  logon_inv (set_conns st (delete id (conns st))).
Proof.
  intros (Hsound & Hcomp & Hclr & Hne) Hun. split; [|split; [|split]].
  - intros key l Hk. destruct (Hsound _ _ Hk) as [Hnd Hall]. split; [done|].
    intros x Hx. destruct (Hall _ Hx) as (c & Hc & ?). exists c. simpl.
    rewrite lookup_delete_ne; [done|]. intros <-. by apply (Hun _ _ Hk).
  - intros id' c Hl Hf Hn. simpl in Hl.
    apply lookup_delete_Some in Hl as [_ Hl]. by apply Hcomp.
  - intros id' c Hl Hf. simpl in Hl.
    apply lookup_delete_Some in Hl as [_ Hl]. by eapply Hclr.
  - exact Hne.
Qed.

Lemma close_conn_inv st id st' :
  logon_inv st -> close_conn st id = Ok st' ->
  logon_inv st' /\ conns st' = delete id (conns st) /\ unlisted st' id.
Proof.
  intros Hinv Hc. unfold close_conn in Hc. bind_inv Hc as conn Hconn.
  bind_inv Hc as st1 Hrem. injection Hc as <-.
  unfold conn_at in Hconn.
  destruct (conns st !! id) as [c|] eqn:Hl; [|discriminate].
  injection Hconn as ->.
  destruct (c_logon_complete conn) eqn:Hflag.
  - pose proof (conn_remove_from_sound _ _ _ (proj1 Hinv) Hrem)
      as (_ & Hun & _).
    destruct (conn_remove_from_inv _ _ _ Hinv Hrem) as (Hinv1 & c' & Hc' & Heq).
    split; [by apply delete_conn_inv|]. split; [|exact Hun].
    simpl. rewrite Heq. apply delete_insert_eq.
  - injection Hrem as <-.
    assert (Hun : unlisted st id)
      by (eapply index_sound_unlisted; [apply Hinv|done..]).
    split; [by apply delete_conn_inv|]. by split.
Qed.

Lemma handle_accept_inv st id : logon_inv st -> logon_inv (handle_accept st id).
Proof.
  intros Hinv. unfold handle_accept.
  destruct (conns st !! id) as [c|] eqn:Hl; [done|].
  destruct Hinv as (Hsound & Hcomp & Hclr & Hne). split; [|split; [|split]].
  - intros key l Hk. destruct (Hsound _ _ Hk) as [Hnd Hall]. split; [done|].
    intros x Hx. destruct (Hall _ Hx) as (c & Hc & ?). exists c. simpl.
    rewrite lookup_insert_ne; [done|]. congruence.
  - intros id' c Hc Hf Hn. simpl in Hc.
    apply lookup_insert_Some in Hc as [[<- <-]|[_ Hc]]; [done|].
    by apply Hcomp.
  - intros id' c Hc Hf. simpl in Hc.
    apply lookup_insert_Some in Hc as [[<- <-]|[_ Hc]]; [done|].
    by eapply Hclr.
  - exact Hne.
Qed.

Lemma conn_process_msg_logon_inv st now id msg st' :
  logon_inv st -> conn_process_msg st now id msg = Ok st' -> logon_inv st'.
Proof.
  intros Hinv Hp. unfold conn_process_msg in Hp. bind_inv Hp as conn Hconn.
  destruct (negb (c_logon_complete conn) && negb (msg_is_logon msg)).
  { eapply same_logons_inv; [|done]. by eapply conn_send_buf_same. }
  bind_inv Hp as [st1 ok] Hlog.
  assert (Hinv1 : logon_inv st1).
  { destruct (msg_is_logon msg).
    - by eapply process_logon_msg_inv.
    - by injection Hlog as <- <-. }
  destruct ok; simpl in Hp; [|by injection Hp as <-].
  eapply same_logons_inv; [|done]. by eapply conn_forward_same.
Qed.

Lemma conn_process_input_logon_inv st now id msgs decoded st' ok :
  logon_inv st -> conn_process_input st now id msgs decoded = Ok (st', ok) ->
  logon_inv st'.
Proof.
  revert st. induction msgs as [|msg msgs IH]; intros st Hinv Hp;
    simpl in Hp.
  - by injection Hp as <- <-.
  - bind_inv Hp as st1 H1. eapply IH; [|done].
    by eapply conn_process_msg_logon_inv.
Qed.

Lemma step_logon_inv st now e st' :
  logon_inv st -> step st now e = Ok st' -> logon_inv st'.
Proof.
  intros Hinv Hs. destruct e as [id|id msgs decoded|id|id r|]; simpl in Hs.
  - injection Hs as <-. by apply handle_accept_inv.
  - bind_inv Hs as [st1 ok] Hin. injection Hs as <-.
    unfold handle_conn_input in Hin. bind_inv Hin as [st2 ok2] Hp.
    apply conn_process_input_logon_inv in Hp; [|done].
    destruct ok2; simpl in Hin.
    + by injection Hin as <- <-.
    + bind_inv Hin as st3 Hc. injection Hin as <- <-.
      by eapply close_conn_inv.
  - by eapply close_conn_inv.
  - bind_inv Hs as [st1 ok1] Ho. injection Hs as <-.
    pose proof Ho as Ho'.
    apply handle_conn_output_Ok in Ho' as [(_ & _ & Hclose)|(Hr & _)];
      [by eapply close_conn_inv|].
    eapply same_logons_inv; [|done]. by eapply handle_conn_output_same.
  - eapply same_logons_inv; [|done]. by eapply handle_queued_loop_same.
Qed.

Lemma reachable_logon_inv st : reachable st -> logon_inv st.
Proof.
  induction 1 as [|st now e st' _ IH Hs].
  - split; [|split; [|split]].
    + intros key l Hl. simpl in Hl. by rewrite lookup_empty in Hl.
    + intros id c Hl. simpl in Hl. by rewrite lookup_empty in Hl.
    + intros id c Hl. simpl in Hl. by rewrite lookup_empty in Hl.
    + intros key l Hl. simpl in Hl. by rewrite lookup_empty in Hl.
  - by eapply step_logon_inv.
Qed.

(** X17. The callsign index is exact. In every state the daemon reaches,
    a connection is listed under a callsign if and only if it is a
    connection of the tree whose logon is complete and whose [from] is
    that callsign, which is not empty; no list of the index is empty or
    holds a connection twice; and a connection whose logon is not
    complete has an empty [from]. *)
Theorem callsign_index_is_exact st :
  reachable st ->
  (forall key id,
     (exists l, conns_by_from st !! key = Some l /\ id ∈ l) <->
     (exists conn, conns st !! id = Some conn /\
        c_logon_complete conn = true /\ c_from conn = key /\
        nonempty key = true)) /\
  (forall key l, conns_by_from st !! key = Some l -> NoDup l /\ l <> []) /\
  (forall id conn, conns st !! id = Some conn ->
     c_logon_complete conn = false -> c_from conn = EmptyString).
Proof.
  intros Hreach.
  destruct (reachable_logon_inv st Hreach) as (Hsound & Hcomp & Hclr & Hne).
  split; [|split; [|exact Hclr]].
  - intros key id. split.
    + intros (l & Hl & Hin). destruct (Hsound _ _ Hl) as [_ Hall].
      by apply Hall.
    + intros (conn & Hc & Hf & <- & Hn). by eapply Hcomp.
  - intros key l Hl. split; [by apply (Hsound _ _ Hl)|by eapply Hne].
Qed.

(** ** The texts of the queue *)

Lemma same_queue_texts st st' :
  same_queue st st' -> queue_texts st -> queue_texts st'.
Proof. intros [Hq _]. unfold queue_texts. by rewrite Hq. Qed.

Lemma conn_forward_texts st now id msg st' :
  queue_inv st -> queue_texts st -> conn_forward st now id msg = Ok st' ->
  queue_texts st'.
Proof using encode_nonempty encode_fits_int sizeof_range.
  intros Hinv Ht Hf. unfold conn_forward in Hf. bind_inv Hf as conn Hconn.
  cbv zeta in Hf.
  destruct (if nonempty (msg_to msg) then _ else _) as [to|];
    [|by eapply same_queue_texts; [eapply send_error_msg_queue|]].
  bind_inv Hf.
  assert (Hstore : queue_texts
            (fst (store_msg st now (cpdlc_msg_set_from msg (c_from conn)) to))).
  { rewrite store_msg_eq by done. cbv zeta. destruct (_ <? _); simpl; [done|].
    unfold queue_texts. simpl. apply Forall_app. split; [done|].
    constructor; [|constructor]. simpl. apply encode_nonempty. }
  destruct (htbl_lookup_multi _ _) as [[|tgt l]|];
    try (by eapply same_queue_texts; [eapply send_msg_all_queue|]);
    destruct (store_msg _ _ _ _) as [st1 stored]; simpl in Hstore;
    (destruct stored; simpl in Hf;
     [by injection Hf as <-
     |by eapply same_queue_texts; [eapply send_error_msg_queue|]]).
Qed.

Lemma conn_process_msg_texts st now id msg st' :
  queue_inv st -> queue_texts st -> conn_process_msg st now id msg = Ok st' ->
  queue_texts st'.
Proof using encode_nonempty encode_fits_int sizeof_range.
  intros Hinv Ht Hp. unfold conn_process_msg in Hp. bind_inv Hp as conn Hconn.
  destruct (negb (c_logon_complete conn) && negb (msg_is_logon msg)).
  { by eapply same_queue_texts; [eapply send_error_msg_queue|]. }
  bind_inv Hp as [st1 ok] Hlog.
  assert (H1 : same_queue st st1).
  { destruct (msg_is_logon msg).
    - by eapply process_logon_msg_queue.
    - injection Hlog as <- <-. by split. }
  destruct ok; simpl in Hp.
  - eapply conn_forward_texts; [| |exact Hp].
    + by eapply same_queue_inv.
    + by eapply same_queue_texts.
  - injection Hp as <-. by eapply same_queue_texts.
Qed.

Lemma conn_process_input_texts st now id msgs decoded st' ok :
  queue_inv st -> queue_texts st ->
  conn_process_input st now id msgs decoded = Ok (st', ok) -> queue_texts st'.
Proof using encode_nonempty encode_fits_int sizeof_range.
  revert st. induction msgs as [|msg msgs IH]; intros st Hinv Ht Hp;
    simpl in Hp.
  - by injection Hp as <- <-.
  - bind_inv Hp as st1 H1. eapply IH; [| |exact Hp].
    + by eapply conn_process_msg_inv.
    + by eapply conn_process_msg_texts.
Qed.

Lemma dequeue_msg_texts st i st' :
  queue_texts st -> dequeue_msg st i = Ok st' -> queue_texts st'.
Proof.
  unfold dequeue_msg. intros Ht Hd.
  destruct (queued_msgs st !! i) as [q|]; [|discriminate].
  bind_inv Hd. bind_inv Hd. injection Hd as <-.
  unfold queue_texts. simpl. by apply Forall_delete.
Qed.

Lemma handle_queued_loop_texts st now pending i st' :
  queue_texts st -> handle_queued_loop st now pending i = Ok st' ->
  queue_texts st'.
Proof.
  revert st i. induction pending as [|q next IH]; intros st i Ht Hl;
    cbn [handle_queued_loop] in Hl.
  - by injection Hl as <-.
  - assert (Hdq : forall st1,
              queue_texts st1 ->
              (do st2 <- dequeue_msg st1 i; handle_queued_loop st2 now next i)
                = Ok st' -> queue_texts st').
    { intros st1 Ht1 Hd. bind_inv Hd as st2 H2. eapply IH; [|exact Hd].
      by eapply dequeue_msg_texts. }
    destruct (htbl_lookup_multi _ _) as [[|tgt l]|].
    + destruct (_ <? _); [by eapply Hdq|by eapply IH].
    + bind_inv Hl as st1 H1. eapply Hdq; [|exact Hl].
      by eapply same_queue_texts; [eapply send_buf_all_queue|].
    + destruct (_ <? _); [by eapply Hdq|by eapply IH].
Qed.

Lemma step_queue_texts st now e st' :
  queue_inv st -> queue_texts st -> step st now e = Ok st' -> queue_texts st'.
Proof using encode_nonempty encode_fits_int sizeof_range.
  intros Hinv Ht Hs.
  destruct e as [id|id msgs decoded|id|id r|]; simpl in Hs.
  - injection Hs as <-. unfold handle_accept. by destruct (conns st !! id).
  - bind_inv Hs as [st1 ok1] H1. injection Hs as <-.
    unfold handle_conn_input in H1. bind_inv H1 as [st2 ok2] H2.
    apply conn_process_input_texts in H2; [|done..].
    destruct ok2; simpl in H1.
    + by injection H1 as <- <-.
    + bind_inv H1 as st3 H3. injection H1 as <- <-.
      by eapply same_queue_texts; [eapply close_conn_queue|].
  - by eapply same_queue_texts; [eapply close_conn_queue|].
  - bind_inv Hs as [st1 ok1] Ho. injection Hs as <-.
    apply handle_conn_output_Ok in Ho
      as [(_ & _ & Hclose)
         |(_ & _ & conn & outbuf & _ & _ & [->|[rest ->]])]; [|done..].
    by eapply same_queue_texts; [eapply close_conn_queue|].
  - by eapply handle_queued_loop_texts.
Qed.

Lemma reachable_queue_texts st : reachable st -> queue_texts st.
Proof using encode_nonempty encode_fits_int sizeof_range.
  induction 1 as [|st now e st' Hreach IH Hs].
  - constructor.
  - eapply step_queue_texts; [|done..]. by apply reachable_queue_inv.
Qed.

(** ** Walking the queue *)

Lemma send_buf_all_eq st l buf :
  Forall (fun id => is_Some (conns st !! id)) l ->
  0 < strlen buf ->
  send_buf_all st l buf (strlen buf) = Ok (fan_out st l buf).
Proof.
  intros Hlive Hlen. revert st Hlive.
  induction l as [|id l IH]; intros st Hlive; simpl; [reflexivity|].
  inversion Hlive as [|? ? [conn Hconn] Hrest]; subst.
  assert (Hone : conn_send_buf st id buf (strlen buf)
                 = Ok (outbuf_append st id buf)).
  { unfold conn_send_buf, conn_at, outbuf_append. rewrite Hconn. cbn [rbind].
    replace (strlen buf =? 0) with false by (symmetry; apply Z.eqb_neq; lia).
    cbn [negb ASSERT rbind].
    rewrite lacf_strlcpy_all by (unfold strlen in *; lia). reflexivity. }
  rewrite Hone. cbn [rbind]. apply IH.
  eapply Forall_impl; [exact Hrest|]. intros id' Hid'.
  by apply outbuf_append_live.
Qed.

Lemma index_sound_live st key l :
  index_sound st -> conns_by_from st !! key = Some l ->
  Forall (fun id => is_Some (conns st !! id)) l.
Proof.
  intros Hs Hl. destruct (Hs _ _ Hl) as [_ Hall]. apply Forall_forall.
  intros id Hin. destruct (Hall _ Hin) as (c & Hc & _). by eexists.
Qed.

Lemma handle_queued_loop_eq st0 now pending :
  forall st kept,
    logon_inv st -> queue_inv st -> queue_texts st ->
    conns_by_from st = conns_by_from st0 ->
    queued_msgs st = kept ++ pending ->
    exists st',
      handle_queued_loop st now pending (length kept) = Ok st' /\
      queued_msgs st' = kept ++ List.filter (stays_queued st0 now) pending /\
      queue_inv st' /\
      conns_by_from st' = conns_by_from st0 /\
      forall id,
        conns st' !! id =
        (fun c => append_texts c
                    (map q_msg (List.filter (addressed st0 id) pending)))
          <$> conns st !! id.
Proof using sizeof_range.
  induction pending as [|q next IH]; intros st kept Hlog Hinv Ht Hidx Hq.
  { exists st. simpl. split; [done|]. split; [by rewrite Hq|].
    do 2 (split; [done|]). intros id. by destruct (conns st !! id). }
  cbn [handle_queued_loop]. unfold htbl_lookup_multi.
  (* dropping the entry, after texts were appended or not *)
  assert (Hdrop : forall st1,
            same_logons st st1 -> same_queue st st1 ->
            exists st',
              (do st2 <- dequeue_msg st1 (length kept);
               handle_queued_loop st2 now next (length kept)) = Ok st' /\
              queued_msgs st' = kept ++ List.filter (stays_queued st0 now) next /\
              queue_inv st' /\
              conns_by_from st' = conns_by_from st0 /\
              forall id,
                conns st' !! id =
                (fun c => append_texts c
                            (map q_msg (List.filter (addressed st0 id) next)))
                  <$> conns st1 !! id).
  { intros st1 Hsl Hsq.
    assert (Hinv1 : queue_inv st1) by (by eapply same_queue_inv).
    assert (Hq1 : queued_msgs st1 !! length kept = Some q).
    { destruct Hsq as [-> _]. rewrite Hq. apply list_lookup_middle.
      reflexivity. }
    rewrite (dequeue_msg_eq _ _ _ Hinv1 Hq1). cbn [rbind].
    set (st2 := set_queue st1 _ _).
    assert (Hd : dequeue_msg st1 (length kept) = Ok st2)
      by apply (dequeue_msg_eq _ _ _ Hinv1 Hq1).
    destruct (IH st2 kept) as (st' & Hl & ?).
    - eapply same_logons_inv; [|exact Hlog].
      eapply same_logons_trans; [exact Hsl|]. apply set_queue_same.
    - by eapply dequeue_msg_inv.
    - eapply dequeue_msg_texts; [|exact Hd]. by eapply same_queue_texts.
    - simpl. destruct Hsl as [-> _]. exact Hidx.
    - simpl. destruct Hsq as [-> _]. rewrite Hq. apply delete_middle.
    - by exists st'. }
  assert (Hlen : length (kept ++ [q]) = S (length kept))
    by (rewrite length_app; simpl; lia).
  assert (Hkeep : exists st',
            handle_queued_loop st now next (S (length kept)) = Ok st' /\
            queued_msgs st' =
              kept ++ q :: List.filter (stays_queued st0 now) next /\
            queue_inv st' /\
            conns_by_from st' = conns_by_from st0 /\
            forall id,
              conns st' !! id =
              (fun c => append_texts c
                          (map q_msg (List.filter (addressed st0 id) next)))
                <$> conns st !! id).
  { destruct (IH st (kept ++ [q])) as (st' & Hl & Hq' & ?); try done.
    - by rewrite <- app_assoc.
    - rewrite Hlen in Hl. rewrite <- app_assoc in Hq'. by exists st'. }
  assert (Hrefl : same_queue st st) by (by split).
  destruct (conns_by_from st !! q_to q) as [[|tgt l]|] eqn:Hto.
  - assert (Had : forall id, addressed st0 id q = false).
    { intros id. unfold addressed. rewrite <- Hidx, Hto.
      apply bool_decide_eq_false_2. simpl. by intros ?%elem_of_nil. }
    assert (Hsq : stays_queued st0 now q
                  = negb (QUEUED_MSG_TIMEOUT <? now - q_created q)).
    { unfold stays_queued, deliverable, expired. by rewrite <- Hidx, Hto. }
    cbn [List.filter]. rewrite Hsq.
    destruct (QUEUED_MSG_TIMEOUT <? now - q_created q); cbn [negb].
    + destruct (Hdrop st) as (st' & Hl & Hq' & Hinv' & Hidx' & Hconns);
        [apply same_logons_refl|done|].
      exists st'. do 4 (split; [done|]). intros id. by rewrite Had.
    + destruct Hkeep as (st' & Hl & Hq' & Hinv' & Hidx' & Hconns).
      exists st'. do 4 (split; [done|]). intros id. by rewrite Had.
  - assert (Hsend : send_buf_all st (tgt :: l) (q_msg q) (strlen (q_msg q))
                    = Ok (fan_out st (tgt :: l) (q_msg q))).
    { apply send_buf_all_eq.
      - eapply index_sound_live; [apply Hlog|exact Hto].
      - unfold queue_texts in Ht. rewrite Hq in Ht.
        apply Forall_app in Ht as [_ Ht]. by inversion Ht. }
    rewrite Hsend. cbn [rbind].
    assert (Hsq : stays_queued st0 now q = false).
    { unfold stays_queued, deliverable. by rewrite <- Hidx, Hto. }
    cbn [List.filter]. rewrite Hsq.
    destruct (Hdrop (fan_out st (tgt :: l) (q_msg q)))
      as (st' & Hl & Hq' & Hinv' & Hidx' & Hconns).
    + by eapply send_buf_all_same.
    + by eapply send_buf_all_queue.
    + exists st'. do 4 (split; [done|]).
      intros id. rewrite Hconns.
      rewrite fan_out_lookup by (by apply (proj1 Hlog _ _ Hto)).
      assert (Had : addressed st0 id q = bool_decide (id ∈ tgt :: l)).
      { unfold addressed. by rewrite <- Hidx, Hto. }
      rewrite Had.
      destruct (decide (id ∈ tgt :: l)) as [Hin|Hnin].
      * rewrite bool_decide_eq_true_2 by done. simpl.
        by destruct (conns st !! id).
      * by rewrite bool_decide_eq_false_2 by done.
  - assert (Had : forall id, addressed st0 id q = false).
    { intros id. unfold addressed. rewrite <- Hidx, Hto.
      apply bool_decide_eq_false_2. simpl. by intros ?%elem_of_nil. }
    assert (Hsq : stays_queued st0 now q
                  = negb (QUEUED_MSG_TIMEOUT <? now - q_created q)).
    { unfold stays_queued, deliverable, expired. by rewrite <- Hidx, Hto. }
    cbn [List.filter]. rewrite Hsq.
    destruct (QUEUED_MSG_TIMEOUT <? now - q_created q); cbn [negb].
    + destruct (Hdrop st) as (st' & Hl & Hq' & Hinv' & Hidx' & Hconns);
        [apply same_logons_refl|done|].
      exists st'. do 4 (split; [done|]). intros id. by rewrite Had.
    + destruct Hkeep as (st' & Hl & Hq' & Hinv' & Hidx' & Hconns).
      exists st'. do 4 (split; [done|]). intros id. by rewrite Had.
Qed.

(** X18. What a walk of the queue does. In every state the daemon
    reaches [handle_queued_msgs] returns. The entries it leaves in the
    queue are, in their order, those that could not be delivered (no
    connection is listed under their [to]) and are not older than
    [QUEUED_MSG_TIMEOUT] seconds: an entry is dropped when
    [now - created > 3600], not at 3600. The byte counter is the sum
    over the entries left, the index is unchanged, and every connection
    has got, behind the bytes that were waiting in its out-buffer, the
    texts of the entries whose [to] it is listed under, in the order of
    the queue. *)
Theorem queue_walk_delivers_or_expires st now :
  reachable st ->
  exists st',
    handle_queued_msgs st now = Ok st' /\
    queued_msgs st' = List.filter (stays_queued st now) (queued_msgs st) /\
    queued_msg_bytes st' = queue_bytes (queued_msgs st') /\
    conns_by_from st' = conns_by_from st /\
    forall id,
      conns st' !! id =
      (fun c => append_texts c
                  (map q_msg (List.filter (addressed st id) (queued_msgs st))))
        <$> conns st !! id.
Proof using encode_nonempty encode_fits_int sizeof_range.
  intros Hreach.
  destruct (handle_queued_loop_eq st now (queued_msgs st) st [])
    as (st' & Hl & Hq & Hinv & Hidx & Hconns); try done.
  - by apply reachable_logon_inv.
  - by apply reachable_queue_inv.
  - by apply reachable_queue_texts.
  - exists st'. split; [exact Hl|]. split; [exact Hq|].
    split; [apply Hinv|]. by split.
Qed.

(** ** Runs that end on no assertion *)

Lemma conn_remove_from_ok st id conn :
  logon_inv st -> conns st !! id = Some conn ->
  c_logon_complete conn = true -> nonempty (c_from conn) = true ->
  exists st', conn_remove_from st id = Ok st'.
Proof.
  intros (_ & Hcomp & _) Hc Hflag Hfrom.
  destruct (Hcomp _ _ Hc Hflag Hfrom) as (l & Hl & _).
  unfold conn_remove_from, conn_at, htbl_lookup_multi.
  rewrite Hc. cbn [rbind]. rewrite Hflag, Hl. cbn [ASSERT rbind].
  by eexists.
Qed.

Lemma close_conn_ok st id conn :
  logon_inv st -> conns st !! id = Some conn ->
  (c_logon_complete conn = true -> nonempty (c_from conn) = true) ->
  exists st', close_conn st id = Ok st'.
Proof.
  intros Hinv Hc Hnamed. unfold close_conn, conn_at. rewrite Hc. cbn [rbind].
  destruct (c_logon_complete conn) eqn:Hflag.
  - destruct (conn_remove_from_ok _ _ _ Hinv Hc Hflag (Hnamed eq_refl))
      as (st1 & ->).
    cbn [rbind]. by eexists.
  - cbn [rbind]. by eexists.
Qed.

Lemma process_logon_msg_ok st id conn msg :
  logon_inv st -> conns st !! id = Some conn ->
  (c_logon_complete conn = true -> nonempty (c_from conn) = true) ->
  exists st',
    process_logon_msg st id msg = Ok (st', nonempty (cpdlc_msg_get_from msg)).
Proof using encode_nonempty encode_fits_int.
  intros Hinv Hc Hnamed. unfold process_logon_msg, conn_at. rewrite Hc.
  cbn [rbind].
  assert (H1 : exists st1 c1,
            (if c_logon_complete conn then conn_remove_from st id else Ok st)
              = Ok st1 /\ conns st1 !! id = Some c1).
  { destruct (c_logon_complete conn) eqn:Hflag.
    - destruct (conn_remove_from_ok _ _ _ Hinv Hc Hflag (Hnamed eq_refl))
        as (st1 & Hrem).
      destruct (conn_remove_from_inv _ _ _ Hinv Hrem) as (_ & c & _ & Heq).
      exists st1. eexists. split; [done|]. rewrite Heq.
      apply lookup_insert_eq.
    - by exists st, conn. }
  destruct H1 as (st1 & c1 & -> & Hc1). cbn [rbind]. rewrite Hc1.
  cbn [rbind]. cbv zeta. simpl c_from. rewrite nonempty_strlcpy.
  destruct (nonempty (cpdlc_msg_get_from msg)); cbn [negb].
  - by eexists.
  - erewrite send_error_msg_eq; [cbn [rbind]; by eexists|].
    simpl. apply lookup_insert_eq.
Qed.

Lemma conn_forward_ok st now id conn msg :
  logon_inv st -> queue_inv st -> conns st !! id = Some conn ->
  nonempty (c_from conn) = true ->
  exists st', conn_forward st now id msg = Ok st'.
Proof using encode_nonempty encode_fits_int sizeof_range.
  intros Hinv Hq Hc Hfrom.
  destruct (recipient conn msg) as [to|] eqn:Hrec.
  - destruct (conns_by_from st !! to) as [[|tgt l]|] eqn:Hto.
    + rewrite (conn_forward_queue _ _ _ _ _ _ Hc Hfrom Hrec) by auto.
      destruct (_ <? _); by eexists.
    + erewrite conn_forward_deliver; try done; [by eexists|].
      eapply index_sound_live; [apply Hinv|exact Hto].
    + rewrite (conn_forward_queue _ _ _ _ _ _ Hc Hfrom Hrec) by auto.
      destruct (_ <? _); by eexists.
  - erewrite conn_forward_no_recipient; try done. by eexists.
Qed.

Lemma conn_process_msg_ok st now id msg :
  logon_inv st -> queue_inv st -> logons_named st ->
  is_Some (conns st !! id) ->
  (msg_is_logon msg = true -> nonempty (cpdlc_msg_get_from msg) = true) ->
  exists st',
    conn_process_msg st now id msg = Ok st' /\ logons_named st' /\
    (forall id', is_Some (conns st' !! id') <-> is_Some (conns st !! id')).
Proof using encode_nonempty encode_fits_int sizeof_range.
  intros Hinv Hq Hnamed [conn Hc] Hfrom.
  unfold conn_process_msg, conn_at. rewrite Hc. cbn [rbind].
  destruct (c_logon_complete conn) eqn:Hflag; cbn [negb andb];
    destruct (msg_is_logon msg) eqn:Hlogon; cbn [negb].
  - (* a logon on a connection that is logged on *)
    destruct (process_logon_msg_ok st id conn msg Hinv Hc) as (st1 & Hp).
    { intros _. by eapply Hnamed. }
    rewrite Hp. cbn [rbind]. rewrite (Hfrom eq_refl) in Hp |- *. cbn [negb].
    destruct (process_logon_msg_inv _ _ _ _ _ Hinv Hp)
      as (Hinv1 & Hlive & _ & (c1 & Hc1 & Hf1 & Hfr1 & _) & Hothers).
    assert (Hn1 : logons_named st1).
    { intros id' c' Hc' Hf'. destruct (decide (id' = id)) as [->|Hne].
      - rewrite Hc1 in Hc'. injection Hc' as <-. rewrite Hfr1.
        rewrite nonempty_strlcpy. by apply Hfrom.
      - destruct (Hothers _ _ Hne Hc') as (c & Hcc & Hs1 & _ & Hs3).
        rewrite Hs1. eapply Hnamed; [done|congruence]. }
    destruct (conn_forward_ok st1 now id c1 msg) as (st' & Hfw); try done.
    + eapply same_queue_inv; [|done]. by eapply process_logon_msg_queue.
    + rewrite Hfr1, nonempty_strlcpy. by apply Hfrom.
    + exists st'. split; [done|]. apply conn_forward_same in Hfw.
      split; [by eapply same_logons_named|].
      intros id'. rewrite <- Hlive. by apply same_logons_live.
  - destruct (conn_forward_ok st now id conn msg) as (st' & Hfw); try done.
    { by eapply Hnamed. }
    exists st'. split; [done|]. apply conn_forward_same in Hfw.
    split; [by eapply same_logons_named|]. intros id'.
    by apply same_logons_live.
  - destruct (process_logon_msg_ok st id conn msg Hinv Hc) as (st1 & Hp).
    { intros ?. congruence. }
    rewrite Hp. cbn [rbind]. rewrite (Hfrom eq_refl) in Hp |- *. cbn [negb].
    destruct (process_logon_msg_inv _ _ _ _ _ Hinv Hp)
      as (Hinv1 & Hlive & _ & (c1 & Hc1 & Hf1 & Hfr1 & _) & Hothers).
    assert (Hn1 : logons_named st1).
    { intros id' c' Hc' Hf'. destruct (decide (id' = id)) as [->|Hne].
      - rewrite Hc1 in Hc'. injection Hc' as <-. rewrite Hfr1.
        rewrite nonempty_strlcpy. by apply Hfrom.
      - destruct (Hothers _ _ Hne Hc') as (c & Hcc & Hs1 & _ & Hs3).
        rewrite Hs1. eapply Hnamed; [done|congruence]. }
    destruct (conn_forward_ok st1 now id c1 msg) as (st' & Hfw); try done.
    + eapply same_queue_inv; [|done]. by eapply process_logon_msg_queue.
    + rewrite Hfr1, nonempty_strlcpy. by apply Hfrom.
    + exists st'. split; [done|]. apply conn_forward_same in Hfw.
      split; [by eapply same_logons_named|].
      intros id'. rewrite <- Hlive. by apply same_logons_live.
  - erewrite send_error_msg_eq by done. eexists. split; [done|].
    assert (Hs : same_logons st
              (outbuf_append st id
                 (cpdlc_msg_encode (error_msg (Some msg) "LOGON REQUIRED")))).
    { unfold outbuf_append. rewrite Hc. by apply set_outbuf_same_logons. }
    split; [by eapply same_logons_named|]. intros id'.
    by apply same_logons_live.
Qed.

Lemma conn_process_input_ok st now id msgs decoded :
  logon_inv st -> queue_inv st -> logons_named st ->
  is_Some (conns st !! id) ->
  Forall (fun msg => msg_is_logon msg = true ->
                     nonempty (cpdlc_msg_get_from msg) = true) msgs ->
  exists st',
    conn_process_input st now id msgs decoded = Ok (st', decoded) /\
    logon_inv st' /\ logons_named st' /\ is_Some (conns st' !! id).
Proof using encode_nonempty encode_fits_int sizeof_range.
  revert st. induction msgs as [|msg msgs IH];
    intros st Hinv Hq Hnamed Hlive Hfrom; simpl.
  - by exists st.
  - inversion Hfrom as [|? ? Hmsg Hrest]; subst.
    destruct (conn_process_msg_ok st now id msg Hinv Hq Hnamed Hlive Hmsg)
      as (st1 & Hp & Hn1 & Hl1).
    rewrite Hp. cbn [rbind]. apply IH; try done.
    + by eapply conn_process_msg_logon_inv.
    + by eapply conn_process_msg_inv.
    + by apply Hl1.
Qed.

(** A connection of the tree is closed without hitting an assertion. *)
Lemma close_conn_named st id :
  reachable st -> logons_named st -> is_Some (conns st !! id) ->
  exists st',
    close_conn st id = Ok st' /\ reachable st' /\ logons_named st' /\
    conns st' !! id = None.
Proof.
  intros Hreach Hnamed [c Hc].
  pose proof (reachable_logon_inv st Hreach) as Hinv.
  destruct (close_conn_ok st id c Hinv Hc) as (st2 & Hclose).
  { intros ?. by eapply Hnamed. }
  exists st2. split; [done|].
  split; [by apply (reachable_step st 0 (EvClose id))|].
  destruct (close_conn_inv _ _ _ Hinv Hclose) as (_ & Heq & _).
  split; [|by rewrite Heq, lookup_delete_eq].
  intros id' c' Hc' Hf. rewrite Heq in Hc'.
  apply lookup_delete_Some in Hc' as [_ Hc']. by eapply Hnamed.
Qed.

(** A round of [handle_conn_input] on a connection of the tree. *)
Lemma handle_conn_input_ok st now id msgs decoded :
  reachable st -> logons_named st -> is_Some (conns st !! id) ->
  Forall (fun msg => msg_is_logon msg = true ->
                     nonempty (cpdlc_msg_get_from msg) = true) msgs ->
  exists st',
    handle_conn_input st now id msgs decoded = Ok (st', decoded) /\
    reachable st' /\ logons_named st' /\
    if decoded then is_Some (conns st' !! id) else conns st' !! id = None.
Proof using encode_nonempty encode_fits_int sizeof_range.
  intros Hreach Hnamed Hlive Hfrom.
  pose proof (reachable_logon_inv st Hreach) as Hinv.
  pose proof (reachable_queue_inv st Hreach) as Hq.
  assert (Hstep : forall st', handle_conn_input st now id msgs decoded
                              = Ok (st', decoded) -> reachable st').
  { intros st' Hh. apply (reachable_step st now (EvInput id msgs decoded));
      [done|]. simpl. by rewrite Hh. }
  revert Hstep. unfold handle_conn_input.
  destruct (conn_process_input_ok st now id msgs decoded Hinv Hq Hnamed
              Hlive Hfrom) as (st1 & -> & Hinv1 & Hn1 & [c1 Hc1]).
  cbn [rbind]. destruct decoded; cbn [negb rbind]; intros Hstep.
  - exists st1. split; [done|]. split; [by apply Hstep|]. by split.
  - destruct (close_conn_ok st1 id c1 Hinv1 Hc1) as (st2 & Hclose).
    { intros ?. by eapply Hn1. }
    revert Hstep. rewrite Hclose. cbn [rbind]. intros Hstep.
    exists st2. split; [done|]. split; [by apply Hstep|].
    destruct (close_conn_inv _ _ _ Hinv1 Hclose) as (_ & Heq & _).
    split; [|by rewrite Heq, lookup_delete_eq].
    intros id' c' Hc' Hf. rewrite Heq in Hc'.
    apply lookup_delete_Some in Hc' as [_ Hc']. by eapply Hn1.
Qed.

(** A call of [handle_conn_input] on a connection of the tree. *)
Lemma handle_conn_input_loop_ok st now id rounds e :
  reachable st -> logons_named st -> is_Some (conns st !! id) ->
  input_has_from (Some (rounds, e)) ->
  exists st',
    handle_conn_input_loop st now id rounds e
      = Ok (st', negb (input_closes (Some (rounds, e)))) /\
    reachable st' /\ logons_named st' /\
    if input_closes (Some (rounds, e)) then conns st' !! id = None
    else is_Some (conns st' !! id).
Proof using encode_nonempty encode_fits_int sizeof_range.
  revert st. induction rounds as [|msgs rounds IH];
    intros st Hreach Hnamed Hlive Hfrom; simpl in Hfrom.
  - destruct e as [|msgs|]; simpl.
    + by exists st.
    + destruct (handle_conn_input_ok st now id msgs false Hreach Hnamed
                  Hlive Hfrom) as (st' & Hh & Hr & Hn & Hgone).
      by exists st'.
    + destruct (close_conn_named st id Hreach Hnamed Hlive)
        as (st' & -> & Hr & Hn & Hgone).
      by exists st'.
  - rewrite <- app_assoc in Hfrom. apply Forall_app in Hfrom as [Hm Hrest].
    destruct (handle_conn_input_ok st now id msgs true Hreach Hnamed
                Hlive Hm) as (st1 & Hh & Hr1 & Hn1 & Hl1).
    destruct (IH st1 Hr1 Hn1 Hl1 Hrest) as (st' & Hloop & Hrest').
    exists st'. split; [|exact Hrest'].
    cbn [handle_conn_input_loop]. rewrite Hh. cbn [rbind negb].
    exact Hloop.
Qed.

(** A call of [handle_conn_output] on a connection with bytes waiting. *)
Lemma handle_conn_output_ok st id r conn :
  reachable st -> logons_named st ->
  conns st !! id = Some conn -> is_Some (c_outbuf conn) ->
  exists st' ok,
    handle_conn_output st id r = Ok (st', ok) /\
    reachable st' /\ logons_named st'.
Proof.
  intros Hreach Hnamed Hc [outbuf Hout].
  assert (Hex : exists st' ok, handle_conn_output st id r = Ok (st', ok) /\
                               logons_named st').
  { destruct (close_conn_named st id Hreach Hnamed)
      as (st2 & Hclose & _ & Hn2 & _); [by eexists|].
    unfold handle_conn_output, conn_at. rewrite Hc. cbn [rbind].
    rewrite Hout. destruct r as [bytes| | |]; cbv beta iota.
    - destruct (0 <? bytes).
      + eexists _, _. split; [reflexivity|].
        eapply same_logons_named; [|exact Hnamed].
        by apply set_outbuf_same_logons.
      + by exists st, true.
    - by exists st, true.
    - by exists st, true.
    - rewrite Hclose. cbn [rbind]. by exists st2, false. }
  destruct Hex as (st' & ok & Ho & Hn). exists st', ok.
  split; [done|]. split; [|done].
  apply (reachable_step st 0 (EvOutput id r)); [done|]. simpl. by rewrite Ho.
Qed.

(** X19. The daemon hits no assertion as long as every logon carries a
    FROM header, but [poll_sockets] follows a connection it has freed.
    In a state the daemon reached in which every complete logon has a
    callsign: (a) a handler that is called as it asks to be (input,
    closing and output for a connection of the tree, output for one
    with bytes waiting) on messages whose logons all have a FROM header
    returns, and every complete logon has a callsign afterwards too;
    (b) the body of the loop of [poll_sockets], run for a connection of
    the tree on such messages, returns in a state the daemon reaches
    when the input does not close the connection, whatever the send
    returns; and when the input closes the connection (it does not
    decode, or ends the connection otherwise), the body goes on to read
    [conn->outbuf] through the handle that [close_conn] has freed. *)
Theorem step_hits_no_assertion st now :
  reachable st -> logons_named st ->
  (forall e,
     event_ready st e -> logons_have_from e ->
     exists st', step st now e = Ok st' /\ reachable st' /\
                 logons_named st') /\
  (forall id pollin pollout,
     is_Some (conns st !! id) -> input_has_from pollin ->
     if input_closes pollin
     then poll_conn st now id pollin pollout = Abort BadPointer
     else exists st', poll_conn st now id pollin pollout = Ok st' /\
                      reachable st' /\ logons_named st').
Proof using encode_nonempty encode_fits_int sizeof_range.
  intros Hreach Hnamed. split.
  - intros e Hready Hfrom.
    assert (Hex : exists st', step st now e = Ok st' /\ logons_named st').
    { destruct e as [id|id msgs decoded|id|id r|]; simpl in *.
      - eexists. split; [done|]. unfold handle_accept.
        destruct (conns st !! id) as [c|] eqn:Hc; [done|].
        intros id' c' Hc' Hf. simpl in Hc'.
        apply lookup_insert_Some in Hc' as [[<- <-]|[_ Hc']]; [done|].
        by eapply Hnamed.
      - destruct (handle_conn_input_ok st now id msgs decoded Hreach Hnamed
                    Hready Hfrom) as (st' & -> & _ & Hn & _).
        by exists st'.
      - destruct (close_conn_named st id Hreach Hnamed Hready)
          as (st' & Hclose & _ & Hn & _).
        by exists st'.
      - destruct Hready as (c & Hc & Hout).
        destruct (handle_conn_output_ok st id r c Hreach Hnamed Hc Hout)
          as (st' & ok & -> & _ & Hn).
        by exists st'.
      - pose proof (reachable_logon_inv st Hreach) as Hinv.
        pose proof (reachable_queue_inv st Hreach) as Hq.
        destruct (handle_queued_loop_eq st now (queued_msgs st) st [])
          as (st' & Hl & _); try done.
        { by apply reachable_queue_texts. }
        exists st'. split; [exact Hl|].
        eapply same_logons_named; [|done].
        by eapply handle_queued_loop_same. }
    destruct Hex as (st' & Hs & Hn). exists st'. split; [done|].
    split; [by eapply reachable_step|done].
  - intros id pollin pollout Hlive Hfrom.
    assert (Hout : forall st1,
              reachable st1 -> logons_named st1 ->
              is_Some (conns st1 !! id) ->
              exists st',
                (do conn <- conn_at st1 id;
                 match c_outbuf conn, pollout with
                 | Some _, Some r =>
                     do (st, _) <- handle_conn_output st1 id r; Ok st
                 | _, _ => Ok st1
                 end) = Ok st' /\ reachable st' /\ logons_named st').
    { intros st1 Hr1 Hn1 [c Hc]. unfold conn_at. rewrite Hc. cbn [rbind].
      destruct (c_outbuf c) as [outbuf|] eqn:Ho; [|by exists st1].
      destruct pollout as [r|]; [|by exists st1].
      destruct (handle_conn_output_ok st1 id r c Hr1 Hn1 Hc)
        as (st' & ok & -> & Hr & Hn); [by rewrite Ho|].
      by exists st'. }
    destruct pollin as [[rounds e]|].
    + destruct (handle_conn_input_loop_ok st now id rounds e Hreach Hnamed
                  Hlive Hfrom) as (st1 & Hloop & Hr1 & Hn1 & Hafter).
      destruct (input_closes (Some (rounds, e))) eqn:Hcl.
      * unfold poll_conn. rewrite Hloop. cbn [rbind].
        unfold conn_at. by rewrite Hafter.
      * destruct (Hout st1 Hr1 Hn1 Hafter) as (st' & Ho & Hr & Hn).
        exists st'. split; [|done].
        unfold poll_conn. rewrite Hloop. cbn [rbind]. exact Ho.
    + simpl. destruct (Hout st Hreach Hnamed Hlive) as (st' & Ho & Hr & Hn).
      destruct pollout as [r|]; [by exists st'|by exists st].
Qed.

(** ** Out-buffers *)

Lemma append_cons a s1 s2 :
  String.append (String a s1) s2 = String a (String.append s1 s2).
Proof. reflexivity. Qed.

Lemma append_nil_r s : String.append s EmptyString = s.
Proof. induction s as [|a s IH]; [done|]. by rewrite append_cons, IH. Qed.

Lemma append_assoc s1 s2 s3 :
  String.append (String.append s1 s2) s3
  = String.append s1 (String.append s2 s3).
Proof.
  induction s1 as [|a s1 IH]; [done|]. by rewrite !append_cons, IH.
Qed.

Lemma substring_split s (n : nat) :
  (n <= String.length s)%nat ->
  String.append (substring 0 n s) (substring n (String.length s - n) s) = s.
Proof.
  revert n. induction s as [|a s IH]; intros [|n] Hn; simpl in *;
    try reflexivity; try lia.
  - change (String a (substring 0 (String.length s) s) = String a s).
    f_equal. apply substring_all. lia.
  - rewrite append_cons. f_equal. apply IH. lia.
Qed.

Lemma outbufs_grow_refl st : outbufs_grow st st.
Proof.
  intros id c Hc. exists c, EmptyString. by rewrite append_nil_r.
Qed.

Lemma outbufs_grow_trans st1 st2 st3 :
  outbufs_grow st1 st2 -> outbufs_grow st2 st3 -> outbufs_grow st1 st3.
Proof.
  intros H1 H2 id c Hc.
  destruct (H1 _ _ Hc) as (c2 & more2 & Hc2 & Ht2).
  destruct (H2 _ _ Hc2) as (c3 & more3 & Hc3 & Ht3).
  exists c3, (String.append more2 more3). split; [done|].
  by rewrite Ht3, Ht2, append_assoc.
Qed.

Lemma same_conns_grow st st' : conns st' = conns st -> outbufs_grow st st'.
Proof.
  intros Heq id c Hc. exists c, EmptyString. rewrite Heq.
  by rewrite append_nil_r.
Qed.

Lemma conn_send_buf_grows st id buf buflen st' :
  conn_send_buf st id buf buflen = Ok st' -> outbufs_grow st st'.
Proof.
  unfold conn_send_buf. intros Hs. bind_inv Hs as conn Hconn. bind_inv Hs.
  injection Hs as <-. unfold conn_at in Hconn.
  destruct (conns st !! id) as [c|] eqn:Hc; [|discriminate].
  injection Hconn as ->. intros id' c' Hc'. simpl.
  destruct (decide (id' = id)) as [->|Hne].
  - rewrite lookup_insert_eq. rewrite Hc in Hc'. injection Hc' as <-.
    by eexists _, _.
  - rewrite lookup_insert_ne by done. exists c', EmptyString.
    by rewrite append_nil_r.
Qed.

Lemma send_msg_all_grows st l msg st' :
  send_msg_all st l msg = Ok st' -> outbufs_grow st st'.
Proof.
  revert st. induction l as [|id l IH]; intros st Hs; simpl in Hs.
  - injection Hs as <-. apply outbufs_grow_refl.
  - bind_inv Hs as st1 H1. eapply outbufs_grow_trans; [|by eapply IH].
    by eapply conn_send_buf_grows.
Qed.

Lemma send_buf_all_grows st l buf buflen st' :
  send_buf_all st l buf buflen = Ok st' -> outbufs_grow st st'.
Proof.
  revert st. induction l as [|id l IH]; intros st Hs; simpl in Hs.
  - injection Hs as <-. apply outbufs_grow_refl.
  - bind_inv Hs as st1 H1. eapply outbufs_grow_trans; [|by eapply IH].
    by eapply conn_send_buf_grows.
Qed.

Lemma dequeue_msg_grows st i st' :
  dequeue_msg st i = Ok st' -> outbufs_grow st st'.
Proof.
  unfold dequeue_msg. intros Hd.
  destruct (queued_msgs st !! i) as [q|]; [|discriminate].
  bind_inv Hd. bind_inv Hd. injection Hd as <-. by apply same_conns_grow.
Qed.

Lemma conn_forward_grows st now id msg st' :
  conn_forward st now id msg = Ok st' -> outbufs_grow st st'.
Proof.
  unfold conn_forward. intros Hf. bind_inv Hf as conn Hconn. cbv zeta in Hf.
  destruct (if nonempty (msg_to msg) then _ else _) as [to|];
    [|by eapply conn_send_buf_grows].
  bind_inv Hf.
  assert (Hstore : outbufs_grow st
            (fst (store_msg st now (cpdlc_msg_set_from msg (c_from conn)) to))).
  { unfold store_msg. cbv zeta. destruct (_ <? _); simpl;
      by apply same_conns_grow. }
  destruct (htbl_lookup_multi _ _) as [[|tgt l]|];
    try (by eapply send_msg_all_grows);
    destruct (store_msg _ _ _ _) as [st1 stored]; simpl in Hstore;
    (destruct stored; simpl in Hf;
     [by injection Hf as <-
     |eapply outbufs_grow_trans; [exact Hstore|by eapply conn_send_buf_grows]]).
Qed.

Lemma handle_queued_loop_grows st now pending i st' :
  handle_queued_loop st now pending i = Ok st' -> outbufs_grow st st'.
Proof.
  revert st i. induction pending as [|q next IH]; intros st i Hl;
    cbn [handle_queued_loop] in Hl.
  - injection Hl as <-. apply outbufs_grow_refl.
  - assert (Hdq : forall st1,
              (do st2 <- dequeue_msg st1 i; handle_queued_loop st2 now next i)
                = Ok st' -> outbufs_grow st1 st').
    { intros st1 Hd. bind_inv Hd as st2 H2.
      eapply outbufs_grow_trans; [by eapply dequeue_msg_grows|by eapply IH]. }
    destruct (htbl_lookup_multi _ _) as [[|tgt l]|].
    + destruct (_ <? _); [by apply Hdq|by eapply IH].
    + bind_inv Hl as st1 H1. eapply outbufs_grow_trans; [|by apply Hdq].
      by eapply send_buf_all_grows.
    + destruct (_ <? _); [by apply Hdq|by eapply IH].
Qed.

Lemma conn_remove_from_conns st id st' :
  conn_remove_from st id = Ok st' ->
  exists conn, conns st !! id = Some conn /\
    conns st' = <[id := {| c_from := EmptyString; c_to := c_to conn;
                           c_logon_complete := false;
                           c_outbuf := c_outbuf conn |}]> (conns st).
Proof.
  intros Hr. unfold conn_remove_from in Hr. bind_inv Hr as conn Hconn.
  bind_inv Hr. bind_inv Hr. injection Hr as <-. unfold conn_at in Hconn.
  destruct (conns st !! id) as [c|] eqn:Hc; [|discriminate].
  injection Hconn as ->. by exists conn.
Qed.

Lemma conn_remove_from_grows st id st' :
  conn_remove_from st id = Ok st' -> outbufs_grow st st'.
Proof.
  intros Hr. apply conn_remove_from_conns in Hr as (conn & Hc & Heq).
  intros id' c' Hc'. rewrite Heq.
  destruct (decide (id' = id)) as [->|Hne].
  - rewrite lookup_insert_eq. rewrite Hc in Hc'. injection Hc' as <-.
    eexists _, EmptyString. split; [done|]. by rewrite append_nil_r.
  - rewrite lookup_insert_ne by done. exists c', EmptyString.
    by rewrite append_nil_r.
Qed.

Lemma process_logon_msg_grows st id msg st' ok :
  process_logon_msg st id msg = Ok (st', ok) -> outbufs_grow st st'.
Proof.
  intros Hp. unfold process_logon_msg in Hp.
  bind_inv Hp as conn0 Hconn0. bind_inv Hp as st1 Hrem.
  bind_inv Hp as conn Hconn. cbv zeta in Hp. unfold conn_at in Hconn.
  destruct (conns st1 !! id) as [c1|] eqn:Hc1; [|discriminate].
  injection Hconn as ->.
  assert (H1 : outbufs_grow st st1).
  { destruct (c_logon_complete conn0).
    - by eapply conn_remove_from_grows.
    - injection Hrem as <-. apply outbufs_grow_refl. }
  set (st2 := set_conns st1 _) in *.
  assert (H2 : outbufs_grow st1 st2).
  { intros id' c' Hc'. unfold st2. simpl.
    destruct (decide (id' = id)) as [->|Hne].
    - rewrite lookup_insert_eq. rewrite Hc1 in Hc'. injection Hc' as <-.
      eexists _, EmptyString. split; [done|]. by rewrite append_nil_r.
    - rewrite lookup_insert_ne by done. exists c', EmptyString.
      by rewrite append_nil_r. }
  destruct (negb _).
  - bind_inv Hp as st3 Hsend. injection Hp as <- <-.
    eapply outbufs_grow_trans; [exact H1|].
    eapply outbufs_grow_trans; [exact H2|]. by eapply conn_send_buf_grows.
  - injection Hp as <- <-. eapply outbufs_grow_trans; [exact H1|].
    eapply outbufs_grow_trans; [exact H2|]. by apply same_conns_grow.
Qed.

Lemma conn_process_msg_grows st now id msg st' :
  conn_process_msg st now id msg = Ok st' -> outbufs_grow st st'.
Proof.
  intros Hp. unfold conn_process_msg in Hp. bind_inv Hp as conn Hconn.
  destruct (negb (c_logon_complete conn) && negb (msg_is_logon msg)).
  { by eapply conn_send_buf_grows. }
  bind_inv Hp as [st1 ok] Hlog.
  assert (H1 : outbufs_grow st st1).
  { destruct (msg_is_logon msg).
    - by eapply process_logon_msg_grows.
    - injection Hlog as <- <-. apply outbufs_grow_refl. }
  destruct ok; simpl in Hp; [|by injection Hp as <-].
  eapply outbufs_grow_trans; [exact H1|]. by eapply conn_forward_grows.
Qed.

Lemma conn_process_input_grows st now id msgs decoded st' ok :
  conn_process_input st now id msgs decoded = Ok (st', ok) ->
  outbufs_grow st st' /\ ok = decoded.
Proof.
  revert st. induction msgs as [|msg msgs IH]; intros st Hp; simpl in Hp.
  - injection Hp as <- <-. split; [apply outbufs_grow_refl|done].
  - bind_inv Hp as st1 H1. destruct (IH _ Hp) as [Hg ->]. split; [|done].
    eapply outbufs_grow_trans; [|exact Hg]. by eapply conn_process_msg_grows.
Qed.

Lemma close_conn_conns st id st' :
  close_conn st id = Ok st' -> conns st' = delete id (conns st).
Proof.
  intros Hc. unfold close_conn in Hc. bind_inv Hc as conn Hconn.
  bind_inv Hc as st1 Hrem. injection Hc as <-. simpl.
  destruct (c_logon_complete conn).
  - apply conn_remove_from_conns in Hrem as (c & _ & ->).
    apply delete_insert_eq.
  - by injection Hrem as <-.
Qed.

(** X20. An out-buffer is a queue of bytes. Whatever the daemon does,
    short of writing the out-buffer of a connection to its socket, the
    bytes waiting for the connection stay where they are and in their
    order, further ones being put behind them; short of that write, the
    connection leaves the tree only when it is closed, by [close_conn]
    or because its input did not decode. As for the write:
    [handle_conn_output] takes the bytes that were sent from the front
    of the buffer, leaves the rest, and frees the buffer when nothing is
    left; it changes nothing when no byte was sent, on [GNUTLS_E_AGAIN]
    and on an error that is not fatal; and on a fatal error it closes
    the connection, which leaves the tree with the bytes that were
    waiting. *)
Theorem outbuf_is_a_queue st now e st' id c :
  step st now e = Ok st' ->
  conns st !! id = Some c ->
  ((forall r, e <> EvOutput id r) ->
   (exists c' more,
      conns st' !! id = Some c' /\
      outbuf_text c' = String.append (outbuf_text c) more) \/
   (conns st' !! id = None /\
    (e = EvClose id \/ exists msgs, e = EvInput id msgs false))) /\
  (forall bytes, e = EvOutput id (SendOk bytes) ->
   exists c',
     conns st' !! id = Some c' /\ same_logon c c' /\
     outbuf_text c =
       String.append (substring 0 (Z.to_nat bytes) (outbuf_text c))
                     (outbuf_text c') /\
     (0 < bytes -> strlen (outbuf_text c) <= bytes -> c_outbuf c' = None) /\
     (bytes <= 0 -> c' = c)) /\
  (e = EvOutput id SendAgain \/ e = EvOutput id SendSoftError -> st' = st) /\
  (e = EvOutput id SendFatalError ->
   close_conn st id = Ok st' /\ conns st' !! id = None).
Proof.
  intros Hs Hc. split; [|split; [|split]].
  - intros Hne.
    destruct e as [id0|id0 msgs decoded|id0|id0 r|]; simpl in Hs.
    + injection Hs as <-. left. unfold handle_accept.
      destruct (conns st !! id0) as [c0|] eqn:Hc0.
      * exists c, EmptyString. by rewrite append_nil_r.
      * exists c, EmptyString. simpl. rewrite lookup_insert_ne by congruence.
        by rewrite append_nil_r.
    + bind_inv Hs as [st1 ok] Hin. injection Hs as <-.
      unfold handle_conn_input in Hin. bind_inv Hin as [st2 ok2] Hp.
      apply conn_process_input_grows in Hp as [Hg ->].
      destruct (Hg _ _ Hc) as (c2 & more & Hc2 & Ht).
      destruct decoded; simpl in Hin.
      * injection Hin as <- <-. left. by exists c2, more.
      * bind_inv Hin as st3 Hclose. injection Hin as <- <-.
        apply close_conn_conns in Hclose. rewrite Hclose.
        destruct (decide (id = id0)) as [->|Hneq].
        -- right. rewrite lookup_delete_eq. split; [done|]. right.
           by exists msgs.
        -- left. rewrite lookup_delete_ne by done. by exists c2, more.
    + apply close_conn_conns in Hs. rewrite Hs.
      destruct (decide (id = id0)) as [->|Hneq].
      * right. rewrite lookup_delete_eq. split; [done|]. by left.
      * left. rewrite lookup_delete_ne by done. exists c, EmptyString.
        by rewrite append_nil_r.
    + left. bind_inv Hs as [st1 ok] Ho. injection Hs as <-.
      assert (Hid : id0 <> id) by (intros <-; by apply (Hne r)).
      exists c, EmptyString. rewrite append_nil_r. split; [|done].
      apply handle_conn_output_Ok in Ho
        as [(_ & _ & Hclose)
           |(_ & _ & conn & outbuf & _ & _ & [->|[rest ->]])]; [|done|].
      * apply close_conn_conns in Hclose. rewrite Hclose.
        by rewrite lookup_delete_ne.
      * simpl. by rewrite lookup_insert_ne.
    + left. apply handle_queued_loop_grows in Hs. by apply Hs.
  - intros bytes ->. simpl in Hs. unfold handle_conn_output, conn_at in Hs.
    rewrite Hc in Hs. cbn [rbind] in Hs.
    destruct (c_outbuf c) as [outbuf|] eqn:Hout; [|discriminate].
    assert (Htext : outbuf_text c = outbuf)
      by (unfold outbuf_text; by rewrite Hout).
    rewrite Htext.
    destruct (0 <? bytes) eqn:Hpos.
    + apply Z.ltb_lt in Hpos. cbn [rbind] in Hs. injection Hs as <-. simpl.
      rewrite lookup_insert_eq. eexists. split; [done|].
      split; [by repeat split|]. unfold outbuf_text. simpl.
      destruct (bytes <? strlen outbuf) eqn:Hlt.
      * apply Z.ltb_lt in Hlt. simpl. split; [|split].
        -- symmetry. apply substring_split. unfold strlen in Hlt. lia.
        -- intros _ Hle. lia.
        -- intros Hle. lia.
      * apply Z.ltb_ge in Hlt. simpl. split; [|split; [done|lia]].
        rewrite append_nil_r. symmetry. apply substring_all.
        unfold strlen in Hlt. lia.
    + apply Z.ltb_ge in Hpos. cbn [rbind] in Hs. injection Hs as <-. exists c.
      split; [done|]. split; [by repeat split|]. split; [|split; [lia|done]].
      replace (Z.to_nat bytes) with 0%nat by lia.
      rewrite Htext. by destruct outbuf.
  - intros He. simpl in Hs.
    assert (Ho : exists ok r,
                   (r = SendAgain \/ r = SendSoftError) /\
                   handle_conn_output st id r = Ok (st', ok)).
    { destruct He as [->| ->]; simpl in Hs.
      - bind_inv Hs as [st1 ok] Ho. injection Hs as <-.
        exists ok, SendAgain. auto.
      - bind_inv Hs as [st1 ok] Ho. injection Hs as <-.
        exists ok, SendSoftError. auto. }
    destruct Ho as (ok & r & Hr & Ho).
    unfold handle_conn_output, conn_at in Ho. rewrite Hc in Ho.
    cbn [rbind] in Ho. destruct (c_outbuf c); [|discriminate].
    by destruct Hr as [-> | ->]; injection Ho as <- _.
  - intros ->. simpl in Hs. bind_inv Hs as [st1 ok] Ho. injection Hs as <-.
    apply handle_conn_output_Ok in Ho as [(_ & _ & Hclose)|(Hr & _)];
      [|done].
    split; [done|]. apply close_conn_conns in Hclose.
    by rewrite Hclose, lookup_delete_eq.
Qed.

(** ** Logging on and closing *)

Lemma listed_iff st key id :
  logon_inv st ->
  listed st key id <->
  exists conn, conns st !! id = Some conn /\ c_logon_complete conn = true /\
    c_from conn = key /\ nonempty key = true.
Proof.
  intros (Hsound & Hcomp & _). split.
  - intros (l & Hl & Hin). destruct (Hsound _ _ Hl) as [_ Hall].
    by apply Hall.
  - intros (conn & Hc & Hf & <- & Hn). by eapply Hcomp.
Qed.

Lemma no_empty_key st : logon_inv st -> conns_by_from st !! EmptyString = None.
Proof.
  intros (Hsound & _ & _ & Hne).
  destruct (conns_by_from st !! EmptyString) as [l|] eqn:Hl; [|done].
  destruct l as [|x l]; [by destruct (Hne _ _ Hl)|].
  destruct (Hsound _ _ Hl) as [_ Hall].
  destruct (Hall x) as (c & _ & _ & _ & Hn); [left|discriminate].
Qed.

(** X21. Closing a connection takes it out of the tree and out of the
    index, and touches nothing else. In a state the daemon reached,
    [close_conn] on a connection of the tree returns unless the logon of
    the connection is complete with an empty [from], in which case it
    ends on [ASSERT(l != NULL)] of [conn_remove_from]. When it returns,
    the connection is gone from the tree and is listed under no
    callsign, every other connection is as it was and listed where it
    was, and the queue is untouched. *)
Theorem close_conn_unregisters st id conn :
  reachable st ->
  conns st !! id = Some conn ->
  (c_logon_complete conn = true -> nonempty (c_from conn) = false ->
   close_conn st id = Abort AssertFailed) /\
  ((c_logon_complete conn = true -> nonempty (c_from conn) = true) ->
   exists st',
     close_conn st id = Ok st' /\
     conns st' = delete id (conns st) /\
     (forall key, ~ listed st' key id) /\
     (forall key id', id' <> id -> listed st' key id' <-> listed st key id') /\
     queued_msgs st' = queued_msgs st /\
     queued_msg_bytes st' = queued_msg_bytes st).
Proof.
  intros Hreach Hc. pose proof (reachable_logon_inv st Hreach) as Hinv.
  split.
  - intros Hflag Hfrom. apply nonempty_false in Hfrom.
    unfold close_conn, conn_at. rewrite Hc. cbn [rbind]. rewrite Hflag.
    unfold conn_remove_from, conn_at, htbl_lookup_multi. rewrite Hc.
    cbn [rbind]. rewrite Hflag, Hfrom. cbn [ASSERT rbind].
    by rewrite (no_empty_key st Hinv).
  - intros Hnamed.
    destruct (close_conn_ok st id conn Hinv Hc Hnamed) as (st' & Hclose).
    exists st'. split; [exact Hclose|].
    destruct (close_conn_inv _ _ _ Hinv Hclose) as (Hinv' & Heq & Hun).
    split; [exact Heq|]. split; [|split].
    + intros key (l & Hl & Hin). by apply (Hun _ _ Hl).
    + intros key id' Hne. rewrite !listed_iff by done. rewrite Heq.
      by rewrite lookup_delete_ne.
    + by apply close_conn_queue in Hclose as [? ?].
Qed.

(** X22. A logon registers the connection under its callsign, and a
    further logon moves it. In a state the daemon reached, a logon
    message with a FROM header on a connection of the tree (whose
    earlier logon, if any, had one too) is accepted: the connection
    gets the first 15 characters of the FROM and TO headers as its
    [from] and [to], keeps its out-buffer, and from then on is listed
    under the new [from] and under no other callsign; every other
    connection is as it was and listed where it was, and the queue is
    untouched. *)
Theorem logon_registers st id conn msg :
  reachable st ->
  conns st !! id = Some conn ->
  (c_logon_complete conn = true -> nonempty (c_from conn) = true) ->
  nonempty (cpdlc_msg_get_from msg) = true ->
  exists st',
    process_logon_msg st id msg = Ok (st', true) /\
    conns st' =
      <[id := {| c_from := lacf_strlcpy (cpdlc_msg_get_from msg) CALLSIGN_LEN;
                 c_to := lacf_strlcpy (cpdlc_msg_get_to msg) CALLSIGN_LEN;
                 c_logon_complete := true;
                 c_outbuf := c_outbuf conn |}]> (conns st) /\
    (forall key,
       listed st' key id <->
       key = lacf_strlcpy (cpdlc_msg_get_from msg) CALLSIGN_LEN) /\
    (forall key id', id' <> id -> listed st' key id' <-> listed st key id') /\
    queued_msgs st' = queued_msgs st /\
    queued_msg_bytes st' = queued_msg_bytes st.
Proof using encode_nonempty encode_fits_int.
  intros Hreach Hc Hnamed Hfrom.
  pose proof (reachable_logon_inv st Hreach) as Hinv.
  destruct (process_logon_msg_ok st id conn msg Hinv Hc Hnamed) as (st' & Hp).
  rewrite Hfrom in Hp. exists st'. split; [exact Hp|].
  destruct (process_logon_msg_inv _ _ _ _ _ Hinv Hp) as (Hinv' & _).
  assert (Heq : conns st' =
            <[id := {| c_from := lacf_strlcpy (cpdlc_msg_get_from msg)
                                   CALLSIGN_LEN;
                       c_to := lacf_strlcpy (cpdlc_msg_get_to msg) CALLSIGN_LEN;
                       c_logon_complete := true;
                       c_outbuf := c_outbuf conn |}]> (conns st)).
  { pose proof Hp as Hp'. unfold process_logon_msg in Hp'.
    bind_inv Hp' as conn0 Hconn0. bind_inv Hp' as st1 Hrem.
    bind_inv Hp' as conn1 Hconn1. cbv zeta in Hp'.
    unfold conn_at in Hconn0, Hconn1. rewrite Hc in Hconn0.
    injection Hconn0 as <-.
    destruct (conns st1 !! id) as [c1|] eqn:Hc1; [|discriminate].
    injection Hconn1 as <-.
    simpl c_from in Hp'. rewrite nonempty_strlcpy, Hfrom in Hp'.
    cbn [negb] in Hp'. injection Hp' as <-. simpl.
    destruct (c_logon_complete conn).
    - apply conn_remove_from_conns in Hrem as (c & Hc' & Heq).
      rewrite Hc in Hc'. injection Hc' as <-.
      rewrite Heq in Hc1 |- *. rewrite lookup_insert_eq in Hc1.
      injection Hc1 as <-. simpl. apply insert_insert_eq.
    - injection Hrem as <-. rewrite Hc in Hc1. by injection Hc1 as <-. }
  split; [exact Heq|]. split; [|split].
  - intros key. rewrite listed_iff by done. rewrite Heq, lookup_insert_eq.
    split.
    + by intros (c & [= <-] & _ & <- & _).
    + intros ->. eexists. split; [done|]. simpl.
      by rewrite nonempty_strlcpy.
  - intros key id' Hne. rewrite !listed_iff by done. rewrite Heq.
    by rewrite lookup_insert_ne.
  - by apply process_logon_msg_queue in Hp as [? ?].
Qed.

(** ** Callsigns fit their arrays *)

Lemma strlcpy_fits s : fits_callsign (lacf_strlcpy s CALLSIGN_LEN).
Proof.
  unfold fits_callsign, lacf_strlcpy. rewrite substring_length.
  unfold CALLSIGN_LEN. lia.
Qed.

Lemma same_logons_fit st st' :
  same_logons st st' -> same_queue st st' -> callsigns_fit st ->
  callsigns_fit st'.
Proof.
  intros Hs [Hq _] [Hc Hqueue]. split; [|by rewrite Hq].
  intros id c' Hl.
  destruct (same_logons_Some _ _ _ _ Hs Hl) as (c & Hcc & Hf & Ht & _).
  rewrite Hf, Ht. by eapply Hc.
Qed.

Lemma set_queue_fit st queue bytes :
  callsigns_fit st ->
  Forall (fun q => fits_callsign (q_from q) /\ fits_callsign (q_to q)) queue ->
  callsigns_fit (set_queue st queue bytes).
Proof. intros [Hc _] Hq. by split. Qed.

Lemma dequeue_msg_fit st i st' :
  callsigns_fit st -> dequeue_msg st i = Ok st' -> callsigns_fit st'.
Proof.
  unfold dequeue_msg. intros Hfit Hd.
  destruct (queued_msgs st !! i) as [q|]; [|discriminate].
  bind_inv Hd. bind_inv Hd. injection Hd as <-.
  apply set_queue_fit; [done|]. apply Forall_delete, Hfit.
Qed.

Lemma conn_forward_fit st now id msg st' :
  callsigns_fit st -> conn_forward st now id msg = Ok st' -> callsigns_fit st'.
Proof.
  intros Hfit Hf. pose proof Hf as Hsame. apply conn_forward_same in Hsame.
  unfold conn_forward in Hf. bind_inv Hf as conn Hconn. cbv zeta in Hf.
  destruct (if nonempty (msg_to msg) then _ else _) as [to|];
    [|eapply same_logons_fit; [done| |done];
      by eapply send_error_msg_queue].
  bind_inv Hf.
  assert (Hstore : callsigns_fit
            (fst (store_msg st now (cpdlc_msg_set_from msg (c_from conn)) to))).
  { unfold store_msg. cbv zeta. destruct (_ <? _); simpl; [done|].
    apply set_queue_fit; [done|]. apply Forall_app. split; [apply Hfit|].
    constructor; [|constructor]. simpl. split; apply strlcpy_fits. }
  destruct (htbl_lookup_multi _ _) as [[|tgt l]|];
    try (eapply same_logons_fit; [done| |done];
         by eapply send_msg_all_queue);
    destruct (store_msg _ _ _ _) as [st1 stored]; simpl in Hstore;
    (destruct stored; simpl in Hf;
     [by injection Hf as <-
     |eapply same_logons_fit; [by eapply conn_send_buf_same| |exact Hstore];
      by eapply send_error_msg_queue]).
Qed.

Lemma process_logon_msg_fit st id msg st' ok :
  logon_inv st -> callsigns_fit st ->
  process_logon_msg st id msg = Ok (st', ok) -> callsigns_fit st'.
Proof.
  intros Hinv [Hc Hq] Hp.
  destruct (process_logon_msg_inv _ _ _ _ _ Hinv Hp)
    as (_ & _ & _ & (c1 & Hc1 & _ & Hf1 & Ht1) & Hothers).
  apply process_logon_msg_queue in Hp as [Hq' _].
  split; [|by rewrite Hq'].
  intros id' c' Hl. destruct (decide (id' = id)) as [->|Hne].
  - rewrite Hc1 in Hl. injection Hl as <-. rewrite Hf1, Ht1.
    split; apply strlcpy_fits.
  - destruct (Hothers _ _ Hne Hl) as (c & Hcc & Hf & Ht & _).
    rewrite Hf, Ht. by eapply Hc.
Qed.

Lemma conn_process_msg_fit st now id msg st' :
  logon_inv st -> callsigns_fit st ->
  conn_process_msg st now id msg = Ok st' -> callsigns_fit st'.
Proof.
  intros Hinv Hfit Hp. unfold conn_process_msg in Hp.
  bind_inv Hp as conn Hconn.
  destruct (negb (c_logon_complete conn) && negb (msg_is_logon msg)).
  { eapply same_logons_fit; [by eapply conn_send_buf_same| |done].
    by eapply send_error_msg_queue. }
  bind_inv Hp as [st1 ok] Hlog.
  assert (H1 : callsigns_fit st1).
  { destruct (msg_is_logon msg).
    - by eapply process_logon_msg_fit.
    - by injection Hlog as <- <-. }
  destruct ok; simpl in Hp; [|by injection Hp as <-].
  by eapply conn_forward_fit.
Qed.

Lemma conn_process_input_fit st now id msgs decoded st' ok :
  logon_inv st -> callsigns_fit st ->
  conn_process_input st now id msgs decoded = Ok (st', ok) ->
  callsigns_fit st'.
Proof.
  revert st. induction msgs as [|msg msgs IH]; intros st Hinv Hfit Hp;
    simpl in Hp.
  - by injection Hp as <- <-.
  - bind_inv Hp as st1 H1. eapply IH; [| |exact Hp].
    + by eapply conn_process_msg_logon_inv.
    + by eapply conn_process_msg_fit.
Qed.

Lemma close_conn_fit st id st' :
  callsigns_fit st -> close_conn st id = Ok st' -> callsigns_fit st'.
Proof.
  intros [Hc Hq] Hclose. pose proof (close_conn_conns _ _ _ Hclose) as Heq.
  apply close_conn_queue in Hclose as [Hq' _]. split; [|by rewrite Hq'].
  intros id' c' Hl. rewrite Heq in Hl.
  apply lookup_delete_Some in Hl as [_ Hl]. by eapply Hc.
Qed.

Lemma handle_queued_loop_fit st now pending i st' :
  callsigns_fit st -> handle_queued_loop st now pending i = Ok st' ->
  callsigns_fit st'.
Proof.
  revert st i. induction pending as [|q next IH]; intros st i Hfit Hl;
    cbn [handle_queued_loop] in Hl.
  - by injection Hl as <-.
  - assert (Hdq : forall st1,
              callsigns_fit st1 ->
              (do st2 <- dequeue_msg st1 i; handle_queued_loop st2 now next i)
                = Ok st' -> callsigns_fit st').
    { intros st1 Hfit1 Hd. bind_inv Hd as st2 H2. eapply IH; [|exact Hd].
      by eapply dequeue_msg_fit. }
    destruct (htbl_lookup_multi _ _) as [[|tgt l]|].
    + destruct (_ <? _); [by eapply Hdq|by eapply IH].
    + bind_inv Hl as st1 H1. eapply Hdq; [|exact Hl].
      eapply same_logons_fit; [by eapply send_buf_all_same| |done].
      by eapply send_buf_all_queue.
    + destruct (_ <? _); [by eapply Hdq|by eapply IH].
Qed.

Lemma step_fit st now e st' :
  logon_inv st -> callsigns_fit st -> step st now e = Ok st' ->
  callsigns_fit st'.
Proof.
  intros Hinv Hfit Hs.
  destruct e as [id|id msgs decoded|id|id r|]; simpl in Hs.
  - injection Hs as <-. unfold handle_accept.
    destruct (conns st !! id) as [c|] eqn:Hc; [done|].
    destruct Hfit as [Hc' Hq]. split; [|done]. intros id' c' Hl. simpl in Hl.
    apply lookup_insert_Some in Hl as [[<- <-]|[_ Hl]]; [|by eapply Hc'].
    simpl. unfold fits_callsign, CALLSIGN_LEN. simpl. lia.
  - bind_inv Hs as [st1 ok1] H1. injection Hs as <-.
    unfold handle_conn_input in H1. bind_inv H1 as [st2 ok2] H2.
    apply conn_process_input_fit in H2; [|done..].
    destruct ok2; simpl in H1.
    + by injection H1 as <- <-.
    + bind_inv H1 as st3 H3. injection H1 as <- <-.
      by eapply close_conn_fit.
  - by eapply close_conn_fit.
  - bind_inv Hs as [st1 ok1] Ho. injection Hs as <-.
    pose proof Ho as Ho'.
    apply handle_conn_output_Ok in Ho'
      as [(_ & _ & Hclose)
         |(Hr & _ & conn & outbuf & _ & _ & Hst)];
      [by eapply close_conn_fit|].
    eapply same_logons_fit; [by eapply handle_conn_output_same| |done].
    by destruct Hst as [->|[rest ->]].
  - by eapply handle_queued_loop_fit.
Qed.

(** X23. Callsigns fit their arrays. In every state the daemon reaches,
    the [from] and the [to] of every connection and of every queue
    entry have at most [CALLSIGN_LEN - 1] = 15 characters, and so has
    every callsign a connection is listed under: a longer FROM or TO
    header is cut to its first 15 characters wherever it is stored. *)
Theorem callsigns_are_cut_to_fit st :
  reachable st ->
  (forall id conn, conns st !! id = Some conn ->
     (String.length (c_from conn) <= 15)%nat /\
     (String.length (c_to conn) <= 15)%nat) /\
  Forall (fun q => (String.length (q_from q) <= 15)%nat /\
                   (String.length (q_to q) <= 15)%nat) (queued_msgs st) /\
  (forall key id, listed st key id -> (String.length key <= 15)%nat).
Proof.
  intros Hreach.
  assert (Hfit : callsigns_fit st).
  { induction Hreach as [|st now e st' Hreach IH Hs].
    - split; [|constructor]. intros id c Hl. simpl in Hl.
      by rewrite lookup_empty in Hl.
    - eapply step_fit; [|done..]. by apply reachable_logon_inv. }
  destruct Hfit as [Hc Hq]. unfold fits_callsign, CALLSIGN_LEN in *.
  split; [|split].
  - intros id c Hl. destruct (Hc _ _ Hl). lia.
  - eapply Forall_impl; [exact Hq|]. simpl. intros q [? ?]. lia.
  - intros key id Hl.
    apply listed_iff in Hl as (c & Hcc & _ & <- & _);
      [|by apply reachable_logon_inv].
    destruct (Hc _ _ Hcc). lia.
Qed.


End Facts.

(** ** The properties on runs of the daemon *)

Section Runs.
#[local] Existing Instance line_codec.
#[local] Existing Instance plain_catalog.

Lemma append_length s1 s2 :
  String.length (String.append s1 s2) = (String.length s1 + String.length s2)%nat.
Proof. induction s1 as [|a s1 IH]; simpl; [reflexivity|]. by rewrite IH. Qed.

Lemma line_encode_nonempty msg : 0 < strlen (cpdlc_msg_encode msg).
Proof.
  unfold strlen. simpl. unfold line_encode.
  rewrite append_length, substring_length. simpl String.length. lia.
Qed.

Lemma line_encode_fits_int msg :
  strlen (cpdlc_msg_encode msg) <= 2147483647.
Proof.
  unfold strlen. simpl. unfold line_encode.
  rewrite append_length, substring_length. simpl String.length. lia.
Qed.

Lemma line_sizeof_range : 0 <= sizeof_queued_msg < 2 ^ 32.
Proof. by vm_compute. Qed.

Lemma daemon_run_reachable st events st' :
  reachable st -> run st events = Ok st' -> reachable st'.
Proof.
  revert st. induction events as [|[now e] events IH]; intros st Hreach Hrun;
    simpl in Hrun.
  - by injection Hrun as <-.
  - bind_inv Hrun as st1 Hstep. eapply IH; [|exact Hrun].
    by eapply reachable_step.
Qed.

Lemma daemon_run_state_reachable events st :
  run init_structs events = Ok st ->
  reachable (state_of (run init_structs events)).
Proof.
  intros Hrun. rewrite Hrun. simpl.
  eapply daemon_run_reachable; [apply reachable_init|exact Hrun].
Qed.

Lemma three_logged_on_reachable : reachable (state_of three_logged_on).
Proof.
  unfold three_logged_on. eapply daemon_run_state_reachable.
  vm_compute. reflexivity.
Qed.

Lemma queued_for_absent_reachable : reachable (state_of queued_for_absent).
Proof.
  unfold queued_for_absent. eapply daemon_run_state_reachable.
  vm_compute. reflexivity.
Qed.

(** C6 fails on the code. A connection is accepted and sends a logon
    without FROM: the run returns, the connection is left with its logon
    flag set and an empty [from], and the callsign index is empty. The
    code then trips over its own assertions: a message of this
    connection fails [ASSERT(conn->from[0] != '\0')] in
    [conn_process_msg], and closing it fails [ASSERT(l != NULL)] in
    [conn_remove_from]. *)
Theorem logon_without_from_sets_flag :
  exists conn,
    logon_without_from = Ok (state_of logon_without_from) /\
    reachable (state_of logon_without_from) /\
    conns (state_of logon_without_from) !! 1%nat = Some conn /\
    c_logon_complete conn = true /\
    c_from conn = EmptyString /\
    conns_by_from (state_of logon_without_from) = ∅ /\
    step (state_of logon_without_from) 20
      (EvInput 1%nat [text_msg "ATC1" "HELLO"] true) = Abort AssertFailed /\
    step (state_of logon_without_from) 20 (EvClose 1%nat) = Abort AssertFailed.
Proof.
  eexists. split; [vm_compute; reflexivity|]. split.
  { unfold logon_without_from. eapply daemon_run_state_reachable.
    vm_compute. reflexivity. }
  repeat split; vm_compute; reflexivity.
Qed.



Lemma queue_bytes_accounting_witness :
  reachable (state_of queued_for_absent) /\
  length (queued_msgs (state_of queued_for_absent)) = 2%nat /\
  queued_msg_bytes (state_of queued_for_absent)
    = queue_bytes (queued_msgs (state_of queued_for_absent)) /\
  queued_msg_bytes (state_of queued_for_absent) = 169.
Proof.
  split; [exact queued_for_absent_reachable|]. split; [reflexivity|].
  split; [|reflexivity].
  apply (queue_bytes_accounting line_encode_fits_int line_sizeof_range
           (state_of queued_for_absent)).
  exact queued_for_absent_reachable.
Defined.



Lemma absent_logs_on_reachable : reachable (state_of absent_logs_on).
Proof.
  unfold absent_logs_on. eapply daemon_run_state_reachable.
  vm_compute. reflexivity.
Qed.

(** A check of [logons_named] that runs. *)
Lemma logons_named_check (st : daemon) :
  forallb (fun p => implb (c_logon_complete (snd p)) (nonempty (c_from (snd p))))
          (map_to_list (conns st)) = true ->
  logons_named st.
Proof.
  intros Hall id conn Hc Hflag.
  apply forallb_forall with (x := (id, conn)) in Hall.
  - simpl in Hall. by rewrite Hflag in Hall.
  - apply list_elem_of_In. by apply elem_of_map_to_list.
Qed.

Lemma callsign_index_is_exact_witness :
  exists conn,
    conns (state_of three_logged_on) !! 2%nat = Some conn /\
    c_logon_complete conn = true /\
    c_from conn = "ATC1"%string.
Proof.
  destruct (callsign_index_is_exact (state_of three_logged_on)
              three_logged_on_reachable) as (Hiff & _ & _).
  destruct (proj1 (Hiff "ATC1"%string 2%nat)) as (conn & Hc & Hf & Hfrom & _).
  - exists [2%nat; 1%nat]. split; [vm_compute; reflexivity|].
    apply list_elem_of_here.
  - by exists conn.
Defined.

Lemma queue_walk_delivers_or_expires_witness :
  exists st',
    handle_queued_msgs (state_of absent_logs_on) 30 = Ok st' /\
    queued_msgs st' = [].
Proof.
  destruct (queue_walk_delivers_or_expires line_encode_nonempty
              line_encode_fits_int line_sizeof_range
              (state_of absent_logs_on) 30 absent_logs_on_reachable)
    as (st' & Hw & Hq & _).
  exists st'. split; [exact Hw|]. rewrite Hq. vm_compute. reflexivity.
Defined.

Lemma step_hits_no_assertion_witness :
  (exists st',
     step (state_of three_logged_on) 20
       (EvInput 3%nat [text_msg EmptyString "HELLO"] true) = Ok st') /\
  (exists st',
     poll_conn (state_of three_logged_on) 20 3%nat
       (Some ([[text_msg EmptyString "HELLO"]], InputAgain))
       (Some SendFatalError) = Ok st') /\
  poll_conn (state_of three_logged_on) 20 3%nat
    (Some ([[text_msg EmptyString "HELLO"]], InputUndecodable []))
    (Some (SendOk 5)) = Abort BadPointer /\
  poll_conn (state_of three_logged_on) 20 3%nat
    (Some ([], InputClosed)) None = Abort BadPointer.
Proof.
  destruct (step_hits_no_assertion line_encode_nonempty line_encode_fits_int
              line_sizeof_range (state_of three_logged_on) 20
              three_logged_on_reachable) as [Hstep Hpoll].
  { apply logons_named_check. vm_compute. reflexivity. }
  assert (Hlive : is_Some (conns (state_of three_logged_on) !! 3%nat)).
  { destruct (conns (state_of three_logged_on) !! 3%nat) as [c|] eqn:Hc;
      [by eexists|vm_compute in Hc; discriminate Hc]. }
  split; [|split; [|split]].
  - destruct (Hstep (EvInput 3%nat [text_msg EmptyString "HELLO"] true))
      as (st' & Hs & _).
    + exact Hlive.
    + simpl. constructor; [discriminate|constructor].
    + by exists st'.
  - destruct (Hpoll 3%nat
                (Some ([[text_msg EmptyString "HELLO"]], InputAgain))
                (Some SendFatalError) Hlive) as (st' & Hs & _).
    + simpl. constructor; [discriminate|constructor].
    + by exists st'.
  - apply (Hpoll 3%nat
             (Some ([[text_msg EmptyString "HELLO"]], InputUndecodable []))
             (Some (SendOk 5)) Hlive).
    simpl. constructor; [discriminate|constructor].
  - apply (Hpoll 3%nat (Some ([], InputClosed)) None Hlive).
    simpl. constructor.
Defined.

Lemma outbuf_is_a_queue_witness :
  exists st1 st2 st3 c c1 c2 more,
    step (state_of three_logged_on) 20
      (EvInput 3%nat [text_msg EmptyString "HELLO"] true) = Ok st1 /\
    conns (state_of three_logged_on) !! 1%nat = Some c /\
    conns st1 !! 1%nat = Some c1 /\
    outbuf_text c1 = String.append (outbuf_text c) more /\
    step st1 21 (EvOutput 1%nat (SendOk 5)) = Ok st2 /\
    conns st2 !! 1%nat = Some c2 /\
    outbuf_text c1 =
      String.append (substring 0 5 (outbuf_text c1)) (outbuf_text c2) /\
    step st2 22 (EvOutput 1%nat SendFatalError) = Ok st3 /\
    conns st3 !! 1%nat = None.
Proof.
  destruct (step (state_of three_logged_on) 20
              (EvInput 3%nat [text_msg EmptyString "HELLO"] true))
    as [st1|f] eqn:Hs1; [|vm_compute in Hs1; discriminate Hs1].
  destruct (conns (state_of three_logged_on) !! 1%nat) as [c|] eqn:Hc;
    [|vm_compute in Hc; discriminate Hc].
  destruct (outbuf_is_a_queue (state_of three_logged_on) 20
              (EvInput 3%nat [text_msg EmptyString "HELLO"] true) st1 1%nat c
              Hs1 Hc) as [Hgrow _].
  destruct Hgrow as [(c1 & more & Hc1 & Ht)|[_ [Hcl|(msgs & Hin)]]];
    [discriminate| | |]; try discriminate.
  destruct (step st1 21 (EvOutput 1%nat (SendOk 5))) as [st2|f] eqn:Hs2;
    [|vm_compute in Hs1; injection Hs1 as <-; vm_compute in Hs2;
      discriminate Hs2].
  destruct (outbuf_is_a_queue st1 21 (EvOutput 1%nat (SendOk 5)) st2 1%nat c1
              Hs2 Hc1) as (_ & Hsent & _).
  destruct (Hsent 5 eq_refl) as (c2 & Hc2 & _ & Ht2 & _).
  destruct (step st2 22 (EvOutput 1%nat SendFatalError)) as [st3|f] eqn:Hs3;
    [|vm_compute in Hs1; injection Hs1 as <-;
      vm_compute in Hs2; injection Hs2 as <-;
      vm_compute in Hs3; discriminate Hs3].
  destruct (outbuf_is_a_queue st2 22 (EvOutput 1%nat SendFatalError) st3
              1%nat c2 Hs3 Hc2) as (_ & _ & _ & Hfatal).
  destruct (Hfatal eq_refl) as [_ Hgone].
  exists st1, st2, st3, c, c1, c2, more.
  split; [reflexivity|]. split; [reflexivity|]. split; [exact Hc1|].
  split; [exact Ht|]. split; [exact Hs2|]. split; [exact Hc2|].
  split; [exact Ht2|]. split; [exact Hs3|exact Hgone].
Defined.

Lemma close_conn_unregisters_witness :
  exists st',
    close_conn (state_of three_logged_on) 2%nat = Ok st' /\
    conns st' !! 2%nat = None.
Proof.
  destruct (conns (state_of three_logged_on) !! 2%nat) as [c|] eqn:Hc;
    [|vm_compute in Hc; discriminate Hc].
  destruct (close_conn_unregisters (state_of three_logged_on) 2%nat c
              three_logged_on_reachable Hc) as [_ Hok].
  destruct Hok as (st' & Hclose & Heq & _).
  - intros _. vm_compute in Hc. injection Hc as <-. reflexivity.
  - exists st'. split; [exact Hclose|]. rewrite Heq. apply lookup_delete_eq.
Defined.

Lemma logon_registers_witness :
  exists st',
    process_logon_msg (state_of three_logged_on) 3%nat
      (logon "N456" "ATC1") = Ok (st', true) /\
    listed st' "N456" 3%nat /\ ~ listed st' "N123" 3%nat.
Proof.
  destruct (conns (state_of three_logged_on) !! 3%nat) as [c|] eqn:Hc;
    [|vm_compute in Hc; discriminate Hc].
  destruct (logon_registers line_encode_nonempty line_encode_fits_int
              (state_of three_logged_on) 3%nat c (logon "N456" "ATC1")
              three_logged_on_reachable Hc)
    as (st' & Hp & _ & Hl & _).
  - intros _. vm_compute in Hc. injection Hc as <-. reflexivity.
  - reflexivity.
  - exists st'. split; [exact Hp|]. split.
    + by apply Hl.
    + intros Hn. apply Hl in Hn. discriminate Hn.
Defined.

Lemma callsigns_are_cut_to_fit_witness :
  Forall (fun q => (String.length (q_from q) <= 15)%nat /\
                   (String.length (q_to q) <= 15)%nat)
         (queued_msgs (state_of queued_for_absent)).
Proof.
  exact (proj1 (proj2 (callsigns_are_cut_to_fit (state_of queued_for_absent)
                         queued_for_absent_reachable))).
Defined.

End Runs.

End CpdlcdFacts.


(** * Properties of the trees *)

Module CpdlcdTreesFacts.
Import Cpdlc Cpdlcd CpdlcdTrees.

Lemma sign_of_zero c : sign_of c = 0 <-> c = Eq.
Proof. destruct c; simpl; split; intros; congruence || lia. Qed.

Lemma sign_of_opp c : sign_of (CompOpp c) = - sign_of c.
Proof. by destruct c. Qed.

(** *** [memcmp] *)

Lemma memcmp_refl a n : memcmp a a n = Eq.
Proof.
  revert a. induction n as [|n IH]; intros [|x a]; simpl; try done.
  by rewrite Z.compare_refl.
Qed.

Lemma memcmp_antisym a b n : memcmp b a n = CompOpp (memcmp a b n).
Proof.
  revert a b. induction n as [|n IH]; intros [|x a] [|y b]; simpl; try done.
  rewrite (Z.compare_antisym x y). destruct (x ?= y); simpl; [apply IH|done..].
Qed.

Lemma memcmp_Eq a b n :
  (n <= length a)%nat -> (n <= length b)%nat ->
  memcmp a b n = Eq <-> take n a = take n b.
Proof.
  revert a b. induction n as [|n IH]; intros a b Ha Hb; [by destruct a, b|].
  destruct a as [|x a]; [simpl in Ha; lia|].
  destruct b as [|y b]; [simpl in Hb; lia|].
  simpl in *. destruct (Z.compare_spec x y) as [->|Hlt|Hgt].
  - rewrite IH by lia. split; [by intros ->|by intros [= ?]].
  - split; [done|]. intros [= ? _]. lia.
  - split; [done|]. intros [= ? _]. lia.
Qed.

Lemma memcmp_trans a b c n r :
  (n <= length a)%nat -> (n <= length b)%nat -> (n <= length c)%nat ->
  memcmp a b n = r -> memcmp b c n = r -> memcmp a c n = r.
Proof.
  revert a b c. induction n as [|n IH]; intros a b c Ha Hb Hc Hab Hbc;
    [by destruct a, b, c|].
  destruct a as [|x a]; [simpl in Ha; lia|].
  destruct b as [|y b]; [simpl in Hb; lia|].
  destruct c as [|z c]; [simpl in Hc; lia|].
  simpl in *.
  destruct (Z.compare_spec x y) as [->|Hxy|Hxy].
  - destruct (Z.compare_spec y z) as [->|Hyz|Hyz]; try done.
    apply (IH a b c); by (lia || done).
  - subst r. destruct (Z.compare_spec y z) as [->|Hyz|Hyz]; try done.
    + by apply Z.compare_lt_iff in Hxy as ->.
    + assert (Hxz : x < z) by lia. by apply Z.compare_lt_iff in Hxz as ->.
  - subst r. destruct (Z.compare_spec y z) as [->|Hyz|Hyz]; try done.
    + by apply Z.compare_gt_iff in Hxy as ->.
    + assert (Hxz : z < x) by lia. by apply Z.compare_gt_iff in Hxz as ->.
Qed.

Lemma memcmp_Eq_l a b c n :
  (n <= length a)%nat -> (n <= length b)%nat ->
  memcmp a b n = Eq -> memcmp a c n = memcmp b c n.
Proof.
  intros Ha Hb Hab. apply memcmp_Eq in Hab; [|done..].
  revert a b c Ha Hb Hab. induction n as [|n IH]; intros a b c Ha Hb Hab;
    [by destruct a, b, c|].
  destruct a as [|x a]; [simpl in Ha; lia|].
  destruct b as [|y b]; [simpl in Hb; lia|].
  simpl in *. injection Hab as -> Hab. destruct c as [|z c]; [done|].
  destruct (y ?= z); try done. apply IH; by (lia || done).
Qed.

Lemma memcmp_Eq_r a b c n :
  (n <= length b)%nat -> (n <= length c)%nat ->
  memcmp b c n = Eq -> memcmp a b n = memcmp a c n.
Proof.
  intros Hb Hc Hbc.
  rewrite (memcmp_antisym b a), (memcmp_antisym c a). f_equal.
  by apply memcmp_Eq_l.
Qed.

(** *** [strcmp] *)

Lemma strcmp_refl a : strcmp a a = Eq.
Proof. induction a as [|x a IH]; simpl; [done|]. by rewrite Nat.compare_refl. Qed.

Lemma strcmp_antisym a b : strcmp b a = CompOpp (strcmp a b).
Proof.
  revert b. induction a as [|x a IH]; intros [|y b]; simpl; try done.
  rewrite (Nat.compare_antisym (nat_of_ascii x) (nat_of_ascii y)).
  destruct (nat_of_ascii x ?= nat_of_ascii y)%nat; simpl; [apply IH|done..].
Qed.

Lemma nat_of_ascii_inj x y : nat_of_ascii x = nat_of_ascii y -> x = y.
Proof.
  intros Heq. rewrite <- (ascii_nat_embedding x), <- (ascii_nat_embedding y).
  by rewrite Heq.
Qed.

Lemma strcmp_Eq a b : strcmp a b = Eq <-> a = b.
Proof.
  split; [|intros ->; apply strcmp_refl].
  revert b. induction a as [|x a IH]; intros [|y b]; simpl; try done.
  destruct (Nat.compare_spec (nat_of_ascii x) (nat_of_ascii y)) as [Hxy| |];
    try done.
  intros Hab. apply nat_of_ascii_inj in Hxy as ->. by rewrite (IH b Hab).
Qed.

Lemma strcmp_trans a b c r :
  strcmp a b = r -> strcmp b c = r -> strcmp a c = r.
Proof.
  revert b c. induction a as [|x a IH]; intros [|y b] [|z c]; simpl;
    try congruence.
  destruct (Nat.compare_spec (nat_of_ascii x) (nat_of_ascii y)) as [Hxy|Hxy|Hxy].
  - rewrite Hxy. destruct (nat_of_ascii y ?= nat_of_ascii z)%nat; try done.
    apply IH.
  - intros <-.
    destruct (Nat.compare_spec (nat_of_ascii y) (nat_of_ascii z))
      as [Hyz|Hyz|Hyz]; try done.
    + rewrite <- Hyz. by apply Nat.compare_lt_iff in Hxy as ->.
    + assert (Hxz : (nat_of_ascii x < nat_of_ascii z)%nat) by lia.
      by apply Nat.compare_lt_iff in Hxz as ->.
  - intros <-.
    destruct (Nat.compare_spec (nat_of_ascii y) (nat_of_ascii z))
      as [Hyz|Hyz|Hyz]; try done.
    + rewrite <- Hyz. by apply Nat.compare_gt_iff in Hxy as ->.
    + assert (Hxz : (nat_of_ascii z < nat_of_ascii x)%nat) by lia.
      by apply Nat.compare_gt_iff in Hxz as ->.
Qed.

Lemma atc_compar_zero a b : atc_compar a b = 0 <-> a = b.
Proof. unfold atc_compar. by rewrite sign_of_zero, strcmp_Eq. Qed.

(** *** The comparators *)

Lemma conn_compar_zero ca cb :
  (sizeof_socklen_t <= length (addr ca))%nat ->
  (sizeof_socklen_t <= length (addr cb))%nat ->
  conn_compar ca cb = 0 <->
  addr_len ca = addr_len cb /\
  take sizeof_socklen_t (addr ca) = take sizeof_socklen_t (addr cb).
Proof.
  intros Ha Hb. unfold conn_compar.
  destruct (Z.ltb_spec (addr_len ca) (addr_len cb)); [split; [done|lia]|].
  destruct (Z.ltb_spec (addr_len cb) (addr_len ca)); [split; [done|lia]|].
  rewrite sign_of_zero, memcmp_Eq by done. split; [|by intros [_ ?]].
  intros ?. split; [lia|done].
Qed.

Lemma avl_find_None {A : Type} (compar : A -> A -> Z) tree x :
  avl_find compar tree x = None <-> Forall (fun y => compar x y <> 0) tree.
Proof.
  unfold avl_find. induction tree as [|y tree IH]; simpl.
  - split; [constructor|done].
  - destruct (Z.eqb_spec (compar x y) 0) as [Heq|Hne].
    + split; [done|]. intros Hall. inversion Hall; subst. done.
    + rewrite IH. split; [by constructor|]. intros Hall. by inversion Hall.
Qed.

(** X24. Two addresses are the same connection to the daemon when they
    agree in their length and in their first [sizeof (socklen_t)] = 4
    bytes: [conn_compar] hands [memcmp] the size of the length field,
    not the length, so the bytes behind the fourth are never looked at.
    A connection that [accept] returns and the blocklist allows is
    refused as a duplicate exactly when the tree holds a connection
    that agrees with it in this way, and is entered otherwise;
    [listen_sock_compar] compares listening sockets in the same way. *)
Theorem duplicate_is_decided_by_four_bytes conns new :
  Forall (fun c => (4 <= length (addr c))%nat) (new :: conns) ->
  (forall old, old ∈ conns ->
     (conn_compar new old = 0 <->
      addr_len new = addr_len old /\ take 4 (addr new) = take 4 (addr old)) /\
     listen_sock_compar new old = conn_compar new old) /\
  ((exists old, old ∈ conns /\ addr_len new = addr_len old /\
                take 4 (addr new) = take 4 (addr old)) ->
   handle_accepts_one conns new true = conns) /\
  ((forall old, old ∈ conns ->
      ~ (addr_len new = addr_len old /\
         take 4 (addr new) = take 4 (addr old))) ->
   handle_accepts_one conns new true = new :: conns).
Proof.
  intros Hlen. inversion Hlen as [|? ? Hnew Hconns]; subst.
  rewrite Forall_forall in Hconns.
  assert (Hzero : forall old, old ∈ conns ->
            conn_compar new old = 0 <->
            addr_len new = addr_len old /\
            take 4 (addr new) = take 4 (addr old)).
  { intros old Hin. apply conn_compar_zero; [done|by apply Hconns]. }
  split; [|split].
  - intros old Hin. split; [by apply Hzero|done].
  - intros (old & Hin & Hsame). unfold handle_accepts_one. simpl.
    destruct (avl_find conn_compar conns new) as [c|] eqn:Hf; [done|].
    apply avl_find_None in Hf. rewrite Forall_forall in Hf.
    destruct (Hf old Hin). by apply Hzero.
  - intros Hnone. unfold handle_accepts_one. simpl.
    assert (Hf : avl_find conn_compar conns new = None).
    { apply avl_find_None, Forall_forall. intros old Hin Hz.
      apply (Hnone old Hin). by apply Hzero. }
    by rewrite Hf.
Qed.

Lemma sign_of_le c : sign_of c <= 0 <-> c <> Gt.
Proof. destruct c; simpl; split; intros; congruence || lia. Qed.

Lemma memcmp_le_trans a b c n :
  (n <= length a)%nat -> (n <= length b)%nat -> (n <= length c)%nat ->
  memcmp a b n <> Gt -> memcmp b c n <> Gt -> memcmp a c n <> Gt.
Proof.
  intros Ha Hb Hc Hab Hbc.
  destruct (memcmp a b n) eqn:Eab; [| |done].
  - by rewrite (memcmp_Eq_l a b c n).
  - destruct (memcmp b c n) eqn:Ebc; [| |done].
    + by rewrite <- (memcmp_Eq_r a b c n), Eab.
    + by rewrite (memcmp_trans a b c n Lt).
Qed.

Lemma strcmp_le_trans a b c :
  strcmp a b <> Gt -> strcmp b c <> Gt -> strcmp a c <> Gt.
Proof.
  intros Hab Hbc.
  destruct (strcmp a b) eqn:Eab; [| |done].
  - apply strcmp_Eq in Eab as ->. done.
  - destruct (strcmp b c) eqn:Ebc; [| |done].
    + apply strcmp_Eq in Ebc as <-. by rewrite Eab.
    + by rewrite (strcmp_trans a b c Lt).
Qed.

(** X25. The comparators order their trees. [conn_compar] (and with it
    [listen_sock_compar]) and [atc_compar] return -1, 0 or 1, find
    every node equal to itself, return opposite results for swapped
    arguments and are transitive, which is what the AVL trees rely on;
    and [atc_compar] finds two callsigns equal only when they are the
    same string. *)
Theorem comparators_are_orders a b c :
  Forall (fun x => (4 <= length (addr x))%nat) [a; b; c] ->
  (conn_compar a a = 0 /\
   conn_compar b a = - conn_compar a b /\
   (conn_compar a b <= 0 -> conn_compar b c <= 0 -> conn_compar a c <= 0) /\
   -1 <= conn_compar a b <= 1) /\
  (forall x y z : string,
     atc_compar x x = 0 /\
     atc_compar y x = - atc_compar x y /\
     (atc_compar x y <= 0 -> atc_compar y z <= 0 -> atc_compar x z <= 0) /\
     -1 <= atc_compar x y <= 1 /\
     (atc_compar x y = 0 <-> x = y)).
Proof.
  intros Hlen.
  apply Forall_cons in Hlen as [Ha Hlen].
  apply Forall_cons in Hlen as [Hb Hlen].
  apply Forall_cons in Hlen as [Hc _].
  split.
  - split; [|split; [|split]].
    + unfold conn_compar. rewrite Z.ltb_irrefl. by rewrite memcmp_refl.
    + unfold conn_compar.
      destruct (Z.ltb_spec (addr_len a) (addr_len b)),
               (Z.ltb_spec (addr_len b) (addr_len a)); try lia.
      by rewrite memcmp_antisym, sign_of_opp.
    + unfold conn_compar.
      destruct (Z.ltb_spec (addr_len a) (addr_len b)),
               (Z.ltb_spec (addr_len b) (addr_len a)),
               (Z.ltb_spec (addr_len b) (addr_len c)),
               (Z.ltb_spec (addr_len c) (addr_len b)),
               (Z.ltb_spec (addr_len a) (addr_len c)),
               (Z.ltb_spec (addr_len c) (addr_len a)); try lia.
      rewrite !sign_of_le. by apply memcmp_le_trans.
    + unfold conn_compar.
      destruct (addr_len a <? addr_len b); [lia|].
      destruct (addr_len b <? addr_len a); [lia|].
      destruct (memcmp _ _ _); simpl; lia.
  - intros x y z. unfold atc_compar. split; [|split; [|split; [|split]]].
    + by rewrite strcmp_refl.
    + by rewrite strcmp_antisym, sign_of_opp.
    + rewrite !sign_of_le. apply strcmp_le_trans.
    + destruct (strcmp x y); simpl; lia.
    + apply atc_compar_zero.
Qed.

(** *** The ATC names *)

Lemma add_atc_eq atcs callsign :
  add_atc atcs callsign =
  if bool_decide (lacf_strlcpy callsign CALLSIGN_LEN ∈ atcs)
  then (atcs, false)
  else (lacf_strlcpy callsign CALLSIGN_LEN :: atcs, true).
Proof.
  unfold add_atc. cbv zeta.
  destruct (avl_find atc_compar atcs (lacf_strlcpy callsign CALLSIGN_LEN))
    as [old|] eqn:Hf.
  - rewrite bool_decide_eq_true_2; [done|].
    unfold avl_find in Hf. apply find_some in Hf as [Hin Hz].
    apply Z.eqb_eq, atc_compar_zero in Hz as ->.
    by apply list_elem_of_In.
  - rewrite bool_decide_eq_false_2; [done|].
    apply avl_find_None in Hf. rewrite Forall_forall in Hf.
    intros Hin. apply (Hf _ Hin). by apply atc_compar_zero.
Qed.

Lemma add_atcs_spec atcs callsigns :
  NoDup atcs ->
  let cut := map (fun c => lacf_strlcpy c CALLSIGN_LEN) callsigns in
  (snd (add_atcs atcs callsigns) = true <-> NoDup (rev cut ++ atcs)) /\
  (snd (add_atcs atcs callsigns) = true ->
   fst (add_atcs atcs callsigns) = rev cut ++ atcs) /\
  NoDup (fst (add_atcs atcs callsigns)) /\
  (exists done_, fst (add_atcs atcs callsigns) = done_ ++ atcs).
Proof.
  revert atcs. induction callsigns as [|c rest IH]; intros atcs Hnd; simpl.
  - split; [done|]. split; [done|]. split; [done|]. by exists [].
  - rewrite add_atc_eq.
    destruct (bool_decide_reflect (lacf_strlcpy c CALLSIGN_LEN ∈ atcs))
      as [Hin|Hnin]; simpl.
    + split; [|split; [done|split; [done|by exists []]]].
      split; [done|]. intros Hnd'. exfalso.
      rewrite <- app_assoc in Hnd'. apply NoDup_app in Hnd' as (_ & _ & Hnd').
      simpl in Hnd'. apply NoDup_cons in Hnd' as [Hn _]. done.
    + assert (Hnd1 : NoDup (lacf_strlcpy c CALLSIGN_LEN :: atcs))
        by (by apply NoDup_cons).
      destruct (IH _ Hnd1) as (Hiff & Heq & Hnd2 & done_ & Hext).
      rewrite <- !app_assoc. simpl. split; [done|]. split; [done|].
      split; [done|]. exists (done_ ++ [lacf_strlcpy c CALLSIGN_LEN]).
      by rewrite <- app_assoc.
Qed.

(** X26. ATC names are told apart by their first 15 characters. A run
    of [add_atc] calls on the empty tree succeeds to its end exactly
    when no two of the callsigns agree on their first
    [CALLSIGN_LEN - 1] characters; the tree then holds the callsigns cut
    to that length, the last one added first. The first callsign that
    agrees with an earlier one makes [add_atc] return false and leaves
    the tree as it was; in every case the tree holds no callsign
    twice. *)
Theorem atc_names_differ_in_15_characters callsigns :
  (snd (add_atcs [] callsigns) = true <->
   NoDup (map (fun c => lacf_strlcpy c CALLSIGN_LEN) callsigns)) /\
  (snd (add_atcs [] callsigns) = true ->
   fst (add_atcs [] callsigns)
     = rev (map (fun c => lacf_strlcpy c CALLSIGN_LEN) callsigns)) /\
  NoDup (fst (add_atcs [] callsigns)) /\
  (forall atcs c,
     lacf_strlcpy c CALLSIGN_LEN ∈ atcs -> add_atc atcs c = (atcs, false)).
Proof.
  destruct (add_atcs_spec [] callsigns (NoDup_nil_2)) as (Hiff & Heq & Hnd & _).
  rewrite app_nil_r in Hiff, Heq. split; [|split; [|split]].
  - rewrite Hiff. by rewrite <- Permutation_rev.
  - exact Heq.
  - exact Hnd.
  - intros atcs c Hin. rewrite add_atc_eq. by rewrite bool_decide_eq_true_2.
Qed.

Lemma duplicate_is_decided_by_four_bytes_witness :
  handle_accepts_one
    [{| addr := [2; 0; 68; 214; 10; 0; 0; 1]; addr_len := 16 |}]
    {| addr := [2; 0; 68; 214; 192; 168; 1; 7]; addr_len := 16 |} true
  = [{| addr := [2; 0; 68; 214; 10; 0; 0; 1]; addr_len := 16 |}].
Proof.
  apply (duplicate_is_decided_by_four_bytes
           [{| addr := [2; 0; 68; 214; 10; 0; 0; 1]; addr_len := 16 |}]
           {| addr := [2; 0; 68; 214; 192; 168; 1; 7]; addr_len := 16 |}).
  - repeat constructor; simpl; lia.
  - eexists. split; [apply list_elem_of_here|]. split; reflexivity.
Defined.

Lemma atc_names_differ_in_15_characters_witness :
  snd (add_atcs [] ["SAN FRANCISCO RADIO 1"; "SAN FRANCISCO RADIO 2"]%string)
    = false.
Proof.
  destruct (atc_names_differ_in_15_characters
              ["SAN FRANCISCO RADIO 1"; "SAN FRANCISCO RADIO 2"]%string)
    as (Hiff & _).
  destruct (snd (add_atcs []
                   ["SAN FRANCISCO RADIO 1"; "SAN FRANCISCO RADIO 2"]%string));
    [|reflexivity].
  apply proj1 in Hiff. specialize (Hiff eq_refl).
  apply NoDup_cons in Hiff as [Hnin _]. destruct Hnin. vm_compute. left.
Defined.

Lemma comparators_are_orders_witness :
  conn_compar {| addr := [2; 0; 68; 214]; addr_len := 16 |}
              {| addr := [2; 0; 68; 215]; addr_len := 16 |} = -1 /\
  conn_compar {| addr := [2; 0; 68; 215]; addr_len := 16 |}
              {| addr := [2; 0; 68; 214]; addr_len := 16 |} = 1.
Proof.
  destruct (comparators_are_orders
              {| addr := [2; 0; 68; 214]; addr_len := 16 |}
              {| addr := [2; 0; 68; 215]; addr_len := 16 |}
              {| addr := [2; 0; 68; 214]; addr_len := 16 |})
    as ((_ & Hopp & _) & _).
  - repeat constructor; simpl; lia.
  - split; [reflexivity|]. rewrite Hopp. reflexivity.
Defined.

End CpdlcdTreesFacts.

(** * Properties of the timed wait *)

Module ThreadFacts.
Import Thread.

(** X27. The time [cv_timedwait] waits until is the one it was given.
    For every [uint64_t] [limit], in microseconds, the [struct timespec]
    handed to [pthread_cond_timedwait] is normalised ([tv_nsec] is from
    0 to 999999999), denotes [limit] exactly
    ([tv_sec * 10^9 + tv_nsec = limit * 1000]), and neither cast wraps:
    the seconds are not negative. *)
Theorem cv_timedwait_ts_is_exact limit :
  0 <= limit < 2 ^ 64 ->
  tv_sec (cv_timedwait_ts limit) * 1000000000 + tv_nsec (cv_timedwait_ts limit)
    = limit * 1000 /\
  0 <= tv_nsec (cv_timedwait_ts limit) < 1000000000 /\
  0 <= tv_sec (cv_timedwait_ts limit) /\
  tv_sec (cv_timedwait_ts limit) = limit / 1000000 /\
  tv_nsec (cv_timedwait_ts limit) = (limit mod 1000000) * 1000.
Proof.
  intros Hlim. unfold cv_timedwait_ts, to_int64. simpl.
  change (2 ^ 63) with 9223372036854775808 in *.
  change (2 ^ 64) with 18446744073709551616 in *.
  assert (Hs : 0 <= limit / 1000000 < 18446744073710).
  { split; [apply Z.div_pos; lia|]. apply Z.div_lt_upper_bound; lia. }
  assert (Hm : 0 <= limit mod 1000000 < 1000000) by (apply Z.mod_pos_bound; lia).
  rewrite (Z.mod_small ((limit mod 1000000) * 1000)) by lia.
  rewrite !(Z.mod_small (_ + 9223372036854775808)) by lia.
  pose proof (Z.div_mod limit 1000000 ltac:(lia)) as Hdm.
  repeat split; lia.
Qed.

Lemma cv_timedwait_ts_is_exact_witness :
  tv_sec (cv_timedwait_ts 1700000000123456) = 1700000000 /\
  tv_nsec (cv_timedwait_ts 1700000000123456) = 123456000.
Proof.
  destruct (cv_timedwait_ts_is_exact 1700000000123456) as (_ & _ & _ & Hs & Hn).
  - lia.
  - rewrite Hs, Hn. split; reflexivity.
Defined.

End ThreadFacts.


(** * Properties of the input of a connection *)

Module CpdlcdInputFacts.
Import Cpdlc Cpdlcd CpdlcdFacts CpdlcdInput.

(** ** Strings *)

Lemma string_length_app s1 s2 :
  String.length (String.append s1 s2)
  = (String.length s1 + String.length s2)%nat.
Proof.
  induction s1 as [|a s1 IH]; [done|]. rewrite append_cons. simpl.
  by rewrite IH.
Qed.

Lemma string_drop_0 s : string_drop 0 s = s.
Proof. unfold string_drop. apply substring_all. lia. Qed.

Lemma string_drop_cons n a s :
  string_drop (S n) (String a s) = string_drop n s.
Proof. reflexivity. Qed.

Lemma string_drop_length n s :
  String.length (string_drop n s) = (String.length s - n)%nat.
Proof.
  revert n. induction s as [|a s IH]; intros [|n]; try done.
  - by rewrite string_drop_0.
  - rewrite string_drop_cons, IH. reflexivity.
Qed.

Lemma string_drop_drop a b s :
  string_drop b (string_drop a s) = string_drop (a + b) s.
Proof.
  revert a. induction s as [|c s IH]; intros [|a].
  - by rewrite string_drop_0.
  - by destruct b.
  - by rewrite string_drop_0.
  - rewrite string_drop_cons. change (S a + b)%nat with (S (a + b)).
    rewrite string_drop_cons. apply IH.
Qed.

Lemma string_drop_suffix n s :
  (n <= String.length s)%nat ->
  s = String.append (substring 0 n s) (string_drop n s).
Proof. intros Hn. symmetry. by apply substring_split. Qed.

Lemma plain_text_app s1 s2 :
  plain_text (String.append s1 s2) = plain_text s1 && plain_text s2.
Proof.
  unfold plain_text. induction s1 as [|a s1 IH]; [done|].
  rewrite append_cons. simpl. rewrite IH. by rewrite andb_assoc.
Qed.

Lemma plain_text_drop n s :
  plain_text s = true -> plain_text (string_drop n s) = true.
Proof.
  revert n. induction s as [|a s IH]; intros [|n] Hs; try done.
  - by rewrite string_drop_0.
  - rewrite string_drop_cons. apply IH. unfold plain_text in *. simpl in Hs.
    by apply andb_true_iff in Hs as [_ ?].
Qed.

Section Facts.
Context `{Codec} `{Catalog} `{Decoder}.

Implicit Types (st : daemon) (id : nat) (now : Z) (c : conn_input).

(** ** The in-buffer stays plain and bounded *)

(** The offset the loop ends on is within the in-buffer. *)
Lemma conn_process_input_loop_total fuel st now id inbuf total st' total' :
  conn_process_input_loop fuel st now id inbuf total = Some (Ok (st', Some total')) ->
  0 <= total' <= strlen inbuf.
Proof.
  revert st total. induction fuel as [|fuel IH]; intros st total Hl;
    [discriminate|].
  simpl in Hl.
  destruct ((0 <=? total) && (total <=? strlen inbuf)) eqn:Hrange;
    simpl in Hl; [|discriminate].
  apply andb_true_iff in Hrange as [?%Z.leb_le ?%Z.leb_le].
  destruct (cpdlc_msg_decode _) as [[[msg|] consumed]|]; try discriminate.
  - destruct (consumed =? 0); [discriminate|].
    destruct (conn_process_msg st now id msg) as [st1|f]; [|discriminate].
    by eapply IH.
  - injection Hl as <- <-. lia.
Qed.

Lemma conn_process_input_buf_suffix fuel st now id inbuf st' inbuf' :
  conn_process_input_buf fuel st now id inbuf = Some (Ok (st', Some inbuf')) ->
  exists n, inbuf' = string_drop n inbuf.
Proof.
  unfold conn_process_input_buf. intros Hp.
  destruct (strlen inbuf =? 0); [discriminate|].
  destruct (conn_process_input_loop fuel st now id inbuf 0)
    as [[[st1 [total|]]|f]|]; try discriminate.
  destruct (total =? 0).
  - injection Hp as <- <-. exists 0%nat. by rewrite string_drop_0.
  - destruct (total <=? strlen inbuf); [|discriminate].
    injection Hp as <- <-. by eexists.
Qed.

Lemma strlen_drop n s : strlen (string_drop n s) <= strlen s.
Proof. unfold strlen. rewrite string_drop_length. lia. Qed.

Lemma handle_conn_input_turn_inv fuel st now id c hs r st' c' :
  plain_text (inbuf c) = true ->
  strlen (inbuf c) <= MAX_BUF_SZ ->
  (handle_conn_input_turn fuel st now id c hs r = Some (Ok (st', TurnReturn c')) \/
   handle_conn_input_turn fuel st now id c hs r = Some (Ok (st', TurnAgain c'))) ->
  plain_text (inbuf c') = true /\ strlen (inbuf c') <= MAX_BUF_SZ.
Proof.
  intros Hplain Hlen Ht. unfold handle_conn_input_turn in Ht.
  destruct (conn_at st id) as [conn|f]; [|by destruct Ht].
  cbv zeta in Ht.
  assert (Hclose : forall st0 t,
            close_and_fail st0 id = Some (Ok (st', t)) -> t = TurnClosed).
  { intros st0 t Hc. unfold close_and_fail in Hc.
    destruct (close_conn st0 id); simpl in Hc; [|discriminate].
    by injection Hc as _ <-. }
  assert (Hno : forall st0,
            ~ (close_and_fail st0 id = Some (Ok (st', TurnReturn c')) \/
               close_and_fail st0 id = Some (Ok (st', TurnAgain c')))).
  { intros st0 [Hc|Hc]; by apply Hclose in Hc. }
  destruct (if tls_handshake_complete c then Some true else _) as [[|]|];
    [| |by destruct (Hno st)].
  - destruct r as [| | |buf].
    + destruct Ht as [Ht|Ht]; [|discriminate]. by injection Ht as _ <-.
    + destruct Ht as [Ht|Ht]; [discriminate|]. by injection Ht as _ <-.
    + by destruct (Hno st).
    + simpl inbuf in Ht.
      destruct (strlen buf =? 0); [by destruct (Hno st)|].
      destruct (plain_text buf) eqn:Hbuf; simpl in Ht;
        [|by destruct (Hno st)].
      destruct (Z.ltb_spec
                  (if nonempty (c_from conn) then MAX_BUF_SZ
                   else MAX_BUF_SZ_NO_LOGON)
                  (strlen (inbuf c) + strlen buf)) as [|Hfit];
        [by destruct (Hno st)|].
      destruct (conn_process_input_buf fuel st now id
                  (String.append (inbuf c) buf))
        as [[[st1 [inbuf'|]]|f]|] eqn:Hp;
        try (by destruct Ht); [|by destruct (Hno st1)].
      destruct Ht as [Ht|Ht]; [discriminate|]. injection Ht as _ <-. simpl.
      apply conn_process_input_buf_suffix in Hp as [n ->]. split.
      * apply plain_text_drop. rewrite plain_text_app. by rewrite Hplain, Hbuf.
      * etransitivity; [apply strlen_drop|]. unfold strlen in *.
        rewrite string_length_app.
        assert (MAX_BUF_SZ_NO_LOGON <= MAX_BUF_SZ) by done.
        destruct (nonempty (c_from conn)); lia.
  - destruct Ht as [Ht|Ht]; [|discriminate]. by injection Ht as _ <-.
Qed.

(** X28. The in-buffer of a connection holds plain text and at most
    [MAX_BUF_SZ] bytes. Over every sequence of handshake and read
    results, when [handle_conn_input] leaves the connection open, its
    in-buffer, if it held only bytes from 1 to 127 and at most 8192 of
    them before, does so afterwards: bytes that are 0 or above 127, and
    bytes that would take the buffer over the limit, are never
    stored. *)
Theorem inbuf_stays_plain_and_bounded fuel st now id c reads st' c' :
  plain_text (inbuf c) = true ->
  strlen (inbuf c) <= MAX_BUF_SZ ->
  (handle_conn_input_reads fuel st now id c reads
     = Some (Ok (st', TurnReturn c')) \/
   handle_conn_input_reads fuel st now id c reads
     = Some (Ok (st', TurnAgain c'))) ->
  plain_text (inbuf c') = true /\ strlen (inbuf c') <= MAX_BUF_SZ.
Proof.
  revert st c. induction reads as [|[hs r] reads IH];
    intros st c Hplain Hlen Hr; simpl in Hr.
  - destruct Hr as [Hr|Hr]; [discriminate|]. by injection Hr as _ <-.
  - destruct (handle_conn_input_turn fuel st now id c hs r)
      as [[[st1 [|c1|c1]]|f]|] eqn:Ht; try (by destruct Hr).
    + destruct Hr as [Hr|Hr]; [|discriminate]. injection Hr as _ <-.
      eapply handle_conn_input_turn_inv; [exact Hplain|exact Hlen|].
      by left.
    + destruct (handle_conn_input_turn_inv fuel st now id c hs r st1 c1)
        as [Hplain1 Hlen1]; [done|done|by right|].
      by eapply IH.
Qed.

(** ** Bytes and messages *)

Hypothesis decoder_progress :
  forall text msg consumed,
    cpdlc_msg_decode text = Some (Some msg, consumed) ->
    0 < consumed <= strlen text.

Lemma decode_all_rest fuel text msgs rest :
  decode_all fuel text = (msgs, Some rest) ->
  exists n, (n <= String.length text)%nat /\ rest = string_drop n text.
Proof using decoder_progress.
  revert text msgs. induction fuel as [|fuel IH]; intros text msgs Hd;
    simpl in Hd.
  - injection Hd as <- <-. exists 0%nat. split; [lia|].
    by rewrite string_drop_0.
  - destruct (cpdlc_msg_decode text) as [[[msg|] consumed]|] eqn:Hdec;
      try discriminate.
    + destruct (decode_all fuel _) as [msgs1 rest1] eqn:Hd1.
      injection Hd as <- ->.
      apply decoder_progress in Hdec. unfold strlen in Hdec.
      apply IH in Hd1 as (n & Hn & ->). rewrite string_drop_length in Hn.
      exists (Z.to_nat consumed + n)%nat. split; [lia|].
      apply string_drop_drop.
    + injection Hd as <- <-. exists 0%nat. split; [lia|].
      by rewrite string_drop_0.
Qed.

Lemma conn_process_input_loop_eq fuel st now id inbuf (k : nat) :
  (k <= String.length inbuf)%nat ->
  (String.length inbuf - k < fuel)%nat ->
  strlen inbuf <= 2147483647 ->
  conn_process_input_loop fuel st now id inbuf (Z.of_nat k) =
  Some (do (st', _) <- conn_process_input st now id
                         (fst (decode_all fuel (string_drop k inbuf)))
                         true;
        Ok (st', (fun rest => strlen inbuf - strlen rest)
                   <$> snd (decode_all fuel (string_drop k inbuf)))).
Proof using decoder_progress.
  revert st k. induction fuel as [|fuel IH]; intros st k Hk Hfuel Hint;
    [lia|].
  cbn [conn_process_input_loop decode_all].
  assert (Hrange : (0 <=? Z.of_nat k) && (Z.of_nat k <=? strlen inbuf) = true).
  { apply andb_true_iff. split; apply Z.leb_le; unfold strlen; lia. }
  rewrite Hrange. cbn [negb]. rewrite Nat2Z.id.
  destruct (cpdlc_msg_decode (string_drop k inbuf))
    as [[[msg|] consumed]|] eqn:Hdec.
  - pose proof (decoder_progress _ _ _ Hdec) as Hprog.
    unfold strlen in Hprog. rewrite string_drop_length in Hprog.
    replace (consumed =? 0) with false by (symmetry; apply Z.eqb_neq; lia).
    destruct (decode_all fuel (string_drop (Z.to_nat consumed)
                                 (string_drop k inbuf)))
      as [msgs rest] eqn:Hd.
    cbn [fst snd conn_process_input].
    destruct (conn_process_msg st now id msg) as [st1|f]; [|done].
    cbn [rbind].
    assert (Hto : to_int (Z.of_nat k + consumed)
                  = Z.of_nat (k + Z.to_nat consumed)).
    { unfold to_int, strlen in *. rewrite Z.mod_small; lia. }
    rewrite Hto, IH by (lia || done).
    rewrite string_drop_drop in Hd. by rewrite Hd.
  - cbn [fst snd conn_process_input rbind fmap option_fmap option_map].
    do 4 f_equal. unfold strlen. rewrite string_drop_length. lia.
  - reflexivity.
Qed.

Lemma conn_process_input_flag st now id msgs decoded :
  conn_process_input st now id msgs decoded =
  do (st', _) <- conn_process_input st now id msgs true; Ok (st', decoded).
Proof.
  revert st. induction msgs as [|msg msgs IH]; intros st; simpl; [done|].
  destruct (conn_process_msg st now id msg) as [st1|f]; [|done].
  cbn [rbind]. apply IH.
Qed.

(** X29. The bytes of a connection are handled message by message. With
    a decoder that takes at least one byte and no more than it was given
    for every message it returns, and fuel above the length of the
    in-buffer, a read of plain bytes that fit the in-buffer is handled
    to its end, and as [handle_conn_input] of the routing core handles
    the messages that are complete in the in-buffer followed by the
    bytes read: each message is processed in its turn, the bytes behind
    the last complete message are kept for the next read, and a
    malformed message closes the connection after the messages before
    it were processed. *)
Theorem input_is_handled_message_by_message fuel st now id c conn hs buf :
  conns st !! id = Some conn ->
  (tls_handshake_complete c = false -> hs = HandshakeSuccess) ->
  0 < strlen buf ->
  plain_text buf = true ->
  strlen (inbuf c) + strlen buf
    <= (if nonempty (c_from conn) then MAX_BUF_SZ else MAX_BUF_SZ_NO_LOGON) ->
  (String.length (inbuf c) + String.length buf < fuel)%nat ->
  handle_conn_input_turn fuel st now id c hs (RecvData buf) =
  Some (do (st', ok) <-
          handle_conn_input st now id
            (fst (decode_all fuel (String.append (inbuf c) buf)))
            (bool_decide
               (is_Some (snd (decode_all fuel (String.append (inbuf c) buf)))));
        Ok (st',
            match snd (decode_all fuel (String.append (inbuf c) buf)) with
            | Some rest =>
                TurnAgain {| tls_handshake_complete := true; inbuf := rest |}
            | None => TurnClosed
            end)).
Proof using decoder_progress.
  intros Hc Hhs Hpos Hplain Hfit Hfuel.
  unfold handle_conn_input_turn, conn_at. rewrite Hc. cbv zeta.
  assert (Hafter : (if tls_handshake_complete c then Some true
                    else match hs with
                         | HandshakeSuccess => Some true
                         | HandshakeAgain => Some false
                         | HandshakeError => None
                         end) = Some true).
  { destruct (tls_handshake_complete c); [done|]. by rewrite Hhs. }
  rewrite Hafter. cbn [inbuf].
  replace (strlen buf =? 0) with false by (symmetry; apply Z.eqb_neq; lia).
  rewrite Hplain. cbn [negb].
  replace (_ <? strlen (inbuf c) + strlen buf) with false
    by (symmetry; apply Z.ltb_ge; lia).
  set (text := String.append (inbuf c) buf) in *.
  assert (Hlen : String.length text
                 = (String.length (inbuf c) + String.length buf)%nat)
    by apply string_length_app.
  assert (Hmax : strlen text <= 8192).
  { unfold strlen in *. rewrite Hlen.
    assert (MAX_BUF_SZ = 8192) by done.
    assert (MAX_BUF_SZ_NO_LOGON = 128) by done.
    destruct (nonempty (c_from conn)); lia. }
  unfold conn_process_input_buf.
  replace (strlen text =? 0) with false
    by (symmetry; apply Z.eqb_neq; unfold strlen in *; lia).
  pose proof (conn_process_input_loop_eq fuel st now id text 0) as Hloop.
  change (Z.of_nat 0) with 0 in Hloop. rewrite Hloop by lia. clear Hloop.
  rewrite string_drop_0. unfold handle_conn_input.
  destruct (decode_all fuel text) as [msgs rest] eqn:Hd. cbn [fst snd].
  rewrite (conn_process_input_flag st now id msgs (bool_decide _)).
  destruct (conn_process_input st now id msgs true) as [[st1 ok]|f]; [|done].
  cbn [rbind]. destruct rest as [rest|].
  - rewrite bool_decide_eq_true_2 by (by eexists). cbn [negb fmap option_fmap
      option_map rbind].
    apply decode_all_rest in Hd as (n & Hn & ->).
    unfold strlen. rewrite string_drop_length.
    destruct (Z.eqb_spec (Z.of_nat (String.length text)
                          - Z.of_nat (String.length text - n)) 0) as [Hz|Hz].
    + assert (n = 0%nat) as -> by lia. by rewrite string_drop_0.
    + replace (_ <=? _) with true by (symmetry; apply Z.leb_le; lia).
      do 6 f_equal. lia.
  - rewrite bool_decide_eq_false_2 by (by intros [? ?]).
    cbn [negb fmap option_fmap option_map rbind]. unfold close_and_fail.
    by destruct (close_conn st1 id).
Qed.

End Facts.

(** ** The properties on runs of the input *)

Section Runs.
#[local] Existing Instance line_codec.
#[local] Existing Instance plain_catalog.
#[local] Existing Instance line_decoder.

Lemma line_end_range s n :
  line_end s = Some n -> (0 < n <= String.length s)%nat.
Proof.
  revert n. induction s as [|a s IH]; intros n Hn; simpl in Hn; [done|].
  destruct (nat_of_ascii a =? 10)%nat.
  - injection Hn as <-. simpl. lia.
  - destruct (line_end s) as [m|]; [|done]. injection Hn as <-.
    specialize (IH m eq_refl). simpl. lia.
Qed.

Lemma line_decode_progress text msg consumed :
  cpdlc_msg_decode text = Some (Some msg, consumed) ->
  0 < consumed <= strlen text.
Proof.
  simpl. unfold line_decode. intros Hd.
  destruct (line_end text) as [n|] eqn:Hn; [|discriminate].
  apply line_end_range in Hn. unfold strlen.
  destruct text as [|a text]; [simpl in Hn; lia|].
  assert (Hc : consumed = Z.of_nat n).
  { destruct a as [[] [] [] [] [] [] [] []]; try discriminate;
      by injection Hd as _ <-. }
  lia.
Qed.

Lemma inbuf_stays_plain_and_bounded_witness :
  exists st' c',
    handle_conn_input_reads 20 (state_of three_logged_on) 30 3%nat
      fresh_input two_reads = Some (Ok (st', TurnReturn c')) /\
    plain_text (inbuf c') = true /\ strlen (inbuf c') <= MAX_BUF_SZ.
Proof.
  destruct (handle_conn_input_reads 20 (state_of three_logged_on) 30 3%nat
              fresh_input two_reads) as [[[st' [|c'|c']]|f]|] eqn:Hr;
    try (vm_compute in Hr; discriminate Hr).
  exists st', c'. split; [reflexivity|].
  apply (inbuf_stays_plain_and_bounded 20 (state_of three_logged_on) 30 3%nat
           fresh_input two_reads st' c').
  - reflexivity.
  - vm_compute. discriminate.
  - left. exact Hr.
Defined.

Lemma input_is_handled_message_by_message_witness :
  match handle_conn_input_turn 20 (state_of three_logged_on) 30 3%nat
          {| tls_handshake_complete := true; inbuf := "HEL" |}
          HandshakeSuccess
          (RecvData (String.append "LO" (String (ascii_of_nat 10) "WOR")))
  with
  | Some (Ok (_, TurnAgain c')) => inbuf c' = "WOR"%string
  | _ => False
  end.
Proof.
  destruct (conns (state_of three_logged_on) !! 3%nat) as [conn|] eqn:Hc;
    [|vm_compute in Hc; discriminate Hc].
  rewrite (input_is_handled_message_by_message line_decode_progress 20
             (state_of three_logged_on) 30 3%nat
             {| tls_handshake_complete := true; inbuf := "HEL" |} conn
             HandshakeSuccess
             (String.append "LO" (String (ascii_of_nat 10) "WOR")) Hc).
  - vm_compute. reflexivity.
  - discriminate.
  - reflexivity.
  - reflexivity.
  - vm_compute in Hc. injection Hc as <-. vm_compute. discriminate.
  - vm_compute. lia.
Defined.

End Runs.

End CpdlcdInputFacts.

